(** * AssignmentSync: a shallow embedding of [sync-assignments.mjs]

    The development follows the script stage by stage: JavaScript values
    and strings, the token check, the refresh policy of [run], the roster
    cache and [normalizeAssignment], [applyFilters], the exporters,
    [uploadToNotion] with its rate limiter, and [updateState]. Around it
    stand the helpers of the script (the teacher name, the CSV text, the
    summary, the correlation id) and the two scripts it works with: the
    retry loop of [auto-sync.mjs] and the [.env] update of
    [simple-edge-extractor.mjs].

    What the host platform provides (JSON and base64 decoding, [Date],
    number formatting, the spreadsheet library) is kept behind the [Host]
    interface; what the
    network and the clock answer is kept behind explicit oracles. *)

From Stdlib Require Import ZArith QArith Lia Ascii String DecimalString.
From Stdlib Require DecimalZ.
From stdpp Require Import base tactics option list gmap strings.

Local Open Scope string_scope.
Local Open Scope list_scope.
Local Open Scope Z_scope.
Local Set Warnings "-register-all".

Definition is_Some_bool {A : Type} (o : option A) : bool :=
  match o with Some _ => true | None => false end.

(** ** JavaScript strings

    A string is a sequence of code units. The model keeps the code units
    below 256; this is where the characters the script looks at live
    (the brackets of a tag, the dot of a token, the equals sign of a flag,
    the white space below U+0100 that [trim] removes). *)

Module JsString.

Definition is_lt (c : ascii) : bool := Ascii.eqb c "<".
Definition is_gt (c : ascii) : bool := Ascii.eqb c ">".

(** White space and line terminators of ECMAScript below U+0100:
    TAB, LF, VT, FF, CR, SP and NBSP. *)
Definition is_space (c : ascii) : bool :=
  let n := nat_of_ascii c in
  ((9 <=? n)%nat && (n <=? 13)%nat) || (n =? 32)%nat || (n =? 160)%nat.

Fixpoint has_gt (s : string) : bool :=
  match s with
  | EmptyString => false
  | String c s' => is_gt c || has_gt s'
  end.

(** [s.replace(/<[^>]*>/g, '')]: scanning from the left, an opening
    bracket that is followed somewhere by a closing one starts a match
    which runs up to the first closing bracket; the match is dropped and
    the scan resumes behind it. *)
Fixpoint strip_tags (s : string) : string :=
  match s with
  | EmptyString => EmptyString
  | String c s' =>
      if is_lt c
      then if has_gt s' then skip_tag s' else String c (strip_tags s')
      else String c (strip_tags s')
  end
with skip_tag (s : string) : string :=
  match s with
  | EmptyString => EmptyString
  | String c s' => if is_gt c then strip_tags s' else skip_tag s'
  end.

(** [/<[^>]*>/.test(s)]: some opening bracket has a closing one behind it. *)
Fixpoint has_tag (s : string) : bool :=
  match s with
  | EmptyString => false
  | String c s' => (is_lt c && has_gt s') || has_tag s'
  end.

Fixpoint trim_start (s : string) : string :=
  match s with
  | EmptyString => EmptyString
  | String c s' => if is_space c then trim_start s' else s
  end.

Fixpoint trim_end (s : string) : string :=
  match s with
  | EmptyString => EmptyString
  | String c s' =>
      match trim_end s' with
      | EmptyString => if is_space c then EmptyString else String c EmptyString
      | r => String c r
      end
  end.

(** [s.trim()] *)
Definition trim (s : string) : string := trim_end (trim_start s).

(** [s.substring(0, n)] *)
Fixpoint substring0 (n : nat) (s : string) : string :=
  match n, s with
  | O, _ => EmptyString
  | _, EmptyString => EmptyString
  | S n', String c s' => String c (substring0 n' s')
  end.

(** [s.split(sep)] for a one-character separator. *)
Fixpoint split_on (sep : ascii) (s : string) : list string :=
  match s with
  | EmptyString => [EmptyString]
  | String c s' =>
      if Ascii.eqb c sep then EmptyString :: split_on sep s'
      else match split_on sep s' with
           | h :: t => String c h :: t
           | [] => [String c EmptyString]
           end
  end.

(** [s.startsWith(p)] *)
Definition startsWith (s p : string) : bool := String.prefix p s.

Fixpoint repeat_char (c : ascii) (n : nat) : string :=
  match n with
  | O => EmptyString
  | S n' => String c (repeat_char c n')
  end.

(** The instructions pipeline of the normalizer:
    [content.replace(/<[^>]*>/g, '').trim()]. *)
Definition plain_text (content : string) : string := trim (strip_tags content).

End JsString.

Import JsString.

(** ** JavaScript values

    The records the script handles come out of [response.json()] and
    [JSON.parse]: they are JSON values, and the script reads them with
    property access, truthiness tests and the coercions [String], [Number]
    and [Boolean]. A number is a double: not-a-number, an infinity, or a
    rational; the script only tests numbers against zero and compares them,
    which is exact on the rationals. *)

Inductive jsnum : Type :=
| NaN
| NegInf
| Fin (q : Q)
| PosInf.

Inductive jsval : Type :=
| JUndefined
| JNull
| JBool (b : bool)
| JNum (n : jsnum)
| JStr (s : string)
| JArr (items : list jsval)
| JObj (fields : list (string * jsval)).

Module Js.

Definition num_of_Z (z : Z) : jsnum := Fin (inject_Z z).

Definition num_truthy (n : jsnum) : bool :=
  match n with
  | NaN => false
  | Fin q => negb (Qeq_bool q 0)
  | NegInf | PosInf => true
  end.

(** [a < b] on numbers; any comparison with not-a-number is false. *)
Definition num_lt (a b : jsnum) : bool :=
  match a, b with
  | NaN, _ | _, NaN => false
  | _, NegInf => false
  | NegInf, _ => true
  | PosInf, _ => false
  | Fin _, PosInf => true
  | Fin x, Fin y => negb (Qle_bool y x)
  end.

(** [ToBoolean], the test behind [if (v)], [!v], [a && b], [a || b]. *)
Definition truthy (v : jsval) : bool :=
  match v with
  | JUndefined | JNull => false
  | JBool b => b
  | JNum n => num_truthy n
  | JStr s => negb (String.eqb s "")
  | JArr _ | JObj _ => true
  end.

(** [a || b] *)
Definition or (a b : jsval) : jsval := if truthy a then a else b.

(** An object is read front to back: the first binding of a key is the
    one the object holds. *)
Fixpoint field (k : string) (fs : list (string * jsval)) : jsval :=
  match fs with
  | [] => JUndefined
  | (k', v) :: fs' => if String.eqb k k' then v else field k fs'
  end.

(** [v.k]: a TypeError ([None]) on [null] and [undefined]; on the other
    values that are not objects the names the script reads (none of them
    a built-in property) are undefined. *)
Definition get (v : jsval) (k : string) : option jsval :=
  match v with
  | JUndefined | JNull => None
  | JObj fs => Some (field k fs)
  | _ => Some JUndefined
  end.

(** [v?.k] *)
Definition get_opt (v : jsval) (k : string) : jsval :=
  match get v k with
  | Some x => x
  | None => JUndefined
  end.

Definition is_string (v : jsval) : bool :=
  match v with JStr _ => true | _ => false end.

(** [a === b] against a string literal. *)
Definition strict_eq_str (v : jsval) (s : string) : bool :=
  match v with JStr t => String.eqb t s | _ => false end.

(** SameValueZero, the key comparison of [Map]. Arrays and objects are
    compared by identity; two values that come out of two different
    responses are never the same object. *)
Definition same_value_zero (a b : jsval) : bool :=
  match a, b with
  | JUndefined, JUndefined | JNull, JNull => true
  | JBool x, JBool y => Bool.eqb x y
  | JNum NaN, JNum NaN | JNum NegInf, JNum NegInf | JNum PosInf, JNum PosInf => true
  | JNum (Fin x), JNum (Fin y) => Qeq_bool x y
  | JStr x, JStr y => String.eqb x y
  | _, _ => false
  end.

End Js.

(** ** The host platform

    Library functions of Node that the script calls and that are not part
    of the repository. *)

Class Host : Type := {
  (** the text of a number *)
  host_number_text : jsnum -> string;
  (** the number that a text stands for *)
  host_text_number : string -> jsnum;
  (** the text of an array or of an object; [None] is the TypeError of a
      value that has no primitive value (an object with a member named
      toString has none) *)
  host_to_string : jsval -> option string;
  (** [new Date(v).getTime()], [None] for an invalid date *)
  host_date_value : jsval -> option Z;
  (** [toISOString()] of a valid time value *)
  host_date_iso : Z -> string;
  (** [getFullYear()] of a valid time value *)
  host_year : Z -> Z;
  (** [toLocaleDateString('en-US', { month: 'short' }).toLowerCase()] *)
  host_month : Z -> string;
  (** [JSON.parse(Buffer.from(part, 'base64').toString())], [None] when it
      throws *)
  host_decode_claims : string -> option jsval;
  (** [XLSX.writeFile] of the book whose one sheet is
      [XLSX.utils.aoa_to_sheet(rows)], for rows whose texts the library
      takes: [false] when the library throws *)
  host_write_sheet : list (list jsval) -> bool
}.

Section Coercions.
Context `{Host}.

(** [String(v)]; [None] when the conversion throws. *)
Definition js_String (v : jsval) : option string :=
  match v with
  | JUndefined => Some "undefined"
  | JNull => Some "null"
  | JBool b => Some (if b then "true" else "false")
  | JNum n => Some (host_number_text n)
  | JStr s => Some s
  | JArr _ | JObj _ => host_to_string v
  end.

(** [Number(v)]; [None] when the conversion throws. *)
Definition js_Number (v : jsval) : option jsnum :=
  match v with
  | JUndefined => Some NaN
  | JNull => Some (Js.num_of_Z 0)
  | JBool b => Some (Js.num_of_Z (if b then 1 else 0))
  | JNum n => Some n
  | JStr s => Some (host_text_number s)
  | JArr _ | JObj _ => host_text_number <$> host_to_string v
  end.

(** [Boolean(v)] *)
Definition js_Boolean (v : jsval) : bool := Js.truthy v.

(** [a > n] for a number [n] on the right: both sides are compared as
    numbers; [None] when the conversion of [a] throws. *)
Definition js_gt_num (a : jsval) (n : jsnum) : option bool :=
  Js.num_lt n <$> js_Number a.

(** [parseIsoOrNull(s)]: the time value of the date, [None] for [null]. *)
Definition parseIsoOrNull (s : jsval) : option Z :=
  if Js.truthy s then host_date_value s else None.

(** [iso(s)] *)
Definition iso (s : jsval) : string :=
  if Js.truthy s
  then match parseIsoOrNull s with
       | Some t => host_date_iso t
       | None => ""
       end
  else "".

End Coercions.

(** ** Process environment and the [.env] file *)

Abbreviation environ := (gmap string string).

Module Env.

(** [process.env[k]] read as a condition *)
Definition truthy (e : environ) (k : string) : bool :=
  match e !! k with
  | Some v => negb (String.eqb v "")
  | None => false
  end.

(** [process.env[k] === v] *)
Definition equals (e : environ) (k v : string) : bool :=
  match e !! k with
  | Some x => String.eqb x v
  | None => false
  end.

Definition quote : ascii := ascii_of_nat 34.
Definition newline : ascii := ascii_of_nat 10.
Definition carriage_return : ascii := ascii_of_nat 13.

(** Splits a line at its first equals sign. *)
Fixpoint split_first_eq (s : string) : option (string * string) :=
  match s with
  | EmptyString => None
  | String c s' =>
      if Ascii.eqb c "=" then Some (EmptyString, s')
      else match split_first_eq s' with
           | Some (k, v) => Some (String c k, v)
           | None => None
           end
  end.

(** The dot of a regular expression stops at a line terminator. *)
Fixpoint single_line (s : string) : bool :=
  match s with
  | EmptyString => true
  | String c s' =>
      negb (Ascii.eqb c newline) && negb (Ascii.eqb c carriage_return)
      && single_line s'
  end.

Fixpoint drop_closing_quote (s : string) : string :=
  match s with
  | EmptyString => EmptyString
  | String c EmptyString => if Ascii.eqb c quote then EmptyString else s
  | String c s' => String c (drop_closing_quote s')
  end.

(** The value with one opening and one closing quote removed. *)
Definition unquote (v : string) : string :=
  match v with
  | EmptyString => EmptyString
  | String c v' => if Ascii.eqb c quote then drop_closing_quote v' else drop_closing_quote v
  end.

(** One line of [.env]: a non-empty key, an equals sign, the value. *)
Definition parse_line (line : string) : option (string * string) :=
  match split_first_eq line with
  | Some (k, v) =>
      if String.eqb k "" then None
      else if single_line v then Some (k, unquote v) else None
  | None => None
  end.

(** [loadEnv(override)]; [file] is the content of [.env], [None] when the
    file does not exist. *)
Definition loadEnv (override : bool) (file : option string) (e : environ) : environ :=
  match file with
  | None => e
  | Some content =>
      foldl (fun acc line =>
               match parse_line line with
               | Some (k, v) =>
                   if override || negb (truthy acc k) then <[k := v]> acc else acc
               | None => acc
               end)
            e (split_on newline content)
  end.

End Env.

(** ** Command line *)

Record args : Type := {
  dueBefore : option string;
  dueAfter : option string;
  statuses : list string;
  classIds : list string;
  incomplete : bool;
  overdue : bool;
  incremental : bool;
  full : bool;
  details : option string;
  refreshTokens : bool
}.

Definition default_args : args :=
  {| dueBefore := None; dueAfter := None; statuses := []; classIds := [];
     incomplete := false; overdue := false; incremental := false; full := false;
     details := None; refreshTokens := false |}.

(** What [parseArgs] does with the process: it returns the flags, or ends
    the process (help: status 0, a date that does not parse: status 1). *)
Inductive parsed : Type :=
| Parsed (a : args)
| Exited (code : Z).

Section CommandLine.
Context `{Host}.

(** [arg.split('=')[1]] of an argument that holds an equals sign *)
Definition flag_value (arg : string) : string :=
  nth 1 (split_on "=" arg) "".

(** One turn of the loop over [argv]. *)
Definition parse_flag (a : args) (arg : string) : args :=
  if startsWith arg "--due-before=" then
    {| dueBefore := Some (flag_value arg); dueAfter := dueAfter a; statuses := statuses a;
       classIds := classIds a; incomplete := incomplete a; overdue := overdue a;
       incremental := incremental a; full := full a; details := details a;
       refreshTokens := refreshTokens a |}
  else if startsWith arg "--due-after=" then
    {| dueBefore := dueBefore a; dueAfter := Some (flag_value arg); statuses := statuses a;
       classIds := classIds a; incomplete := incomplete a; overdue := overdue a;
       incremental := incremental a; full := full a; details := details a;
       refreshTokens := refreshTokens a |}
  else if startsWith arg "--status=" then
    {| dueBefore := dueBefore a; dueAfter := dueAfter a;
       statuses := statuses a ++ [flag_value arg];
       classIds := classIds a; incomplete := incomplete a; overdue := overdue a;
       incremental := incremental a; full := full a; details := details a;
       refreshTokens := refreshTokens a |}
  else if startsWith arg "--class-id=" then
    {| dueBefore := dueBefore a; dueAfter := dueAfter a; statuses := statuses a;
       classIds := classIds a ++ [flag_value arg];
       incomplete := incomplete a; overdue := overdue a;
       incremental := incremental a; full := full a; details := details a;
       refreshTokens := refreshTokens a |}
  else if String.eqb arg "--incomplete" then
    {| dueBefore := dueBefore a; dueAfter := dueAfter a; statuses := statuses a;
       classIds := classIds a; incomplete := true; overdue := overdue a;
       incremental := incremental a; full := full a; details := details a;
       refreshTokens := refreshTokens a |}
  else if String.eqb arg "--overdue" then
    {| dueBefore := dueBefore a; dueAfter := dueAfter a; statuses := statuses a;
       classIds := classIds a; incomplete := incomplete a; overdue := true;
       incremental := incremental a; full := full a; details := details a;
       refreshTokens := refreshTokens a |}
  else if String.eqb arg "--incremental" then
    {| dueBefore := dueBefore a; dueAfter := dueAfter a; statuses := statuses a;
       classIds := classIds a; incomplete := incomplete a; overdue := overdue a;
       incremental := true; full := full a; details := details a;
       refreshTokens := refreshTokens a |}
  else if String.eqb arg "--full" then
    {| dueBefore := dueBefore a; dueAfter := dueAfter a; statuses := statuses a;
       classIds := classIds a; incomplete := incomplete a; overdue := overdue a;
       incremental := incremental a; full := true; details := details a;
       refreshTokens := refreshTokens a |}
  else if startsWith arg "--details=" then
    {| dueBefore := dueBefore a; dueAfter := dueAfter a; statuses := statuses a;
       classIds := classIds a; incomplete := incomplete a; overdue := overdue a;
       incremental := incremental a; full := full a; details := Some (flag_value arg);
       refreshTokens := refreshTokens a |}
  else if String.eqb arg "--refresh-tokens" then
    {| dueBefore := dueBefore a; dueAfter := dueAfter a; statuses := statuses a;
       classIds := classIds a; incomplete := incomplete a; overdue := overdue a;
       incremental := incremental a; full := full a; details := details a;
       refreshTokens := true |}
  else a.

(** The default of the mode: full when neither mode flag was given. *)
Definition default_mode (a : args) : args :=
  if negb (incremental a) && negb (full a) then
    {| dueBefore := dueBefore a; dueAfter := dueAfter a; statuses := statuses a;
       classIds := classIds a; incomplete := incomplete a; overdue := overdue a;
       incremental := incremental a; full := true; details := details a;
       refreshTokens := refreshTokens a |}
  else a.

(** A command-line string read as a condition: set and not empty. *)
Definition given (o : option string) : bool :=
  match o with
  | Some s => negb (String.eqb s "")
  | None => false
  end.

(** [args.dueBefore && !parseIsoOrNull(args.dueBefore)] *)
Definition bad_date (o : option string) : bool :=
  match o with
  | Some s => given o && negb (is_Some_bool (parseIsoOrNull (JStr s)))
  | None => false
  end.

Definition parseArgs (argv : list string) : parsed :=
  if bool_decide ("--help" ∈ argv) || bool_decide ("-h" ∈ argv) then Exited 0
  else
    let a := default_mode (foldl parse_flag default_args argv) in
    if bad_date (dueBefore a) then Exited 1
    else if bad_date (dueAfter a) then Exited 1
    else Parsed a.

End CommandLine.

(** ** Records of the pipeline *)

(** The canonical assignment built by [normalizeAssignment]. The fields
    that go through [String], [Boolean], [Number], [iso] or [trim] have the
    type the coercion gives them; the two teacher fields are whatever the
    roster entry holds. *)
Module Item.
Record t : Type := mk {
  id : string;
  title : string;
  description : string;
  dueDate : string;
  assignedDate : string;
  createdDate : string;
  modifiedDate : string;
  status : string;
  classId : string;
  teacherName : jsval;
  teacherEmail : jsval;
  studentCount : nat;
  webUrl : string;
  allTurnedIn : bool;
  anySubmittedState : bool;
  allowLateSubmissions : bool;
  agg_total : jsnum;
  agg_submitted : jsnum
}.
End Item.

(** A roster entry and the roster of one class. [byId] is a [Map] in
    insertion order. *)
Module Person.
Record t : Type := mk {
  id : jsval;
  displayName : jsval;
  email : jsval;
  role : jsval
}.
End Person.

Record members : Type := {
  teachers : list Person.t;
  students : list Person.t;
  byId : list (jsval * Person.t)
}.

Definition empty_members : members :=
  {| teachers := []; students := []; byId := [] |}.

(** [state.json] *)
Record state : Type := {
  lastRun : option string;
  seenIds : list string
}.

(** One entry of [notion_payload.json], and the body of one create call:
    the properties that are computed; the others copy fields of [source]. *)
Record notion_entry : Type := {
  external_id : string;
  notes : string;
  assigned_start : option string;
  created_start : option string;
  due_start : option string;
  modified_start : option string;
  source : Item.t
}.

(** What the script does to the world outside, in the order it does it. *)
Inductive event : Type :=
| LaunchExtractor
| ReloadEnv
| FetchAssignments (page : nat)
| FetchMembers (classId : string)
| FetchDetail (classId : string) (assignmentId : jsval)
| FetchDetails (classId : string) (assignmentId : string)
| WriteDetails (path : string) (assignment : jsval)
| WriteJson (path : string) (items : list Item.t)
| WriteXlsx (path : string) (items : list Item.t)
| WriteCsv (path : string) (items : list Item.t)
| WriteNotionPayload (entries : list notion_entry)
| QueryNotion
| CreatePage (at_time : Z) (entry : notion_entry)
| SaveState (st : state)
| Exit (code : Z).

(** ** Credential check and refresh *)

(** How the extractor subprocess ends: its [close] event with the exit
    code ([None] when a signal ended it), or the [error] event. *)
Inductive extractor_end : Type :=
| Closed (code : option Z)
| SpawnFailed.

(** What a refresh meets: the end of the subprocess, the [.env] file it
    leaves behind and the wall clock (in milliseconds) afterwards. *)
Record refresh_world : Type := {
  extractor : extractor_end;
  dotenv_after : option string;
  clock_after : Z
}.

Section Credential.
Context `{Host}.

(** [validateToken(token)] at wall-clock time [now_ms]. *)
Definition validateToken (token : option string) (now_ms : Z) : bool :=
  match token with
  | None => false
  | Some t =>
      if String.eqb t "" then false
      else
        let parts := split_on "." t in
        if negb (length parts =? 3)%nat then false
        else
          match host_decode_claims (nth 1 parts "") with
          | None => false
          | Some payload =>
              let now := Js.num_of_Z (now_ms / 1000) in
              match Js.get payload "exp" with
              | None => false
              | Some exp =>
                  if Js.truthy exp
                  then match js_gt_num exp now with
                       | Some later => later
                       | None => false
                       end
                  else false
              end
          end
  end.

(** [refreshTokensIfNeeded()]: the events, the answer, the environment
    afterwards. *)
Definition refreshTokensIfNeeded (w : refresh_world) (now_ms : Z) (e : environ)
  : list event * bool * environ :=
  let token := e !! "AUI_TOKEN" in
  if negb (Env.truthy e "AUI_TOKEN") || negb (validateToken token now_ms) then
    match extractor w with
    | Closed (Some 0) =>
        let e' := Env.loadEnv true (dotenv_after w) e in
        ([LaunchExtractor; ReloadEnv], validateToken (e' !! "AUI_TOKEN") (clock_after w), e')
    | _ => ([LaunchExtractor], false, e)
    end
  else ([], true, e).

Definition isCi (e : environ) : bool :=
  Env.equals e "CI" "true" || Env.equals e "GITHUB_ACTIONS" "true".

Definition autoRefreshDisabled (e : environ) : bool :=
  Env.equals e "AUI_AUTO_REFRESH" "0".

Definition shouldAutoRefresh (a : args) (e : environ) : bool :=
  refreshTokens a || (negb (isCi e) && negb (autoRefreshDisabled e)).

(** The first block of [run]: the events, and the environment to go on
    with ([None] after [process.exit(1)]). *)
Definition ensureCredential (a : args) (w : refresh_world) (now_ms : Z) (e : environ)
  : list event * option environ :=
  if shouldAutoRefresh a e then
    let '(evs, refreshed, e') := refreshTokensIfNeeded w now_ms e in
    if refreshed then (evs, Some e') else (evs ++ [Exit 1], None)
  else
    if validateToken (e !! "AUI_TOKEN") now_ms then ([], Some e)
    else ([Exit 1], None).

End Credential.

(** ** The session of one run: roster cache and network

    [normalizeAssignment] reads and fills [this.classMembers] and talks to
    the network; it may end with an exception. A computation of the session
    takes the session, gives its outcome and the session afterwards. The
    network answers the n-th request of the run; [None] stands for a
    request that fails (a rejected fetch, a status that is not 200, a body
    that is not JSON). *)

Record network : Type := {
  members_response : nat -> string -> option jsval;
  detail_response : nat -> string -> jsval -> option jsval;
  details_response : string -> string -> option jsval
}.

Record session : Type := {
  classMembers : gmap string members;
  issued : list event
}.

Definition new_session : session := {| classMembers := ∅; issued := [] |}.

(** How a computation ends: with a value, with an exception, with the end
    of the process ([process.exit]), or not yet (a loop that the answers of
    the network keep going has used up its fuel). *)
Inductive outcome (A : Type) : Type :=
| Returned (a : A)
| Threw
| Ended
| Pending.
Arguments Returned {A} a.
Arguments Threw {A}.
Arguments Ended {A}.
Arguments Pending {A}.

Definition Sync (A : Type) : Type := session -> outcome A * session.

Definition ret {A : Type} (a : A) : Sync A := fun s => (Returned a, s).

Definition throw {A : Type} : Sync A := fun s => (Threw, s).

Definition pending {A : Type} : Sync A := fun s => (Pending, s).

Definition bind {A B : Type} (c : Sync A) (k : A -> Sync B) : Sync B :=
  fun s =>
    match c s with
    | (Returned a, s') => k a s'
    | (Threw, s') => (Threw, s')
    | (Ended, s') => (Ended, s')
    | (Pending, s') => (Pending, s')
    end.

(** [try { c } catch { h }]: what [c] did to the session stays done; the
    end of the process is not an exception. *)
Definition try_catch {A : Type} (c h : Sync A) : Sync A :=
  fun s =>
    match c s with
    | (Threw, s') => h s'
    | r => r
    end.

Definition emit (e : event) : Sync unit :=
  fun s => (Returned tt, {| classMembers := classMembers s; issued := issued s ++ [e] |}).

(** The process has ended. *)
Definition ended {A : Type} : Sync A := fun s => (Ended, s).

(** [process.exit(code)] *)
Definition exit {A : Type} (code : Z) : Sync A :=
  fun s => (Ended, {| classMembers := classMembers s; issued := issued s ++ [Exit code] |}).

(** The value of a conversion, or its exception. *)
Definition convert {A : Type} (o : option A) : Sync A :=
  match o with
  | Some a => ret a
  | None => throw
  end.

(** A property read that throws on [null] and [undefined]. *)
Definition read (v : jsval) (k : string) : Sync jsval :=
  match Js.get v k with
  | Some x => ret x
  | None => throw
  end.

#[export] Instance sync_ret : MRet Sync := @ret.
#[export] Instance sync_bind : MBind Sync := fun A B k c => bind c k.

(** *** The [byId] map *)

Fixpoint map_get (k : jsval) (m : list (jsval * Person.t)) : option Person.t :=
  match m with
  | [] => None
  | (k', v) :: m' => if Js.same_value_zero k' k then Some v else map_get k m'
  end.

Definition map_has (k : jsval) (m : list (jsval * Person.t)) : bool :=
  is_Some_bool (map_get k m).

Fixpoint map_set (k : jsval) (v : Person.t) (m : list (jsval * Person.t))
  : list (jsval * Person.t) :=
  match m with
  | [] => [(k, v)]
  | (k', v') :: m' =>
      if Js.same_value_zero k' k then (k', v) :: m' else (k', v') :: map_set k v m'
  end.

(** *** [fetchClassMembers] *)

(** The body of the [forEach] over [data.value]; [None] is the TypeError
    of reading a member that is [null]. *)
Definition add_member (acc : members) (member : jsval) : option members :=
  i ← Js.get member "id";
  d ← Js.get member "displayName";
  e ← Js.get member "email";
  r ← Js.get member "role";
  let person := Person.mk i d e r in
  let by_id := map_set i person (byId acc) in
  Some (if Js.strict_eq_str r "teacher" then
          {| teachers := teachers acc ++ [person]; students := students acc; byId := by_id |}
        else if Js.strict_eq_str r "student" then
          {| teachers := teachers acc; students := students acc ++ [person]; byId := by_id |}
        else
          {| teachers := teachers acc; students := students acc; byId := by_id |}).

Fixpoint collect_members (acc : members) (l : list jsval) : option members :=
  match l with
  | [] => Some acc
  | member :: l' => acc' ← add_member acc member; collect_members acc' l'
  end.

(** The roster out of the response body. *)
Definition build_members (data : jsval) : option members :=
  v ← Js.get data "value";
  match v with
  | JArr items => collect_members empty_members items
  | _ => Some empty_members
  end.

Section Normalizer.
Context `{Host}.
Variable net : network.

(** [fetchClassMembers(classId)]: the cached roster if there is one;
    otherwise one request, whose roster (the empty one when anything
    fails) is cached and returned. *)
Definition fetchClassMembers (classId : string) : Sync members :=
  fun s =>
    match classMembers s !! classId with
    | Some m => (Returned m, s)
    | None =>
        let m :=
          match members_response net (length (issued s)) classId with
          | Some data =>
              match build_members data with
              | Some m => m
              | None => empty_members
              end
          | None => empty_members
          end in
        (Returned m,
         {| classMembers := <[classId := m]> (classMembers s);
            issued := issued s ++ [FetchMembers classId] |})
    end.

(** [fetchDetailedAssignment(classId, assignmentId)]: the address is
    built with the text of the id; then the body of an answer that is
    ok, [null] ([None]) otherwise. *)
Definition request_detail (classId : string) (assignmentId : jsval)
  : Sync (option jsval) :=
  fun s =>
    (Returned (detail_response net (length (issued s)) classId assignmentId),
     {| classMembers := classMembers s;
        issued := issued s ++ [FetchDetail classId assignmentId] |}).

Definition fetchDetailedAssignment (classId : string) (assignmentId : jsval)
  : Sync (option jsval) :=
  _ ← convert (js_String assignmentId);
  request_detail classId assignmentId.

(** [content.replace(/<[^>]*>/g, '').trim()] on a value that passed the
    truthiness test: only a string has [replace]. *)
Definition content_text (content : jsval) : Sync string :=
  match content with
  | JStr c => ret (plain_text c)
  | _ => throw
  end.

(** [if (r.instructions && r.instructions.content) description = ...]
    for a record [r], starting from [description]. *)
Definition described (r : jsval) (description : string) : Sync string :=
  instructions ← read r "instructions";
  if Js.truthy instructions then
    content ← read instructions "content";
    if Js.truthy content then content_text content else ret description
  else ret description.

(** The teacher found through [createdBy], then the first teacher of the
    roster, and the number of students. *)
Definition resolve_teacher (raw : jsval) (m : members) : Sync (jsval * jsval * nat) :=
  createdBy ← read raw "createdBy";
  let createdByUserId := Js.get_opt (Js.get_opt createdBy "user") "id" in
  let by_creator :=
    if Js.truthy createdByUserId then
      match map_get createdByUserId (byId m) with
      | Some creator =>
          if Js.strict_eq_str (Person.role creator) "teacher"
          then (Js.or (Person.displayName creator) (JStr ""),
                Js.or (Person.email creator) (JStr ""))
          else (JStr "", JStr "")
      | None => (JStr "", JStr "")
      end
    else (JStr "", JStr "") in
  let teacher :=
    if negb (Js.truthy (fst by_creator)) then
      match teachers m with
      | first :: _ =>
          (Js.or (Person.displayName first) (JStr ""),
           Js.or (Person.email first) (JStr ""))
      | [] => by_creator
      end
    else by_creator in
  ret (fst teacher, snd teacher, length (students m)).

(** The block of [normalizeAssignment] that asks the roster: teacher
    name, teacher email, student count. *)
Definition roster_info (raw : jsval) (classId : string) : Sync (jsval * jsval * nat) :=
  try_catch
    (if negb (String.eqb classId "") then
       m ← fetchClassMembers classId;
       resolve_teacher raw m
     else ret (JStr "", JStr "", O))
    (ret (JStr "", JStr "", O)).

(** The two blocks of [normalizeAssignment] that find the description:
    the instructions of the listed record, then, when that gives nothing
    and the class and the id are known, the instructions of the detail.
    The second block starts with a log line that holds the display
    name, and its handler prints a warning that holds the id: each is
    put into a text, which may throw. *)
Definition description_of (raw : jsval) (classId : string) : Sync string :=
  listed ← described raw "";
  rawId ← read raw "id";
  if String.eqb listed "" && negb (String.eqb classId "") && Js.truthy rawId then
    try_catch
      (displayName ← read raw "displayName";
       _ ← convert (js_String displayName);
       detailedAssignment ← fetchDetailedAssignment classId rawId;
       match detailedAssignment with
       | Some detail =>
           if Js.truthy detail then described detail listed else ret listed
       | None => ret listed
       end)
      (_ ← convert (js_String rawId);
       ret listed)
  else ret listed.

(** The record that [normalizeAssignment] returns. *)
Definition canonical (raw submissionAggregates : jsval) (classId : string)
  (teacherName teacherEmail : jsval) (studentCount : nat) (description : string)
  : Sync Item.t :=
  rawId ← read raw "id";
  id ← convert (js_String (Js.or rawId (JStr "")));
  displayName ← read raw "displayName";
  title ← convert (js_String (Js.or displayName (JStr "")));
  dueDateTime ← read raw "dueDateTime";
  assignedDateTime ← read raw "assignedDateTime";
  createdDateTime ← read raw "createdDateTime";
  lastModifiedDateTime ← read raw "lastModifiedDateTime";
  rawStatus ← read raw "status";
  status ← convert (js_String (Js.or rawStatus (JStr "")));
  rawWebUrl ← read raw "webUrl";
  webUrl ← convert (js_String (Js.or rawWebUrl (JStr "")));
  rawAllTurnedIn ← read raw "allTurnedIn";
  rawAnySubmittedState ← read raw "anySubmittedState";
  rawAllowLate ← read raw "allowLateSubmissions";
  total ← read submissionAggregates "total";
  agg_total ← convert (js_Number (Js.or total (JNum (Js.num_of_Z 0))));
  submitted ← read submissionAggregates "submitted";
  agg_submitted ← convert (js_Number (Js.or submitted (JNum (Js.num_of_Z 0))));
  ret {| Item.id := id;
         Item.title := title;
         Item.description := description;
         Item.dueDate := iso dueDateTime;
         Item.assignedDate := iso assignedDateTime;
         Item.createdDate := iso createdDateTime;
         Item.modifiedDate := iso lastModifiedDateTime;
         Item.status := status;
         Item.classId := classId;
         Item.teacherName := teacherName;
         Item.teacherEmail := teacherEmail;
         Item.studentCount := studentCount;
         Item.webUrl := webUrl;
         Item.allTurnedIn := js_Boolean rawAllTurnedIn;
         Item.anySubmittedState := js_Boolean rawAnySubmittedState;
         Item.allowLateSubmissions := js_Boolean rawAllowLate;
         Item.agg_total := agg_total;
         Item.agg_submitted := agg_submitted |}.

(** [normalizeAssignment(raw)] *)
Definition normalizeAssignment (raw : jsval) : Sync Item.t :=
  aggregates ← read raw "submissionAggregates";
  let submissionAggregates := Js.or aggregates (JObj []) in
  rawClassId ← read raw "classId";
  classId ← convert (js_String (Js.or rawClassId (JStr "")));
  '(teacherName, teacherEmail, studentCount) ← roster_info raw classId;
  description ← description_of raw classId;
  canonical raw submissionAggregates classId teacherName teacherEmail studentCount
    description.

(** The loop of [run] over the fetched records: it stops at the first
    record whose normalization throws. *)
Fixpoint normalizeAll (raws : list jsval) : Sync (list Item.t) :=
  match raws with
  | [] => ret []
  | raw :: rest =>
      normalized ← normalizeAssignment raw;
      others ← normalizeAll rest;
      ret (normalized :: others)
  end.

End Normalizer.

(** ** Filters *)

Section Filters.
Context `{Host}.

(** [parseIsoOrNull] of a command-line bound *)
Definition bound_date (o : option string) : option Z :=
  match o with
  | Some b => parseIsoOrNull (JStr b)
  | None => None
  end.

(** The callback of [applyFilters]: one early return per filter.
    [now_ms] is the time value of [new Date()]. *)
Definition keep (a : args) (st : state) (now_ms : Z) (item : Item.t) : bool :=
  if given (dueBefore a) && negb (String.eqb (Item.dueDate item) "")
     && match parseIsoOrNull (JStr (Item.dueDate item)), bound_date (dueBefore a) with
        | Some dueDate, Some beforeDate => beforeDate <? dueDate
        | _, _ => false
        end
  then false
  else if given (dueAfter a) && negb (String.eqb (Item.dueDate item) "")
     && match parseIsoOrNull (JStr (Item.dueDate item)), bound_date (dueAfter a) with
        | Some dueDate, Some afterDate => dueDate <? afterDate
        | _, _ => false
        end
  then false
  else if (0 <? length (statuses a))%nat && negb (bool_decide (Item.status item ∈ statuses a))
  then false
  else if (0 <? length (classIds a))%nat && negb (bool_decide (Item.classId item ∈ classIds a))
  then false
  else if incomplete a && (Item.allTurnedIn item && Item.anySubmittedState item)
  then false
  else if overdue a
       && (String.eqb (Item.dueDate item) ""
           || match parseIsoOrNull (JStr (Item.dueDate item)) with
              | Some dueDate => now_ms <=? dueDate
              | None => true
              end)
  then false
  else if incremental a && bool_decide (Item.id item ∈ seenIds st)
  then false
  else true.

(** [applyFilters(items)] *)
Definition applyFilters (a : args) (st : state) (now_ms : Z) (items : list Item.t)
  : list Item.t :=
  List.filter (keep a st now_ms) items.

End Filters.

(** ** State *)

(** [loadState()]; [None] is a [state.json] that is missing or does not
    parse. A file that parses holds what [saveState] wrote: the stamp of
    the last run and a list of ids. *)
Definition loadState (file : option state) : state :=
  match file with
  | Some st => st
  | None => {| lastRun := None; seenIds := [] |}
  end.

(** The state after [updateState(processedIds)], stamped with the text of
    the current time. *)
Definition updateState (a : args) (st : state) (processedIds : list string) (stamp : string)
  : state :=
  {| lastRun := Some stamp;
     seenIds :=
       if full a then processedIds
       else if incremental a then
         seenIds st ++ List.filter (fun i => negb (bool_decide (i ∈ seenIds st))) processedIds
       else seenIds st |}.

(** ** Exporters

    The file system takes every write. An exporter throws where the
    script itself calls a method that a value does not have or asks an
    invalid date for its ISO form, and where the spreadsheet library
    refuses the rows: [XLSX.writeFile] throws on a text of more than 32767
    characters, before it writes anything. *)

Inductive format : Type := AsJson | AsCsv.

Fixpoint group_add {K : Type} (same : K -> K -> bool) (k : K) (x : Item.t)
  (groups : list (K * list Item.t)) : list (K * list Item.t) :=
  match groups with
  | [] => [(k, [x])]
  | (k', xs) :: rest =>
      if same k' k then (k', xs ++ [x]) :: rest
      else (k', xs) :: group_add same k x rest
  end.

Section Exporters.
Context `{Host}.

(** The row of an item in [writeCsvFile] can be built: [replace] is
    called on the title and on the teacher name (the title is a string),
    and the teacher email goes into a text. *)
Definition csv_row_ok (item : Item.t) : bool :=
  Js.is_string (Item.teacherName item) && is_Some_bool (js_String (Item.teacherEmail item)).

(** [writeCsvFile(items, filepath)] *)
Definition writeCsvFile (items : list Item.t) (filepath : string) : Sync unit :=
  if forallb csv_row_ok items
  then emit (WriteCsv filepath items)
  else throw.

Definition write_as (f : format) (items : list Item.t) (dir : string) : Sync unit :=
  match f with
  | AsJson => emit (WriteJson (dir +:+ "/assignments.json") items)
  | AsCsv => writeCsvFile items (dir +:+ "/assignments.csv")
  end.

Definition year_text (year : Z) : string := host_number_text (Js.num_of_Z year).

(** The time value of the due date of an item that goes into a
    partition. *)
Definition partition_date (item : Item.t) : option Z :=
  if String.eqb (Item.dueDate item) "" then None
  else host_date_value (JStr (Item.dueDate item)).

Definition byYear (items : list Item.t) : list (Z * list Item.t) :=
  foldl (fun groups item =>
           match partition_date item with
           | Some d => group_add Z.eqb (host_year d) item groups
           | None => groups
           end) [] items.

Definition byMonth (items : list Item.t) : list (string * list Item.t) :=
  foldl (fun groups item =>
           match partition_date item with
           | Some d =>
               group_add String.eqb (year_text (host_year d) +:+ "/" +:+ host_month d)
                 item groups
           | None => groups
           end) [] items.

Fixpoint write_groups (f : format) (root : string) (groups : list (string * list Item.t))
  : Sync unit :=
  match groups with
  | [] => ret tt
  | (k, xs) :: rest =>
      _ ← write_as f xs (root +:+ k);
      write_groups f root rest
  end.

(** [writeOrganizedFiles(items, format)] *)
Definition writeOrganizedFiles (items : list Item.t) (f : format) : Sync unit :=
  _ ← write_groups f "outputs/by-year/"
        (List.map (fun g => (year_text (fst g), snd g)) (byYear items));
  write_groups f "outputs/by-month/" (byMonth items).

(** [writeJsonFile(items)] *)
Definition writeJsonFile (items : list Item.t) : Sync unit :=
  _ ← emit (WriteJson "outputs/assignments.json" items);
  writeOrganizedFiles items AsJson.

(** The rows that [writeXlsxFile] hands to the spreadsheet library: the
    headers, then the seventeen cells of each item. *)
Definition sheet_headers : list string :=
  ["id"; "title"; "classId"; "teacherName"; "teacherEmail"; "studentCount";
   "status"; "dueDate"; "assignedDate"; "createdDate"; "modifiedDate";
   "allTurnedIn"; "anySubmittedState"; "allowLateSubmissions";
   "agg_total"; "agg_submitted"; "webUrl"].

Definition sheet_flag (b : bool) : jsval := JStr (if b then "TRUE" else "FALSE").

Definition sheet_row (item : Item.t) : list jsval :=
  [JStr (Item.id item);
   JStr (Item.title item);
   JStr (Item.classId item);
   Item.teacherName item;
   Item.teacherEmail item;
   JNum (Js.num_of_Z (Z.of_nat (Item.studentCount item)));
   JStr (Item.status item);
   JStr (Item.dueDate item);
   JStr (Item.assignedDate item);
   JStr (Item.createdDate item);
   JStr (Item.modifiedDate item);
   sheet_flag (Item.allTurnedIn item);
   sheet_flag (Item.anySubmittedState item);
   sheet_flag (Item.allowLateSubmissions item);
   JNum (Item.agg_total item);
   JNum (Item.agg_submitted item);
   JStr (Item.webUrl item)].

Definition sheet_rows (items : list Item.t) : list (list jsval) :=
  List.map JStr sheet_headers :: List.map sheet_row items.

(** A cell that is a text has at most 32767 characters. *)
Definition sheet_cell_ok (v : jsval) : bool :=
  match v with
  | JStr text => (Z.of_nat (String.length text) <=? 32767)%Z
  | _ => true
  end.

(** [XLSX.writeFile] writes the book of these rows: no text is too long,
    and the library throws for no other reason. *)
Definition sheet_writable (rows : list (list jsval)) : bool :=
  forallb (forallb sheet_cell_ok) rows && host_write_sheet rows.

(** [writeXlsxFile(items)]: the library throws before it writes, and the
    rows of the CSV files come after the spreadsheet. *)
Definition writeXlsxFile (items : list Item.t) : Sync unit :=
  if sheet_writable (sheet_rows items)
  then
    _ ← emit (WriteXlsx "outputs/assignments.xlsx" items);
    _ ← writeCsvFile items "outputs/assignments.csv";
    writeOrganizedFiles items AsCsv
  else throw.

(** [formatDate(dateStr)] of the payload builders: [null] for an empty
    text, a RangeError (outer [None]) for a text that is not a date. *)
Definition formatDate (dateStr : string) : option (option string) :=
  if String.eqb dateStr "" then Some None
  else match host_date_value (JStr dateStr) with
       | Some t => Some (Some (host_date_iso t))
       | None => None
       end.

(** The properties of one item as [writeNotionPayload] and
    [createNotionPage] compute them; [None] when the computation throws
    (a teacher name that is set and is not a string has no [match], a
    date text that does not parse has no ISO form). *)
Definition notion_properties (item : Item.t) : option notion_entry :=
  if Js.truthy (Item.teacherName item) && negb (Js.is_string (Item.teacherName item))
  then None
  else
    assigned ← formatDate (Item.assignedDate item);
    created ← formatDate (Item.createdDate item);
    due ← formatDate (Item.dueDate item);
    modified ← formatDate (Item.modifiedDate item);
    Some {| external_id := Item.id item;
            notes := substring0 2000 (Item.description item);
            assigned_start := assigned;
            created_start := created;
            due_start := due;
            modified_start := modified;
            source := item |}.

(** [writeNotionPayload(items)] *)
Definition writeNotionPayload (items : list Item.t) : Sync unit :=
  match mapM notion_properties items with
  | Some entries => emit (WriteNotionPayload entries)
  | None => throw
  end.

End Exporters.

(** ** Upload to the remote store *)

(** One page of a query answer: the text of its [Assignment ID] property
    when there is one, or a page whose [properties] cannot be read. *)
Inductive notion_page : Type :=
| PageOf (assignmentId : option string)
| PageBroken.

(** The answer to one query: a failure (a rejected fetch, a status that is
    not ok, a body without results), or the pages and [has_more]. *)
Inductive query_answer : Type :=
| QueryFailed
| QueryPages (pages : list notion_page) (has_more : bool).

(** The remote store: its answer to the n-th query and whether the create
    call for the n-th new item is answered ok. *)
Record remote : Type := {
  query_response : nat -> query_answer;
  create_response : nat -> bool
}.

(** The wall clock during the upload: how long the timer of the n-th turn
    overshoots, and how long the n-th create call takes. Code that does
    not wait takes no time. *)
Record timing : Type := {
  timer_extra : nat -> Z;
  call_duration : nat -> Z
}.

(** The [forEach] over the pages of one answer: the ids added so far, and
    whether it ran to the end. *)
Fixpoint add_pages (pages : list notion_page) (ids : gset string) : gset string * bool :=
  match pages with
  | [] => (ids, true)
  | PageOf (Some i) :: rest =>
      if String.eqb i "" then add_pages rest ids else add_pages rest ({[ i ]} ∪ ids)
  | PageOf None :: rest => add_pages rest ids
  | PageBroken :: _ => (ids, false)
  end.

(** The closure returned by [createRateLimiter(delayMs)], called at
    wall-clock time [clock] on the n-th turn: the clock when it returns,
    which is also the new [lastCall]. *)
Definition rateLimiter (tm : timing) (delayMs : Z) (n : nat) (clock lastCall : Z) : Z :=
  let timeSinceLastCall := clock - lastCall in
  if timeSinceLastCall <? delayMs
  then clock + (delayMs - timeSinceLastCall) + timer_extra tm n
  else clock.

Section Upload.
Context `{Host}.
Variable store : remote.
Variable tm : timing.

(** [getExistingNotionIds()], from the n-th query on. *)
Fixpoint getExistingNotionIds (fuel : nat) (n : nat) (existingIds : gset string)
  : Sync (gset string) :=
  match fuel with
  | O => pending
  | S fuel' =>
      _ ← emit QueryNotion;
      match query_response store n with
      | QueryFailed => ret existingIds
      | QueryPages pages has_more =>
          match add_pages pages existingIds with
          | (ids, true) =>
              if has_more then getExistingNotionIds fuel' (S n) ids else ret ids
          | (ids, false) => ret ids
          end
      end
  end.

(** The loop of [uploadToNotion] over the new items, from the n-th turn
    on: the tally of uploaded and failed items. *)
Fixpoint upload_loop (delayMs : Z) (newItems : list Item.t) (n : nat)
  (clock lastCall : Z) (uploaded failed : nat) : Sync (nat * nat) :=
  match newItems with
  | [] => ret (uploaded, failed)
  | item :: rest =>
      let released := rateLimiter tm delayMs n clock lastCall in
      match notion_properties item with
      | None => upload_loop delayMs rest (S n) released released uploaded (S failed)
      | Some entry =>
          _ ← emit (CreatePage released entry);
          let answered := released + call_duration tm n in
          if create_response store n
          then upload_loop delayMs rest (S n) answered released (S uploaded) failed
          else upload_loop delayMs rest (S n) answered released uploaded (S failed)
      end
  end.

(** [uploadToNotion(items)]; [clock] is the wall clock when the loop over
    the new items starts. *)
Definition uploadToNotion (fuel : nat) (e : environ) (clock : Z) (items : list Item.t)
  : Sync unit :=
  if negb (Env.truthy e "NOTION_TOKEN") || negb (Env.truthy e "NOTION_DATABASE_ID")
  then ret tt
  else
    existingIds ← getExistingNotionIds fuel O ∅;
    let newItems :=
      List.filter (fun item => negb (bool_decide (Item.id item ∈ existingIds))) items in
    match newItems with
    | [] => ret tt
    | _ => _ ← upload_loop 300 newItems O clock 0 O O; ret tt
    end.

End Upload.

(** ** The run *)

(** What the listing endpoint answers to the n-th request: a failure that
    ends the process, or a body. *)
Record listing : Type := {
  listing_response : nat -> option jsval
}.

(** The wall clock (in milliseconds) at the points where [run] reads it:
    at the credential check, in the filters, when the upload loop starts,
    and at the commit of the state. *)
Record clock : Type := {
  at_start : Z;
  at_filter : Z;
  at_upload : Z;
  at_commit : Z
}.

Section Run.
Context `{Host}.
Variable net : network.
Variable pages : listing.
Variable store : remote.
Variable tm : timing.
Variable refresh : refresh_world.
Variable clk : clock.

Definition emit_all (evs : list event) : Sync unit :=
  fun s => (Returned tt, {| classMembers := classMembers s; issued := issued s ++ evs |}).

(** The loop of [fetchAllAssignments], from the n-th request on. *)
Fixpoint fetch_pages (fuel : nat) (n : nat) (allItems : list jsval) : Sync (list jsval) :=
  match fuel with
  | O => pending
  | S fuel' =>
      _ ← emit (FetchAssignments n);
      match listing_response pages n with
      | None => exit 1
      | Some data =>
          value ← read data "value";
          let allItems' :=
            match value with
            | JArr items => allItems ++ items
            | _ => allItems
            end in
          nextLink ← read data "@odata.nextLink";
          if Js.truthy nextLink then fetch_pages fuel' (S n) allItems' else ret allItems'
      end
  end.

(** [fetchAllAssignments()] *)
Definition fetchAllAssignments (fuel : nat) (e : environ) : Sync (list jsval) :=
  if negb (Env.truthy e "AUI_URL") then exit 1
  else if negb (Env.truthy e "AUI_TOKEN") then exit 1
  else fetch_pages fuel O [].

(** The end of [run], from the filters on: filter, export, upload,
    commit. [printSummary], between the commit and the exit, only prints:
    it pads the title, the teacher name, the due date and the status of
    the first ten items, which are strings once [writeCsvFile] has built
    its rows. *)
Definition export_and_commit (fuel : nat) (a : args) (st : state) (e : environ)
  (normalizedAssignments : list Item.t) : Sync unit :=
  let filteredAssignments := applyFilters a st (at_filter clk) normalizedAssignments in
  _ ← writeJsonFile filteredAssignments;
  _ ← writeXlsxFile filteredAssignments;
  _ ← writeNotionPayload filteredAssignments;
  _ ← uploadToNotion store tm fuel e (at_upload clk) filteredAssignments;
  let processedIds := List.map Item.id filteredAssignments in
  _ ← emit (SaveState (updateState a st processedIds (host_date_iso (at_commit clk))));
  exit 0.

(** The part of [run] behind the credential check and the [--details]
    branch. *)
Definition sync (fuel : nat) (a : args) (st : state) (e : environ) : Sync unit :=
  rawAssignments ← fetchAllAssignments fuel e;
  normalizedAssignments ← normalizeAll net rawAssignments;
  export_and_commit fuel a st e normalizedAssignments.

(** The [--details] branch of [run]: one assignment is fetched and
    saved, and [run] returns. *)
Definition show_details (spec : string) (e : environ) : Sync unit :=
  let parts := split_on ":" spec in
  let classId := nth 0 parts "" in
  let assignmentId := nth 1 parts "" in
  if String.eqb classId "" || String.eqb assignmentId "" then exit 1
  else if negb (Env.truthy e "AUI_TOKEN") then throw
  else
    _ ← emit (FetchDetails classId assignmentId);
    match details_response net classId assignmentId with
    | Some assignment =>
        displayName ← read assignment "displayName";
        _ ← convert (js_String displayName);
        instructions ← read assignment "instructions";
        let content := Js.get_opt instructions "content" in
        _ ← (if Js.truthy content then content_text content else ret "");
        _ ← convert (js_String (Js.get_opt assignment "dueDateTime"));
        _ ← convert (js_String (Js.get_opt assignment "status"));
        _ ← convert (js_String (Js.get_opt assignment "allTurnedIn"));
        emit (WriteDetails ("assignment-" +:+ assignmentId +:+ "-details.json") assignment)
    | None => throw
    end.

(** [run()] *)
Definition run (fuel : nat) (a : args) (st : state) (e : environ) : Sync unit :=
  try_catch
    (match ensureCredential a refresh (at_start clk) e with
     | (evs, Some e') =>
         _ ← emit_all evs;
         match details a with
         | Some spec => if String.eqb spec "" then sync fuel a st e' else show_details spec e'
         | None => sync fuel a st e'
         end
     | (evs, None) => _ ← emit_all evs; ended
     end)
    (exit 1).

(** The events of a whole run, from the command line on. *)
Definition main (fuel : nat) (argv : list string) (state_file : option state) (e : environ)
  : list event :=
  match parseArgs argv with
  | Exited code => [Exit code]
  | Parsed a => issued (snd (run fuel a (loadState state_file) e new_session))
  end.

End Run.

(** ** A small host, to run the model

    Claims are the decimal text of the expiry, a date is the decimal text
    of its time value, the year has 1000 milliseconds. *)

Module Demo.

Definition digits (z : Z) : string := NilZero.string_of_int (Z.to_int z).

Definition number (s : string) : option Z :=
  match NilZero.int_of_string s with
  | Some i => Some (Z.of_int i)
  | None => None
  end.

Definition number_text (n : jsnum) : string :=
  match n with
  | Fin q => digits (Qnum q / Z.pos (Qden q))
  | NaN => "NaN"
  | PosInf => "Infinity"
  | NegInf => "-Infinity"
  end.

Definition text_number (s : string) : jsnum :=
  match number s with
  | Some z => Js.num_of_Z z
  | None => if String.eqb s "" then Js.num_of_Z 0 else NaN
  end.

Definition has_member (k : string) (v : jsval) : bool :=
  match v with
  | JObj fs => existsb (fun f => String.eqb (fst f) k) fs
  | _ => false
  end.

Definition to_string (v : jsval) : option string :=
  match v with
  | JObj _ => if has_member "toString" v then None else Some "[object Object]"
  | JArr [] => Some ""
  | _ => None
  end.

Definition date_value (v : jsval) : option Z :=
  match v with
  | JStr s => number s
  | JNum (Fin q) => Some (Qnum q / Z.pos (Qden q))
  | _ => None
  end.

Definition decode_claims (part : string) : option jsval :=
  match number part with
  | Some z => Some (JObj [("exp", JNum (Js.num_of_Z z))])
  | None => None
  end.

Definition host : Host :=
  {| host_number_text := number_text;
     host_text_number := text_number;
     host_to_string := to_string;
     host_date_value := date_value;
     host_date_iso := digits;
     host_year := fun t => t / 1000;
     host_month := fun t => digits ((t / 100) mod 10);
     host_decode_claims := decode_claims;
     host_write_sheet := fun _ => true |}.

(** A network without rosters and without details. *)
Definition offline : network :=
  {| members_response := fun _ _ => None;
     detail_response := fun _ _ _ => None;
     details_response := fun _ _ => None |}.

(** A roster with one teacher and two students. *)
Definition roster : jsval :=
  JObj [("value",
         JArr [JObj [("id", JStr "t1"); ("displayName", JStr "Gray, Ian - IRG");
                     ("email", JStr "irg@school.example"); ("role", JStr "teacher")];
               JObj [("id", JStr "s1"); ("displayName", JStr "Ada"); ("role", JStr "student")];
               JObj [("id", JStr "s2"); ("displayName", JStr "Bob"); ("role", JStr "student")]])].

Definition school : network :=
  {| members_response := fun _ _ => Some roster;
     detail_response := fun _ _ _ =>
       Some (JObj [("instructions", JObj [("content", JStr "<p>From the detail</p>")])]);
     details_response := fun _ _ => None |}.

Definition item (i : string) (turnedIn submitted : bool) : Item.t :=
  {| Item.id := i; Item.title := i; Item.description := ""; Item.dueDate := "";
     Item.assignedDate := ""; Item.createdDate := ""; Item.modifiedDate := "";
     Item.status := "assigned"; Item.classId := "c1";
     Item.teacherName := JStr ""; Item.teacherEmail := JStr ""; Item.studentCount := O;
     Item.webUrl := ""; Item.allTurnedIn := turnedIn; Item.anySubmittedState := submitted;
     Item.allowLateSubmissions := false;
     Item.agg_total := Js.num_of_Z 0; Item.agg_submitted := Js.num_of_Z 0 |}.

(** A raw record of the listing. *)
Definition raw (i content : string) : jsval :=
  JObj [("id", JStr i); ("displayName", JStr "Essay"); ("classId", JStr "c1");
        ("status", JStr "assigned"); ("dueDateTime", JStr "1500");
        ("createdBy", JObj [("user", JObj [("id", JStr "t1")])]);
        ("instructions", JObj [("content", JStr content)]);
        ("allTurnedIn", JBool true);
        ("submissionAggregates", JObj [("total", JNum (Js.num_of_Z 12))])].

End Demo.

(** ** Vocabulary of the properties *)

(** The first, and the last, code unit of a text is white space. *)
Definition head_space (s : string) : bool :=
  match s with
  | EmptyString => false
  | String c _ => is_space c
  end.

Fixpoint last_space (s : string) : bool :=
  match s with
  | EmptyString => false
  | String c EmptyString => is_space c
  | String _ s' => last_space s'
  end.

(** [null] or [undefined]: the values on which a property read throws. *)
Definition nullish (v : jsval) : bool :=
  match v with
  | JUndefined | JNull => true
  | _ => false
  end.

(** [r.instructions.content], read the way the normalizer tests it. *)
Definition instructions_content (r : jsval) : jsval :=
  Js.get_opt (Js.get_opt r "instructions") "content".

(** The instructions of a record hold text, or nothing that counts. *)
Definition content_ok (r : jsval) : bool :=
  negb (Js.truthy (instructions_content r)) || Js.is_string (instructions_content r).

(** A computation takes every session to a session that is related to it
    by [R], however it ends. *)
Definition steps (R : relation session) {A : Type} (c : Sync A) : Prop :=
  forall s, R s (snd (c s)).

(** The session [s'] extends [s]: more events, all of which satisfy [P]. *)
Definition extends_with (P : event -> Prop) (s s' : session) : Prop :=
  exists evs, issued s' = issued s ++ evs /\ Forall P evs.

(** The session [s'] holds the events of [s], and maybe more. *)
Definition grows : relation session := extends_with (fun _ => True).

(** The classes whose roster was requested, in the order of the requests. *)
Fixpoint roster_fetches (evs : list event) : list string :=
  match evs with
  | [] => []
  | FetchMembers c :: rest => c :: roster_fetches rest
  | _ :: rest => roster_fetches rest
  end.

(** No roster was requested twice, and every roster that was requested is
    in the cache. *)
Definition roster_inv (s : session) : Prop :=
  NoDup (roster_fetches (issued s)) /\
  forall c, c ∈ roster_fetches (issued s) -> is_Some (classMembers s !! c).

Definition keeps_roster_inv (s s' : session) : Prop := roster_inv s -> roster_inv s'.

Definition is_roster_fetch (e : event) : Prop :=
  match e with FetchMembers _ => True | _ => False end.

(** The flags with one filter switched. *)
Definition set_incomplete (b : bool) (a : args) : args :=
  {| dueBefore := dueBefore a; dueAfter := dueAfter a; statuses := statuses a;
     classIds := classIds a; incomplete := b; overdue := overdue a;
     incremental := incremental a; full := full a; details := details a;
     refreshTokens := refreshTokens a |}.

Definition set_incremental (b : bool) (a : args) : args :=
  {| dueBefore := dueBefore a; dueAfter := dueAfter a; statuses := statuses a;
     classIds := classIds a; incomplete := incomplete a; overdue := overdue a;
     incremental := b; full := full a; details := details a;
     refreshTokens := refreshTokens a |}.

(** The item is fully turned in and has a submitted state. *)
Definition turned_in_and_submitted (item : Item.t) : Prop :=
  Item.allTurnedIn item = true /\ Item.anySubmittedState item = true.

(** The class id that the normalizer works with; [None] when its
    conversion throws. *)
Definition class_of `{Host} (raw : jsval) : option string :=
  js_String (Js.or (Js.get_opt raw "classId") (JStr "")).

(** The canonical record of a raw record that can be read, given what the
    roster and the description blocks found; [None] when a conversion
    throws. *)
Definition coerce `{Host} (raw : jsval) (classId : string) (teacherName teacherEmail : jsval)
    (studentCount : nat) (description : string) : option Item.t :=
  let aggregates := Js.or (Js.get_opt raw "submissionAggregates") (JObj []) in
  id ← js_String (Js.or (Js.get_opt raw "id") (JStr ""));
  title ← js_String (Js.or (Js.get_opt raw "displayName") (JStr ""));
  status ← js_String (Js.or (Js.get_opt raw "status") (JStr ""));
  webUrl ← js_String (Js.or (Js.get_opt raw "webUrl") (JStr ""));
  agg_total ← js_Number (Js.or (Js.get_opt aggregates "total") (JNum (Js.num_of_Z 0)));
  agg_submitted ←
    js_Number (Js.or (Js.get_opt aggregates "submitted") (JNum (Js.num_of_Z 0)));
  Some {| Item.id := id;
          Item.title := title;
          Item.description := description;
          Item.dueDate := iso (Js.get_opt raw "dueDateTime");
          Item.assignedDate := iso (Js.get_opt raw "assignedDateTime");
          Item.createdDate := iso (Js.get_opt raw "createdDateTime");
          Item.modifiedDate := iso (Js.get_opt raw "lastModifiedDateTime");
          Item.status := status;
          Item.classId := classId;
          Item.teacherName := teacherName;
          Item.teacherEmail := teacherEmail;
          Item.studentCount := studentCount;
          Item.webUrl := webUrl;
          Item.allTurnedIn := js_Boolean (Js.get_opt raw "allTurnedIn");
          Item.anySubmittedState := js_Boolean (Js.get_opt raw "anySubmittedState");
          Item.allowLateSubmissions := js_Boolean (Js.get_opt raw "allowLateSubmissions");
          Item.agg_total := agg_total;
          Item.agg_submitted := agg_submitted |}.

(** A value that is not an array and not an object: its conversions to a
    text and to a number do not throw. *)
Definition primitive (v : jsval) : bool :=
  match v with
  | JArr _ | JObj _ => false
  | _ => true
  end.

(** The fields of the raw record that go through [String] or [Number]
    convert. *)
Definition coercible `{Host} (raw : jsval) : Prop :=
  let aggregates := Js.or (Js.get_opt raw "submissionAggregates") (JObj []) in
  is_Some (class_of raw) /\
  is_Some (js_String (Js.or (Js.get_opt raw "id") (JStr ""))) /\
  is_Some (js_String (Js.or (Js.get_opt raw "displayName") (JStr ""))) /\
  is_Some (js_String (Js.or (Js.get_opt raw "status") (JStr ""))) /\
  is_Some (js_String (Js.or (Js.get_opt raw "webUrl") (JStr ""))) /\
  is_Some (js_Number (Js.or (Js.get_opt aggregates "total") (JNum (Js.num_of_Z 0)))) /\
  is_Some (js_Number (Js.or (Js.get_opt aggregates "submitted") (JNum (Js.num_of_Z 0)))).

(** The fields that go through [String] or [Number] hold no array and no
    object. *)
Definition primitive_fields (raw : jsval) : bool :=
  let aggregates := Js.or (Js.get_opt raw "submissionAggregates") (JObj []) in
  primitive (Js.get_opt raw "classId") && primitive (Js.get_opt raw "id")
  && primitive (Js.get_opt raw "displayName") && primitive (Js.get_opt raw "status")
  && primitive (Js.get_opt raw "webUrl")
  && primitive (Js.get_opt aggregates "total")
  && primitive (Js.get_opt aggregates "submitted").

(** The record of the defaults. *)
Definition blank_item : Item.t :=
  {| Item.id := ""; Item.title := ""; Item.description := ""; Item.dueDate := "";
     Item.assignedDate := ""; Item.createdDate := ""; Item.modifiedDate := "";
     Item.status := ""; Item.classId := "";
     Item.teacherName := JStr ""; Item.teacherEmail := JStr ""; Item.studentCount := O;
     Item.webUrl := ""; Item.allTurnedIn := false; Item.anySubmittedState := false;
     Item.allowLateSubmissions := false;
     Item.agg_total := Js.num_of_Z 0; Item.agg_submitted := Js.num_of_Z 0 |}.

(** Where a description comes from: the instructions of the listed record,
    or, when these give no text, the instructions of the detail that the
    network returns for the request issued in session [s]; or nowhere. *)
Definition description_source (net : network) (raw : jsval) (classId : string)
    (s : session) (d : string) : Prop :=
  (exists c, instructions_content raw = JStr c /\ plain_text c <> "" /\ d = plain_text c) \/
  ((Js.truthy (instructions_content raw) = false
    \/ exists c, instructions_content raw = JStr c /\ plain_text c = "") /\
   (d = "" \/
    exists detail c,
      detail_response net (length (issued s)) classId (Js.get_opt raw "id") = Some detail /\
      instructions_content detail = JStr c /\ d = plain_text c)).

(** The defaults of the canonical record: a field of the raw record that is
    absent, or does not count, gives the empty text, [false], or zero. *)
Definition defaults_hold `{Host} (raw : jsval) (item : Item.t) : Prop :=
  let absent k := Js.truthy (Js.get_opt raw k) = false in
  let aggregates := Js.or (Js.get_opt raw "submissionAggregates") (JObj []) in
  (absent "id" -> Item.id item = "") /\
  (absent "displayName" -> Item.title item = "") /\
  (absent "status" -> Item.status item = "") /\
  (absent "classId" -> Item.classId item = "") /\
  (absent "webUrl" -> Item.webUrl item = "") /\
  (absent "dueDateTime" -> Item.dueDate item = "") /\
  (absent "assignedDateTime" -> Item.assignedDate item = "") /\
  (absent "createdDateTime" -> Item.createdDate item = "") /\
  (absent "lastModifiedDateTime" -> Item.modifiedDate item = "") /\
  (absent "allTurnedIn" -> Item.allTurnedIn item = false) /\
  (absent "anySubmittedState" -> Item.anySubmittedState item = false) /\
  (absent "allowLateSubmissions" -> Item.allowLateSubmissions item = false) /\
  (Js.truthy (Js.get_opt aggregates "total") = false -> Item.agg_total item = Js.num_of_Z 0) /\
  (Js.truthy (Js.get_opt aggregates "submitted") = false ->
   Item.agg_submitted item = Js.num_of_Z 0) /\
  (Js.truthy (Item.teacherName item) = false -> Item.teacherName item = JStr "") /\
  (Js.truthy (Item.teacherEmail item) = false -> Item.teacherEmail item = JStr "").

(** The events of the credential refresh. *)
Definition is_refresh_event (e : event) : Prop :=
  match e with LaunchExtractor | ReloadEnv => True | _ => False end.

(** The events of the stages behind the credential check, but for the
    roster requests. *)
Definition ordinary (e : event) : Prop := ~ is_roster_fetch e /\ ~ is_refresh_event e.

(** The cache of rosters only grows. *)
Definition cache_grows (s s' : session) : Prop :=
  forall classId m, classMembers s !! classId = Some m -> classMembers s' !! classId = Some m.

(** The value that the lines of a [.env] file give to a key: the one of
    the last line that sets it. *)
Definition file_value (content : string) (k : string) : option string :=
  foldl (fun found line =>
           match Env.parse_line line with
           | Some (k', v) => if String.eqb k' k then Some v else found
           | None => found
           end)
        None (split_on Env.newline content).

(** A world to run the examples in: no listing, a remote store that knows
    nothing and accepts everything, timers that are exact, an extractor
    that fails. *)
Module World.
Definition no_pages : listing := {| listing_response := fun _ => None |}.
Definition empty_store : remote :=
  {| query_response := fun _ => QueryPages [] false; create_response := fun _ => true |}.
Definition exact : timing := {| timer_extra := fun _ => 0; call_duration := fun _ => 0 |}.
Definition no_refresh : refresh_world :=
  {| extractor := Closed (Some 1); dotenv_after := None; clock_after := 0 |}.
Definition at_time (t : Z) : clock :=
  {| at_start := t; at_filter := t; at_upload := t; at_commit := t |}.
End World.

(** The wall-clock times of the create calls, in the order of the calls. *)
Fixpoint create_times (evs : list event) : list Z :=
  match evs with
  | [] => []
  | CreatePage t _ :: rest => t :: create_times rest
  | _ :: rest => create_times rest
  end.

(** Consecutive times are at least [d] apart. *)
Fixpoint spaced (d : Z) (ts : list Z) : Prop :=
  match ts with
  | t1 :: rest =>
      match rest with
      | t2 :: _ => t1 + d <= t2
      | [] => True
      end /\ spaced d rest
  | [] => True
  end.

(** An event of the upload of [items]: a query, or the create call for one
    of the items, with the properties computed from it. *)
Definition upload_event `{Host} (items : list Item.t) (ev : event) : Prop :=
  match ev with
  | QueryNotion => True
  | CreatePage _ entry => exists item, item ∈ items /\ notion_properties item = Some entry
  | _ => False
  end.

(** The query of the remote store ends with the answer to the n-th
    request: a failure, a last page, or a page that cannot be read. *)
Definition query_ends (store : remote) (n : nat) : Prop :=
  match query_response store n with
  | QueryFailed => True
  | QueryPages pgs more => more = false \/ forall ids, snd (add_pages pgs ids) = false
  end.

(** A file of a partition of [filtered]: the file named [file] in the
    folder of a year or of a month, with the items of that group. *)
Definition partition_file `{Host} (filtered : list Item.t) (file path : string)
    (items : list Item.t) : Prop :=
  (exists g, g ∈ byYear filtered /\ items = snd g /\
             path = ("outputs/by-year/" +:+ year_text (fst g)) +:+ file) \/
  (exists g, g ∈ byMonth filtered /\ items = snd g /\
             path = ("outputs/by-month/" +:+ fst g) +:+ file).

(** The folder [k] under [root] is the folder of a group of [filtered],
    and [items] is that group. *)
Definition group_folder `{Host} (filtered : list Item.t) (root k : string)
    (items : list Item.t) : Prop :=
  (root = "outputs/by-year/" /\
   exists g, g ∈ byYear filtered /\ items = snd g /\ k = year_text (fst g)) \/
  (root = "outputs/by-month/" /\
   exists g, g ∈ byMonth filtered /\ items = snd g /\ k = fst g).

(** The events that the end of a run may issue when [filtered] is the
    filtered list: every export of the whole set carries exactly
    [filtered], every other export file is the file of a year or of a
    month and carries that group of [filtered], the payload is computed
    from it, every create call is for one of its items, and the state that
    is saved is the commit of its ids. *)
Definition export_event `{Host} (a : args) (st : state) (stamp : string)
    (filtered : list Item.t) (ev : event) : Prop :=
  match ev with
  | WriteJson path items =>
      (path = "outputs/assignments.json" /\ items = filtered) \/
      partition_file filtered "/assignments.json" path items
  | WriteXlsx path items => path = "outputs/assignments.xlsx" /\ items = filtered
  | WriteCsv path items =>
      (path = "outputs/assignments.csv" /\ items = filtered) \/
      partition_file filtered "/assignments.csv" path items
  | WriteNotionPayload entries =>
      mapM notion_properties filtered = Some entries /\ List.map source entries = filtered
  | QueryNotion => True
  | CreatePage _ entry => exists item, item ∈ filtered /\ notion_properties item = Some entry
  | SaveState st' => st' = updateState a st (List.map Item.id filtered) stamp
  | Exit code => code = 0
  | _ => False
  end.

(** The items that are not marked seen. *)
Definition unseen (st : state) (items : list Item.t) : list Item.t :=
  List.filter (fun item => negb (bool_decide (Item.id item ∈ seenIds st))) items.

Module Known.
(** A remote store that knows the assignment x. *)
Definition store : remote :=
  {| query_response := fun n =>
       match n with
       | O => QueryPages [PageOf (Some "x"); PageOf None] true
       | _ => QueryPages [PageOf (Some "w")] false
       end;
     create_response := fun _ => true |}.

Definition env : gmap string string :=
  {[ "NOTION_TOKEN" := "secret"; "NOTION_DATABASE_ID" := "db" ]}.

Definition items : list Item.t :=
  [Demo.item "x" false false; Demo.item "y" false false; Demo.item "z" false false].
End Known.

(** The lists that a run writes to the flat record set of the whole. *)
Fixpoint json_exports (evs : list event) : list (list Item.t) :=
  match evs with
  | [] => []
  | WriteJson path items :: rest =>
      if String.eqb path "outputs/assignments.json"
      then items :: json_exports rest
      else json_exports rest
  | _ :: rest => json_exports rest
  end.

(** An incremental run: two assignments are listed, the first one is
    marked seen. *)
Module Incremental.
Definition env : gmap string string :=
  {[ "AUI_TOKEN" := "h.2000000000.s"; "AUI_URL" := "https://listing.example" ]}.

Definition pages : listing :=
  {| listing_response := fun n =>
       match n with
       | O => Some (JObj [("value", JArr [Demo.raw "a1" "<p>one</p>";
                                          Demo.raw "a2" "<p>two</p>"])])
       | _ => None
       end |}.

Definition prior : state := {| lastRun := None; seenIds := ["a1"] |}.

(** The canonical record of [Demo.raw i] without a roster. *)
Definition normal (i description : string) : Item.t :=
  {| Item.id := i; Item.title := "Essay"; Item.description := description;
     Item.dueDate := "1500"; Item.assignedDate := ""; Item.createdDate := "";
     Item.modifiedDate := ""; Item.status := "assigned"; Item.classId := "c1";
     Item.teacherName := JStr ""; Item.teacherEmail := JStr ""; Item.studentCount := O;
     Item.webUrl := ""; Item.allTurnedIn := true; Item.anySubmittedState := false;
     Item.allowLateSubmissions := false;
     Item.agg_total := Js.num_of_Z 12; Item.agg_submitted := Js.num_of_Z 0 |}.

Definition flags : args := default_mode (set_incremental true default_args).

Definition now : Z := 1700000000000.
End Incremental.

(** ** The scripts around the sync

    [auto-sync.mjs] runs the sync as a subprocess and refreshes the
    credential in between; it writes the [.env] file that the sync loads. *)

(** [s.includes(c)] for one code unit. *)
Fixpoint has_char (c : ascii) (s : string) : bool :=
  match s with
  | EmptyString => false
  | String d s' => Ascii.eqb d c || has_char c s'
  end.

(** [text.includes(needle)] *)
Fixpoint includes (text needle : string) : bool :=
  String.prefix needle text
  || match text with
     | EmptyString => false
     | String _ text' => includes text' needle
     end.

(** [parts.join(sep)] *)
Fixpoint join (sep : string) (parts : list string) : string :=
  match parts with
  | [] => EmptyString
  | [p] => p
  | p :: rest => p +:+ sep +:+ join sep rest
  end.

Module AutoSync.

(** The line [KEY="value"] of a template literal. *)
Definition entry (key value : string) : string :=
  key +:+ String "=" (String Env.quote (value +:+ String Env.quote EmptyString)).

(** The content that [refreshTokens] writes to [.env] once the values
    were captured. *)
Definition envContent (url token session : string) : string :=
  join (String Env.newline EmptyString)
    [entry "AUI_URL" url; entry "AUI_TOKEN" token; entry "AUI_SESSION_ID" session].

(** [loadEnv()] of [auto-sync.mjs]: the object of the variables in the
    file. An assignment to the member named [__proto__] adds no variable. *)
Definition loadEnv (file : option string) : environ :=
  match file with
  | None => ∅
  | Some content =>
      foldl (fun env line =>
               match Env.parse_line line with
               | Some (k, v) => if String.eqb k "__proto__" then env else <[k := v]> env
               | None => env
               end)
            ∅ (split_on Env.newline content)
  end.

(** How one run of the sync subprocess ends for [runSync]: with success,
    with the need of a refresh, or with a rejection. *)
Inductive sync_result : Type :=
| Succeeded
| NeedsRefresh
| SyncFailed.

(** [runSync]: the result for the exit code of the subprocess ([None]
    when a signal ended it) and the chunks of its error output. *)
Definition runSync (code : option Z) (stderr : list string) : sync_result :=
  match code with
  | Some 0 => Succeeded
  | _ =>
      if existsb (fun text => includes text "Authorization failed") stderr
      then NeedsRefresh
      else SyncFailed
  end.

(** What [run] does, in order. *)
Inductive action : Type :=
| RunSync (attempt : nat)
| RefreshTokens (attempt : nat)
| ReportMaxRetries.

(** What the attempts meet: how the subprocess of an attempt ends, and
    what [refreshTokens] answers after it ([None] when it throws). *)
Record world : Type := {
  sync_exit : nat -> option Z * list string;
  refreshed : nat -> option bool
}.

(** The [while] loop of [run]: its actions, and how it is left: by the
    [return] ([None]), by a [break] or by its condition (the attempt
    counter), or by an exception. *)
Fixpoint attempts (w : world) (maxRetries fuel attempt : nat)
  : list action * outcome (option nat) :=
  match fuel with
  | O => ([], Pending)
  | S fuel' =>
      if (attempt <=? maxRetries)%nat then
        match runSync (fst (sync_exit w attempt)) (snd (sync_exit w attempt)) with
        | Succeeded => ([RunSync attempt], Returned None)
        | NeedsRefresh =>
            if (attempt <? maxRetries)%nat then
              match refreshed w attempt with
              | Some true =>
                  let '(rest, how) := attempts w maxRetries fuel' (S attempt) in
                  (RunSync attempt :: RefreshTokens attempt :: rest, how)
              | Some false =>
                  ([RunSync attempt; RefreshTokens attempt], Returned (Some attempt))
              | None => ([RunSync attempt; RefreshTokens attempt], Threw)
              end
            else ([RunSync attempt], Returned (Some attempt))
        | SyncFailed => ([RunSync attempt], Threw)
        end
      else ([], Returned (Some attempt))
  end.

(** [run(args)] with the retry bound of the constructor. *)
Definition run_with (maxRetries : nat) (w : world) : list action * outcome unit :=
  match attempts w maxRetries (S maxRetries) 1 with
  | (acts, Returned None) => (acts, Returned tt)
  | (acts, Returned (Some attempt)) =>
      if (maxRetries <? attempt)%nat
      then (acts ++ [ReportMaxRetries], Returned tt)
      else (acts, Returned tt)
  | (acts, Threw) => (acts, Threw)
  | (acts, Ended) => (acts, Ended)
  | (acts, Pending) => (acts, Pending)
  end.

Definition maxRetries : nat := 2.

Definition run (w : world) : list action * outcome unit := run_with maxRetries w.

Definition is_run (a : action) : bool :=
  match a with RunSync _ => true | _ => false end.

Definition is_refresh (a : action) : bool :=
  match a with RefreshTokens _ => true | _ => false end.

End AutoSync.

(** How often the sync was run, and the credential refreshed. *)
Definition runs (acts : list AutoSync.action) : nat :=
  length (List.filter AutoSync.is_run acts).

Definition refreshes (acts : list AutoSync.action) : nat :=
  length (List.filter AutoSync.is_refresh acts).

(** The run of attempt [a] ends with the need of a refresh. *)
Definition needs_refresh (w : AutoSync.world) (a : nat) : Prop :=
  AutoSync.runSync (fst (AutoSync.sync_exit w a)) (snd (AutoSync.sync_exit w a))
  = AutoSync.NeedsRefresh.

(** The first, and the last, code unit of a text is [c]. *)
Definition first_is (c : ascii) (s : string) : bool :=
  match s with
  | EmptyString => false
  | String d _ => Ascii.eqb d c
  end.

Fixpoint last_is (c : ascii) (s : string) : bool :=
  match s with
  | EmptyString => false
  | String d EmptyString => Ascii.eqb d c
  | String _ s' => last_is c s'
  end.

(** The line [KEY=value]. *)
Definition assignment (key value : string) : string := key +:+ String "=" value.

(** The values of the arguments that start with [prefix], in the order of
    the command line. *)
Definition flag_values (prefix : string) (argv : list string) : list string :=
  List.map flag_value (List.filter (fun arg => startsWith arg prefix) argv).

(** The last of the values [l], or [d] when there is none. *)
Definition last_or (d : option string) (l : list string) : option string :=
  match last l with
  | Some v => Some v
  | None => d
  end.

(** What the filters ask of an item, one line per filter of the command
    line. *)
Definition passes `{Host} (a : args) (st : state) (now_ms : Z) (item : Item.t) : Prop :=
  (forall bound due,
     given (dueBefore a) = true -> bound_date (dueBefore a) = Some bound ->
     Item.dueDate item <> "" -> parseIsoOrNull (JStr (Item.dueDate item)) = Some due ->
     due <= bound) /\
  (forall bound due,
     given (dueAfter a) = true -> bound_date (dueAfter a) = Some bound ->
     Item.dueDate item <> "" -> parseIsoOrNull (JStr (Item.dueDate item)) = Some due ->
     bound <= due) /\
  (statuses a <> [] -> Item.status item ∈ statuses a) /\
  (classIds a <> [] -> Item.classId item ∈ classIds a) /\
  (incomplete a = true -> ~ turned_in_and_submitted item) /\
  (overdue a = true ->
   Item.dueDate item <> "" /\
   exists due, parseIsoOrNull (JStr (Item.dueDate item)) = Some due /\ due < now_ms) /\
  (incremental a = true -> Item.id item ∉ seenIds st).

(** The flags with other bounds. *)
Definition set_bounds (before after : option string) (a : args) : args :=
  {| dueBefore := before; dueAfter := after; statuses := statuses a;
     classIds := classIds a; incomplete := incomplete a; overdue := overdue a;
     incremental := incremental a; full := full a; details := details a;
     refreshTokens := refreshTokens a |}.

(** The roster entry of a member of the response. *)
Definition person_of (member : jsval) : Person.t :=
  Person.mk (Js.get_opt member "id") (Js.get_opt member "displayName")
    (Js.get_opt member "email") (Js.get_opt member "role").

Definition is_teacher (member : jsval) : bool :=
  Js.strict_eq_str (Js.get_opt member "role") "teacher".

Definition is_student (member : jsval) : bool :=
  Js.strict_eq_str (Js.get_opt member "role") "student".

(** The member has the id [k], as the map of the roster compares keys. *)
Definition has_id (k : jsval) (member : jsval) : bool :=
  Js.same_value_zero (Js.get_opt member "id") k.

(** The members of a response can all be read. *)
Definition readable (items : list jsval) : Prop :=
  Forall (fun member => nullish member = false) items.

(** [v || ''] *)
Definition or_empty (v : jsval) : jsval := Js.or v (JStr "").

(** The teacher that the normalizer shows for the roster of the members
    [items] and the creator id [creator]: the last member with that id
    when it is a teacher with a name, then the first teacher of the
    response, then nobody. *)
Definition shown_teacher (items : list jsval) (creator : jsval) : jsval * jsval :=
  let by_creator :=
    if Js.truthy creator then
      match last (List.filter (has_id creator) items) with
      | Some member =>
          if is_teacher member
          then (or_empty (Js.get_opt member "displayName"),
                or_empty (Js.get_opt member "email"))
          else (JStr "", JStr "")
      | None => (JStr "", JStr "")
      end
    else (JStr "", JStr "") in
  if Js.truthy (fst by_creator) then by_creator
  else match List.filter is_teacher items with
       | first :: _ =>
           (or_empty (Js.get_opt first "displayName"), or_empty (Js.get_opt first "email"))
       | [] => by_creator
       end.

(** The listed record gives no description: its instructions hold nothing
    that counts, or a text that is empty once the tags are stripped and
    the white space is trimmed. *)
Definition listed_empty (raw : jsval) : Prop :=
  Js.truthy (instructions_content raw) = false \/
  exists c, instructions_content raw = JStr c /\ plain_text c = "".

(** The text of a date parses back to the date. *)
Definition iso_parses `{Host} : Prop :=
  forall v t, host_date_value v = Some t ->
    host_date_value (JStr (host_date_iso t)) = Some t /\ host_date_iso t <> "".

(** The date fields of a canonical record, with the fields of the raw
    record they come from. *)
Definition date_fields (raw : jsval) (item : Item.t) : list (jsval * string) :=
  [(Js.get_opt raw "dueDateTime", Item.dueDate item);
   (Js.get_opt raw "assignedDateTime", Item.assignedDate item);
   (Js.get_opt raw "createdDateTime", Item.createdDate item);
   (Js.get_opt raw "lastModifiedDateTime", Item.modifiedDate item)].

(** The group that is filed under a key. *)
Fixpoint group_lookup {K : Type} (same : K -> K -> bool) (k : K)
  (groups : list (K * list Item.t)) : option (list Item.t) :=
  match groups with
  | [] => None
  | (k', xs) :: rest => if same k' k then Some xs else group_lookup same k rest
  end.

(** The year, and the month key, under which an item is filed. *)
Definition year_of `{Host} (item : Item.t) : option Z :=
  host_year <$> partition_date item.

Definition month_of `{Host} (item : Item.t) : option string :=
  (fun d => year_text (host_year d) +:+ "/" +:+ host_month d) <$> partition_date item.

(** One turn of the loop that files the items: an item with a key goes
    to the group of its key. *)
Definition file_item {K : Type} (same : K -> K -> bool) (key : Item.t -> option K)
  (groups : list (K * list Item.t)) (item : Item.t) : list (K * list Item.t) :=
  match key item with
  | Some k => group_add same k item groups
  | None => groups
  end.

(** The item has the key [k]. *)
Definition filed_under {K : Type} (same : K -> K -> bool) (key : Item.t -> option K)
  (k : K) (item : Item.t) : bool :=
  match key item with
  | Some k' => same k' k
  | None => false
  end.

(** The items that have the key [k], in the order of the list; [None]
    when there is none. *)
Definition filed {K : Type} (same : K -> K -> bool) (key : Item.t -> option K) (k : K)
  (items : list Item.t) : option (list Item.t) :=
  match List.filter (filed_under same key k) items with
  | [] => None
  | xs => Some xs
  end.

(** The entries of the create calls among the events, in order. *)
Definition created (evs : list event) : list notion_entry :=
  omap (fun ev => match ev with CreatePage _ entry => Some entry | _ => None end) evs.

Definition is_create (ev : event) : Prop :=
  match ev with CreatePage _ _ => True | _ => False end.

(** The ids that the pages of one answer report. *)
Definition reported (pgs : list notion_page) (i : string) : Prop :=
  i <> "" /\ PageOf (Some i) ∈ pgs.

(** The remote store is configured in the environment. *)
Definition configured (e : environ) : bool :=
  Env.truthy e "NOTION_TOKEN" && Env.truthy e "NOTION_DATABASE_ID".

(** The items that the upload takes for new, given the ids it knows. *)
Definition unknown (ids : gset string) (items : list Item.t) : list Item.t :=
  List.filter (fun item => negb (bool_decide (Item.id item ∈ ids))) items.

(** The items that an event puts into a file or sends to the remote
    store. *)
Definition exported (ev : event) : list Item.t :=
  match ev with
  | WriteJson _ items | WriteXlsx _ items | WriteCsv _ items => items
  | WriteNotionPayload entries => List.map source entries
  | CreatePage _ entry => [source entry]
  | _ => []
  end.

(** The event writes a JSON file. *)
Definition is_json (ev : event) : Prop :=
  match ev with
  | WriteJson _ _ => True
  | _ => False
  end.

(** The kinds of events of the end of a run. *)
Definition is_write (ev : event) : Prop :=
  match ev with
  | WriteJson _ _ | WriteXlsx _ _ | WriteCsv _ _ | WriteNotionPayload _ => True
  | _ => False
  end.

Definition is_upload (ev : event) : Prop :=
  match ev with
  | QueryNotion | CreatePage _ _ => True
  | _ => False
  end.

(** A request to the network. *)
Definition is_request (ev : event) : Prop :=
  match ev with
  | FetchAssignments _ | FetchMembers _ | FetchDetail _ _ | FetchDetails _ _
  | QueryNotion | CreatePage _ _ => True
  | _ => False
  end.

(** The events of the [--details] branch. *)
Definition is_details (ev : event) : Prop :=
  match ev with
  | FetchDetails _ _ | WriteDetails _ _ | Exit _ => True
  | _ => False
  end.

(** The records of a page of the listing. *)
Definition page_items (data : jsval) : list jsval :=
  match Js.get_opt data "value" with
  | JArr items => items
  | _ => []
  end.

(** The two parts of the argument of [--details]. *)
Definition class_part (spec : string) : string := nth 0 (split_on ":" spec) "".

Definition assignment_part (spec : string) : string := nth 1 (split_on ":" spec) "".

(** A text, or a value that counts as none. *)
Definition text_or_nothing (c : jsval) : bool :=
  match c with
  | JStr _ => true
  | JUndefined | JNull => true
  | JBool b => negb b
  | JNum n => negb (Js.num_truthy n)
  | JArr _ | JObj _ => false
  end.

(** A detailed record whose printed fields are plain values, and whose
    instructions hold a text or nothing. *)
Definition plain_details (x : jsval) : bool :=
  match x with
  | JUndefined | JNull => false
  | _ =>
      primitive (Js.get_opt x "displayName")
      && primitive (Js.get_opt x "dueDateTime")
      && primitive (Js.get_opt x "status")
      && primitive (Js.get_opt x "allTurnedIn")
      && text_or_nothing (Js.get_opt (Js.get_opt x "instructions") "content")
  end.

(** A run in [--details] mode: the record of one assignment is asked
    for. *)
Module DetailsRun.
Definition flags : args :=
  {| dueBefore := None; dueAfter := None; statuses := []; classIds := [];
     incomplete := false; overdue := false; incremental := false; full := false;
     details := Some "c1:a1"; refreshTokens := false |}.

Definition env : gmap string string := {[ "AUI_TOKEN" := "h.2000000000.s" ]}.

Definition net : network :=
  {| members_response := fun _ _ => None;
     detail_response := fun _ _ _ => None;
     details_response := fun c i =>
       if String.eqb c "c1" && String.eqb i "a1"
       then Some (Demo.raw "a1" "<p>Read chapter 4</p>")
       else None |}.
End DetailsRun.

(** The next page of the listing is linked from [data]. *)
Definition linked (data : jsval) : bool := Js.truthy (Js.get_opt data "@odata.nextLink").

(** A listing of two pages. *)
Module TwoPages.
Definition pages : listing :=
  {| listing_response := fun n =>
       match n with
       | O => Some (JObj [("value", JArr [Demo.raw "a1" "<p>one</p>"]);
                          ("@odata.nextLink", JStr "https://listing.example/2")])
       | 1%nat => Some (JObj [("value", JArr [Demo.raw "a2" "<p>two</p>"])])
       | _ => None
       end |}.

Definition env : gmap string string :=
  {[ "AUI_TOKEN" := "h.2000000000.s"; "AUI_URL" := "https://listing.example" ]}.
End TwoPages.

(** ** The text helpers of the summary and of the payload *)

(** A small backtracking matcher for the patterns of the script. A pattern
    is a sequence of character classes, each with a quantifier and maybe a
    capture group around it, anchored at both ends. The alternatives are
    tried in the order of ECMAScript: a lazy quantifier takes as little as
    it can first, a greedy one as much as it can, and the first way to
    match the whole text wins. *)
Module Regex.

Inductive quantifier : Type :=
| Once          (** [x] *)
| LazyPlus      (** [x+?] *)
| GreedyStar    (** [x*] *)
| GreedyPlus.   (** [x+] *)

Record atom : Type := {
  class : ascii -> bool;
  quantified : quantifier;
  captured : bool
}.

(** [.]: any code unit but a line terminator. *)
Definition dot (c : ascii) : bool :=
  negb (Ascii.eqb c "010" || Ascii.eqb c "013").

(** [\s] *)
Definition space (c : ascii) : bool := is_space c.

Definition literal (d : ascii) (c : ascii) : bool := Ascii.eqb c d.

Section Matcher.
Context {R : Type}.

(** [taken] has been matched; go on with the rest, or take one more. *)
Fixpoint lazy_star (p : ascii -> bool) (k : string -> string -> option R)
    (taken s : string) : option R :=
  match k taken s with
  | Some r => Some r
  | None =>
      match s with
      | String c s' =>
          if p c then lazy_star p k (taken +:+ String c EmptyString) s' else None
      | EmptyString => None
      end
  end.

(** [taken] has been matched; take one more, or go on with the rest. *)
Fixpoint greedy_star (p : ascii -> bool) (k : string -> string -> option R)
    (taken s : string) : option R :=
  match
    match s with
    | String c s' =>
        if p c then greedy_star p k (taken +:+ String c EmptyString) s' else None
    | EmptyString => None
    end
  with
  | Some r => Some r
  | None => k taken s
  end.

Definition once (p : ascii -> bool) (k : string -> string -> option R) (s : string)
  : option R :=
  match s with
  | String c s' => if p c then k (String c EmptyString) s' else None
  | EmptyString => None
  end.

Definition quantify (q : quantifier) (p : ascii -> bool)
    (k : string -> string -> option R) (s : string) : option R :=
  match q with
  | Once => once p k s
  | LazyPlus => once p (fun first => lazy_star p k first) s
  | GreedyStar => greedy_star p k EmptyString s
  | GreedyPlus => once p (fun first => greedy_star p k first) s
  end.

End Matcher.

(** [text.match(/^...$/)]: the texts of the capture groups, in the order
    of the groups; [None] for [null]. *)
Fixpoint exec (pattern : list atom) (groups : list string) (s : string)
  : option (list string) :=
  match pattern with
  | [] => if String.eqb s "" then Some groups else None
  | a :: rest =>
      quantify (quantified a) (class a)
        (fun taken s' => exec rest (if captured a then groups ++ [taken] else groups) s')
        s
  end.

End Regex.

(** [s.replace(/,/g, ' ')] *)
Fixpoint replace_commas (s : string) : string :=
  match s with
  | EmptyString => EmptyString
  | String c s' => String (if Ascii.eqb c "," then " "%char else c) (replace_commas s')
  end.

(** [/^(.+?),\s*(.+?)\s*-\s*(.+)$/] *)
Definition teacher_pattern : list Regex.atom :=
  [ {| Regex.class := Regex.dot; Regex.quantified := Regex.LazyPlus;
       Regex.captured := true |};
    {| Regex.class := Regex.literal ","; Regex.quantified := Regex.Once;
       Regex.captured := false |};
    {| Regex.class := Regex.space; Regex.quantified := Regex.GreedyStar;
       Regex.captured := false |};
    {| Regex.class := Regex.dot; Regex.quantified := Regex.LazyPlus;
       Regex.captured := true |};
    {| Regex.class := Regex.space; Regex.quantified := Regex.GreedyStar;
       Regex.captured := false |};
    {| Regex.class := Regex.literal "-"; Regex.quantified := Regex.Once;
       Regex.captured := false |};
    {| Regex.class := Regex.space; Regex.quantified := Regex.GreedyStar;
       Regex.captured := false |};
    {| Regex.class := Regex.dot; Regex.quantified := Regex.GreedyPlus;
       Regex.captured := true |} ].

(** [formatTeacherName(name)], for a name that is a string. *)
Definition formatTeacherName (name : string) : string :=
  if String.eqb name "" then ""
  else
    match Regex.exec teacher_pattern [] name with
    | Some [lastName; firstName; code] =>
        trim firstName +:+ " " +:+ trim lastName +:+ " - " +:+ trim code
    | _ => replace_commas name
    end.

(** [trim(s, n)] of the summary, for a text [s] and a whole number [n]:
    [substring] takes a negative end for 0. *)
Module Summary.
Definition trim (s : string) (n : Z) : string :=
  if String.eqb s "" then ""
  else if Z.of_nat (String.length s) >? n
       then substring0 (Z.to_nat (n - 3)) s +:+ "..."
       else s.
End Summary.

(** Every code unit of the text is in the class. *)
Fixpoint all_chars (p : ascii -> bool) (s : string) : bool :=
  match s with
  | EmptyString => true
  | String c s' => p c && all_chars p s'
  end.

(** The atom asks for the character [d], once. *)
Definition asks_for (d : ascii) (a : Regex.atom) : Prop :=
  Regex.quantified a = Regex.Once /\ forall c, Regex.class a c = Ascii.eqb c d.

(** ** The text of the CSV export *)

Module Csv.

(** How [writeCsvFile] writes one value of a row: a text between quotes
    with the quotes inside doubled, a text between quotes as it is, or
    the value itself. *)
Inductive cell : Type :=
| Escaped (s : string)   (** [s.replace(/QUOTE/g, 'QUOTE QUOTE')] between quotes *)
| Raw (s : string)       (** [s] between quotes *)
| Bare (s : string).     (** a flag or a number, which [join] turns into its text *)

(** [s.replace(/QUOTE/g, 'QUOTE QUOTE')]: every quote is doubled. *)
Fixpoint double_quotes (s : string) : string :=
  match s with
  | EmptyString => EmptyString
  | String c s' =>
      if Ascii.eqb c Env.quote
      then String Env.quote (String Env.quote (double_quotes s'))
      else String c (double_quotes s')
  end.

Definition quoted (s : string) : string :=
  String Env.quote (s +:+ String Env.quote EmptyString).

Definition render (c : cell) : string :=
  match c with
  | Escaped s => quoted (double_quotes s)
  | Raw s => quoted s
  | Bare s => s
  end.

(** The value that a cell stands for. *)
Definition value (c : cell) : string :=
  match c with
  | Escaped s | Raw s | Bare s => s
  end.

Definition flag (b : bool) : string := if b then "TRUE" else "FALSE".

Definition headers : list string :=
  ["id"; "title"; "classId"; "teacherName"; "teacherEmail"; "studentCount";
   "status"; "dueDate"; "assignedDate"; "createdDate"; "modifiedDate";
   "allTurnedIn"; "anySubmittedState"; "allowLateSubmissions";
   "agg_total"; "agg_submitted"; "webUrl"].

Section Writer.
Context `{Host}.

(** The cells of the row of an item; [None] when building the row throws
    ([replace] on a teacher name that is no string, a teacher email that
    has no text). *)
Definition cells (item : Item.t) : option (list cell) :=
  match Item.teacherName item with
  | JStr teacherName =>
      teacherEmail ← js_String (Item.teacherEmail item);
      Some [Raw (Item.id item);
            Escaped (Item.title item);
            Raw (Item.classId item);
            Escaped teacherName;
            Raw teacherEmail;
            Bare (host_number_text (Js.num_of_Z (Z.of_nat (Item.studentCount item))));
            Raw (Item.status item);
            Raw (Item.dueDate item);
            Raw (Item.assignedDate item);
            Raw (Item.createdDate item);
            Raw (Item.modifiedDate item);
            Bare (flag (Item.allTurnedIn item));
            Bare (flag (Item.anySubmittedState item));
            Bare (flag (Item.allowLateSubmissions item));
            Bare (host_number_text (Item.agg_total item));
            Bare (host_number_text (Item.agg_submitted item));
            Raw (Item.webUrl item)]
  | _ => None
  end.

Definition line (cs : list cell) : string := join "," (render <$> cs).

(** [csvContent] of [writeCsvFile(items, filepath)]: the text that is
    written. *)
Definition csvContent (items : list Item.t) : option string :=
  rows ← mapM cells items;
  Some (join (String Env.newline EmptyString) (join "," headers :: (line <$> rows))).

End Writer.

(** Reading a CSV text the usual way (RFC 4180, records separated by a
    line feed): a field that starts with a quote runs to the next quote
    that is not doubled, and a doubled quote in it is one quote; any other
    field runs to the next comma or line feed and holds no quote. *)
Inductive reading : Type :=
| Plain (field : string)     (** in a field without quotes *)
| Quoted (field : string)    (** between the quotes of a field *)
| Closing (field : string).  (** behind a quote between the quotes *)

Record reader : Type := {
  records : list (list string);
  fields : list string;
  here : reading
}.

Definition push (c : ascii) (f : string) : string := f +:+ String c EmptyString.

Definition end_field (r : reader) (f : string) : reader :=
  {| records := records r; fields := fields r ++ [f]; here := Plain EmptyString |}.

Definition end_record (r : reader) (f : string) : reader :=
  {| records := records r ++ [fields r ++ [f]]; fields := []; here := Plain EmptyString |}.

Definition stay (r : reader) (h : reading) : reader :=
  {| records := records r; fields := fields r; here := h |}.

Definition read_char (r : reader) (c : ascii) : option reader :=
  match here r with
  | Plain f =>
      if Ascii.eqb c Env.quote
      then if String.eqb f "" then Some (stay r (Quoted EmptyString)) else None
      else if Ascii.eqb c "," then Some (end_field r f)
      else if Ascii.eqb c Env.newline then Some (end_record r f)
      else Some (stay r (Plain (push c f)))
  | Quoted f =>
      if Ascii.eqb c Env.quote then Some (stay r (Closing f))
      else Some (stay r (Quoted (push c f)))
  | Closing f =>
      if Ascii.eqb c Env.quote then Some (stay r (Quoted (push c f)))
      else if Ascii.eqb c "," then Some (end_field r f)
      else if Ascii.eqb c Env.newline then Some (end_record r f)
      else None
  end.

Fixpoint read_chars (r : reader) (s : string) : option reader :=
  match s with
  | EmptyString => Some r
  | String c s' =>
      match read_char r c with
      | Some r' => read_chars r' s'
      | None => None
      end
  end.

Definition start : reader := {| records := []; fields := []; here := Plain EmptyString |}.

Definition read (s : string) : option (list (list string)) :=
  match read_chars start s with
  | Some r =>
      match here r with
      | Plain f | Closing f => Some (records r ++ [fields r ++ [f]])
      | Quoted _ => None
      end
  | None => None
  end.

(** A cell that is read back as its value: a text written as it is
    holds no quote, a bare value holds no quote, comma or line feed. *)
Definition readable (c : cell) : bool :=
  match c with
  | Escaped _ => true
  | Raw s => negb (has_char Env.quote s)
  | Bare s =>
      negb (has_char Env.quote s) && negb (has_char "," s)
      && negb (has_char Env.newline s)
  end.

(** The field that a reader is in, when it is not between quotes. *)
Definition pending (r : reader) (f : string) : Prop :=
  here r = Plain f \/ here r = Closing f.

End Csv.

(** The row of the item can be built and read back. *)
Definition csv_readable `{Host} (item : Item.t) : bool :=
  match Csv.cells item with
  | Some cs => forallb Csv.readable cs
  | None => false
  end.

(** The values of the row of an item. *)
Definition csv_values `{Host} (item : Item.t) : list string :=
  match Csv.cells item with
  | Some cs => Csv.value <$> cs
  | None => []
  end.

(** An item whose title holds a comma and quotes. *)
Definition quoting_item : Item.t :=
  {| Item.id := "a1";
     Item.title := "Essay, " +:+ String Env.quote ("draft" +:+ String Env.quote " two");
     Item.description := ""; Item.dueDate := "1500";
     Item.assignedDate := ""; Item.createdDate := ""; Item.modifiedDate := "";
     Item.status := "assigned"; Item.classId := "c1";
     Item.teacherName := JStr "Gray, Ian - IRG"; Item.teacherEmail := JStr "irg@school.example";
     Item.studentCount := 2; Item.webUrl := "";
     Item.allTurnedIn := false; Item.anySubmittedState := true;
     Item.allowLateSubmissions := false;
     Item.agg_total := Js.num_of_Z 12; Item.agg_submitted := Js.num_of_Z 3 |}.

(** ** The counts of the summary *)

(** [counts.set(k, (counts.get(k) || 0) + 1)] on a [Map] in insertion
    order. *)
Fixpoint count_add {K : Type} (same : K -> K -> bool) (k : K) (counts : list (K * nat))
  : list (K * nat) :=
  match counts with
  | [] => [(k, 1%nat)]
  | (k', n) :: rest =>
      if same k' k then (k', S n) :: rest
      else (k', n) :: count_add same k rest
  end.

Section SummaryCounts.
Context `{Host}.

(** [yearCounts] and [monthCounts] of [printSummary(totalFetched,
    filteredItems, newCount)]. *)
Definition yearCounts (filteredItems : list Item.t) : list (Z * nat) :=
  foldl (fun counts item =>
           match partition_date item with
           | Some d => count_add Z.eqb (host_year d) counts
           | None => counts
           end) [] filteredItems.

Definition monthCounts (filteredItems : list Item.t) : list (string * nat) :=
  foldl (fun counts item =>
           match partition_date item with
           | Some d =>
               count_add String.eqb (year_text (host_year d) +:+ "/" +:+ host_month d)
                 counts
           | None => counts
           end) [] filteredItems.

End SummaryCounts.

(** The sizes of the groups of a partition. *)
Definition sizes {K : Type} (groups : list (K * list Item.t)) : list (K * nat) :=
  (fun g => (fst g, length (snd g))) <$> groups.

(** ** The correlation id of a request *)

(** [v.toString(16)] for a number from 0 to 15. *)
Definition hex_digit (v : Z) : ascii :=
  nth (Z.to_nat v)
    ["0"; "1"; "2"; "3"; "4"; "5"; "6"; "7"; "8"; "9"; "a"; "b"; "c"; "d"; "e"; "f"]%char
    "?"%char.

(** The callback of the replacement, for the character [c] and for [r],
    the value of [Math.random() * 16 | 0]. *)
Definition correlation_digit (c : ascii) (r : Z) : ascii :=
  let v := if Ascii.eqb c "x" then r else Z.lor (Z.land r 3) 8 in
  hex_digit v.

(** [template.replace(/[xy]/g, callback)]: the callback draws a number
    for every [x] and [y], from left to right; [draws n] is the n-th
    value of [Math.random() * 16 | 0]. *)
Fixpoint fill_template (template : string) (draws : nat -> Z) (n : nat) : string :=
  match template with
  | EmptyString => EmptyString
  | String c rest =>
      if Ascii.eqb c "x" || Ascii.eqb c "y"
      then String (correlation_digit c (draws n)) (fill_template rest draws (S n))
      else String c (fill_template rest draws n)
  end.

(** [generateCorrelationId()] *)
Definition generateCorrelationId (draws : nat -> Z) : string :=
  fill_template "xxxxxxxx-xxxx-4xxx-yxxx-xxxxxxxxxxxx" draws O.

(** A digit of base 16, in lower case. *)
Definition is_hex (c : ascii) : bool :=
  let n := nat_of_ascii c in
  ((48 <=? n)%nat && (n <=? 57)%nat) || ((97 <=? n)%nat && (n <=? 102)%nat).

(** The shape of a random (version 4) UUID at the position [i]. *)
Definition uuid_shape (i : nat) (c : ascii) : bool :=
  if (i =? 8)%nat || (i =? 13)%nat || (i =? 18)%nat || (i =? 23)%nat then Ascii.eqb c "-"
  else if (i =? 14)%nat then Ascii.eqb c "4"
  else if (i =? 19)%nat
       then Ascii.eqb c "8" || Ascii.eqb c "9" || Ascii.eqb c "a" || Ascii.eqb c "b"
       else is_hex c.

(** The text has the shape from the position [i] on. *)
Fixpoint shaped (i : nat) (s : string) : bool :=
  match s with
  | EmptyString => true
  | String c rest => uuid_shape i c && shaped (S i) rest
  end.

(** ** The token extractor: updating [.env]

    [simple-edge-extractor.mjs], the subprocess of the refresh, puts the
    values it captured into [.env]: for each of its three keys, every
    match of the pattern [KEY=.*] is replaced by the new line, and a file
    that does not hold [KEY=] gets the line appended. *)

Module Extractor.

Inductive key : Type := AUI_URL | AUI_TOKEN | AUI_SESSION_ID.

Definition name (k : key) : string :=
  match k with
  | AUI_URL => "AUI_URL"
  | AUI_TOKEN => "AUI_TOKEN"
  | AUI_SESSION_ID => "AUI_SESSION_ID"
  end.

(** The text [KEY=] with which the pattern starts. *)
Definition needle (k : key) : string := name k +:+ "=".

(** A line terminator, at which the dot of a pattern stops. *)
Definition terminator (c : ascii) : bool :=
  Ascii.eqb c Env.newline || Ascii.eqb c Env.carriage_return.

(** The text up to the next line terminator, and the text from there on. *)
Fixpoint rest_of_line (s : string) : string :=
  match s with
  | EmptyString => EmptyString
  | String c s' => if terminator c then EmptyString else String c (rest_of_line s')
  end.

Fixpoint after_line (s : string) : string :=
  match s with
  | EmptyString => EmptyString
  | String c s' => if terminator c then s else after_line s'
  end.

(** The replacement text of [replace] for a pattern without groups: two
    dollars stand for one, a dollar with an ampersand for the match, with
    a backtick for the text before the match, with an apostrophe for the
    text behind it; any other dollar stands for itself. *)
Fixpoint expand (replacement matched before after : string) : string :=
  match replacement with
  | EmptyString => EmptyString
  | String c r =>
      if Ascii.eqb c "$" then
        match r with
        | String d r' =>
            if Ascii.eqb d "$" then String "$" (expand r' matched before after)
            else if Ascii.eqb d "&" then matched +:+ expand r' matched before after
            else if Ascii.eqb d "`" then before +:+ expand r' matched before after
            else if Ascii.eqb d "'" then after +:+ expand r' matched before after
            else String c (expand r matched before after)
        | EmptyString => String c EmptyString
        end
      else String c (expand r matched before after)
  end.

(** [content.replace(new RegExp(KEY=.*, 'g'), line)], from a position of
    the content on; [before] is the content before the position. [scan]
    looks for the next match; [skip] is inside a match, which runs to the
    end of the line. No match starts at a line terminator: a key starts
    with a letter. *)
Fixpoint scan (start replacement before s : string) : string :=
  match s with
  | EmptyString => EmptyString
  | String c s' =>
      if String.prefix start s
      then expand replacement (rest_of_line s) before (after_line s)
           +:+ skip start replacement (before +:+ String c EmptyString) s'
      else String c (scan start replacement (before +:+ String c EmptyString) s')
  end
with skip (start replacement before s : string) : string :=
  match s with
  | EmptyString => EmptyString
  | String c s' =>
      if terminator c
      then String c (scan start replacement (before +:+ String c EmptyString) s')
      else skip start replacement (before +:+ String c EmptyString) s'
  end.

(** One turn of the loop over the updates; [value] is [None] for
    [null]. *)
Definition update (envContent : string) (k : key) (value : option string) : string :=
  match value with
  | Some v =>
      if String.eqb v "" then envContent
      else
        let line := AutoSync.entry (name k) v in
        if includes envContent (needle k)
        then scan (needle k) line EmptyString envContent
        else envContent +:+ String Env.newline line
  | None => envContent
  end.

(** [sanitizeAuiUrl(rawUrl)]; [withoutFilter] is the text of the URL
    without its filter parameter, or the URL itself when it cannot be
    parsed. *)
Definition sanitizeAuiUrl (withoutFilter : string -> string) (rawUrl : option string)
  : option string :=
  match rawUrl with
  | Some u => if String.eqb u "" then rawUrl else Some (withoutFilter u)
  | None => None
  end.

(** [saveTokensImmediately()]: the content written to [.env]; [file] is
    the content read, [None] when reading fails. The update at the end of
    [main] is the same loop over the address as it was captured. *)
Definition saveTokensImmediately (withoutFilter : string -> string) (file : option string)
    (url token session : option string) : string :=
  let envContent := default EmptyString file in
  let envContent := update envContent AUI_URL (sanitizeAuiUrl withoutFilter url) in
  let envContent := update envContent AUI_TOKEN token in
  update envContent AUI_SESSION_ID session.

End Extractor.

(** The text before the first occurrence of [start] in [s]. *)
Fixpoint cut (start s : string) : option string :=
  if String.prefix start s then Some EmptyString
  else match s with
       | EmptyString => None
       | String c s' => String c <$> cut start s'
       end.

(** A line in which the first match of the pattern is replaced. *)
Definition replace_line (start replacement line : string) : string :=
  match cut start line with
  | Some before => before +:+ replacement
  | None => line
  end.

(** No dollar of the text is followed by a dollar, an ampersand, a
    backtick or an apostrophe. *)
Fixpoint safe_dollars (r : string) : bool :=
  match r with
  | EmptyString => true
  | String c r' =>
      (negb (Ascii.eqb c "$")
       || match r' with
          | String d _ =>
              negb (Ascii.eqb d "$" || Ascii.eqb d "&" || Ascii.eqb d "`" || Ascii.eqb d "'")
          | EmptyString => true
          end)
      && safe_dollars r'
  end.

(** A value that the extractor can hand over: not empty, on one line,
    without a dollar that [replace] would expand, and without the text
    [KEY=] of one of the three keys. *)
Definition plain_value (v : string) : bool :=
  negb (String.eqb v "") && Env.single_line v && safe_dollars v
  && forallb (fun k => negb (includes v (Extractor.needle k)))
       [Extractor.AUI_URL; Extractor.AUI_TOKEN; Extractor.AUI_SESSION_ID].

(** Where the content holds [KEY=], a line starts with it. *)
Definition tidy (k : Extractor.key) (content : string) : Prop :=
  forall line, line ∈ split_on Env.newline content ->
    includes line (Extractor.needle k) = true ->
    String.prefix (Extractor.needle k) line = true.

(** The line after an update of the key [k] in a tidy content. *)
Definition set_line (k : Extractor.key) (v : string) (line : string) : string :=
  if String.prefix (Extractor.needle k) line then AutoSync.entry (Extractor.name k) v
  else line.

(** The value that the lines give to [k], starting from [found]: the
    loop of [file_value]. *)
Definition line_values (k : string) (found : option string) (lines : list string)
  : option string :=
  foldl (fun found line =>
           match Env.parse_line line with
           | Some (k', v) => if String.eqb k' k then Some v else found
           | None => found
           end)
        found lines.

(** A [.env] file from an earlier refresh, with a variable of its own. *)
Definition earlier_env : string :=
  join (String Env.newline EmptyString)
    ["NOTION_TOKEN=secret";
     AutoSync.entry "AUI_TOKEN" "h.1000000000.s";
     AutoSync.entry "AUI_URL" "https://listing.example/old"].

(** A request for the listing, a roster or a record. *)
Definition is_read (ev : event) : Prop :=
  match ev with
  | FetchAssignments _ | FetchMembers _ | FetchDetail _ _ => True
  | _ => False
  end.

(** A computation that returns or throws: it neither ends the process
    nor waits. *)
Definition settles {A : Type} (c : Sync A) : Prop :=
  forall s, match fst (c s) with
            | Returned _ | Threw => True
            | Ended | Pending => False
            end.

(** A run whose one assignment has a title of 32768 characters. *)
Module LongTitle.
Fixpoint filled (n : nat) : string :=
  match n with
  | O => ""
  | S n' => String "a" (filled n')
  end.

Definition title : string := filled (Z.to_nat 32768).

Definition pages : listing :=
  {| listing_response := fun n =>
       match n with
       | O => Some (JObj [("value",
                           JArr [JObj [("id", JStr "a1"); ("displayName", JStr title);
                                       ("classId", JStr "c1"); ("status", JStr "assigned");
                                       ("dueDateTime", JStr "1500")]])])
       | _ => None
       end |}.

(** The canonical record of that assignment without a roster. *)
Definition normal : Item.t :=
  {| Item.id := "a1"; Item.title := title; Item.description := "";
     Item.dueDate := "1500"; Item.assignedDate := ""; Item.createdDate := "";
     Item.modifiedDate := ""; Item.status := "assigned"; Item.classId := "c1";
     Item.teacherName := JStr ""; Item.teacherEmail := JStr ""; Item.studentCount := O;
     Item.webUrl := ""; Item.allTurnedIn := false; Item.anySubmittedState := false;
     Item.allowLateSubmissions := false;
     Item.agg_total := Js.num_of_Z 0; Item.agg_submitted := Js.num_of_Z 0 |}.
End LongTitle.

(** * Properties *)

Example strip_tags_simple : strip_tags "<p>Read <b>ch. 3</b></p>" = "Read ch. 3".
Proof. reflexivity. Qed.

Example strip_tags_unclosed : strip_tags "a < b" = "a < b".
Proof. reflexivity. Qed.

Example strip_tags_nested : strip_tags "<<b>x>" = "x>".
Proof. reflexivity. Qed.

Example trim_both : trim "  hi there
" = "hi there".
Proof. reflexivity. Qed.

Example split_token : split_on "." "aa.bb.cc" = ["aa"; "bb"; "cc"].
Proof. reflexivity. Qed.

Example split_empty : split_on "." "" = [""].
Proof. reflexivity. Qed.


(** ** Strings *)

Section StringFacts.

Lemma has_gt_false_strip (s : string) : has_gt s = false -> strip_tags s = s.
Proof.
  induction s as [|c s IH]; simpl; [done|].
  intros Hgt. apply orb_false_iff in Hgt as [_ Hs].
  rewrite Hs, (IH Hs). by destruct (is_lt c).
Qed.

Lemma has_gt_false_no_tag (s : string) : has_gt s = false -> has_tag s = false.
Proof.
  induction s as [|c s IH]; simpl; [done|].
  intros Hgt. apply orb_false_iff in Hgt as [_ Hs].
  rewrite Hs, (IH Hs). by rewrite andb_false_r.
Qed.

Lemma strip_skip_no_tag (s : string) :
  has_tag (strip_tags s) = false /\ has_tag (skip_tag s) = false.
Proof.
  induction s as [|c s [IHstrip IHskip]]; simpl; [done|].
  split.
  - destruct (is_lt c) eqn:Hc; simpl.
    + destruct (has_gt s) eqn:Hs; [done|].
      simpl. rewrite Hc, (has_gt_false_strip s Hs), Hs. simpl.
      by apply has_gt_false_no_tag.
    + by rewrite Hc.
  - by destruct (is_gt c).
Qed.

Lemma strip_tags_no_tag (s : string) : has_tag (strip_tags s) = false.
Proof. apply strip_skip_no_tag. Qed.

Lemma has_tag_tail (c : ascii) (s : string) : has_tag (String c s) = false -> has_tag s = false.
Proof. simpl. intros Hs. by apply orb_false_iff in Hs as [_ ?]. Qed.

Lemma trim_start_no_tag (s : string) : has_tag s = false -> has_tag (trim_start s) = false.
Proof.
  induction s as [|c s IH]; [done|].
  intros Hs. simpl. destruct (is_space c); [|done].
  apply IH. by eapply has_tag_tail.
Qed.

Lemma trim_end_has_gt (s : string) : has_gt (trim_end s) = true -> has_gt s = true.
Proof.
  induction s as [|c s IH]; simpl; [done|].
  destruct (trim_end s) as [|d r] eqn:Hr.
  - destruct (is_space c); simpl; [done|].
    rewrite orb_false_r. intros ->. done.
  - simpl. intros Hgt. apply orb_true_iff in Hgt as [->|Hgt]; [done|].
    rewrite IH; [by rewrite orb_true_r|done].
Qed.

Lemma trim_end_no_tag (s : string) : has_tag s = false -> has_tag (trim_end s) = false.
Proof.
  induction s as [|c s IH]; simpl; [done|].
  intros Hs. apply orb_false_iff in Hs as [Hc Hs].
  specialize (IH Hs).
  destruct (trim_end s) as [|d r] eqn:Hr.
  - destruct (is_space c); simpl; [done|]. by rewrite andb_false_r.
  - pose proof (trim_end_has_gt s) as Hgt. rewrite Hr in Hgt.
    change (has_tag (String c (String d r)))
      with ((is_lt c && has_gt (String d r)) || has_tag (String d r)).
    rewrite IH, orb_false_r.
    destruct (is_lt c); [|done]. simpl in Hc.
    destruct (has_gt (String d r)); [|done].
    by rewrite Hgt in Hc.
Qed.

Lemma plain_text_no_tag (c : string) : has_tag (plain_text c) = false.
Proof.
  unfold plain_text, trim.
  apply trim_end_no_tag, trim_start_no_tag, strip_tags_no_tag.
Qed.

End StringFacts.

Section TrimFacts.

Lemma trim_start_head (s : string) : head_space (trim_start s) = false.
Proof.
  induction s as [|c s IH]; simpl; [done|].
  destruct (is_space c) eqn:Hc; [done|]. simpl. by rewrite Hc.
Qed.

Lemma trim_end_head (s : string) : head_space s = false -> head_space (trim_end s) = false.
Proof.
  destruct s as [|c s]; simpl; [done|].
  intros Hc. destruct (trim_end s); simpl; by rewrite ?Hc.
Qed.

Lemma trim_end_last (s : string) : last_space (trim_end s) = false.
Proof.
  induction s as [|c s IH]; simpl; [done|].
  destruct (trim_end s) as [|d r] eqn:Hr.
  - destruct (is_space c) eqn:Hc; simpl; [done|by rewrite Hc].
  - exact IH.
Qed.

Lemma plain_text_trimmed (c : string) :
  head_space (plain_text c) = false /\ last_space (plain_text c) = false.
Proof.
  unfold plain_text, trim. split.
  - apply trim_end_head, trim_start_head.
  - apply trim_end_last.
Qed.

Lemma substring0_length (n : nat) (s : string) : (String.length (substring0 n s) <= n)%nat.
Proof.
  revert s. induction n as [|n IH]; intros [|c s]; simpl; try lia.
  specialize (IH s). lia.
Qed.

Lemma substring0_short (n : nat) (s : string) :
  (String.length s <= n)%nat -> substring0 n s = s.
Proof.
  revert s. induction n as [|n IH]; intros [|c s]; simpl; try done; try lia.
  intros Hs. f_equal. apply IH. lia.
Qed.

Lemma repeat_char_length (c : ascii) (n : nat) : String.length (repeat_char c n) = n.
Proof. induction n; simpl; congruence. Qed.

End TrimFacts.

(** ** Sessions: what a computation does to the session *)

Section Steps.
Context (R : relation session) `{!PreOrder R}.

Lemma steps_ret {A : Type} (a : A) : steps R (ret a).
Proof. intros s. simpl. reflexivity. Qed.

Lemma steps_throw {A : Type} : steps R (@throw A).
Proof. intros s. simpl. reflexivity. Qed.

Lemma steps_pending {A : Type} : steps R (@pending A).
Proof. intros s. simpl. reflexivity. Qed.

Lemma steps_ended {A : Type} : steps R (@ended A).
Proof. intros s. simpl. reflexivity. Qed.

Lemma steps_bind {A B : Type} (c : Sync A) (k : A -> Sync B) :
  steps R c -> (forall a, steps R (k a)) -> steps R (c ≫= k).
Proof.
  intros Hc Hk s. unfold mbind, sync_bind, bind.
  specialize (Hc s). destruct (c s) as [[a| | |] s']; simpl in *; try done.
  etrans; [exact Hc|apply Hk].
Qed.

Lemma steps_try_catch {A : Type} (c h : Sync A) :
  steps R c -> steps R h -> steps R (try_catch c h).
Proof.
  intros Hc Hh s. unfold try_catch.
  specialize (Hc s). destruct (c s) as [[a| | |] s']; simpl in *; try done.
  etrans; [exact Hc|apply Hh].
Qed.

Lemma steps_read (v : jsval) (k : string) : steps R (read v k).
Proof. unfold read. destruct (Js.get v k); [apply steps_ret|apply steps_throw]. Qed.

Lemma steps_exit {A : Type} (code : Z) : steps R (emit (Exit code)) -> steps R (@exit A code).
Proof. intros He s. exact (He s). Qed.

Lemma steps_emit_all (evs : list event) :
  (forall e, e ∈ evs -> steps R (emit e)) -> steps R (emit_all evs).
Proof.
  induction evs as [|e evs IH] using rev_ind; intros Hevs s.
  - unfold emit_all. simpl. rewrite app_nil_r. by destruct s.
  - etrans; [apply (IH ltac:(intros; apply Hevs; set_solver) s)|].
    unfold emit_all. simpl.
    assert (He : steps R (emit e)) by (apply Hevs; set_solver).
    specialize (He {| classMembers := classMembers s; issued := issued s ++ evs |}).
    simpl in He. by rewrite <- app_assoc in He.
Qed.

End Steps.

Global Instance extends_with_preorder (P : event -> Prop) : PreOrder (extends_with P).
Proof.
  split.
  - intros s. exists []. by rewrite app_nil_r.
  - intros s1 s2 s3 (evs1 & He1 & HP1) (evs2 & He2 & HP2).
    exists (evs1 ++ evs2).
    rewrite He2, He1, app_assoc. split; [done|]. by apply Forall_app.
Qed.

Global Instance keeps_roster_inv_preorder : PreOrder keeps_roster_inv.
Proof. split; unfold keeps_roster_inv; [intros s; done|intros s1 s2 s3; tauto]. Qed.

Lemma extends_with_emit (P : event -> Prop) (e : event) :
  P e -> steps (extends_with P) (emit e).
Proof. intros He s. exists [e]. split; [done|]. by constructor. Qed.

Lemma extends_with_weaken (P Q : event -> Prop) (s s' : session) :
  (forall e, P e -> Q e) -> extends_with P s s' -> extends_with Q s s'.
Proof.
  intros HPQ (evs & He & HP). exists evs. split; [done|].
  eapply Forall_impl; eauto.
Qed.

Lemma roster_fetches_app (evs1 evs2 : list event) :
  roster_fetches (evs1 ++ evs2) = roster_fetches evs1 ++ roster_fetches evs2.
Proof.
  induction evs1 as [|e evs1 IH]; simpl; [done|].
  destruct e; simpl; by rewrite ?IH.
Qed.

(** An event that is no roster request keeps the invariant of the cache. *)
Lemma emit_keeps_roster_inv (e : event) :
  ~ is_roster_fetch e -> steps keeps_roster_inv (emit e).
Proof.
  intros He s [Hnd Hdom]. unfold roster_inv. simpl.
  rewrite roster_fetches_app.
  assert (Hnone : roster_fetches [e] = []) by (destruct e; simpl in *; done).
  rewrite Hnone, app_nil_r. done.
Qed.

(** ** State commit *)

Lemma default_mode_sets_a_mode (a : args) :
  full (default_mode a) = true \/ incremental (default_mode a) = true.
Proof.
  unfold default_mode. destruct (incremental a) eqn:Hi, (full a) eqn:Hf; simpl; auto.
Qed.

Lemma parseArgs_sets_a_mode `{Host} (argv : list string) (a : args) :
  parseArgs argv = Parsed a -> full a = true \/ incremental a = true.
Proof.
  unfold parseArgs. repeat case_match; try done.
  intros [= <-]. apply default_mode_sets_a_mode.
Qed.

(** C2: the state commit. In full mode ([args.full], which the command
    line sets by default and which wins when both mode flags are given)
    the seen ids become exactly the processed ids; in incremental mode
    (the incremental flag without the full one) the seen ids become the
    prior ones followed by the processed ones that were not yet seen, so
    that an id is seen afterwards exactly when it was seen before or was
    processed, and nothing is removed; in both modes [lastRun] is the
    stamp of the current time. The command line always selects one of the
    two modes. *)
Theorem updateState_commit `{Host} (a : args) (st : state) (processedIds : list string)
    (stamp : string) :
  lastRun (updateState a st processedIds stamp) = Some stamp /\
  (full a = true -> seenIds (updateState a st processedIds stamp) = processedIds) /\
  (full a = false -> incremental a = true ->
     (forall i, i ∈ seenIds (updateState a st processedIds stamp)
                <-> i ∈ seenIds st \/ i ∈ processedIds) /\
     seenIds st `prefix_of` seenIds (updateState a st processedIds stamp)) /\
  (forall argv, parseArgs argv = Parsed a -> full a = true \/ incremental a = true).
Proof.
  split; [done|]. split; [|split].
  - intros Hf. unfold updateState. simpl. by rewrite Hf.
  - intros Hf Hi. unfold updateState. simpl. rewrite Hf, Hi. split.
    + intros i. rewrite elem_of_app, !list_elem_of_In, filter_In, <- !list_elem_of_In.
      rewrite negb_true_iff, bool_decide_eq_false.
      destruct (decide (i ∈ seenIds st)); tauto.
    + by eexists.
  - intros argv. apply parseArgs_sets_a_mode.
Qed.

Example updateState_full_drops :
  seenIds (updateState (default_mode default_args)
             {| lastRun := None; seenIds := ["a"; "b"] |} ["b"; "c"] "now")
  = ["b"; "c"].
Proof. reflexivity. Qed.

Example updateState_incremental_unions :
  seenIds (updateState (default_mode (set_incremental true default_args))
             {| lastRun := None; seenIds := ["a"; "b"] |} ["b"; "c"] "now")
  = ["a"; "b"; "c"].
Proof. reflexivity. Qed.

(** ** Filters *)

Section FilterFacts.
Context `{Host}.

(** The incomplete filter is one factor of the conjunction. *)
Lemma keep_incomplete (a : args) (st : state) (now_ms : Z) (item : Item.t) :
  keep a st now_ms item =
  keep (set_incomplete false a) st now_ms item
  && negb (incomplete a && (Item.allTurnedIn item && Item.anySubmittedState item)).
Proof.
  unfold keep. simpl.
  repeat (case_match; simpl; try done); by rewrite ?andb_true_r, ?andb_false_r.
Qed.

(** The incremental filter is one factor of the conjunction. *)
Lemma keep_incremental (a : args) (st : state) (now_ms : Z) (item : Item.t) :
  keep a st now_ms item =
  keep (set_incremental false a) st now_ms item
  && negb (incremental a && bool_decide (Item.id item ∈ seenIds st)).
Proof.
  unfold keep. simpl.
  repeat (case_match; simpl; try done); by rewrite ?andb_true_r, ?andb_false_r.
Qed.

Lemma keep_default (st : state) (now_ms : Z) (item : Item.t) :
  keep (default_mode default_args) st now_ms item = true.
Proof. reflexivity. Qed.

Lemma elem_of_applyFilters (a : args) (st : state) (now_ms : Z) (items : list Item.t)
    (item : Item.t) :
  item ∈ applyFilters a st now_ms items <-> item ∈ items /\ keep a st now_ms item = true.
Proof. unfold applyFilters. by rewrite !list_elem_of_In, filter_In. Qed.

End FilterFacts.

(** C7: with the incomplete filter enabled, an item leaves the result
    exactly when it is fully turned in and has a submitted state: the
    result is the result of the other filters without the items that are
    both; such an item is never in the result, an item that is fully
    turned in without a submitted state stays when the other filters keep
    it, and with no other filter set the result is the input without the
    items that are both. *)
Theorem incomplete_filter `{Host} (a : args) (st : state) (now_ms : Z)
    (items : list Item.t) (item : Item.t) :
  incomplete a = true ->
  (item ∈ applyFilters a st now_ms items
   <-> item ∈ applyFilters (set_incomplete false a) st now_ms items
       /\ ~ turned_in_and_submitted item) /\
  (turned_in_and_submitted item -> item ∉ applyFilters a st now_ms items) /\
  (Item.allTurnedIn item = true -> Item.anySubmittedState item = false ->
   item ∈ applyFilters (set_incomplete false a) st now_ms items ->
   item ∈ applyFilters a st now_ms items) /\
  (set_incomplete false a = default_mode default_args ->
   (item ∈ applyFilters a st now_ms items
    <-> item ∈ items /\ ~ turned_in_and_submitted item)).
Proof.
  intros Hinc.
  assert (Hiff : item ∈ applyFilters a st now_ms items
                 <-> item ∈ applyFilters (set_incomplete false a) st now_ms items
                     /\ ~ turned_in_and_submitted item).
  { rewrite !elem_of_applyFilters, keep_incomplete, Hinc. unfold turned_in_and_submitted.
    destruct (Item.allTurnedIn item), (Item.anySubmittedState item); simpl;
      rewrite ?andb_true_r, ?andb_false_r; intuition congruence. }
  split; [exact Hiff|]. split; [|split].
  - intros Hboth Hin. apply Hiff in Hin. tauto.
  - intros Hall Hany Hin. apply Hiff. split; [done|].
    unfold turned_in_and_submitted. intros [_ ?]. congruence.
  - intros Hdef. rewrite Hiff, elem_of_applyFilters, Hdef, keep_default. tauto.
Qed.

Lemma incomplete_filter_witness :
  let a := set_incomplete true (default_mode default_args) in
  let st := {| lastRun := None; seenIds := [] |} in
  let done_item := Demo.item "x" true true in
  let idle_item := Demo.item "y" true false in
  incomplete a = true /\
  (done_item ∉ @applyFilters Demo.host a st 0 [done_item; idle_item]) /\
  (idle_item ∈ @applyFilters Demo.host a st 0 [done_item; idle_item]).
Proof.
  intros a st done_item idle_item. split; [reflexivity|]. split.
  - destruct (@incomplete_filter Demo.host a st 0 [done_item; idle_item] done_item eq_refl)
      as (_ & Hout & _ & _).
    apply Hout. split; reflexivity.
  - destruct (@incomplete_filter Demo.host a st 0 [done_item; idle_item] idle_item eq_refl)
      as (_ & _ & Hin & _).
    apply Hin; [reflexivity|reflexivity|].
    apply elem_of_applyFilters. split; [|reflexivity].
    apply list_elem_of_In. right. left. reflexivity.
Defined.

(** ** Credential check *)

Section CredentialFacts.
Context `{Host}.

Lemma split_on_nonempty (sep : ascii) (s : string) : split_on sep s <> [].
Proof. destruct s as [|c s]; simpl; [done|]. by repeat case_match. Qed.

Lemma num_lt_of_Z (z : Z) (q : Q) :
  Js.num_lt (Js.num_of_Z z) (Fin q) = true <-> (inject_Z z < q)%Q.
Proof.
  unfold Js.num_lt, Js.num_of_Z. rewrite negb_true_iff.
  split.
  - intros Hle. apply Qnot_le_lt. intros Hq. apply Qle_bool_iff in Hq. congruence.
  - intros Hlt. destruct (Qle_bool q (inject_Z z)) eqn:Hle; [|done].
    apply Qle_bool_iff in Hle. by apply Qlt_not_le in Hlt.
Qed.

Lemma later_number_truthy (z : Z) (q : Q) :
  0 <= z -> (inject_Z z < q)%Q -> Js.num_truthy (Fin q) = true.
Proof.
  intros Hz Hlt. simpl. rewrite negb_true_iff.
  destruct (Qeq_bool q 0) eqn:Hq; [|done].
  apply Qeq_bool_iff in Hq. rewrite Hq in Hlt.
  assert (Hz' : (inject_Z 0 <= inject_Z z)%Q) by (rewrite <- Zle_Qle; lia).
  exfalso. apply (Qlt_not_le _ _ Hlt). exact Hz'.
Qed.

Lemma validateToken_iff (token : option string) (now_ms : Z) :
  validateToken token now_ms = true <->
  exists t header claims signature payload exp expiry,
    token = Some t /\
    split_on "." t = [header; claims; signature] /\
    host_decode_claims claims = Some payload /\
    Js.get payload "exp" = Some exp /\
    Js.truthy exp = true /\
    js_Number exp = Some expiry /\
    Js.num_lt (Js.num_of_Z (now_ms / 1000)) expiry = true.
Proof.
  unfold validateToken, js_gt_num. split.
  - destruct token as [t|]; [|done].
    destruct (String.eqb t ""); [done|].
    destruct (split_on "." t) as [|h [|c [|sg [|? ?]]]] eqn:Hparts; simpl; try done.
    destruct (host_decode_claims c) as [payload|] eqn:Hdec; [|done].
    destruct (Js.get payload "exp") as [exp|] eqn:Hexp; [|done].
    destruct (Js.truthy exp) eqn:Ht; [|done].
    destruct (js_Number exp) as [x|] eqn:Hx; simpl; [|done].
    intros Hlt. by exists t, h, c, sg, payload, exp, x.
  - intros (t & h & c & sg & payload & exp & x & -> & Hparts & Hdec & Hexp & Ht & Hx & Hlt).
    destruct (String.eqb t "") eqn:Hempty.
    { apply String.eqb_eq in Hempty as ->. done. }
    rewrite Hparts. simpl. rewrite Hdec, Hexp, Ht, Hx. exact Hlt.
Qed.

End CredentialFacts.

(** C6: the credential validator reports a token valid exactly when the
    token is there, has three parts between dots, its claims decode, and
    the expiry claim counts and is, as a number, later than now (in
    seconds). It reports invalid a missing or empty token, a token that
    has not three parts, claims that do not decode, claims without a
    readable expiry, and an expiry that is a number at or before now; for
    an expiry that is a number, and a clock that is not before 1970, valid
    means exactly that the expiry is later than now in whole seconds, and
    for an expiry that is a whole number of seconds, that it is later than
    the clock itself. *)
Theorem validateToken_fails_closed `{Host} (now_ms : Z) :
  (forall token,
     validateToken token now_ms = true <->
     exists t header claims signature payload exp expiry,
       token = Some t /\
       split_on "." t = [header; claims; signature] /\
       host_decode_claims claims = Some payload /\
       Js.get payload "exp" = Some exp /\
       Js.truthy exp = true /\
       js_Number exp = Some expiry /\
       Js.num_lt (Js.num_of_Z (now_ms / 1000)) expiry = true) /\
  validateToken None now_ms = false /\
  validateToken (Some "") now_ms = false /\
  (forall t, length (split_on "." t) <> 3%nat -> validateToken (Some t) now_ms = false) /\
  (forall t header claims signature,
     split_on "." t = [header; claims; signature] ->
     (host_decode_claims claims = None -> validateToken (Some t) now_ms = false) /\
     (forall payload, host_decode_claims claims = Some payload ->
        (Js.get payload "exp" = None -> validateToken (Some t) now_ms = false) /\
        (forall q, Js.get payload "exp" = Some (JNum (Fin q)) ->
           ((q <= inject_Z (now_ms / 1000))%Q -> validateToken (Some t) now_ms = false) /\
           (0 <= now_ms ->
            (validateToken (Some t) now_ms = true <-> (inject_Z (now_ms / 1000) < q)%Q))) /\
        (forall z, Js.get payload "exp" = Some (JNum (Js.num_of_Z z)) ->
           0 <= now_ms ->
           (validateToken (Some t) now_ms = true <-> now_ms < z * 1000)))).
Proof.
  split; [intros token; apply validateToken_iff|].
  split; [done|]. split; [done|]. split.
  - intros t Hlen. apply not_true_is_false. intros Hv.
    apply validateToken_iff in Hv as (t' & h & c & sg & ? & ? & ? & [= <-] & Hparts & _).
    rewrite Hparts in Hlen. done.
  - intros t h c sg Hparts. split.
    + intros Hdec. apply not_true_is_false. intros Hv.
      apply validateToken_iff in Hv
        as (t' & h' & c' & sg' & p & e & x & [= <-] & Hp & Hd & _).
      rewrite Hparts in Hp. simplify_eq.
    + intros payload Hdec.
      assert (Hnum : forall q, Js.get payload "exp" = Some (JNum (Fin q)) ->
                ((q <= inject_Z (now_ms / 1000))%Q -> validateToken (Some t) now_ms = false) /\
                (0 <= now_ms ->
                 (validateToken (Some t) now_ms = true
                  <-> (inject_Z (now_ms / 1000) < q)%Q))); [|split; [|split]].
      4:{ intros z Hexp Hnow.
          rewrite (proj2 (Hnum (inject_Z z) Hexp) Hnow), <- Zlt_Qlt.
          split; intros Hlt.
          - pose proof (Z.mul_succ_div_gt now_ms 1000 ltac:(lia)). lia.
          - apply Z.div_lt_upper_bound; lia. }
      2:{ intros Hexp. apply not_true_is_false. intros Hv.
          apply validateToken_iff in Hv
            as (t' & h' & c' & sg' & p & e & x & [= <-] & Hp & Hd & He & _).
          rewrite Hparts in Hp. simplify_eq. }
      2:{ exact Hnum. }
      * intros q Hexp.
        assert (Hiff : validateToken (Some t) now_ms = true
                       <-> Js.num_truthy (Fin q) = true /\ (inject_Z (now_ms / 1000) < q)%Q).
        { rewrite validateToken_iff. split.
          - intros (t' & h' & c' & sg' & p & e & x & [= <-] & Hp & Hd & He & Ht & Hx & Hlt).
            rewrite Hparts in Hp. simplify_eq. simpl in *. simplify_eq.
            split; [done|]. by apply num_lt_of_Z.
          - intros [Ht Hlt]. exists t, h, c, sg, payload, (JNum (Fin q)), (Fin q).
            repeat split; try done. by apply num_lt_of_Z. }
        split.
        -- intros Hle. apply not_true_is_false. intros Hv.
           apply Hiff in Hv as [_ Hlt]. by apply Qlt_not_le in Hlt.
        -- intros Hnow. rewrite Hiff. split; [tauto|].
           intros Hlt. split; [|done].
           apply (later_number_truthy (now_ms / 1000)); [|done].
           apply Z.div_pos; lia.
Qed.

(** ** The normalizer *)

Section NormalizerFacts.
Context `{Host}.
Variable net : network.

Lemma get_not_nullish (v : jsval) (k : string) :
  nullish v = false -> Js.get v k = Some (Js.get_opt v k).
Proof. unfold Js.get_opt. by destruct v. Qed.

Lemma get_nullish (v : jsval) (k : string) : nullish v = true -> Js.get v k = None.
Proof. by destruct v. Qed.

Lemma truthy_not_nullish (v : jsval) : Js.truthy v = true -> nullish v = false.
Proof. by destruct v. Qed.

Lemma get_opt_falsy (v : jsval) (k : string) :
  Js.truthy v = false -> Js.get_opt v k = JUndefined.
Proof. unfold Js.get_opt. destruct v as [| | | | | |fs]; simpl; done. Qed.

Lemma read_ok (v : jsval) (k : string) (s : session) :
  nullish v = false -> read v k s = (Returned (Js.get_opt v k), s).
Proof. intros Hv. unfold read. by rewrite (get_not_nullish v k Hv). Qed.

Lemma bind_read_ok {B : Type} (v : jsval) (k : string) (f : jsval -> Sync B) (s : session) :
  nullish v = false -> (read v k ≫= f) s = f (Js.get_opt v k) s.
Proof. intros Hv. unfold mbind, sync_bind, bind. by rewrite read_ok. Qed.

Lemma bind_read_nullish {B : Type} (v : jsval) (k : string) (f : jsval -> Sync B)
    (s : session) :
  nullish v = true -> (read v k ≫= f) s = (Threw, s).
Proof.
  intros Hv. unfold mbind, sync_bind, bind, read. by rewrite (get_nullish v k Hv).
Qed.

Lemma or_default (v : jsval) :
  Js.truthy (Js.or v (JStr "")) = false -> Js.or v (JStr "") = JStr "".
Proof. unfold Js.or. by destruct (Js.truthy v) eqn:Hv; [rewrite Hv|]. Qed.

(** What [described] gives for a record that can be read. *)
Lemma described_spec (r : jsval) (d : string) (s : session) :
  nullish r = false ->
  described r d s =
  (if Js.truthy (instructions_content r)
   then match instructions_content r with
        | JStr c => Returned (plain_text c)
        | _ => Threw
        end
   else Returned d, s).
Proof.
  intros Hr. unfold described, instructions_content. rewrite bind_read_ok by done.
  destruct (Js.truthy (Js.get_opt r "instructions")) eqn:Hins.
  - rewrite bind_read_ok by (by apply truthy_not_nullish).
    destruct (Js.truthy (Js.get_opt (Js.get_opt r "instructions") "content")) eqn:Hc;
      [|done].
    unfold content_text. by destruct (Js.get_opt _ "content").
  - by rewrite (get_opt_falsy _ "content" Hins).
Qed.

(** The text that [described] returns is free of tags and trimmed, or it
    is the text it started from. *)
Lemma described_returns (r : jsval) (d d' : string) (s s' : session) :
  nullish r = false ->
  described r d s = (Returned d', s') ->
  s' = s /\
  ((Js.truthy (instructions_content r) = false /\ d' = d) \/
   (exists c, instructions_content r = JStr c /\ c <> "" /\ d' = plain_text c)).
Proof.
  intros Hr. rewrite described_spec by done.
  destruct (Js.truthy (instructions_content r)) eqn:Ht.
  - destruct (instructions_content r) as [| | | |c| |] eqn:Hc; try done.
    intros [= <- <-]. split; [done|]. right. exists c. split; [done|]. split; [|done].
    intros ->. done.
  - intros [= <- <-]. split; [done|]. by left.
Qed.

(** The roster block always returns. *)
Lemma roster_info_returns (raw : jsval) (classId : string) (s : session) :
  nullish raw = false ->
  exists teacherName teacherEmail studentCount s',
    roster_info net raw classId s = (Returned (teacherName, teacherEmail, studentCount), s') /\
    (Js.truthy teacherName = false -> teacherName = JStr "") /\
    (Js.truthy teacherEmail = false -> teacherEmail = JStr "") /\
    (classId = "" -> teacherName = JStr "" /\ teacherEmail = JStr "" /\ studentCount = O
                     /\ s' = s) /\
    (classMembers s !! classId = None ->
     members_response net (length (issued s)) classId = None ->
     teacherName = JStr "" /\ teacherEmail = JStr "" /\ studentCount = O).
Proof.
  intros Hraw. unfold roster_info, try_catch.
  destruct (String.eqb classId "") eqn:Hcid; simpl.
  { apply String.eqb_eq in Hcid. eexists _, _, _, _. split; [done|]. by repeat split. }
  apply String.eqb_neq in Hcid.
  unfold mbind, sync_bind, bind.
  destruct (fetchClassMembers net classId s) as [o s1] eqn:Hfetch.
  assert (Ho : exists m, o = Returned m /\
                (classMembers s !! classId = None ->
                 members_response net (length (issued s)) classId = None ->
                 m = empty_members)).
  { unfold fetchClassMembers in Hfetch.
    destruct (classMembers s !! classId) as [m|] eqn:Hm.
    - simplify_eq. exists m. split; [done|]. done.
    - simplify_eq. eexists. split; [done|]. intros _ ->. done. }
  destruct Ho as (m & -> & Hempty).
  unfold resolve_teacher. rewrite bind_read_ok by done. simpl.
  eexists _, _, _, _. split; [done|].
  split; [|split; [|split]].
  - repeat case_match; simpl; try done; apply or_default.
  - repeat case_match; simpl; try done; apply or_default.
  - done.
  - intros Hc Hn. rewrite (Hempty Hc Hn). simpl.
    by destruct (Js.truthy (Js.get_opt _ "id")).
Qed.

End NormalizerFacts.

Section DescriptionFacts.
Context `{Host}.
Variable net : network.

Lemma bind_convert {A B : Type} (o : option A) (f : A -> Sync B) (s : session) :
  (convert o ≫= f) s = match o with Some a => f a s | None => (Threw, s) end.
Proof. by destruct o. Qed.

(** The detail request and what it can add to a description [listed]:
    the block returns when the id can be put into a text, and what it
    returns is [listed] or the plain text of the detail. *)
Lemma detail_fallback (raw rawId : jsval) (classId listed : string) (s : session) :
  nullish raw = false ->
  let block :=
    try_catch
      (read raw "displayName" ≫= fun displayName =>
       convert (js_String displayName) ≫= fun _ =>
       fetchDetailedAssignment net classId rawId ≫= fun detailedAssignment =>
         match detailedAssignment with
         | Some detail => if Js.truthy detail then described detail listed else ret listed
         | None => ret listed
         end)
      (convert (js_String rawId) ≫= fun _ => ret listed) in
  (is_Some (js_String rawId) -> exists d s', block s = (Returned d, s')) /\
  (forall d s', block s = (Returned d, s') ->
     d = listed \/
     exists detail c,
       detail_response net (length (issued s)) classId rawId = Some detail /\
       instructions_content detail = JStr c /\ d = plain_text c).
Proof.
  intros Hraw. cbv zeta.
  unfold try_catch, fetchDetailedAssignment, request_detail, read.
  rewrite (get_not_nullish raw "displayName" Hraw).
  unfold mbind, sync_bind, bind, convert, ret, throw.
  destruct (js_String (Js.get_opt raw "displayName")) as [title|];
    destruct (js_String rawId) as [i|]; simpl;
    try (split; [by intros ?%is_Some_None|done]);
    try (split; [by eexists _, _|intros d s' [= <- <-]; by left]).
  destruct (detail_response net _ classId _) as [detail|] eqn:Hresp; simpl;
    [|split; [by eexists _, _|intros d s' [= <- <-]; by left]].
  destruct (Js.truthy detail) eqn:Hd; simpl;
    [|split; [by eexists _, _|intros d s' [= <- <-]; by left]].
  rewrite described_spec by (by apply truthy_not_nullish).
  destruct (Js.truthy (instructions_content detail)); simpl;
    [|split; [by eexists _, _|intros d s' [= <- <-]; by left]].
  destruct (instructions_content detail) as [| | | |c| |] eqn:Hc; simpl;
    try (split; [by eexists _, _|intros d s' [= <- <-]; by left]).
  split; [by eexists _, _|]. intros d s' [= <- <-]. right. by exists detail, c.
Qed.

(** The description block returns when the listed instructions hold a
    text or nothing that counts and the id can be put into a text; it
    throws when the listed instructions hold something that counts and is
    no text. *)
Lemma description_of_outcome (raw : jsval) (classId : string) (s : session) :
  nullish raw = false ->
  (content_ok raw = true ->
   is_Some (js_String (Js.or (Js.get_opt raw "id") (JStr ""))) ->
   exists d s', description_of net raw classId s = (Returned d, s')) /\
  (content_ok raw = false -> description_of net raw classId s = (Threw, s)).
Proof.
  intros Hraw.
  assert (Hblock : forall listed,
    is_Some (js_String (Js.or (Js.get_opt raw "id") (JStr ""))) ->
    exists d s',
      (if String.eqb listed "" && negb (String.eqb classId "")
          && Js.truthy (Js.get_opt raw "id")
       then
         try_catch
           (read raw "displayName" ≫= fun displayName =>
            convert (js_String displayName) ≫= fun _ =>
            fetchDetailedAssignment net classId (Js.get_opt raw "id")
              ≫= fun detailedAssignment =>
              match detailedAssignment with
              | Some detail =>
                  if Js.truthy detail then described detail listed else ret listed
              | None => ret listed
              end)
           (convert (js_String (Js.get_opt raw "id")) ≫= fun _ => ret listed)
       else ret listed) s = (Returned d, s')).
  { intros listed Hid.
    destruct (Js.truthy (Js.get_opt raw "id")) eqn:Hi;
      [|rewrite andb_false_r; by eexists _, _].
    destruct (_ && _); simpl; [|by eexists _, _].
    unfold Js.or in Hid. rewrite Hi in Hid.
    exact (proj1 (detail_fallback raw (Js.get_opt raw "id") classId listed s Hraw) Hid). }
  unfold content_ok. split; [intros Hok Hid|intros Hok]; unfold description_of;
    unfold mbind at 1, sync_bind at 1, bind at 1;
    rewrite described_spec by done;
    destruct (Js.truthy (instructions_content raw)) eqn:Ht; simpl in Hok; try done.
  - destruct (instructions_content raw) as [| | | |c| |] eqn:Hc; try done.
    rewrite bind_read_ok by done. exact (Hblock (plain_text c) Hid).
  - rewrite bind_read_ok by done. exact (Hblock "" Hid).
  - by destruct (instructions_content raw).
Qed.

(** What the description block returns has a source, holds no tag and is
    trimmed. *)
Lemma description_of_returns (raw : jsval) (classId d : string) (s s' : session) :
  nullish raw = false ->
  description_of net raw classId s = (Returned d, s') ->
  description_source net raw classId s d /\
  has_tag d = false /\ head_space d = false /\ last_space d = false.
Proof.
  intros Hraw Hret.
  assert (Hsrc : description_source net raw classId s d).
  { revert Hret. unfold description_of, description_source.
    unfold mbind at 1, sync_bind at 1, bind at 1.
    rewrite described_spec by done.
    destruct (Js.truthy (instructions_content raw)) eqn:Ht.
    - destruct (instructions_content raw) as [| | | |c| |] eqn:Hc; try done.
      rewrite bind_read_ok by done.
      destruct (String.eqb (plain_text c) "") eqn:Hempty; simpl.
      + apply String.eqb_eq in Hempty.
        destruct (_ && _).
        * intros Hret.
          apply (proj2 (detail_fallback raw (Js.get_opt raw "id") classId
                          (plain_text c) s Hraw)) in Hret as Hd.
          rewrite Hempty in Hd. destruct Hd as [->|Hd].
          -- right. split; [right; by exists c|by left].
          -- right. split; [right; by exists c|by right].
        * intros [= <- <-]. right. split; [right; by exists c|by left].
      + apply String.eqb_neq in Hempty. intros [= <- <-]. left. by exists c.
    - rewrite bind_read_ok by done. simpl.
      destruct (_ && _).
      + intros Hret.
        apply (proj2 (detail_fallback raw (Js.get_opt raw "id") classId "" s Hraw))
          in Hret as Hd.
        destruct Hd as [->|Hd]; right; split; auto.
      + intros [= <- <-]. right. split; auto. }
  split; [done|].
  assert (Hplain : d = "" \/ exists c, d = plain_text c).
  { destruct Hsrc as [(c & _ & _ & ->)|[_ [->|(detail & c & _ & _ & ->)]]]; eauto. }
  destruct Hplain as [->|[c ->]]; [done|].
  split; [apply plain_text_no_tag|apply plain_text_trimmed].
Qed.

Lemma canonical_spec (raw aggregates : jsval) (classId : string) (t e : jsval) (n : nat)
    (d : string) (s : session) :
  nullish raw = false ->
  aggregates = Js.or (Js.get_opt raw "submissionAggregates") (JObj []) ->
  canonical raw aggregates classId t e n d s =
  (match coerce raw classId t e n d with
   | Some item => Returned item
   | None => Threw
   end, s).
Proof.
  intros Hraw ->. unfold canonical, coerce.
  assert (Hagg : nullish (Js.or (Js.get_opt raw "submissionAggregates") (JObj [])) = false).
  { unfold Js.or. destruct (Js.truthy _) eqn:Ht; [by apply truthy_not_nullish|done]. }
  repeat first
    [ rewrite bind_read_ok by done
    | rewrite bind_convert;
      match goal with
      | |- match ?o with Some _ => _ | None => _ end = _ => destruct o; simpl; [|done]
      end ].
  done.
Qed.

(** [normalizeAssignment] by its blocks. *)
Lemma normalizeAssignment_blocks (raw : jsval) (s : session) :
  nullish raw = false ->
  match class_of raw with
  | None => normalizeAssignment net raw s = (Threw, s)
  | Some classId =>
      exists t e n s1,
        roster_info net raw classId s = (Returned (t, e, n), s1) /\
        normalizeAssignment net raw s =
        match description_of net raw classId s1 with
        | (Returned d, s2) =>
            (match coerce raw classId t e n d with
             | Some item => Returned item
             | None => Threw
             end, s2)
        | (Threw, s2) => (Threw, s2)
        | (Ended, s2) => (Ended, s2)
        | (Pending, s2) => (Pending, s2)
        end
  end.
Proof.
  intros Hraw. unfold normalizeAssignment. rewrite !bind_read_ok by done.
  rewrite bind_convert. fold (class_of raw).
  destruct (class_of raw) as [classId|]; [|done].
  destruct (roster_info_returns net raw classId s Hraw)
    as (t & e & n & s1 & Hroster & _).
  exists t, e, n, s1. split; [done|].
  unfold mbind at 1, sync_bind at 1, bind at 1. rewrite Hroster.
  unfold mbind at 1, sync_bind at 1, bind at 1.
  destruct (description_of net raw classId s1) as [[d| | |] s2]; try done.
  by apply canonical_spec.
Qed.

End DescriptionFacts.

Section NormalizerTheorems.
Context `{Host}.
Variable net : network.

Lemma coerce_defaults (raw t e : jsval) (n : nat) (d classId : string) (item : Item.t) :
  class_of raw = Some classId ->
  (Js.truthy t = false -> t = JStr "") ->
  (Js.truthy e = false -> e = JStr "") ->
  coerce raw classId t e n d = Some item ->
  defaults_hold raw item.
Proof.
  intros Hclass Ht He. unfold coerce, class_of, Js.or in *.
  intros Hitem.
  repeat match type of Hitem with
         | context [js_String ?v] =>
             let E := fresh "E" in destruct (js_String v) eqn:E; simpl in Hitem; [|done]
         | context [js_Number ?v] =>
             let E := fresh "E" in destruct (js_Number v) eqn:E; simpl in Hitem; [|done]
         end.
  injection Hitem as <-.
  unfold defaults_hold, js_Boolean, iso, Js.or. simpl.
  repeat split; try done;
    intros Habsent; rewrite Habsent in *; simpl in *; congruence.
Qed.

Lemma coerce_fields (raw t e : jsval) (n : nat) (d classId : string) (item : Item.t) :
  coerce raw classId t e n d = Some item ->
  Item.description item = d /\ Item.classId item = classId /\
  Item.teacherName item = t /\ Item.teacherEmail item = e /\ Item.studentCount item = n.
Proof.
  unfold coerce. intros Hitem.
  repeat match type of Hitem with
         | context [js_String ?v] => destruct (js_String v); simpl in Hitem; [|done]
         | context [js_Number ?v] => destruct (js_Number v); simpl in Hitem; [|done]
         end.
  by injection Hitem as <-.
Qed.

Lemma coerce_coercible (raw t e : jsval) (n : nat) (d classId : string) :
  coercible raw -> is_Some (coerce raw classId t e n d).
Proof.
  intros (_ & [? Hid] & [? Htitle] & [? Hstatus] & [? Hurl] & [? Htotal] & [? Hsub]).
  unfold coerce. rewrite Hid, Htitle, Hstatus, Hurl. simpl. rewrite Htotal, Hsub. simpl.
  by eexists.
Qed.

Lemma primitive_converts (v d : jsval) :
  primitive v = true -> primitive d = true ->
  is_Some (js_String (Js.or v d)) /\ is_Some (js_Number (Js.or v d)).
Proof.
  intros Hv Hd. unfold Js.or.
  destruct (Js.truthy v); [destruct v|destruct d]; try done; by split; eexists.
Qed.

(** A record whose coerced fields are primitive values is coerced without
    an exception. *)
Lemma primitive_fields_coercible (raw : jsval) :
  primitive_fields raw = true -> coercible raw.
Proof.
  unfold primitive_fields, coercible, class_of. cbv zeta. intros Hp.
  repeat (apply andb_true_iff in Hp as [Hp ?]).
  repeat split; by apply primitive_converts.
Qed.

Lemma notion_properties_notes (item : Item.t) (entry : notion_entry) :
  notion_properties item = Some entry ->
  external_id entry = Item.id item /\ source entry = item /\
  notes entry = substring0 2000 (Item.description item).
Proof.
  unfold notion_properties. destruct (_ && _); [done|].
  destruct (formatDate (Item.assignedDate item)); [|done].
  destruct (formatDate (Item.createdDate item)); [|done].
  destruct (formatDate (Item.dueDate item)); [|done].
  destruct (formatDate (Item.modifiedDate item)); [|done].
  simpl. by intros [= <-].
Qed.

End NormalizerTheorems.

(** C1 (as amended): the description of the canonical record that
    [normalizeAssignment] returns is the instructions text with the tags
    stripped and the white space trimmed, taken from the listed record or,
    when that gives no text, from the detail; it holds no tag and is
    trimmed. The normalizer puts no cap on its length: the cap at 2000
    code units is applied where the properties for the remote store are
    computed, whose notes are the first 2000 code units of the
    description. *)
Theorem description_is_plain_text `{Host} (net : network) (raw : jsval) (s s' : session)
    (item : Item.t) :
  normalizeAssignment net raw s = (Returned item, s') ->
  (exists classId t e n s1,
     class_of raw = Some classId /\
     roster_info net raw classId s = (Returned (t, e, n), s1) /\
     description_source net raw classId s1 (Item.description item)) /\
  has_tag (Item.description item) = false /\
  head_space (Item.description item) = false /\
  last_space (Item.description item) = false /\
  (forall entry, notion_properties item = Some entry ->
     notes entry = substring0 2000 (Item.description item) /\
     (String.length (notes entry) <= 2000)%nat /\
     ((String.length (Item.description item) <= 2000)%nat ->
      notes entry = Item.description item)).
Proof.
  intros Hret.
  destruct (nullish raw) eqn:Hraw.
  { unfold normalizeAssignment in Hret. by rewrite bind_read_nullish in Hret. }
  pose proof (normalizeAssignment_blocks net raw s Hraw) as Hblocks.
  destruct (class_of raw) as [classId|] eqn:Hclass; [|congruence].
  destruct Hblocks as (t & e & n & s1 & Hroster & Hnorm).
  rewrite Hnorm in Hret.
  destruct (description_of net raw classId s1) as [[d| | |] s2] eqn:Hd; try done.
  destruct (coerce raw classId t e n d) as [item'|] eqn:Hitem; [|done].
  injection Hret as <- <-.
  apply coerce_fields in Hitem as (Hdesc & _). rewrite Hdesc.
  destruct (description_of_returns net raw classId d s1 s2 Hraw Hd)
    as (Hsrc & Htag & Hhead & Hlast).
  split; [by exists classId, t, e, n, s1|]. split; [done|]. split; [done|]. split; [done|].
  intros entry Hentry. apply notion_properties_notes in Hentry as (_ & _ & ->).
  rewrite Hdesc.
  split; [done|]. split; [apply substring0_length|apply substring0_short].
Qed.

Lemma description_is_plain_text_witness :
  exists item s',
    @normalizeAssignment Demo.host Demo.school (Demo.raw "a1" "<b>Read</b> it ") new_session
    = (Returned item, s') /\
    Item.description item = "Read it" /\
    has_tag (Item.description item) = false.
Proof.
  eexists _, _. split; [vm_compute; reflexivity|]. split; [reflexivity|].
  eapply (@description_is_plain_text Demo.host Demo.school
            (Demo.raw "a1" "<b>Read</b> it ") new_session).
  vm_compute. reflexivity.
Defined.

(** C1 (as stated) fails: the normalizer does not cap the description. The
    instructions of this record are 2001 letters, and so is the
    description. *)
Lemma description_exceeds_cap :
  exists item s',
    @normalizeAssignment Demo.host Demo.offline (Demo.raw "a1" (repeat_char "a" 2001))
      new_session = (Returned item, s') /\
    String.length (Item.description item) = 2001%nat /\
    ~ (String.length (Item.description item) <= 2000)%nat.
Proof.
  eexists _, _. split; [vm_compute; reflexivity|].
  match goal with
  | |- ?len = _ /\ _ => assert (Hlen : len = 2001%nat) by (vm_compute; reflexivity)
  end.
  split; [exact Hlen|]. rewrite Hlen. lia.
Qed.

(** C10 (as amended): [normalizeAssignment] returns a canonical record for
    every raw record that is an object (not [null], not [undefined]) and
    whose instructions hold a text or nothing that counts, whatever the
    network answers to the roster and to the detail request. The fields
    that go through a coercion have the type of the record and the
    defaults (the empty text, [false], zero); the teacher name and email
    are the empty text unless the roster gives something that counts; a
    record without class, and a roster lookup that fails, leave the
    teacher fields empty and the student count at zero; the record of the
    empty object is the record of the defaults. *)
Theorem normalizeAssignment_total `{Host} (net : network) (raw : jsval) (s : session) :
  nullish raw = false ->
  content_ok raw = true ->
  coercible raw ->
  exists item s',
    normalizeAssignment net raw s = (Returned item, s') /\
    defaults_hold raw item /\
    (Item.classId item = "" ->
     Item.teacherName item = JStr "" /\ Item.teacherEmail item = JStr ""
     /\ Item.studentCount item = O) /\
    (classMembers s !! Item.classId item = None ->
     members_response net (length (issued s)) (Item.classId item) = None ->
     Item.teacherName item = JStr "" /\ Item.teacherEmail item = JStr ""
     /\ Item.studentCount item = O) /\
    (forall s0, normalizeAssignment net (JObj []) s0 = (Returned blank_item, s0)).
Proof.
  intros Hraw Hcontent Hco.
  pose proof (normalizeAssignment_blocks net raw s Hraw) as Hblocks.
  destruct (class_of raw) as [classId|] eqn:Hclass;
    [|destruct Hco as [[? Hsome] _]; congruence].
  destruct Hblocks as (t' & e' & n' & s1' & Hroster' & Hnorm).
  destruct (roster_info_returns net raw classId s Hraw)
    as (t & e & n & s1 & Hroster & Ht & He & Hnoclass & Hfail).
  rewrite Hroster in Hroster'. injection Hroster' as <- <- <- <-.
  destruct (proj1 (description_of_outcome net raw classId s1 Hraw) Hcontent
              (proj1 (proj2 Hco)))
    as (d & s2 & Hd).
  rewrite Hd in Hnorm.
  destruct (coerce_coercible raw t e n d classId Hco) as [item Hitem].
  rewrite Hitem in Hnorm.
  exists item, s2. split; [done|].
  split; [exact (coerce_defaults raw t e n d classId item Hclass Ht He Hitem)|].
  apply coerce_fields in Hitem as (_ & -> & -> & -> & ->).
  split; [intros Hc; by destruct (Hnoclass Hc) as (? & ? & ? & _)|].
  split; [done|].
  intros s0. reflexivity.
Qed.

Lemma normalizeAssignment_total_witness :
  nullish (JObj []) = false /\
  content_ok (JObj []) = true /\
  @coercible Demo.host (JObj []) /\
  exists item s',
    @normalizeAssignment Demo.host Demo.offline (JObj []) new_session = (Returned item, s').
Proof.
  assert (Hco : @coercible Demo.host (JObj []))
    by (unfold coercible; simpl; repeat split; by eexists).
  split; [reflexivity|]. split; [reflexivity|]. split; [exact Hco|].
  destruct (@normalizeAssignment_total Demo.host Demo.offline (JObj []) new_session
              eq_refl eq_refl Hco) as (item & s' & Hret & _).
  by exists item, s'.
Defined.

(** C10 (as stated) fails: instructions whose content is a number make the
    normalizer throw, outside of any handler. *)
Lemma normalizeAssignment_throws :
  fst (@normalizeAssignment Demo.host Demo.offline
         (JObj [("id", JStr "a1");
                ("instructions", JObj [("content", JNum (Js.num_of_Z 5))])])
         new_session) = Threw.
Proof. reflexivity. Qed.

(** ** The stages of a run, one relation at a time

    Whatever relation on sessions is kept by the roster lookup and by the
    ordinary events is kept by every stage behind the credential check. *)

Ltac steps_tac R :=
  repeat first
    [ apply (steps_ret R) | apply (steps_throw R) | apply (steps_pending R)
    | apply (steps_ended R)
    | apply (steps_read R)
    | apply (steps_try_catch R)
    | apply (steps_bind R); [|intros ?]
    | progress case_match ].

Section StageSteps.
Context `{Host}.
Variable net : network.
Variable pages : listing.
Variable store : remote.
Variable tm : timing.
Context (R : relation session) `{!PreOrder R}.
Hypothesis Hroster : forall classId, steps R (fetchClassMembers net classId).
Hypothesis Hemit : forall e, ordinary e -> steps R (emit e).

Lemma ordinary_emit (e : event) :
  match e with LaunchExtractor | ReloadEnv | FetchMembers _ => False | _ => True end ->
  steps R (emit e).
Proof. intros He. apply Hemit. unfold ordinary. destruct e; simpl in *; tauto. Qed.

Lemma steps_exit_code {A : Type} (code : Z) : steps R (@exit A code).
Proof. apply (steps_exit R). by apply ordinary_emit. Qed.

Lemma steps_convert {A : Type} (o : option A) : steps R (convert o).
Proof. unfold convert. steps_tac R. Qed.

Lemma steps_content_text (content : jsval) : steps R (content_text content).
Proof. unfold content_text. steps_tac R. Qed.

Lemma steps_described (r : jsval) (d : string) : steps R (described r d).
Proof. unfold described. steps_tac R; apply steps_content_text. Qed.

Lemma steps_request_detail (classId : string) (i : jsval) :
  steps R (request_detail net classId i).
Proof.
  intros s. exact (ordinary_emit (FetchDetail classId i) I s).
Qed.

Lemma steps_fetchDetailedAssignment (classId : string) (i : jsval) :
  steps R (fetchDetailedAssignment net classId i).
Proof.
  unfold fetchDetailedAssignment.
  apply (steps_bind R); [apply steps_convert|intros _; apply steps_request_detail].
Qed.

Lemma steps_resolve_teacher (raw : jsval) (m : members) : steps R (resolve_teacher raw m).
Proof. unfold resolve_teacher. steps_tac R. Qed.

Lemma steps_roster_info (raw : jsval) (classId : string) :
  steps R (roster_info net raw classId).
Proof.
  unfold roster_info. apply (steps_try_catch R); [|apply (steps_ret R)].
  destruct (negb _); [|apply (steps_ret R)].
  apply (steps_bind R); [apply Hroster|intros m; apply steps_resolve_teacher].
Qed.

Lemma steps_description_of (raw : jsval) (classId : string) :
  steps R (description_of net raw classId).
Proof.
  unfold description_of.
  apply (steps_bind R); [apply steps_described|intros listed].
  apply (steps_bind R); [apply (steps_read R)|intros rawId].
  destruct (_ && _ && _); [|apply (steps_ret R)].
  apply (steps_try_catch R);
    [|apply (steps_bind R); [apply steps_convert|intros _; apply (steps_ret R)]].
  apply (steps_bind R); [apply (steps_read R)|intros displayName].
  apply (steps_bind R); [apply steps_convert|intros _].
  apply (steps_bind R); [apply steps_fetchDetailedAssignment|intros [detail|]];
    [|apply (steps_ret R)].
  destruct (Js.truthy detail); [apply steps_described|apply (steps_ret R)].
Qed.

Lemma steps_canonical (raw aggregates : jsval) (classId : string) (t e : jsval) (n : nat)
    (d : string) :
  steps R (canonical raw aggregates classId t e n d).
Proof.
  unfold canonical.
  repeat (apply (steps_bind R); [first [apply (steps_read R)|apply steps_convert]|intros ?]).
  apply (steps_ret R).
Qed.

Lemma steps_normalizeAssignment (raw : jsval) : steps R (normalizeAssignment net raw).
Proof.
  unfold normalizeAssignment.
  apply (steps_bind R); [apply (steps_read R)|intros aggregates].
  apply (steps_bind R); [apply (steps_read R)|intros rawClassId].
  apply (steps_bind R); [apply steps_convert|intros classId].
  apply (steps_bind R); [apply steps_roster_info|intros [[t e] n]].
  apply (steps_bind R); [apply steps_description_of|intros d].
  apply steps_canonical.
Qed.

Lemma steps_normalizeAll (raws : list jsval) : steps R (normalizeAll net raws).
Proof.
  induction raws as [|raw rest IH]; simpl; [apply (steps_ret R)|].
  apply (steps_bind R); [apply steps_normalizeAssignment|intros normalized].
  apply (steps_bind R); [apply IH|intros others]. apply (steps_ret R).
Qed.

Lemma steps_fetch_pages (fuel n : nat) (allItems : list jsval) :
  steps R (fetch_pages pages fuel n allItems).
Proof.
  revert n allItems. induction fuel as [|fuel IH]; intros n allItems; simpl.
  { apply (steps_pending R). }
  apply (steps_bind R); [by apply ordinary_emit|intros _].
  destruct (listing_response pages n) as [data|]; [|apply steps_exit_code].
  apply (steps_bind R); [apply (steps_read R)|intros value].
  apply (steps_bind R); [apply (steps_read R)|intros nextLink].
  destruct (Js.truthy nextLink); [apply IH|apply (steps_ret R)].
Qed.

Lemma steps_fetchAllAssignments (fuel : nat) (e : environ) :
  steps R (fetchAllAssignments pages fuel e).
Proof.
  unfold fetchAllAssignments.
  destruct (negb _); [apply steps_exit_code|].
  destruct (negb _); [apply steps_exit_code|]. apply steps_fetch_pages.
Qed.

Lemma steps_writeCsvFile (items : list Item.t) (filepath : string) :
  steps R (writeCsvFile items filepath).
Proof.
  unfold writeCsvFile. destruct (forallb _ _); [by apply ordinary_emit|apply (steps_throw R)].
Qed.

Lemma steps_write_as (f : format) (items : list Item.t) (dir : string) :
  steps R (write_as f items dir).
Proof. destruct f; simpl; [by apply ordinary_emit|apply steps_writeCsvFile]. Qed.

Lemma steps_write_groups (f : format) (root : string)
    (groups : list (string * list Item.t)) :
  steps R (write_groups f root groups).
Proof.
  induction groups as [|[k xs] rest IH]; simpl; [apply (steps_ret R)|].
  apply (steps_bind R); [apply steps_write_as|intros _; apply IH].
Qed.

Lemma steps_writeOrganizedFiles (items : list Item.t) (f : format) :
  steps R (writeOrganizedFiles items f).
Proof.
  unfold writeOrganizedFiles.
  apply (steps_bind R); [apply steps_write_groups|intros _; apply steps_write_groups].
Qed.

Lemma steps_writeJsonFile (items : list Item.t) : steps R (writeJsonFile items).
Proof.
  unfold writeJsonFile.
  apply (steps_bind R); [by apply ordinary_emit|intros _; apply steps_writeOrganizedFiles].
Qed.

Lemma steps_writeXlsxFile (items : list Item.t) : steps R (writeXlsxFile items).
Proof.
  unfold writeXlsxFile. destruct (sheet_writable _); [|apply (steps_throw R)].
  apply (steps_bind R); [by apply ordinary_emit|intros _].
  apply (steps_bind R); [apply steps_writeCsvFile|intros _; apply steps_writeOrganizedFiles].
Qed.

Lemma steps_writeNotionPayload (items : list Item.t) : steps R (writeNotionPayload items).
Proof.
  unfold writeNotionPayload.
  destruct (mapM _ _); [by apply ordinary_emit|apply (steps_throw R)].
Qed.

Lemma steps_getExistingNotionIds (fuel n : nat) (ids : gset string) :
  steps R (getExistingNotionIds store fuel n ids).
Proof.
  revert n ids. induction fuel as [|fuel IH]; intros n ids; simpl.
  { apply (steps_pending R). }
  apply (steps_bind R); [by apply ordinary_emit|intros _].
  destruct (query_response store n) as [|pgs more]; [apply (steps_ret R)|].
  destruct (add_pages pgs ids) as [ids' [|]]; [|apply (steps_ret R)].
  destruct more; [apply IH|apply (steps_ret R)].
Qed.

Lemma steps_upload_loop (delayMs : Z) (newItems : list Item.t) (n : nat)
    (clock lastCall : Z) (uploaded failed : nat) :
  steps R (upload_loop store tm delayMs newItems n clock lastCall uploaded failed).
Proof.
  revert n clock lastCall uploaded failed.
  induction newItems as [|item rest IH]; intros n clock lastCall uploaded failed; simpl.
  { apply (steps_ret R). }
  destruct (notion_properties item) as [entry|]; [|apply IH].
  apply (steps_bind R); [by apply ordinary_emit|intros _].
  destruct (create_response store n); apply IH.
Qed.

Lemma steps_uploadToNotion (fuel : nat) (e : environ) (clock : Z) (items : list Item.t) :
  steps R (uploadToNotion store tm fuel e clock items).
Proof.
  unfold uploadToNotion. destruct (_ || _); [apply (steps_ret R)|].
  apply (steps_bind R); [apply steps_getExistingNotionIds|intros existingIds].
  destruct (List.filter _ items); [apply (steps_ret R)|].
  apply (steps_bind R); [apply steps_upload_loop|intros _; apply (steps_ret R)].
Qed.

Lemma steps_export_and_commit (clk : clock) (fuel : nat) (a : args) (st : state)
    (e : environ) (normalized : list Item.t) :
  steps R (export_and_commit store tm clk fuel a st e normalized).
Proof.
  unfold export_and_commit.
  apply (steps_bind R); [apply steps_writeJsonFile|intros _].
  apply (steps_bind R); [apply steps_writeXlsxFile|intros _].
  apply (steps_bind R); [apply steps_writeNotionPayload|intros _].
  apply (steps_bind R); [apply steps_uploadToNotion|intros _].
  apply (steps_bind R); [by apply ordinary_emit|intros _].
  apply steps_exit_code.
Qed.

Lemma steps_sync (clk : clock) (fuel : nat) (a : args) (st : state) (e : environ) :
  steps R (sync net pages store tm clk fuel a st e).
Proof.
  unfold sync.
  apply (steps_bind R); [apply steps_fetchAllAssignments|intros raws].
  apply (steps_bind R); [apply steps_normalizeAll|intros normalized].
  apply steps_export_and_commit.
Qed.

Lemma steps_show_details (spec : string) (e : environ) :
  steps R (show_details net spec e).
Proof.
  unfold show_details. cbv zeta.
  destruct (_ || _); [apply steps_exit_code|].
  destruct (negb _); [apply (steps_throw R)|].
  apply (steps_bind R); [by apply ordinary_emit|intros _].
  destruct (details_response net _ _) as [assignment|]; [|apply (steps_throw R)].
  apply (steps_bind R); [apply (steps_read R)|intros displayName].
  apply (steps_bind R); [apply steps_convert|intros _].
  apply (steps_bind R); [apply (steps_read R)|intros instructions].
  apply (steps_bind R);
    [destruct (Js.truthy _); [apply steps_content_text|apply (steps_ret R)]|intros _].
  do 3 (apply (steps_bind R); [apply steps_convert|intros _]).
  by apply ordinary_emit.
Qed.

(** The whole run, given that the events of the credential check keep
    the relation too. *)
Lemma steps_run (refresh : refresh_world) (clk : clock) (fuel : nat) (a : args)
    (st : state) (e : environ) :
  (forall ev, ev ∈ fst (ensureCredential a refresh (at_start clk) e) ->
              steps R (emit ev)) ->
  steps R (run net pages store tm refresh clk fuel a st e).
Proof.
  intros Hcred. unfold run.
  apply (steps_try_catch R); [|apply steps_exit_code].
  destruct (ensureCredential a refresh (at_start clk) e) as [evs [e'|]]; simpl in Hcred.
  - apply (steps_bind R); [by apply (steps_emit_all R)|intros _].
    destruct (details a) as [spec|]; [|apply steps_sync].
    destruct (String.eqb spec ""); [apply steps_sync|apply steps_show_details].
  - apply (steps_bind R); [by apply (steps_emit_all R)|intros _]. apply (steps_ended R).
Qed.

End StageSteps.

(** ** The roster cache *)

Section RosterCache.
Context `{Host}.
Variable net : network.

Lemma fetchClassMembers_hit (classId : string) (m : members) (s : session) :
  classMembers s !! classId = Some m ->
  fetchClassMembers net classId s = (Returned m, s).
Proof. intros Hm. unfold fetchClassMembers. by rewrite Hm. Qed.

Lemma fetchClassMembers_miss (classId : string) (s : session) :
  classMembers s !! classId = None ->
  exists m,
    fetchClassMembers net classId s =
    (Returned m, {| classMembers := <[classId := m]> (classMembers s);
                    issued := issued s ++ [FetchMembers classId] |}) /\
    ((members_response net (length (issued s)) classId = None \/
      exists data, members_response net (length (issued s)) classId = Some data
                   /\ build_members data = None) ->
     m = empty_members).
Proof.
  intros Hm. unfold fetchClassMembers. rewrite Hm. eexists. split; [done|].
  intros [->|(data & -> & ->)]; done.
Qed.

Lemma fetchClassMembers_keeps_inv (classId : string) :
  steps keeps_roster_inv (fetchClassMembers net classId).
Proof.
  intros s [Hnd Hdom].
  destruct (classMembers s !! classId) as [m|] eqn:Hm.
  - by rewrite (fetchClassMembers_hit classId m s Hm).
  - destruct (fetchClassMembers_miss classId s Hm) as (m & -> & _).
    unfold roster_inv. simpl. rewrite roster_fetches_app. simpl. split.
    + apply NoDup_app. split; [done|]. split; [|apply NoDup_singleton].
      intros c Hc Hc'. apply list_elem_of_singleton in Hc' as ->.
      apply Hdom in Hc as [? Hc]. congruence.
    + intros c Hc. apply elem_of_app in Hc as [Hc|Hc].
      * destruct (decide (classId = c)) as [->|Hne].
        -- rewrite lookup_insert_eq. by eexists.
        -- rewrite lookup_insert_ne by done. by apply Hdom.
      * apply list_elem_of_singleton in Hc as ->. rewrite lookup_insert_eq. by eexists.
Qed.

Lemma fetchClassMembers_grows (classId : string) :
  steps cache_grows (fetchClassMembers net classId).
Proof.
  intros s c m Hc.
  destruct (classMembers s !! classId) as [m'|] eqn:Hm.
  - by rewrite (fetchClassMembers_hit classId m' s Hm).
  - destruct (fetchClassMembers_miss classId s Hm) as (m' & -> & _). simpl.
    rewrite lookup_insert_ne; [done|]. intros ->. congruence.
Qed.

Lemma fetchClassMembers_events (P : event -> Prop) (classId : string) :
  (forall c, P (FetchMembers c)) -> steps (extends_with P) (fetchClassMembers net classId).
Proof.
  intros HP s.
  destruct (classMembers s !! classId) as [m|] eqn:Hm.
  - rewrite (fetchClassMembers_hit classId m s Hm). simpl. reflexivity.
  - destruct (fetchClassMembers_miss classId s Hm) as (m & -> & _). simpl.
    exists [FetchMembers classId]. split; [done|]. by constructor.
Qed.

End RosterCache.

Global Instance cache_grows_preorder : PreOrder cache_grows.
Proof. split; unfold cache_grows; [intros s; done|intros s1 s2 s3 H12 H23 c m Hc; auto]. Qed.

Lemma emit_grows (e : event) : steps cache_grows (emit e).
Proof. by intros s c m Hc. Qed.

Lemma credential_events `{Host} (a : args) (w : refresh_world) (now_ms : Z) (e : environ)
    (ev : event) :
  ev ∈ fst (ensureCredential a w now_ms e) ->
  ev = LaunchExtractor \/ ev = ReloadEnv \/ ev = Exit 1.
Proof.
  assert (Hin : forall evs : list event,
            Forall (fun x => x = LaunchExtractor \/ x = ReloadEnv \/ x = Exit 1) evs ->
            ev ∈ evs -> ev = LaunchExtractor \/ ev = ReloadEnv \/ ev = Exit 1).
  { intros evs Hall Hev. by apply (proj1 (Forall_forall _ _) Hall). }
  unfold ensureCredential, refreshTokensIfNeeded.
  destruct (shouldAutoRefresh a e).
  - destruct (_ || _); [|simpl; apply Hin; constructor].
    destruct (extractor w) as [[[| |]|]|];
      try (simpl; apply Hin; repeat (constructor; [auto|]); constructor).
    destruct (validateToken _ _); simpl; apply Hin;
      repeat (constructor; [auto|]); constructor.
  - destruct (validateToken _ _); simpl; apply Hin;
      repeat (constructor; [auto|]); constructor.
Qed.

(** C9: within one run at most one roster is requested per class: the
    events of a whole run, whatever the command line, the environment and
    the answers of the network, hold no two roster requests for the same
    class; the same holds for the normalization of any list of records
    from a session that satisfies the invariant of the cache. A roster
    that is in the cache is returned without a request, the entries of the
    cache stay for the rest of the run, and a lookup that fails (no
    answer, or an answer that cannot be read) puts the empty roster into
    the cache and returns it. *)
Theorem one_roster_fetch_per_class `{Host} (net : network) (pages : listing) (store : remote)
    (tm : timing) (refresh : refresh_world) (clk : clock) (fuel : nat) :
  (forall argv state_file e,
     NoDup (roster_fetches (main net pages store tm refresh clk fuel argv state_file e))) /\
  (forall raws s, roster_inv s ->
     roster_inv (snd (normalizeAll net raws s)) /\
     cache_grows s (snd (normalizeAll net raws s))) /\
  (forall classId m s, classMembers s !! classId = Some m ->
     fetchClassMembers net classId s = (Returned m, s)) /\
  (forall classId s, classMembers s !! classId = None ->
     (members_response net (length (issued s)) classId = None \/
      exists data, members_response net (length (issued s)) classId = Some data
                   /\ build_members data = None) ->
     fst (fetchClassMembers net classId s) = Returned empty_members /\
     classMembers (snd (fetchClassMembers net classId s)) !! classId = Some empty_members /\
     issued (snd (fetchClassMembers net classId s)) = issued s ++ [FetchMembers classId]).
Proof.
  split; [|split; [|split]].
  - intros argv state_file e. unfold main.
    destruct (parseArgs argv) as [a|code]; [|simpl; constructor].
    assert (Hkeep : forall ev, ordinary ev -> steps keeps_roster_inv (emit ev))
      by (intros ev [Hev _]; by apply emit_keeps_roster_inv).
    assert (Hrun : steps keeps_roster_inv
                     (run net pages store tm refresh clk fuel a (loadState state_file) e)).
    { apply (steps_run net pages store tm keeps_roster_inv
               (fetchClassMembers_keeps_inv net) Hkeep).
      intros ev Hev. apply emit_keeps_roster_inv.
      apply credential_events in Hev as [-> | [-> | ->]]; simpl; tauto. }
    apply (Hrun new_session). split; [constructor|]. intros c Hc. simpl in Hc. set_solver.
  - intros raws s Hinv. split.
    + assert (Hkeep : forall ev, ordinary ev -> steps keeps_roster_inv (emit ev))
        by (intros ev [Hev _]; by apply emit_keeps_roster_inv).
      exact (steps_normalizeAll net keeps_roster_inv
               (fetchClassMembers_keeps_inv net) Hkeep raws s Hinv).
    + exact (steps_normalizeAll net cache_grows (fetchClassMembers_grows net)
               (fun ev _ => emit_grows ev) raws s).
  - intros classId m s. apply fetchClassMembers_hit.
  - intros classId s Hm Hfail.
    destruct (fetchClassMembers_miss net classId s Hm) as (m & -> & Hempty).
    rewrite (Hempty Hfail). simpl. by rewrite lookup_insert_eq.
Qed.

(** ** Credential refresh *)

Section RefreshFacts.
Context `{Host}.

Lemma loadEnv_override (content : string) (e : environ) (k : string) :
  Env.loadEnv true (Some content) e !! k =
  match file_value content k with
  | Some v => Some v
  | None => e !! k
  end.
Proof.
  unfold Env.loadEnv, file_value.
  assert (Hgen : forall lines (acc : environ) found,
            acc !! k = match found with Some v => Some v | None => e !! k end ->
            foldl (fun acc line =>
                     match Env.parse_line line with
                     | Some (k', v) =>
                         if true || negb (Env.truthy acc k') then <[k' := v]> acc else acc
                     | None => acc
                     end) acc lines !! k
            = match foldl (fun found line =>
                             match Env.parse_line line with
                             | Some (k', v) => if String.eqb k' k then Some v else found
                             | None => found
                             end) found lines with
              | Some v => Some v
              | None => e !! k
              end).
  { induction lines as [|line lines IH]; intros acc found Hacc; simpl; [done|].
    apply IH. destruct (Env.parse_line line) as [[k' v]|]; [|done]. simpl.
    destruct (String.eqb_spec k' k) as [->|Hne].
    - by rewrite lookup_insert_eq.
    - by rewrite lookup_insert_ne. }
  by apply Hgen.
Qed.

Lemma validateToken_needs_token (e : environ) (now_ms : Z) :
  Env.truthy e "AUI_TOKEN" = false -> validateToken (e !! "AUI_TOKEN") now_ms = false.
Proof.
  unfold Env.truthy, validateToken. destruct (e !! "AUI_TOKEN") as [t|]; [|done].
  rewrite negb_false_iff. by intros ->.
Qed.

Lemma refresh_needed (e : environ) (now_ms : Z) :
  negb (Env.truthy e "AUI_TOKEN") || negb (validateToken (e !! "AUI_TOKEN") now_ms)
  = negb (validateToken (e !! "AUI_TOKEN") now_ms).
Proof.
  destruct (Env.truthy e "AUI_TOKEN") eqn:Ht; [done|].
  by rewrite validateToken_needs_token.
Qed.

Lemma ensureCredential_valid (a : args) (w : refresh_world) (now_ms : Z) (e : environ) :
  validateToken (e !! "AUI_TOKEN") now_ms = true ->
  ensureCredential a w now_ms e = ([], Some e).
Proof.
  intros Hv. unfold ensureCredential, refreshTokensIfNeeded.
  rewrite refresh_needed, Hv. simpl. by destruct (shouldAutoRefresh a e).
Qed.

Lemma parse_flag_refreshTokens (a : args) (arg : string) :
  refreshTokens (parse_flag a arg)
  = refreshTokens a || String.eqb arg "--refresh-tokens".
Proof.
  destruct (String.eqb_spec arg "--refresh-tokens") as [->|Hne].
  - by rewrite orb_true_r.
  - rewrite orb_false_r. apply String.eqb_neq in Hne.
    unfold parse_flag. rewrite Hne. by repeat case_match.
Qed.

Lemma foldl_parse_flag_refreshTokens (argv : list string) (a : args) :
  refreshTokens (foldl parse_flag a argv)
  = refreshTokens a || bool_decide ("--refresh-tokens" ∈ argv).
Proof.
  revert a. induction argv as [|arg argv IH]; intros a; simpl.
  { by rewrite orb_false_r. }
  rewrite IH, parse_flag_refreshTokens, <- orb_assoc. f_equal.
  destruct (String.eqb_spec arg "--refresh-tokens") as [->|Hne]; simpl.
  - done.
  - apply bool_decide_ext. rewrite elem_of_cons.
    split; [auto|intros [Heq|Hin]; [congruence|done]].
Qed.

Lemma parseArgs_refreshTokens (argv : list string) (a : args) :
  parseArgs argv = Parsed a ->
  refreshTokens a = bool_decide ("--refresh-tokens" ∈ argv).
Proof.
  unfold parseArgs. repeat case_match; try done. intros [= <-].
  unfold default_mode. case_match; simpl; by rewrite foldl_parse_flag_refreshTokens.
Qed.

End RefreshFacts.

(** C5 (as amended): the refresh returns true at once, without launching
    the extractor and without touching the environment, exactly when the
    current credential is valid; a request to refresh ([--refresh-tokens])
    does not force a launch. When the credential is missing or expired the
    extractor is launched; an end other than exit code 0 makes the refresh
    fail; after exit code 0 the [.env] file is loaded again with override
    (a key that the file sets takes the value of its last line whatever
    the environment held, the other keys stay) and the answer is the
    validation of the credential now in the environment. *)
Theorem refreshTokensIfNeeded_contract `{Host} (w : refresh_world) (now_ms : Z)
    (e : environ) :
  (validateToken (e !! "AUI_TOKEN") now_ms = true ->
   refreshTokensIfNeeded w now_ms e = ([], true, e) /\
   forall a, ensureCredential a w now_ms e = ([], Some e)) /\
  (validateToken (e !! "AUI_TOKEN") now_ms = false ->
   (extractor w <> Closed (Some 0) ->
    refreshTokensIfNeeded w now_ms e = ([LaunchExtractor], false, e)) /\
   (extractor w = Closed (Some 0) ->
    let e' := Env.loadEnv true (dotenv_after w) e in
    refreshTokensIfNeeded w now_ms e
    = ([LaunchExtractor; ReloadEnv], validateToken (e' !! "AUI_TOKEN") (clock_after w), e')
    /\ (forall content k, dotenv_after w = Some content ->
          e' !! k = match file_value content k with Some v => Some v | None => e !! k end)
    /\ (dotenv_after w = None -> e' = e))).
Proof.
  split.
  - intros Hv. split; [|intros a; by apply ensureCredential_valid].
    unfold refreshTokensIfNeeded. by rewrite refresh_needed, Hv.
  - intros Hv. unfold refreshTokensIfNeeded. rewrite refresh_needed, Hv. simpl. split.
    + intros Hend. by destruct (extractor w) as [[[| |]|]|].
    + intros ->. split; [done|]. split.
      * intros content k ->. apply loadEnv_override.
      * by intros ->.
Qed.

(** C5 (as stated) fails: with a valid credential a forced refresh
    launches nothing. *)
Lemma forced_refresh_launches_nothing :
  let e : gmap string string := {[ "AUI_TOKEN" := "h.2000000000.s" ]} in
  let a := parse_flag default_args "--refresh-tokens" in
  refreshTokens a = true /\
  @validateToken Demo.host (e !! "AUI_TOKEN") 1700000000000 = true /\
  @ensureCredential Demo.host a World.no_refresh 1700000000000 e = ([], Some e) /\
  LaunchExtractor ∉ fst (@ensureCredential Demo.host a World.no_refresh 1700000000000 e).
Proof.
  intros e a.
  assert (Hv : @validateToken Demo.host (e !! "AUI_TOKEN") 1700000000000 = true)
    by (vm_compute; reflexivity).
  split; [reflexivity|]. split; [exact Hv|].
  rewrite (@ensureCredential_valid Demo.host a World.no_refresh _ e Hv).
  split; [done|]. simpl. apply not_elem_of_nil.
Qed.

(** C4 (as amended): under a continuous-integration environment, or with
    auto-refresh switched off, a run whose command line does not hold
    [--refresh-tokens] never launches the extractor, whatever else the
    command line holds; when the credential does not validate, such a run
    does nothing but end with status 1. (With [--refresh-tokens] the
    refresh is attempted in every environment.) *)
Theorem ci_never_launches `{Host} (net : network) (pages : listing) (store : remote)
    (tm : timing) (refresh : refresh_world) (clk : clock) (fuel : nat)
    (argv : list string) (state_file : option state) (e : environ) :
  isCi e = true \/ autoRefreshDisabled e = true ->
  "--refresh-tokens" ∉ argv ->
  (LaunchExtractor ∉ main net pages store tm refresh clk fuel argv state_file e) /\
  (forall a, parseArgs argv = Parsed a ->
     validateToken (e !! "AUI_TOKEN") (at_start clk) = false ->
     main net pages store tm refresh clk fuel argv state_file e = [Exit 1]).
Proof.
  intros Hpolicy Hflag. unfold main.
  destruct (parseArgs argv) as [a|code] eqn:Hparse.
  2:{ split; [|done]. intros Hin. apply list_elem_of_singleton in Hin. done. }
  assert (Ha : refreshTokens a = false).
  { rewrite (parseArgs_refreshTokens argv a Hparse). by apply bool_decide_eq_false_2. }
  assert (Hauto : shouldAutoRefresh a e = false).
  { unfold shouldAutoRefresh. rewrite Ha. simpl.
    destruct Hpolicy as [-> | ->]; [done|by rewrite andb_false_r]. }
  assert (Hcred : ensureCredential a refresh (at_start clk) e
                  = if validateToken (e !! "AUI_TOKEN") (at_start clk)
                    then ([], Some e) else ([Exit 1], None)).
  { unfold ensureCredential. by rewrite Hauto. }
  split.
  - assert (Hrun : steps (extends_with (fun ev => ev <> LaunchExtractor))
                     (run net pages store tm refresh clk fuel a (loadState state_file) e)).
    { apply (steps_run net pages store tm (extends_with (fun ev => ev <> LaunchExtractor))).
      - intros classId. by apply fetchClassMembers_events.
      - intros ev [_ Hev]. apply extends_with_emit. intros ->. by apply Hev.
      - intros ev Hev. apply extends_with_emit. rewrite Hcred in Hev.
        destruct (validateToken _ _); simpl in Hev.
        + by apply elem_of_nil in Hev.
        + apply list_elem_of_singleton in Hev as ->. done. }
    destruct (Hrun new_session) as (evs & -> & Hall). simpl.
    intros Hin. by apply (proj1 (Forall_forall _ _) Hall) in Hin.
  - intros a' [= <-] Hv. unfold run, try_catch. rewrite Hcred, Hv. reflexivity.
Qed.

Lemma ci_never_launches_witness :
  let e : gmap string string := {[ "CI" := "true" ]} in
  (@isCi e = true \/ autoRefreshDisabled e = true) /\
  ("--refresh-tokens" ∉ ["--incremental"; "--overdue"]) /\
  @main Demo.host Demo.offline World.no_pages World.empty_store World.exact
    World.no_refresh (World.at_time 1700000000000) 5 ["--incremental"; "--overdue"] None e
  = [Exit 1].
Proof.
  intros e.
  assert (Hci : isCi e = true \/ autoRefreshDisabled e = true) by (left; reflexivity).
  assert (Hflag : "--refresh-tokens" ∉ ["--incremental"; "--overdue"]).
  { intros Hin. repeat (apply elem_of_cons in Hin as [Hin|Hin]; [discriminate|]).
    by apply elem_of_nil in Hin. }
  split; [exact Hci|]. split; [exact Hflag|].
  destruct (@ci_never_launches Demo.host Demo.offline World.no_pages World.empty_store
              World.exact World.no_refresh (World.at_time 1700000000000) 5
              ["--incremental"; "--overdue"] None e Hci Hflag) as [_ Hexit].
  eapply Hexit; reflexivity.
Defined.

(** C4 (as stated) fails: in a continuous-integration environment a run
    with [--refresh-tokens] and no valid credential launches the
    extractor. *)
Lemma ci_launches_when_asked :
  let e : gmap string string := {[ "CI" := "true" ]} in
  isCi e = true /\
  @main Demo.host Demo.offline World.no_pages World.empty_store World.exact
    World.no_refresh (World.at_time 1700000000000) 5 ["--refresh-tokens"] None e
  = [LaunchExtractor; Exit 1].
Proof. split; vm_compute; reflexivity. Qed.

(** ** Upload *)

Section UploadFacts.
Context `{Host}.
Variable store : remote.
Variable tm : timing.

Lemma create_times_app (evs1 evs2 : list event) :
  create_times (evs1 ++ evs2) = create_times evs1 ++ create_times evs2.
Proof.
  induction evs1 as [|e evs1 IH]; simpl; [done|].
  destruct e; simpl; by rewrite ?IH.
Qed.

Lemma rateLimiter_waits (delayMs : Z) (n : nat) (clock lastCall : Z) :
  0 <= timer_extra tm n ->
  lastCall + delayMs <= rateLimiter tm delayMs n clock lastCall.
Proof.
  intros Hextra. unfold rateLimiter.
  destruct (Z.ltb_spec (clock - lastCall) delayMs); lia.
Qed.

Lemma spaced_cons (d t : Z) (ts : list Z) :
  Forall (fun t' => t + d <= t') ts -> spaced d ts -> spaced d (t :: ts).
Proof.
  intros Hall Hts. simpl. split; [|done].
  destruct ts as [|t2 ts]; [done|]. by inversion Hall.
Qed.

(** The queries: only query events, whatever the answers. *)
Lemma getExistingNotionIds_events (fuel n : nat) (ids : gset string) (s : session) :
  exists evs,
    issued (snd (getExistingNotionIds store fuel n ids s)) = issued s ++ evs /\
    Forall (fun ev => ev = QueryNotion) evs.
Proof.
  revert n ids s. induction fuel as [|fuel IH]; intros n ids s; simpl.
  { exists []. by rewrite app_nil_r. }
  unfold mbind, sync_bind, bind. simpl.
  set (s1 := {| classMembers := classMembers s; issued := issued s ++ [QueryNotion] |}).
  assert (Hone : exists evs, issued s1 = issued s ++ evs
                             /\ Forall (fun ev => ev = QueryNotion) evs).
  { exists [QueryNotion]. split; [done|]. by constructor. }
  destruct (query_response store n) as [|pgs more]; [done|].
  destruct (add_pages pgs ids) as [ids' [|]]; [|done].
  destruct more; [|done].
  destruct (IH (S n) ids' s1) as (evs & -> & Hall).
  exists (QueryNotion :: evs). simpl. rewrite <- app_assoc. split; [done|].
  by constructor.
Qed.

(** The loop over the new items: only create calls, each for one of the
    items; consecutive calls are at least the delay apart, and the first
    comes no sooner than the delay after the last call before. *)
Lemma upload_loop_events (delayMs : Z) (newItems : list Item.t) (n : nat)
    (clock lastCall : Z) (uploaded failed : nat) (s : session) :
  exists evs,
    issued (snd (upload_loop store tm delayMs newItems n clock lastCall uploaded failed s))
    = issued s ++ evs /\
    Forall (fun ev => ev <> QueryNotion /\ upload_event newItems ev) evs /\
    (0 <= delayMs -> (forall k, 0 <= timer_extra tm k) ->
     spaced delayMs (create_times evs) /\
     Forall (fun t => lastCall + delayMs <= t) (create_times evs)).
Proof.
  revert n clock lastCall uploaded failed s.
  induction newItems as [|item rest IH]; intros n clock lastCall uploaded failed s; simpl.
  { exists []. rewrite app_nil_r. by repeat split. }
  assert (Hweaken : forall evs,
            Forall (fun ev => ev <> QueryNotion /\ upload_event rest ev) evs ->
            Forall (fun ev => ev <> QueryNotion /\ upload_event (item :: rest) ev) evs).
  { intros evs Hall. eapply Forall_impl; [exact Hall|].
    intros [] [Hq Hev]; simpl in *; try done.
    split; [done|]. destruct Hev as (it & Hit & Hen). exists it. split; [|done].
    by apply list_elem_of_further. }
  set (released := rateLimiter tm delayMs n clock lastCall).
  destruct (notion_properties item) as [entry|] eqn:Hentry.
  - unfold mbind, sync_bind, bind. simpl.
    set (s1 := {| classMembers := classMembers s;
                  issued := issued s ++ [CreatePage released entry] |}).
    assert (Hrest : exists evs,
              issued (snd ((if create_response store n
                            then upload_loop store tm delayMs rest (S n)
                                   (released + call_duration tm n) released
                                   (S uploaded) failed
                            else upload_loop store tm delayMs rest (S n)
                                   (released + call_duration tm n) released
                                   uploaded (S failed)) s1))
              = issued s1 ++ evs /\
              Forall (fun ev => ev <> QueryNotion /\ upload_event rest ev) evs /\
              (0 <= delayMs -> (forall k, 0 <= timer_extra tm k) ->
               spaced delayMs (create_times evs) /\
               Forall (fun t => released + delayMs <= t) (create_times evs))).
    { destruct (create_response store n); apply IH. }
    destruct Hrest as (evs & -> & Hall & Htimes).
    exists (CreatePage released entry :: evs). simpl. rewrite <- app_assoc.
    split; [done|]. split.
    + constructor; [|by apply Hweaken]. split; [done|]. exists item. split; [|done].
      apply list_elem_of_here.
    + intros Hd Hextra. destruct (Htimes Hd Hextra) as [Hsp Hlater].
      pose proof (rateLimiter_waits delayMs n clock lastCall (Hextra n)) as Hwait.
      fold released in Hwait.
      split; [by apply spaced_cons|]. constructor; [done|].
      eapply Forall_impl; [exact Hlater|]. intros t Ht. simpl in Ht. lia.
  - destruct (IH (S n) released released uploaded (S failed) s) as (evs & -> & Hall & Htimes).
    exists evs. split; [done|]. split; [by apply Hweaken|].
    intros Hd Hextra. destruct (Htimes Hd Hextra) as [Hsp Hlater]. split; [done|].
    pose proof (rateLimiter_waits delayMs n clock lastCall (Hextra n)) as Hwait.
    fold released in Hwait.
    eapply Forall_impl; [exact Hlater|]. intros t Ht. simpl in Ht. lia.
Qed.

End UploadFacts.

Section UploadTheorem.
Context `{Host}.
Variable store : remote.
Variable tm : timing.

Lemma filter_unknown (ids : gset string) (items : list Item.t) (item : Item.t) :
  item ∈ List.filter (fun item => negb (bool_decide (Item.id item ∈ ids))) items <->
  item ∈ items /\ Item.id item ∉ ids.
Proof.
  rewrite !list_elem_of_In, filter_In, negb_true_iff, bool_decide_eq_false. done.
Qed.

(** The events of [uploadToNotion]: first the queries, then the create
    calls. *)
Lemma uploadToNotion_events (fuel : nat) (e : environ) (clock : Z) (items : list Item.t)
    (s : session) :
  exists queries creates,
    issued (snd (uploadToNotion store tm fuel e clock items s))
    = issued s ++ queries ++ creates /\
    Forall (fun ev => ev = QueryNotion) queries /\
    Forall (fun ev => ev <> QueryNotion /\ upload_event items ev) creates /\
    (forall existingIds s1,
       getExistingNotionIds store fuel O ∅ s = (Returned existingIds, s1) ->
       forall t entry, CreatePage t entry ∈ creates -> external_id entry ∉ existingIds) /\
    ((forall k, 0 <= timer_extra tm k) -> spaced 300 (create_times creates)).
Proof.
  unfold uploadToNotion.
  assert (Hnone : forall queries : list event,
            Forall (fun ev => ev = QueryNotion) queries ->
            Forall (fun ev => ev = QueryNotion) queries /\
            Forall (fun ev => ev <> QueryNotion /\ upload_event items ev) [] /\
            (forall existingIds s1,
               getExistingNotionIds store fuel O ∅ s = (Returned existingIds, s1) ->
               forall t entry, CreatePage t entry ∈ [] -> external_id entry ∉ existingIds) /\
            ((forall k, 0 <= timer_extra tm k) -> spaced 300 (create_times []))).
  { intros queries Hq. split; [done|]. split; [constructor|]. split; [|done].
    intros ? ? ? ? ? Hin. by apply elem_of_nil in Hin. }
  destruct (_ || _).
  { exists [], []. simpl. rewrite app_nil_r. split; [done|]. apply Hnone. constructor. }
  unfold mbind at 1, sync_bind at 1, bind at 1.
  destruct (getExistingNotionIds_events store fuel O ∅ s) as (queries & Hq & Hqueries).
  destruct (getExistingNotionIds store fuel O ∅ s) as [[ids| | |] s1] eqn:Hids;
    simpl in Hq;
    try (exists queries, []; rewrite app_nil_r; simpl; split; [done|by apply Hnone]).
  set (newItems := List.filter (fun item => negb (bool_decide (Item.id item ∈ ids))) items).
  assert (Hnew : forall item, item ∈ newItems -> item ∈ items /\ Item.id item ∉ ids)
    by (intros item; apply filter_unknown).
  destruct (upload_loop_events store tm 300 newItems O clock 0 O O s1)
    as (creates & Hc & Hcreates & Htimes).
  assert (Hshape : exists creates',
            issued (snd (match newItems with
                         | [] => ret tt
                         | _ :: _ =>
                             upload_loop store tm 300 newItems O clock 0 O O
                             ≫= fun _ => ret tt
                         end s1)) = issued s1 ++ creates' /\
            (creates' = [] \/ creates' = creates)).
  { destruct newItems as [|item rest] eqn:Hitems.
    - exists []. rewrite app_nil_r. split; [done|by left].
    - exists creates. split; [|by right].
      unfold mbind, sync_bind, bind.
      destruct (upload_loop store tm 300 (item :: rest) O clock 0 O O s1)
        as [[[u f]| | |] s2]; simpl in *; done. }
  destruct Hshape as (creates' & Hissued & Hcase).
  exists queries, creates'. rewrite Hissued, Hq, <- app_assoc. split; [done|].
  destruct Hcase as [-> | ->]; [by apply Hnone|].
  split; [done|]. split; [|split].
  - eapply Forall_impl; [exact Hcreates|]. intros [] [Hne Hev]; simpl in *; try done.
    split; [done|]. destruct Hev as (item & Hitem & Hentry). exists item.
    split; [by apply Hnew|done].
  - intros existingIds s1' [= <- <-] t entry Hin.
    apply (proj1 (Forall_forall _ _) Hcreates) in Hin as [_ (item & Hitem & Hentry)].
    apply notion_properties_notes in Hentry as (-> & _). by apply Hnew.
  - intros Hextra. by apply Htimes.
Qed.

End UploadTheorem.

(** C8: the upload never issues a create call for an item whose id is in
    the set that the query of the remote store returned: the events of
    [uploadToNotion] are the queries followed by the create calls, every
    create call is for one of the items, with an id outside that set (and
    there is none when the store is not configured or the query has not
    ended). Consecutive create calls are at least 300 milliseconds apart
    on the wall clock that the limiter reads, given that a timer never
    fires early. *)
Theorem upload_skips_known_and_is_spaced `{Host} (store : remote) (tm : timing) (fuel : nat)
    (e : environ) (clock : Z) (items : list Item.t) (s : session) :
  (forall k, 0 <= timer_extra tm k) ->
  exists queries creates,
    issued (snd (uploadToNotion store tm fuel e clock items s))
    = issued s ++ queries ++ creates /\
    Forall (fun ev => ev = QueryNotion) queries /\
    Forall (fun ev => ev <> QueryNotion /\ upload_event items ev) creates /\
    (forall existingIds s1,
       getExistingNotionIds store fuel O ∅ s = (Returned existingIds, s1) ->
       forall t entry, CreatePage t entry ∈ creates -> external_id entry ∉ existingIds) /\
    spaced 300 (create_times creates).
Proof.
  intros Hextra.
  destruct (uploadToNotion_events store tm fuel e clock items s)
    as (queries & creates & Hissued & Hq & Hc & Hknown & Hspaced).
  exists queries, creates. repeat split; auto.
Qed.

Lemma upload_skips_known_and_is_spaced_witness :
  (forall k, 0 <= timer_extra World.exact k) /\
  exists queries creates,
    issued (snd (@uploadToNotion Demo.host Known.store World.exact 5 Known.env 1000
                   Known.items new_session))
    = issued new_session ++ queries ++ creates /\
    spaced 300 (create_times creates).
Proof.
  assert (Hexact : forall k, 0 <= timer_extra World.exact k) by (intros k; simpl; lia).
  split; [exact Hexact|].
  destruct (@upload_skips_known_and_is_spaced Demo.host Known.store World.exact 5 Known.env
              1000 Known.items new_session Hexact)
    as (queries & creates & Hissued & _ & _ & _ & Hspaced).
  by exists queries, creates.
Defined.

Example upload_of_known_store :
  List.map (fun ev => match ev with
                      | CreatePage t entry => Some (t, external_id entry)
                      | _ => None
                      end)
    (issued (snd (@uploadToNotion Demo.host Known.store World.exact 5 Known.env 1000
                    Known.items new_session)))
  = [None; None; Some (1000, "y"); Some (1300, "z")].
Proof. vm_compute. reflexivity. Qed.

(** The query ends, with enough fuel, when the remote store ends it. *)
Lemma getExistingNotionIds_ends `{Host} (store : remote) (k : nat) :
  forall (fuel n : nat) (ids : gset string) (s : session),
    query_ends store (n + k) ->
    (k < fuel)%nat ->
    exists ids' s', getExistingNotionIds store fuel n ids s = (Returned ids', s').
Proof.
  induction k as [|k IH]; intros fuel n ids s Hend Hfuel.
  - destruct fuel as [|fuel]; [lia|]. simpl.
    unfold mbind, sync_bind, bind. simpl.
    unfold query_ends in Hend. rewrite Nat.add_0_r in Hend.
    destruct (query_response store n) as [|pgs more]; [by eexists _, _|].
    destruct (add_pages pgs ids) as [ids' ok] eqn:Hadd.
    destruct ok; [|by eexists _, _].
    destruct Hend as [-> | Hbroken]; [by eexists _, _|].
    specialize (Hbroken ids). rewrite Hadd in Hbroken. done.
  - destruct fuel as [|fuel]; [lia|]. simpl.
    unfold mbind, sync_bind, bind. simpl.
    destruct (query_response store n) as [|pgs more]; [by eexists _, _|].
    destruct (add_pages pgs ids) as [ids' [|]]; [|by eexists _, _].
    destruct more; [|by eexists _, _].
    apply IH; [|lia]. by replace (S n + k)%nat with (n + S k)%nat by lia.
Qed.

(** ** Exports *)

Section ExportFacts.
Context `{Host}.
Variable store : remote.
Variable tm : timing.

Lemma grows_emit (e : event) : steps grows (emit e).
Proof. by apply extends_with_emit. Qed.

Lemma grows_elem_of (e : event) (s s' : session) :
  grows s s' -> e ∈ issued s -> e ∈ issued s'.
Proof. intros (evs & -> & _) Hin. apply elem_of_app. by left. Qed.

(** An event that the first part of a sequence has issued is there at
    the end of the sequence. *)
Lemma issued_bind_l {A B : Type} (c : Sync A) (k : A -> Sync B) (e : event) (s : session) :
  (forall a, steps grows (k a)) ->
  e ∈ issued (snd (c s)) -> e ∈ issued (snd ((c ≫= k) s)).
Proof.
  intros Hk Hin. unfold mbind, sync_bind, bind.
  destruct (c s) as [[a| | |] s1]; simpl in *; try done.
  by apply (grows_elem_of e s1 _ (Hk a s1)).
Qed.

(** An event that the second part issues, when the first part returns. *)
Lemma issued_bind_r {A B : Type} (c : Sync A) (k : A -> Sync B) (e : event) (a : A)
    (s s1 : session) :
  c s = (Returned a, s1) ->
  e ∈ issued (snd (k a s1)) -> e ∈ issued (snd ((c ≫= k) s)).
Proof. intros Hc Hin. unfold mbind, sync_bind, bind. by rewrite Hc. Qed.

Lemma issued_emit (e : event) (s : session) : e ∈ issued (snd (emit e s)).
Proof. simpl. apply elem_of_app. right. apply list_elem_of_here. Qed.

Lemma emit_returns (e : event) (s : session) :
  emit e s = (Returned tt, {| classMembers := classMembers s; issued := issued s ++ [e] |}).
Proof. done. Qed.

(** *** Partitions *)

Lemma group_add_ok {K : Type} (same : K -> K -> bool) (ok : Item.t -> bool) (k : K)
    (x : Item.t) (groups : list (K * list Item.t)) :
  ok x = true ->
  Forall (fun g => forallb ok (snd g) = true) groups ->
  Forall (fun g => forallb ok (snd g) = true) (group_add same k x groups).
Proof.
  intros Hx. induction 1 as [|[k' xs] groups Hg Hgroups IH]; simpl.
  { constructor; [|constructor]. simpl. by rewrite Hx. }
  destruct (same k' k); constructor; simpl in *; try done.
  rewrite forallb_app, Hg. simpl. by rewrite Hx.
Qed.

Lemma foldl_groups_ok {K : Type} (ok : Item.t -> bool)
    (step : list (K * list Item.t) -> Item.t -> list (K * list Item.t))
    (items : list Item.t) (groups : list (K * list Item.t)) :
  (forall g x, ok x = true ->
     Forall (fun g => forallb ok (snd g) = true) g ->
     Forall (fun g => forallb ok (snd g) = true) (step g x)) ->
  forallb ok items = true ->
  Forall (fun g => forallb ok (snd g) = true) groups ->
  Forall (fun g => forallb ok (snd g) = true) (foldl step groups items).
Proof.
  intros Hstep. revert groups. induction items as [|x items IH]; intros groups; simpl.
  { done. }
  intros Hok Hgroups. apply andb_true_iff in Hok as [Hx Hitems].
  apply IH; [done|]. by apply Hstep.
Qed.

Lemma byYear_ok (ok : Item.t -> bool) (items : list Item.t) :
  forallb ok items = true ->
  Forall (fun g => forallb ok (snd g) = true) (byYear items).
Proof.
  intros Hok. unfold byYear. apply foldl_groups_ok; [|done|constructor].
  intros g x Hx Hg. destruct (partition_date x); [by apply group_add_ok|done].
Qed.

Lemma byMonth_ok (ok : Item.t -> bool) (items : list Item.t) :
  forallb ok items = true ->
  Forall (fun g => forallb ok (snd g) = true) (byMonth items).
Proof.
  intros Hok. unfold byMonth. apply foldl_groups_ok; [|done|constructor].
  intros g x Hx Hg. destruct (partition_date x); [by apply group_add_ok|done].
Qed.

Lemma write_groups_returns (f : format) (root : string)
    (groups : list (string * list Item.t)) (s : session) :
  (f = AsCsv -> Forall (fun g => forallb csv_row_ok (snd g) = true) groups) ->
  exists s', write_groups f root groups s = (Returned tt, s').
Proof.
  revert s. induction groups as [|[k xs] rest IH]; intros s Hok; simpl.
  { by eexists. }
  unfold mbind, sync_bind, bind.
  assert (Hfirst : exists s1, write_as f xs (root +:+ k) s = (Returned tt, s1)).
  { destruct f; simpl; [by eexists|].
    specialize (Hok eq_refl). inversion Hok as [|? ? Hxs _]; subst. simpl in Hxs.
    unfold writeCsvFile. rewrite Hxs. by eexists. }
  destruct Hfirst as [s1 ->]. apply IH.
  intros Hf. specialize (Hok Hf). by inversion Hok.
Qed.

Lemma writeOrganizedFiles_returns (items : list Item.t) (f : format) (s : session) :
  (f = AsCsv -> forallb csv_row_ok items = true) ->
  exists s', writeOrganizedFiles items f s = (Returned tt, s').
Proof.
  intros Hok. unfold writeOrganizedFiles, mbind, sync_bind, bind.
  destruct (write_groups_returns f "outputs/by-year/"
              (List.map (fun g => (year_text (fst g), snd g)) (byYear items)) s)
    as [s1 ->].
  { intros Hf. specialize (Hok Hf).
    pose proof (byYear_ok csv_row_ok items Hok) as Hg.
    induction Hg; simpl; constructor; done. }
  apply write_groups_returns. intros Hf. by apply byMonth_ok, Hok.
Qed.

End ExportFacts.

Section ExportSafety.
Context `{Host}.
Variable store : remote.
Variable tm : timing.
Variable a : args.
Variable st : state.
Variable stamp : string.
Variable filtered : list Item.t.

Local Abbreviation exports := (extends_with (export_event a st stamp filtered)).

Lemma group_folder_file (root k file : string) (items : list Item.t) :
  group_folder filtered root k items ->
  partition_file filtered file ((root +:+ k) +:+ file) items.
Proof.
  intros [[-> (g & Hg & -> & ->)]|[-> (g & Hg & -> & ->)]]; [left|right]; by exists g.
Qed.

Lemma exports_write_as (f : format) (items : list Item.t) (root k : string) :
  group_folder filtered root k items ->
  steps exports (write_as f items (root +:+ k)).
Proof.
  intros Hfolder. destruct f; simpl.
  - apply extends_with_emit. simpl. right. by apply group_folder_file.
  - unfold writeCsvFile. destruct (forallb _ _); [|apply (steps_throw exports)].
    apply extends_with_emit. simpl. right. by apply group_folder_file.
Qed.

Lemma exports_write_groups (f : format) (root : string)
    (groups : list (string * list Item.t)) :
  Forall (fun g => group_folder filtered root (fst g) (snd g)) groups ->
  steps exports (write_groups f root groups).
Proof.
  induction 1 as [|[k xs] rest Hg Hrest IH]; simpl.
  { apply (steps_ret exports). }
  apply (steps_bind exports); [by apply exports_write_as|intros _; apply IH].
Qed.

Lemma exports_writeOrganizedFiles (f : format) :
  steps exports (writeOrganizedFiles filtered f).
Proof.
  unfold writeOrganizedFiles.
  apply (steps_bind exports); [|intros _]; apply exports_write_groups.
  - apply Forall_forall. intros g Hg. apply list_elem_of_In, in_map_iff in Hg as (g0 & <- & Hg).
    left. split; [done|]. exists g0. split; [by apply list_elem_of_In|done].
  - apply Forall_forall. intros g Hg. right. split; [done|]. by exists g.
Qed.

Lemma mapM_source (items : list Item.t) (entries : list notion_entry) :
  mapM notion_properties items = Some entries -> List.map source entries = items.
Proof.
  revert entries. induction items as [|item items IH]; intros entries; simpl.
  { by intros [= <-]. }
  destruct (notion_properties item) as [entry|] eqn:Hentry; simpl; [|done].
  destruct (mapM notion_properties items) as [rest|]; simpl; [|done].
  intros [= <-]. simpl. rewrite (IH rest eq_refl).
  by apply notion_properties_notes in Hentry as (_ & -> & _).
Qed.

Lemma exports_uploadToNotion (fuel : nat) (e : environ) (clock : Z) :
  steps exports (uploadToNotion store tm fuel e clock filtered).
Proof.
  intros s.
  destruct (uploadToNotion_events store tm fuel e clock filtered s)
    as (queries & creates & Hissued & Hq & Hc & _).
  exists (queries ++ creates). split; [done|]. apply Forall_app. split.
  - eapply Forall_impl; [exact Hq|]. by intros ev ->.
  - eapply Forall_impl; [exact Hc|]. intros [] [_ Hev]; simpl in *; done.
Qed.

(** The end of a run issues only events of the export of the filtered
    list. *)
Lemma exports_end_of_run (clk : clock) (fuel : nat) (e : environ)
    (normalized : list Item.t) :
  filtered = applyFilters a st (at_filter clk) normalized ->
  stamp = host_date_iso (at_commit clk) ->
  steps exports (export_and_commit store tm clk fuel a st e normalized).
Proof.
  intros Hfiltered Hstamp. unfold export_and_commit. cbv zeta.
  rewrite <- Hfiltered, <- Hstamp.
  apply (steps_bind exports); [|intros _].
  { unfold writeJsonFile. apply (steps_bind exports); [|intros _].
    - apply extends_with_emit. by left.
    - apply exports_writeOrganizedFiles. }
  apply (steps_bind exports); [|intros _].
  { unfold writeXlsxFile. destruct (sheet_writable _); [|apply (steps_throw exports)].
    apply (steps_bind exports); [|intros _].
    - by apply extends_with_emit.
    - apply (steps_bind exports); [|intros _; apply exports_writeOrganizedFiles].
      unfold writeCsvFile. destruct (forallb _ _); [|apply (steps_throw exports)].
      apply extends_with_emit. by left. }
  apply (steps_bind exports); [|intros _].
  { unfold writeNotionPayload.
    destruct (mapM notion_properties filtered) as [entries|] eqn:Hentries;
      [|apply (steps_throw exports)].
    apply extends_with_emit. simpl. split; [done|]. by apply mapM_source. }
  apply (steps_bind exports); [apply exports_uploadToNotion|intros _].
  apply (steps_bind exports); [by apply extends_with_emit|intros _].
  apply (steps_exit exports). by apply extends_with_emit.
Qed.

End ExportSafety.

Section ExportLiveness.
Context `{Host}.
Variable store : remote.
Variable tm : timing.

Lemma filter_andb {A : Type} (f g : A -> bool) (l : list A) :
  List.filter (fun x => f x && g x) l = List.filter g (List.filter f l).
Proof.
  induction l as [|x l IH]; simpl; [done|].
  destruct (f x); simpl; [|done]. destruct (g x); by rewrite IH.
Qed.

(** In incremental mode the filtered list is what the other filters keep,
    without the items that are marked seen. *)
Lemma applyFilters_incremental (a : args) (st : state) (now_ms : Z) (items : list Item.t) :
  incremental a = true ->
  applyFilters a st now_ms items
  = unseen st (applyFilters (set_incremental false a) st now_ms items).
Proof.
  intros Hinc. unfold applyFilters, unseen. rewrite <- filter_andb.
  apply filter_ext. intros item. by rewrite keep_incremental, Hinc.
Qed.

Lemma grows_ordinary (e : event) : ordinary e -> steps grows (emit e).
Proof. intros _. apply grows_emit. Qed.

(** *** The groups hold items of the list *)

Lemma group_add_all {K : Type} (same : K -> K -> bool) (P : Item.t -> Prop) (k : K)
    (x : Item.t) (groups : list (K * list Item.t)) :
  P x ->
  Forall (fun g => Forall P (snd g)) groups ->
  Forall (fun g => Forall P (snd g)) (group_add same k x groups).
Proof.
  intros Hx. induction 1 as [|[k' xs] groups Hg Hgroups IH]; simpl.
  { constructor; [|constructor]. simpl. by constructor. }
  destruct (same k' k); constructor; simpl in *; try done.
  apply Forall_app. split; [done|]. by constructor.
Qed.

Lemma foldl_groups_all {K : Type} (P : Item.t -> Prop)
    (step : list (K * list Item.t) -> Item.t -> list (K * list Item.t))
    (items : list Item.t) (groups : list (K * list Item.t)) :
  (forall g x, P x ->
     Forall (fun g => Forall P (snd g)) g ->
     Forall (fun g => Forall P (snd g)) (step g x)) ->
  Forall P items ->
  Forall (fun g => Forall P (snd g)) groups ->
  Forall (fun g => Forall P (snd g)) (foldl step groups items).
Proof.
  intros Hstep Hitems. revert groups.
  induction Hitems as [|x items Hx Hitems IH]; intros groups Hgroups; simpl; [done|].
  apply IH. by apply Hstep.
Qed.

Lemma byYear_all (P : Item.t -> Prop) (items : list Item.t) :
  Forall P items -> Forall (fun g => Forall P (snd g)) (byYear items).
Proof.
  intros Hitems. unfold byYear. apply foldl_groups_all; [|done|constructor].
  intros g x Hx Hg. destruct (partition_date x); [by apply group_add_all|done].
Qed.

Lemma byMonth_all (P : Item.t -> Prop) (items : list Item.t) :
  Forall P items -> Forall (fun g => Forall P (snd g)) (byMonth items).
Proof.
  intros Hitems. unfold byMonth. apply foldl_groups_all; [|done|constructor].
  intros g x Hx Hg. destruct (partition_date x); [by apply group_add_all|done].
Qed.

(** A file of a partition holds items of the list. *)
Lemma partition_file_items (filtered : list Item.t) (file path : string)
    (items : list Item.t) (item : Item.t) :
  partition_file filtered file path items -> item ∈ items -> item ∈ filtered.
Proof.
  assert (Hall : Forall (fun x => x ∈ filtered) filtered) by (by apply Forall_forall).
  intros [(g & Hg & -> & _)|(g & Hg & -> & _)] Hitem.
  - pose proof (byYear_all _ _ Hall) as Hgroups.
    rewrite Forall_forall in Hgroups. specialize (Hgroups g Hg).
    rewrite Forall_forall in Hgroups. by apply Hgroups.
  - pose proof (byMonth_all _ _ Hall) as Hgroups.
    rewrite Forall_forall in Hgroups. specialize (Hgroups g Hg).
    rewrite Forall_forall in Hgroups. by apply Hgroups.
Qed.

(** Whatever the end of a run writes or sends is an item of the filtered
    list. *)
Lemma export_event_exported (a : args) (st : state) (stamp : string)
    (filtered : list Item.t) (ev : event) (item : Item.t) :
  export_event a st stamp filtered ev -> item ∈ exported ev -> item ∈ filtered.
Proof.
  destruct ev; simpl; try (by intros _ ?%elem_of_nil).
  - intros [[_ ->]|Hfile] Hitem; [done|]. by eapply partition_file_items.
  - by intros [_ ->].
  - intros [[_ ->]|Hfile] Hitem; [done|]. by eapply partition_file_items.
  - by intros [_ ->].
  - intros (item0 & Hitem0 & Hentry) Hitem. apply list_elem_of_singleton in Hitem as ->.
    by apply notion_properties_notes in Hentry as (_ & -> & _).
Qed.

(** *** What each exporter writes *)

Lemma json_write_groups (root : string) (groups : list (string * list Item.t)) :
  steps (extends_with is_json) (write_groups AsJson root groups).
Proof.
  induction groups as [|[k xs] rest IH]; simpl.
  { apply (steps_ret (extends_with is_json)). }
  apply (steps_bind (extends_with is_json)); [by apply extends_with_emit|intros _; apply IH].
Qed.

Lemma writes_write_as (f : format) (items : list Item.t) (dir : string) :
  steps (extends_with is_write) (write_as f items dir).
Proof.
  destruct f; simpl; [by apply extends_with_emit|].
  unfold writeCsvFile. destruct (forallb _ _); [by apply extends_with_emit|].
  apply (steps_throw (extends_with is_write)).
Qed.

Lemma writes_write_groups (f : format) (root : string)
    (groups : list (string * list Item.t)) :
  steps (extends_with is_write) (write_groups f root groups).
Proof.
  induction groups as [|[k xs] rest IH]; simpl.
  { apply (steps_ret (extends_with is_write)). }
  apply (steps_bind (extends_with is_write)); [apply writes_write_as|intros _; apply IH].
Qed.

Lemma writes_writeOrganizedFiles (items : list Item.t) (f : format) :
  steps (extends_with is_write) (writeOrganizedFiles items f).
Proof.
  unfold writeOrganizedFiles.
  apply (steps_bind (extends_with is_write)); [|intros _]; apply writes_write_groups.
Qed.

Lemma extends_with_step (P : event -> Prop) (ev : event) (s s' : session) :
  P ev ->
  extends_with P {| classMembers := classMembers s; issued := issued s ++ [ev] |} s' ->
  exists evs, issued s' = issued s ++ ev :: evs /\ Forall P evs.
Proof.
  intros Hev (evs & Hissued & Hall). simpl in Hissued.
  exists evs. by rewrite Hissued, <- app_assoc.
Qed.

(** The first export always returns: the whole list, then its
    partitions. *)
Lemma writeJsonFile_writes (items : list Item.t) (s : session) :
  exists s1 evs,
    writeJsonFile items s = (Returned tt, s1) /\
    issued s1 = issued s ++ WriteJson "outputs/assignments.json" items :: evs /\
    Forall is_json evs.
Proof.
  unfold writeJsonFile, mbind, sync_bind, bind. rewrite emit_returns.
  set (s0 := {| classMembers := classMembers _; issued := issued _ ++ [WriteJson _ _] |}).
  destruct (writeOrganizedFiles_returns items AsJson s0) as [s1 Hs1]; [done|].
  rewrite Hs1. exists s1.
  assert (Hjson : steps (extends_with is_json) (writeOrganizedFiles items AsJson)).
  { unfold writeOrganizedFiles.
    apply (steps_bind (extends_with is_json)); [|intros _]; apply json_write_groups. }
  destruct (Hjson s0) as (evs & Hissued & Hall).
  rewrite Hs1 in Hissued. simpl in Hissued.
  exists evs. by rewrite Hissued, <- !app_assoc.
Qed.

(** The second export hands the rows to the spreadsheet library, which
    throws before it writes anything or writes the spreadsheet; then come
    the rows of the CSV of the whole list, and the export throws there
    when a row cannot be built. *)
Lemma writeXlsxFile_writes (items : list Item.t) (s : session) :
  if sheet_writable (sheet_rows items)
  then exists s1 evs,
         issued s1 = issued s ++ WriteXlsx "outputs/assignments.xlsx" items :: evs /\
         Forall is_write evs /\
         if forallb csv_row_ok items
         then writeXlsxFile items s = (Returned tt, s1) /\
              WriteCsv "outputs/assignments.csv" items ∈ evs
         else writeXlsxFile items s = (Threw, s1) /\ evs = []
  else writeXlsxFile items s = (Threw, s).
Proof.
  unfold writeXlsxFile. destruct (sheet_writable _); [|done].
  unfold mbind, sync_bind, bind. rewrite emit_returns.
  unfold writeCsvFile.
  destruct (forallb csv_row_ok items) eqn:Hok.
  - rewrite emit_returns.
    set (s2 := {| classMembers := classMembers _; issued := issued _ ++ [WriteCsv _ _] |}).
    destruct (writeOrganizedFiles_returns items AsCsv s2 (fun _ => Hok)) as [s3 Hs3].
    rewrite Hs3. exists s3.
    destruct (writes_writeOrganizedFiles items AsCsv s2) as (evs & Hissued & Hall).
    rewrite Hs3 in Hissued. simpl in Hissued.
    exists (WriteCsv "outputs/assignments.csv" items :: evs).
    split; [by rewrite Hissued, <- !app_assoc|]. split; [by constructor|].
    split; [done|]. apply list_elem_of_here.
  - unfold throw.
    exists {| classMembers := classMembers s;
              issued := issued s ++ [WriteXlsx "outputs/assignments.xlsx" items] |}, [].
    simpl. split; [reflexivity|]. split; [constructor|]. split; reflexivity.
Qed.

(** A text of more than 32767 characters in a row stops the
    spreadsheet. *)
Lemma long_text_not_writable (items : list Item.t) (item : Item.t) (text : string) :
  item ∈ items -> JStr text ∈ sheet_row item ->
  (32767 < Z.of_nat (String.length text))%Z ->
  sheet_writable (sheet_rows items) = false.
Proof.
  intros Hitem Hcell Hlong. unfold sheet_writable.
  apply andb_false_iff. left. apply not_true_is_false. intros Hall.
  unfold sheet_rows in Hall. simpl in Hall.
  rewrite forallb_forall in Hall.
  specialize (Hall (sheet_row item)).
  rewrite forallb_forall in Hall.
  assert (Hrow : In (sheet_row item) (List.map sheet_row items)).
  { apply in_map. by apply list_elem_of_In. }
  specialize (Hall Hrow (JStr text)). simpl in Hall.
  apply list_elem_of_In in Hcell. specialize (Hall Hcell).
  apply Z.leb_le in Hall. lia.
Qed.

(** What the end of a run writes, for the filtered list of the run. *)
Lemma export_and_commit_writes (clk : clock) (fuel : nat) (a : args) (st : state)
    (e : environ) (normalized : list Item.t) (s : session) (evs : list event) :
  let filtered := applyFilters a st (at_filter clk) normalized in
  let r := export_and_commit store tm clk fuel a st e normalized s in
  issued (snd r) = issued s ++ evs ->
  WriteJson "outputs/assignments.json" filtered ∈ evs /\
  if sheet_writable (sheet_rows filtered)
  then WriteXlsx "outputs/assignments.xlsx" filtered ∈ evs /\
       (forallb csv_row_ok filtered = true ->
        WriteCsv "outputs/assignments.csv" filtered ∈ evs /\
        forall entries, mapM notion_properties filtered = Some entries ->
                        WriteNotionPayload entries ∈ evs)
  else fst r = Threw /\ Forall is_json evs.
Proof.
  intros filtered r. subst r.
  destruct (export_and_commit store tm clk fuel a st e normalized s) as [o s'] eqn:Hrun.
  simpl. intros Hevs.
  unfold export_and_commit in Hrun. fold filtered in Hrun. clearbody filtered.
  unfold mbind, sync_bind, bind in Hrun.
  destruct (writeJsonFile_writes filtered s) as (s1 & evs1 & Hj & Hs1 & Hw1).
  rewrite Hj in Hrun.
  pose proof (writeXlsxFile_writes filtered s1) as Hx.
  destruct (sheet_writable (sheet_rows filtered)).
  2:{ rewrite Hx in Hrun. injection Hrun as <- <-.
      rewrite Hs1 in Hevs. apply app_inv_head in Hevs as <-.
      split; [apply list_elem_of_here|]. split; [done|]. by constructor. }
  destruct Hx as (s2 & evs2 & Hs2 & Hw2 & Hx).
  assert (Hpayload : steps grows
            (bind (uploadToNotion store tm fuel e (at_upload clk) filtered)
               (fun _ => bind (emit (SaveState (updateState a st (List.map Item.id filtered)
                                                  (host_date_iso (at_commit clk)))))
                           (fun _ => @exit unit 0)))).
  { apply (steps_bind grows
             (uploadToNotion store tm fuel e (at_upload clk) filtered)
             (fun _ => bind (emit (SaveState (updateState a st (List.map Item.id filtered)
                                                (host_date_iso (at_commit clk)))))
                         (fun _ => @exit unit 0))).
    - apply (steps_uploadToNotion store tm grows grows_ordinary).
    - intros _. apply (steps_bind grows (emit _) (fun _ => @exit unit 0)).
      + apply grows_emit.
      + intros _. apply (steps_exit grows), grows_emit. }
  destruct (forallb csv_row_ok filtered) eqn:Hok.
  2:{ destruct Hx as [Hx ->]. rewrite Hx in Hrun. injection Hrun as <- <-.
      rewrite Hs2, Hs1, <- app_assoc in Hevs. apply app_inv_head in Hevs as <-.
      split; [apply list_elem_of_here|]. split; [|done].
      apply list_elem_of_further, elem_of_app. right. apply list_elem_of_here. }
  destruct Hx as [Hx Hcsv]. rewrite Hx in Hrun.
  unfold writeNotionPayload in Hrun.
  destruct (mapM notion_properties filtered) as [entries|] eqn:Hentries.
  2:{ unfold throw in Hrun. injection Hrun as <- <-.
      rewrite Hs2, Hs1, <- app_assoc in Hevs. apply app_inv_head in Hevs as <-.
      split; [apply list_elem_of_here|]. split.
      { apply list_elem_of_further, elem_of_app. right. apply list_elem_of_here. }
      intros _. split; [|done].
      apply list_elem_of_further, elem_of_app. right. by apply list_elem_of_further. }
  rewrite emit_returns in Hrun.
  pose proof (Hpayload {| classMembers := classMembers s2;
                          issued := issued s2 ++ [WriteNotionPayload entries] |})
    as Hgrows.
  unfold bind in Hgrows. rewrite Hrun in Hgrows.
  destruct Hgrows as (more & Hmore & _). simpl in Hmore.
  rewrite Hmore, Hs2, Hs1, <- !app_assoc in Hevs. apply app_inv_head in Hevs as <-.
  split; [apply list_elem_of_here|]. split.
  { apply list_elem_of_further, elem_of_app. right. apply list_elem_of_here. }
  intros _. split.
  { apply list_elem_of_further, elem_of_app. right. apply list_elem_of_further.
    apply elem_of_app. by left. }
  intros ? [= <-].
  apply list_elem_of_further, elem_of_app. right. apply list_elem_of_further.
  apply elem_of_app. right. apply list_elem_of_here.
Qed.

End ExportLiveness.

(** C3 (as amended): in incremental mode the filtered list, which is what
    every exporter and the uploader get, is the list of the items that
    pass the other filters and are not marked seen. The flat record set is
    written with exactly this list. The spreadsheet is written with it when
    the spreadsheet library takes the rows, and then so are the tabular
    encoding and the remote-store payload when their rows can be built;
    when the library refuses the rows (a text of more than 32767
    characters), the end of the run throws and has written JSON files
    only. Every event of the end of the run carries this list, the group
    of a year or of a month of this list, an item of it, or the commit of
    its ids: an item that is marked seen is in no export file and in no
    upload. *)
Theorem incremental_exports `{Host} (store : remote) (tm : timing) (clk : clock) (fuel : nat)
    (a : args) (st : state) (e : environ) (normalized : list Item.t) (s : session) :
  incremental a = true ->
  let filtered :=
    unseen st (applyFilters (set_incremental false a) st (at_filter clk) normalized) in
  let r := export_and_commit store tm clk fuel a st e normalized s in
  applyFilters a st (at_filter clk) normalized = filtered /\
  (forall item, item ∈ filtered <->
     item ∈ applyFilters (set_incremental false a) st (at_filter clk) normalized
     /\ Item.id item ∉ seenIds st) /\
  exists evs,
    issued (snd r) = issued s ++ evs /\
    Forall (export_event a st (host_date_iso (at_commit clk)) filtered) evs /\
    (forall ev item, ev ∈ evs -> item ∈ exported ev ->
       item ∈ filtered /\ Item.id item ∉ seenIds st) /\
    WriteJson "outputs/assignments.json" filtered ∈ evs /\
    if sheet_writable (sheet_rows filtered)
    then WriteXlsx "outputs/assignments.xlsx" filtered ∈ evs /\
         (forallb csv_row_ok filtered = true ->
          WriteCsv "outputs/assignments.csv" filtered ∈ evs /\
          forall entries, mapM notion_properties filtered = Some entries ->
                          WriteNotionPayload entries ∈ evs)
    else fst r = Threw /\ Forall is_json evs.
Proof.
  intros Hinc filtered r.
  assert (Hfiltered : applyFilters a st (at_filter clk) normalized = filtered)
    by (by apply applyFilters_incremental).
  assert (Hunseen : forall item, item ∈ filtered <->
            item ∈ applyFilters (set_incremental false a) st (at_filter clk) normalized
            /\ Item.id item ∉ seenIds st).
  { intros item. unfold filtered, unseen.
    by rewrite !list_elem_of_In, filter_In, negb_true_iff, bool_decide_eq_false,
      <- !list_elem_of_In. }
  split; [done|]. split; [done|].
  destruct (exports_end_of_run store tm a st (host_date_iso (at_commit clk)) filtered
              clk fuel e normalized (eq_sym Hfiltered) eq_refl s)
    as (evs & Hissued & Hall).
  exists evs. split; [exact Hissued|]. split; [exact Hall|]. split.
  { intros ev item Hev Hitem. rewrite Forall_forall in Hall.
    pose proof (export_event_exported _ _ _ _ _ _ (Hall ev Hev) Hitem) as Hin.
    split; [done|]. by apply Hunseen in Hin as [_ Hnot]. }
  pose proof (export_and_commit_writes store tm clk fuel a st e normalized s evs Hissued)
    as Hwrites.
  cbv zeta in Hwrites. rewrite Hfiltered in Hwrites. exact Hwrites.
Qed.

Lemma incremental_exports_witness :
  let normalized := [Incremental.normal "a1" "one"; Incremental.normal "a2" "two"] in
  incremental Incremental.flags = true /\
  @applyFilters Demo.host Incremental.flags Incremental.prior Incremental.now normalized
  = [Incremental.normal "a2" "two"] /\
  exists evs,
    issued (snd (@export_and_commit Demo.host World.empty_store World.exact
                   (World.at_time Incremental.now) 5 Incremental.flags Incremental.prior
                   Incremental.env normalized new_session)) = evs /\
    WriteJson "outputs/assignments.json" [Incremental.normal "a2" "two"] ∈ evs /\
    WriteXlsx "outputs/assignments.xlsx" [Incremental.normal "a2" "two"] ∈ evs.
Proof.
  intros normalized. split; [reflexivity|]. split; [reflexivity|].
  destruct (@incremental_exports Demo.host World.empty_store World.exact
              (World.at_time Incremental.now) 5 Incremental.flags Incremental.prior
              Incremental.env normalized new_session eq_refl)
    as (_ & _ & evs & Hissued & _ & _ & Hjson & Hxlsx).
  exists evs. split; [exact Hissued|]. split; [exact Hjson|]. exact (proj1 Hxlsx).
Defined.

(** C3 (as stated) fails: in this incremental run both listed assignments
    pass the filters other than the incremental one, and the flat record
    set is written with the second one only; the first one is marked
    seen. *)
Lemma incremental_run_drops_seen :
  let item1 := Incremental.normal "a1" "one" in
  let item2 := Incremental.normal "a2" "two" in
  @parseArgs Demo.host ["--incremental"] = Parsed Incremental.flags /\
  fst (@normalizeAll Demo.host Demo.offline
         [Demo.raw "a1" "<p>one</p>"; Demo.raw "a2" "<p>two</p>"] new_session)
  = Returned [item1; item2] /\
  @applyFilters Demo.host (set_incremental false Incremental.flags) Incremental.prior
    Incremental.now [item1; item2] = [item1; item2] /\
  json_exports
    (@main Demo.host Demo.offline Incremental.pages World.empty_store World.exact
       World.no_refresh (World.at_time Incremental.now) 5 ["--incremental"]
       (Some Incremental.prior) Incremental.env)
  = [[item2]].
Proof. repeat split; vm_compute; reflexivity. Qed.

(** A title of 32768 characters: the run writes the JSON files, the
    spreadsheet library refuses the rows, and the run exits with 1 without
    spreadsheet, CSV, payload, upload or saved state. *)
Example long_title_stops_after_json :
  Z.of_nat (String.length LongTitle.title) = 32768%Z /\
  @sheet_writable Demo.host (sheet_rows [LongTitle.normal]) = false /\
  @main Demo.host Demo.offline LongTitle.pages World.empty_store World.exact
    World.no_refresh (World.at_time Incremental.now) 5 [] None Incremental.env
  = [FetchAssignments 0; FetchMembers "c1"; FetchDetail "c1" (JStr "a1");
     WriteJson "outputs/assignments.json" [LongTitle.normal];
     WriteJson "outputs/by-year/1/assignments.json" [LongTitle.normal];
     WriteJson "outputs/by-month/1/5/assignments.json" [LongTitle.normal];
     Exit 1].
Proof. repeat split; vm_compute; reflexivity. Qed.

(** * The environment file *)

Section EnvFile.

Lemma has_char_app (c : ascii) (a b : string) :
  has_char c (a +:+ b) = has_char c a || has_char c b.
Proof. induction a as [|d a IH]; simpl; [done|]. by rewrite IH, orb_assoc. Qed.

Lemma split_on_whole (sep : ascii) (s : string) :
  has_char sep s = false -> split_on sep s = [s].
Proof.
  induction s as [|c s IH]; simpl; [done|].
  intros Hc. apply orb_false_iff in Hc as [Hc Hs]. by rewrite Hc, (IH Hs).
Qed.

Lemma split_on_app (sep : ascii) (a b : string) :
  has_char sep a = false ->
  split_on sep (a +:+ String sep b) = a :: split_on sep b.
Proof.
  induction a as [|c a IH]; simpl.
  - intros _. by rewrite Ascii.eqb_refl.
  - intros Hc. apply orb_false_iff in Hc as [Hc Ha]. by rewrite Hc, (IH Ha).
Qed.

Lemma split_on_joined (sep : ascii) (a b : string) :
  has_char sep a = false ->
  split_on sep (a +:+ String sep EmptyString +:+ b) = a :: split_on sep b.
Proof. apply split_on_app. Qed.

Lemma split_first_eq_app (k rest : string) :
  has_char "=" k = false -> Env.split_first_eq (k +:+ String "=" rest) = Some (k, rest).
Proof.
  induction k as [|c k IH]; simpl; [done|].
  intros Hc. apply orb_false_iff in Hc as [Hc Hk]. by rewrite Hc, (IH Hk).
Qed.

Lemma single_line_no_break (v : string) :
  Env.single_line v = true <->
  has_char Env.newline v = false /\ has_char Env.carriage_return v = false.
Proof.
  induction v as [|c v IH]; simpl; [done|].
  rewrite !andb_true_iff, !orb_false_iff, !negb_true_iff, IH. tauto.
Qed.

Lemma single_line_app (a b : string) :
  Env.single_line (a +:+ b) = Env.single_line a && Env.single_line b.
Proof. induction a as [|c a IH]; simpl; [done|]. by rewrite IH, andb_assoc. Qed.

Lemma drop_closing_quote_app (v : string) :
  Env.drop_closing_quote (v +:+ String Env.quote EmptyString) = v.
Proof.
  induction v as [|c v IH]; [done|].
  change (String c v +:+ String Env.quote EmptyString)
    with (String c (v +:+ String Env.quote EmptyString)).
  destruct v as [|d v]; [done|].
  change (Env.drop_closing_quote (String c (String d v +:+ String Env.quote "")))
    with (String c (Env.drop_closing_quote (String d v +:+ String Env.quote ""))).
  by rewrite IH.
Qed.

Lemma parse_line_entry (k v : string) :
  k <> "" -> has_char "=" k = false -> Env.single_line v = true ->
  Env.parse_line (AutoSync.entry k v) = Some (k, v).
Proof.
  intros Hk Heq Hv. unfold Env.parse_line, AutoSync.entry.
  rewrite split_first_eq_app by done.
  apply String.eqb_neq in Hk. rewrite Hk.
  change (Env.single_line (String Env.quote (v +:+ String Env.quote "")))
    with (Env.single_line (v +:+ String Env.quote "")).
  rewrite single_line_app, Hv. simpl.
  by rewrite drop_closing_quote_app.
Qed.

Lemma entry_one_line (k v : string) :
  has_char Env.newline k = false -> Env.single_line v = true ->
  has_char Env.newline (AutoSync.entry k v) = false.
Proof.
  intros Hk Hv. apply single_line_no_break in Hv as [Hv _].
  unfold AutoSync.entry. rewrite has_char_app, Hk. simpl.
  by rewrite has_char_app, Hv.
Qed.

Lemma envContent_lines (url token session : string) :
  Env.single_line url = true -> Env.single_line token = true ->
  Env.single_line session = true ->
  split_on Env.newline (AutoSync.envContent url token session)
  = [AutoSync.entry "AUI_URL" url; AutoSync.entry "AUI_TOKEN" token;
     AutoSync.entry "AUI_SESSION_ID" session].
Proof.
  intros Hu Ht Hs. unfold AutoSync.envContent. cbn [join].
  rewrite (split_on_joined Env.newline (AutoSync.entry "AUI_URL" url))
    by (by apply entry_one_line).
  rewrite (split_on_joined Env.newline (AutoSync.entry "AUI_TOKEN" token))
    by (by apply entry_one_line).
  rewrite split_on_whole by (by apply entry_one_line). done.
Qed.

End EnvFile.

Section EnvLines.

Lemma drop_closing_quote_none (v : string) :
  last_is Env.quote v = false -> Env.drop_closing_quote v = v.
Proof.
  induction v as [|c v IH]; [done|].
  destruct v as [|d v].
  - simpl. by intros ->.
  - intros Hlast.
    change (Env.drop_closing_quote (String c (String d v)))
      with (String c (Env.drop_closing_quote (String d v))).
    by rewrite IH.
Qed.

Lemma unquote_plain (v : string) :
  first_is Env.quote v = false -> last_is Env.quote v = false -> Env.unquote v = v.
Proof.
  destruct v as [|c v]; [done|]. simpl first_is. intros Hfirst Hlast.
  unfold Env.unquote. rewrite Hfirst. by apply drop_closing_quote_none.
Qed.

Lemma split_first_eq_some (line k v : string) :
  Env.split_first_eq line = Some (k, v) ->
  line = assignment k v /\ has_char "=" k = false.
Proof.
  revert k. induction line as [|c line IH]; intros k; simpl; [done|].
  destruct (Ascii.eqb_spec c "=") as [->|Hc].
  - by intros [= <- <-].
  - destruct (Env.split_first_eq line) as [[k' v']|]; [|done].
    intros [= <- <-]. destruct (IH k' eq_refl) as [-> Hk].
    split; [done|]. simpl. rewrite Hk. by apply Ascii.eqb_neq in Hc as ->.
Qed.

Lemma split_first_eq_none (line : string) :
  has_char "=" line = false -> Env.split_first_eq line = None.
Proof.
  induction line as [|c line IH]; simpl; [done|].
  intros Hc. apply orb_false_iff in Hc as [Hc Hline]. by rewrite Hc, (IH Hline).
Qed.

End EnvLines.

(** X1: a line of [.env] is read as the text before its first equals sign
    and the text behind it, with one quote taken off each end: the line
    [KEY="value"] gives back [value] whatever quotes it holds inside, the
    line [KEY=value] gives back a value that has no quote at either end;
    a line without an equals sign, with nothing before it, or with a
    carriage return or a line feed in the value is skipped. *)
Theorem parse_line_round_trip (k v : string) :
  k <> "" -> has_char "=" k = false -> Env.single_line v = true ->
  Env.parse_line (AutoSync.entry k v) = Some (k, v) /\
  (first_is Env.quote v = false -> last_is Env.quote v = false ->
   Env.parse_line (assignment k v) = Some (k, v)) /\
  Env.parse_line (assignment "" v) = None /\
  (forall line, has_char "=" line = false -> Env.parse_line line = None) /\
  (forall w, Env.single_line w = false -> Env.parse_line (assignment k w) = None) /\
  (forall line k' v', Env.parse_line line = Some (k', v') ->
     k' <> "" /\ has_char "=" k' = false /\ exists w, line = assignment k' w).
Proof.
  intros Hk Heq Hv. split; [by apply parse_line_entry|]. split; [|split; [|split; [|split]]].
  - intros Hfirst Hlast. unfold Env.parse_line, assignment.
    rewrite split_first_eq_app by done.
    apply String.eqb_neq in Hk. rewrite Hk, Hv. by rewrite unquote_plain.
  - done.
  - intros line Hline. unfold Env.parse_line. by rewrite split_first_eq_none.
  - intros w Hw. unfold Env.parse_line, assignment.
    rewrite split_first_eq_app by done.
    apply String.eqb_neq in Hk. by rewrite Hk, Hw.
  - intros line k' v'. unfold Env.parse_line.
    destruct (Env.split_first_eq line) as [[k0 v0]|] eqn:Hsplit; [|done].
    destruct (String.eqb_spec k0 "") as [->|Hne]; [done|].
    destruct (Env.single_line v0); [|done]. intros [= <- <-].
    apply split_first_eq_some in Hsplit as [-> Hno]. eauto.
Qed.

Lemma parse_line_round_trip_witness :
  "AUI_TOKEN" <> "" /\ has_char "=" "AUI_TOKEN" = false /\
  Env.single_line "a.b.c" = true /\
  Env.parse_line (AutoSync.entry "AUI_TOKEN" "a.b.c") = Some ("AUI_TOKEN", "a.b.c").
Proof.
  assert (Hk : "AUI_TOKEN" <> "") by discriminate.
  split; [exact Hk|]. split; [reflexivity|]. split; [reflexivity|].
  exact (proj1 (parse_line_round_trip "AUI_TOKEN" "a.b.c" Hk eq_refl eq_refl)).
Defined.

Section LoadEnvFacts.

Lemma file_value_none (k : string) (lines : list string) (found : option string) :
  foldl (fun found line =>
           match Env.parse_line line with
           | Some (k', v) => if String.eqb k' k then Some v else found
           | None => found
           end) found lines = None ->
  found = None /\
  Forall (fun line => forall v, Env.parse_line line <> Some (k, v)) lines.
Proof.
  revert found. induction lines as [|line lines IH]; intros found; simpl.
  { by intros ->. }
  intros Hnone. apply IH in Hnone as [Hstep Hrest].
  destruct (Env.parse_line line) as [[k' v']|] eqn:Hline.
  - destruct (String.eqb_spec k' k) as [->|Hne]; [done|].
    split; [done|]. constructor; [|done]. intros v Hv. rewrite Hline in Hv.
    by injection Hv as -> _.
  - split; [done|]. constructor; [|done]. intros v Hv. by rewrite Hline in Hv.
Qed.

Lemma loadEnv_fold_untouched (override : bool) (k : string) (lines : list string)
    (acc : environ) :
  Forall (fun line => forall v, Env.parse_line line <> Some (k, v)) lines ->
  foldl (fun acc line =>
           match Env.parse_line line with
           | Some (k', v) =>
               if override || negb (Env.truthy acc k') then <[k' := v]> acc else acc
           | None => acc
           end) acc lines !! k = acc !! k.
Proof.
  intros Hlines. revert acc. induction Hlines as [|line lines Hline _ IH]; intros acc; simpl.
  { done. }
  rewrite IH. destruct (Env.parse_line line) as [[k' v']|]; [|done].
  destruct (_ || _); [|done].
  apply lookup_insert_ne. intros ->. by apply (Hline v').
Qed.

Lemma loadEnv_fold_set (k v : string) (lines : list string) (acc : environ) :
  acc !! k = Some v -> v <> "" ->
  foldl (fun acc line =>
           match Env.parse_line line with
           | Some (k', v) =>
               if false || negb (Env.truthy acc k') then <[k' := v]> acc else acc
           | None => acc
           end) acc lines !! k = Some v.
Proof.
  intros Hk Hv. revert acc Hk. induction lines as [|line lines IH]; intros acc Hk; simpl.
  { done. }
  apply IH. destruct (Env.parse_line line) as [[k' v']|]; [|done]. simpl.
  destruct (String.eqb_spec k' k) as [->|Hne].
  - unfold Env.truthy. rewrite Hk. apply String.eqb_neq in Hv. by rewrite Hv.
  - destruct (negb _); [|done]. by rewrite lookup_insert_ne.
Qed.

End LoadEnvFacts.

(** X2: loading [.env] without override never changes a variable that is
    set to a text that is not empty; with or without override, a variable
    that no line of the file sets keeps what the environment held, and
    without a file the environment stays as it is. *)
Theorem loadEnv_keeps_environment (override : bool) (file : option string) (e : environ)
    (k : string) :
  (forall v, e !! k = Some v -> v <> "" -> Env.loadEnv false file e !! k = Some v) /\
  (forall content, file = Some content -> file_value content k = None ->
     Env.loadEnv override file e !! k = e !! k) /\
  (file = None -> Env.loadEnv override file e = e).
Proof.
  split; [|split].
  - intros v Hk Hv. destruct file as [content|]; [|done]. by apply loadEnv_fold_set.
  - intros content -> Hnone. apply file_value_none in Hnone as [_ Hlines].
    by apply loadEnv_fold_untouched.
  - by intros ->.
Qed.

Example loadEnv_startup_keeps_token :
  Env.loadEnv false (Some (AutoSync.envContent "u" "new" "s")) {[ "AUI_TOKEN" := "old" ]}
  !! "AUI_TOKEN" = Some "old".
Proof. vm_compute. reflexivity. Qed.

(** X3: the file that the refresh of [auto-sync.mjs] writes is read back:
    when none of the three values holds a line feed or a carriage return,
    loading the file with override sets the three variables to the values
    and leaves the others, and the loader of [auto-sync.mjs] gives exactly
    the three variables. *)
Theorem envContent_round_trip (url token session : string) (e : environ) :
  Env.single_line url = true -> Env.single_line token = true ->
  Env.single_line session = true ->
  Env.loadEnv true (Some (AutoSync.envContent url token session)) e
  = <["AUI_SESSION_ID" := session]> (<["AUI_TOKEN" := token]> (<["AUI_URL" := url]> e)) /\
  AutoSync.loadEnv (Some (AutoSync.envContent url token session))
  = <["AUI_SESSION_ID" := session]> (<["AUI_TOKEN" := token]> (<["AUI_URL" := url]> ∅)).
Proof.
  intros Hu Ht Hs. unfold Env.loadEnv, AutoSync.loadEnv.
  rewrite envContent_lines by done. simpl foldl.
  rewrite !parse_line_entry by done. done.
Qed.

Lemma envContent_round_trip_witness :
  Env.loadEnv true (Some (AutoSync.envContent "https://x.example/work" "h.2000000000.s" "sid"))
    {[ "AUI_TOKEN" := "old" ]} !! "AUI_TOKEN" = Some "h.2000000000.s".
Proof.
  rewrite (proj1 (envContent_round_trip "https://x.example/work" "h.2000000000.s" "sid"
                    {[ "AUI_TOKEN" := "old" ]} eq_refl eq_refl eq_refl)).
  reflexivity.
Defined.

(** * The retry loop of [auto-sync.mjs] *)

Section AutoSyncFacts.
Variable w : AutoSync.world.
Variable m : nat.

Ltac no_later_run :=
  let b := fresh "b" in
  let Hin := fresh "Hin" in
  let Hle := fresh "Hle" in
  intros b Hin Hle;
  repeat (apply elem_of_cons in Hin as [Hin|Hin];
          [first [discriminate Hin | injection Hin as Hin; lia]|]);
  by apply elem_of_nil in Hin.

Ltac no_report :=
  let Hin := fresh "Hin" in
  intros Hin;
  repeat (apply elem_of_cons in Hin as [Hin|Hin]; [discriminate Hin|]);
  by apply elem_of_nil in Hin.

Lemma attempts_spec (fuel a : nat) :
  (a <= m)%nat -> (m - a < fuel)%nat ->
  let acts := fst (AutoSync.attempts w m fuel a) in
  let how := snd (AutoSync.attempts w m fuel a) in
  how <> Pending /\ how <> Ended /\
  (forall a', how = Returned (Some a') -> (a' <= m)%nat) /\
  (runs acts <= m - a + 1)%nat /\ (refreshes acts <= m - a)%nat /\
  (refreshes acts <= runs acts)%nat /\
  (AutoSync.ReportMaxRetries ∉ acts) /\
  (forall b, AutoSync.RunSync (S b) ∈ acts -> (a <= b)%nat ->
     needs_refresh w b /\ AutoSync.refreshed w b = Some true).
Proof.
  revert a. induction fuel as [|fuel IH]; intros a Ha Hfuel; [lia|].
  simpl. destruct (Nat.leb_spec a m) as [_|?]; [|lia].
  destruct (AutoSync.runSync _ _) eqn:Hrun.
  - simpl. unfold runs, refreshes. simpl.
    split_and!; try done; try lia; [no_report|no_later_run].
  - destruct (Nat.ltb_spec a m) as [Hlt|Hge].
    + destruct (AutoSync.refreshed w a) as [[|]|] eqn:Hrefreshed.
      * specialize (IH (S a) ltac:(lia) ltac:(lia)).
        destruct (AutoSync.attempts w m fuel (S a)) as [rest how]. simpl in *.
        destruct IH as (Hp & He & Hleft & Hruns & Hrefs & Hle & Hrep & Hnext).
        unfold runs, refreshes in *. simpl.
        split_and!; try done; try lia.
        -- intros Hin. apply elem_of_cons in Hin as [?|Hin]; [done|].
           apply elem_of_cons in Hin as [?|Hin]; [done|]. by apply Hrep.
        -- intros b Hin Hb.
           apply elem_of_cons in Hin as [Hin|Hin]; [injection Hin as Hin; lia|].
           apply elem_of_cons in Hin as [?|Hin]; [done|].
           destruct (decide (b = a)) as [->|Hne]; [done|].
           apply Hnext; [done|lia].
      * simpl. unfold runs, refreshes. simpl.
        split_and!; try done; try lia; [intros a' [= <-]; lia|no_report|no_later_run].
      * simpl. unfold runs, refreshes. simpl.
        split_and!; try done; try lia; [no_report|no_later_run].
    + simpl. unfold runs, refreshes. simpl.
      split_and!; try done; try lia; [intros a' [= <-]; lia|no_report|no_later_run].
  - simpl. unfold runs, refreshes. simpl.
    split_and!; try done; try lia; [no_report|no_later_run].
Qed.

End AutoSyncFacts.

(** X4: the retry loop of [auto-sync.mjs] always ends; it runs the sync
    at least once and at most [maxRetries] times (twice), and refreshes
    the credential at most once less, never more often than it ran the
    sync; the sync is run again only after a run that needed a refresh
    followed by a refresh that succeeded; and the report that the retries
    are exceeded is never made. *)
Theorem auto_sync_retries (w : AutoSync.world) (m : nat) :
  (1 <= m)%nat ->
  let acts := fst (AutoSync.run_with m w) in
  let how := snd (AutoSync.run_with m w) in
  (how = Returned tt \/ how = Threw) /\
  (1 <= runs acts <= m)%nat /\
  (refreshes acts <= m - 1)%nat /\ (refreshes acts <= runs acts)%nat /\
  (AutoSync.ReportMaxRetries ∉ acts) /\
  (forall b, AutoSync.RunSync (S b) ∈ acts -> (1 <= b)%nat ->
     needs_refresh w b /\ AutoSync.refreshed w b = Some true) /\
  (runs (fst (AutoSync.run w)) <= 2)%nat /\ (refreshes (fst (AutoSync.run w)) <= 1)%nat.
Proof.
  assert (Hgen : forall m', (1 <= m')%nat ->
            let acts := fst (AutoSync.run_with m' w) in
            let how := snd (AutoSync.run_with m' w) in
            (how = Returned tt \/ how = Threw) /\
            (1 <= runs acts <= m')%nat /\
            (refreshes acts <= m' - 1)%nat /\ (refreshes acts <= runs acts)%nat /\
            (AutoSync.ReportMaxRetries ∉ acts) /\
            (forall b, AutoSync.RunSync (S b) ∈ acts -> (1 <= b)%nat ->
               needs_refresh w b /\ AutoSync.refreshed w b = Some true)).
  { intros m' Hm. unfold AutoSync.run_with.
    pose proof (attempts_spec w m' (S m') 1 Hm ltac:(lia)) as Hspec.
    assert (Hfirst : (1 <= runs (fst (AutoSync.attempts w m' (S m') 1)))%nat).
    { simpl. destruct (Nat.leb_spec 1 m') as [_|?]; [|lia].
      unfold runs. repeat case_match; simpl; lia. }
    destruct (AutoSync.attempts w m' (S m') 1) as [acts how]. simpl in Hspec, Hfirst.
    destruct Hspec as (Hp & He & Hleft & Hruns & Hrefs & Hle & Hrep & Hnext).
    destruct how as [[a'|]| | |]; try done.
    - specialize (Hleft a' eq_refl).
      destruct (Nat.ltb_spec m' a') as [?|_]; [lia|]. simpl.
      split_and!; auto; lia.
    - simpl. split_and!; auto; lia.
    - simpl. split_and!; auto; lia. }
  intros Hm.
  destruct (Hgen m Hm) as (H1 & H2 & H3 & H4 & H5 & H6).
  destruct (Hgen AutoSync.maxRetries ltac:(unfold AutoSync.maxRetries; lia))
    as (_ & G2 & G3 & _).
  split_and!; try done; unfold AutoSync.run, AutoSync.maxRetries in *; lia.
Qed.

Lemma auto_sync_retries_witness :
  let w := {| AutoSync.sync_exit := fun a =>
                match a with
                | 1%nat => (Some 1, ["Authorization failed (likely expired token)."])
                | _ => (Some 0, [])
                end;
              AutoSync.refreshed := fun _ => Some true |} in
  (1 <= 2)%nat /\
  fst (AutoSync.run w)
  = [AutoSync.RunSync 1; AutoSync.RefreshTokens 1; AutoSync.RunSync 2] /\
  (runs (fst (AutoSync.run w)) <= 2)%nat.
Proof.
  intros w. split; [lia|]. split; [reflexivity|].
  destruct (auto_sync_retries w 2 ltac:(lia)) as (_ & _ & _ & _ & _ & _ & Hruns & _).
  exact Hruns.
Defined.


(** * The command line *)

Section CommandLineFacts.
Context `{Host}.

(** Two prefixes of one text: one is a prefix of the other. *)
Lemma prefix_clash (p q s : string) :
  String.prefix p s = true -> String.prefix q s = true ->
  String.prefix p q = true \/ String.prefix q p = true.
Proof.
  revert q s. induction p as [|a p IH]; intros q s; [intros _ _; left; by destruct q|].
  destruct q as [|b q]; [intros _ _; by right|].
  destruct s as [|c s]; simpl; [done|].
  destruct (ascii_dec a c) as [->|]; [|done].
  destruct (ascii_dec b c) as [->|]; [|done].
  destruct (ascii_dec c c); [|done]. apply IH.
Qed.

Ltac flag_clash :=
  repeat match goal with
         | Heq : String.eqb _ _ = true |- _ => apply String.eqb_eq in Heq; subst
         end;
  try match goal with
      | Hp : startsWith ?arg ?p = true, Hq : startsWith ?arg ?q = true |- _ =>
          destruct (prefix_clash p q arg Hp Hq) as [Hc|Hc]; vm_compute in Hc; discriminate Hc
      end;
  try match goal with
      | Hp : startsWith _ _ = true |- _ => vm_compute in Hp; discriminate Hp
      end;
  try match goal with
      | Hp : String.eqb _ _ = false |- _ => vm_compute in Hp; discriminate Hp
      end;
  try match goal with
      | Hp : startsWith _ _ = false |- _ => vm_compute in Hp; discriminate Hp
      end.

Ltac flag_cases :=
  unfold parse_flag; repeat case_match; simpl;
  rewrite ?app_nil_r, ?orb_false_r, ?orb_true_r; try done;
  try match goal with
      | |- context [String.eqb ?x ?y] =>
          destruct (String.eqb_spec x y) as [->|?]; simpl;
          rewrite ?orb_false_r, ?orb_true_r; try done
      end;
  flag_clash.

Lemma parse_flag_statuses (a : args) (arg : string) :
  statuses (parse_flag a arg)
  = statuses a ++ (if startsWith arg "--status=" then [flag_value arg] else []).
Proof. flag_cases. Qed.

Lemma parse_flag_classIds (a : args) (arg : string) :
  classIds (parse_flag a arg)
  = classIds a ++ (if startsWith arg "--class-id=" then [flag_value arg] else []).
Proof. flag_cases. Qed.

Lemma parse_flag_dueBefore (a : args) (arg : string) :
  dueBefore (parse_flag a arg)
  = if startsWith arg "--due-before=" then Some (flag_value arg) else dueBefore a.
Proof. flag_cases. Qed.

Lemma parse_flag_dueAfter (a : args) (arg : string) :
  dueAfter (parse_flag a arg)
  = if startsWith arg "--due-after=" then Some (flag_value arg) else dueAfter a.
Proof. flag_cases. Qed.

Lemma parse_flag_details (a : args) (arg : string) :
  details (parse_flag a arg)
  = if startsWith arg "--details=" then Some (flag_value arg) else details a.
Proof. flag_cases. Qed.

Lemma parse_flag_incomplete (a : args) (arg : string) :
  incomplete (parse_flag a arg) = incomplete a || String.eqb arg "--incomplete".
Proof. flag_cases. Qed.

Lemma parse_flag_overdue (a : args) (arg : string) :
  overdue (parse_flag a arg) = overdue a || String.eqb arg "--overdue".
Proof. flag_cases. Qed.

Lemma parse_flag_incremental (a : args) (arg : string) :
  incremental (parse_flag a arg) = incremental a || String.eqb arg "--incremental".
Proof. flag_cases. Qed.

Lemma parse_flag_full (a : args) (arg : string) :
  full (parse_flag a arg) = full a || String.eqb arg "--full".
Proof. flag_cases. Qed.

Lemma flag_values_cons (prefix arg : string) (argv : list string) :
  flag_values prefix (arg :: argv)
  = (if startsWith arg prefix then [flag_value arg] else []) ++ flag_values prefix argv.
Proof. unfold flag_values. simpl. by destruct (startsWith arg prefix). Qed.

Lemma last_or_cons (d : option string) (x : string) (l : list string) :
  last_or d (x :: l) = last_or (Some x) l.
Proof.
  unfold last_or. destruct l as [|y l]; [done|].
  change (last (x :: y :: l)) with (last (y :: l)).
  destruct (last (y :: l)) eqn:Hlast; [done|].
  by apply last_None in Hlast.
Qed.

Lemma foldl_flag_list (field : args -> list string) (prefix : string) :
  (forall a arg, field (parse_flag a arg)
                 = field a ++ (if startsWith arg prefix then [flag_value arg] else [])) ->
  forall argv a, field (foldl parse_flag a argv) = field a ++ flag_values prefix argv.
Proof.
  intros Hstep. induction argv as [|arg argv IH]; intros a; simpl.
  { by rewrite app_nil_r. }
  by rewrite IH, Hstep, flag_values_cons, app_assoc.
Qed.

Lemma foldl_flag_value (field : args -> option string) (prefix : string) :
  (forall a arg, field (parse_flag a arg)
                 = if startsWith arg prefix then Some (flag_value arg) else field a) ->
  forall argv a, field (foldl parse_flag a argv) = last_or (field a) (flag_values prefix argv).
Proof.
  intros Hstep. induction argv as [|arg argv IH]; intros a; simpl.
  { done. }
  rewrite IH, Hstep, flag_values_cons.
  destruct (startsWith arg prefix); [|done]. simpl. by rewrite last_or_cons.
Qed.

Lemma foldl_flag_switch (field : args -> bool) (name : string) :
  (forall a arg, field (parse_flag a arg) = field a || String.eqb arg name) ->
  forall argv a, field (foldl parse_flag a argv) = field a || bool_decide (name ∈ argv).
Proof.
  intros Hstep. induction argv as [|arg argv IH]; intros a; simpl.
  { by rewrite orb_false_r. }
  rewrite IH, Hstep, <- orb_assoc. f_equal.
  destruct (String.eqb_spec arg name) as [->|Hne]; simpl.
  - symmetry. apply bool_decide_eq_true. apply list_elem_of_here.
  - apply bool_decide_ext. rewrite elem_of_cons.
    split; [auto|intros [Heq|Hin]; [congruence|done]].
Qed.

Lemma bad_date_false (o : option string) :
  bad_date o = false -> given o = true -> is_Some (bound_date o).
Proof.
  destruct o as [s|]; simpl; [|done].
  intros Hbad Hgiven. rewrite Hgiven in Hbad. simpl in Hbad.
  apply negb_false_iff in Hbad. by destruct (parseIsoOrNull (JStr s)).
Qed.

End CommandLineFacts.

(** X5: what [parseArgs] reads off the command line. The flags may come in
    any order and anything else is ignored: a switch is on exactly when
    it occurs, the statuses and the class ids are the values of all their
    flags in order, a bound or the details take the value of their last
    flag, and the mode is full when [--full] occurs or [--incremental]
    does not. Help ends the process with status 0 whatever else is given;
    a bound that is given after parsing is a date. *)
Theorem parseArgs_reads_flags `{Host} (argv : list string) :
  (parseArgs argv = Exited 0 <-> "--help" ∈ argv \/ "-h" ∈ argv) /\
  (forall a, parseArgs argv = Parsed a ->
     statuses a = flag_values "--status=" argv /\
     classIds a = flag_values "--class-id=" argv /\
     dueBefore a = last (flag_values "--due-before=" argv) /\
     dueAfter a = last (flag_values "--due-after=" argv) /\
     details a = last (flag_values "--details=" argv) /\
     incomplete a = bool_decide ("--incomplete" ∈ argv) /\
     overdue a = bool_decide ("--overdue" ∈ argv) /\
     incremental a = bool_decide ("--incremental" ∈ argv) /\
     refreshTokens a = bool_decide ("--refresh-tokens" ∈ argv) /\
     full a = bool_decide ("--full" ∈ argv) || negb (bool_decide ("--incremental" ∈ argv)) /\
     (given (dueBefore a) = true -> is_Some (bound_date (dueBefore a))) /\
     (given (dueAfter a) = true -> is_Some (bound_date (dueAfter a)))).
Proof.
  unfold parseArgs. split.
  - destruct (bool_decide ("--help" ∈ argv)) eqn:Hhelp; simpl.
    { apply bool_decide_eq_true in Hhelp. tauto. }
    apply bool_decide_eq_false in Hhelp.
    destruct (bool_decide ("-h" ∈ argv)) eqn:Hh; simpl.
    { apply bool_decide_eq_true in Hh. tauto. }
    apply bool_decide_eq_false in Hh.
    split; [|tauto]. by repeat case_match.
  - intros a. destruct (_ || _); [done|].
    set (a0 := foldl parse_flag default_args argv).
    destruct (bad_date (dueBefore (default_mode a0))) eqn:Hbefore; [done|].
    destruct (bad_date (dueAfter (default_mode a0))) eqn:Hafter; [done|].
    intros [= <-].
    assert (Hmode : forall (A : Type) (field : args -> A),
              (forall x b, field {| dueBefore := dueBefore x; dueAfter := dueAfter x;
                                    statuses := statuses x; classIds := classIds x;
                                    incomplete := incomplete x; overdue := overdue x;
                                    incremental := incremental x; full := b;
                                    details := details x;
                                    refreshTokens := refreshTokens x |} = field x) ->
              field (default_mode a0) = field a0).
    { intros A field Hfield. unfold default_mode. by destruct (_ && _). }
    split_and!.
    + rewrite (Hmode _ statuses) by done.
      apply (foldl_flag_list statuses "--status=" parse_flag_statuses argv default_args).
    + rewrite (Hmode _ classIds) by done.
      apply (foldl_flag_list classIds "--class-id=" parse_flag_classIds argv default_args).
    + rewrite (Hmode _ dueBefore) by done. unfold a0.
      rewrite (foldl_flag_value dueBefore "--due-before=" parse_flag_dueBefore argv).
      unfold last_or. simpl. by destruct (last _).
    + rewrite (Hmode _ dueAfter) by done. unfold a0.
      rewrite (foldl_flag_value dueAfter "--due-after=" parse_flag_dueAfter argv).
      unfold last_or. simpl. by destruct (last _).
    + rewrite (Hmode _ details) by done. unfold a0.
      rewrite (foldl_flag_value details "--details=" parse_flag_details argv).
      unfold last_or. simpl. by destruct (last _).
    + rewrite (Hmode _ incomplete) by done.
      apply (foldl_flag_switch incomplete "--incomplete" parse_flag_incomplete argv).
    + rewrite (Hmode _ overdue) by done.
      apply (foldl_flag_switch overdue "--overdue" parse_flag_overdue argv).
    + rewrite (Hmode _ incremental) by done.
      apply (foldl_flag_switch incremental "--incremental" parse_flag_incremental argv).
    + rewrite (Hmode _ refreshTokens) by done.
      apply (foldl_flag_switch refreshTokens "--refresh-tokens" parse_flag_refreshTokens argv).
    + unfold default_mode.
      pose proof (foldl_flag_switch incremental "--incremental" parse_flag_incremental
                    argv default_args) as Hinc.
      pose proof (foldl_flag_switch full "--full" parse_flag_full argv default_args) as Hfull.
      fold a0 in Hinc, Hfull. simpl in Hinc, Hfull.
      rewrite <- Hinc, <- Hfull.
      destruct (incremental a0) eqn:Ei, (full a0) eqn:Ef; simpl; by rewrite ?Ef.
    + by apply bad_date_false.
    + by apply bad_date_false.
Qed.

Example parseArgs_order :
  @parseArgs Demo.host ["--status=assigned"; "--overdue"; "--status=returned"; "junk"]
  = @parseArgs Demo.host ["junk"; "--status=assigned"; "--status=returned"; "--overdue"].
Proof. reflexivity. Qed.

(** * The filters *)

Section FilterExact.
Context `{Host}.

Lemma keep_conjunction (a : args) (st : state) (now_ms : Z) (item : Item.t) :
  keep a st now_ms item =
  negb (given (dueBefore a) && negb (String.eqb (Item.dueDate item) "")
        && match parseIsoOrNull (JStr (Item.dueDate item)), bound_date (dueBefore a) with
           | Some dueDate, Some beforeDate => beforeDate <? dueDate
           | _, _ => false
           end)
  && negb (given (dueAfter a) && negb (String.eqb (Item.dueDate item) "")
           && match parseIsoOrNull (JStr (Item.dueDate item)), bound_date (dueAfter a) with
              | Some dueDate, Some afterDate => dueDate <? afterDate
              | _, _ => false
              end)
  && negb ((0 <? length (statuses a))%nat
           && negb (bool_decide (Item.status item ∈ statuses a)))
  && negb ((0 <? length (classIds a))%nat
           && negb (bool_decide (Item.classId item ∈ classIds a)))
  && negb (incomplete a && (Item.allTurnedIn item && Item.anySubmittedState item))
  && negb (overdue a
           && (String.eqb (Item.dueDate item) ""
               || match parseIsoOrNull (JStr (Item.dueDate item)) with
                  | Some dueDate => now_ms <=? dueDate
                  | None => true
                  end))
  && negb (incremental a && bool_decide (Item.id item ∈ seenIds st)).
Proof.
  unfold keep.
  repeat match goal with
         | |- context [if ?c then false else _] =>
             destruct c eqn:?; simpl; rewrite ?andb_false_r, ?andb_true_r; try done
         end.
Qed.

Lemma bound_factor (g : bool) (dueDate : string) (due bound : option Z)
    (lt : Z -> Z -> bool) (R : Z -> Z -> Prop) :
  (forall d b, lt d b = false <-> R d b) ->
  (g && negb (String.eqb dueDate "")
   && match due, bound with
      | Some d, Some b => lt d b
      | _, _ => false
      end) = false <->
  (forall b d, g = true -> bound = Some b -> dueDate <> "" -> due = Some d -> R d b).
Proof.
  intros Hlt. destruct g; simpl.
  2:{ split; [intros _ b d Hg; done|done]. }
  destruct (String.eqb_spec dueDate "") as [->|Hne]; simpl.
  { split; [intros _ b d _ _ Hd; done|done]. }
  destruct due as [d|]; [|split; [intros _ b d _ _ _ Hd; done|done]].
  destruct bound as [b|]; [|split; [intros _ b d' _ Hb; done|done]].
  rewrite Hlt. split.
  - intros HR b' d' _ [= <-] _ [= <-]. done.
  - intros HR. by apply HR.
Qed.

Lemma length_pos_nonempty {A : Type} (l : list A) :
  (0 <? length l)%nat = true <-> l <> [].
Proof. destruct l; simpl; split; done. Qed.

Lemma keep_passes (a : args) (st : state) (now_ms : Z) (item : Item.t) :
  keep a st now_ms item = true <-> passes a st now_ms item.
Proof.
  rewrite keep_conjunction. unfold passes.
  rewrite !andb_true_iff, !negb_true_iff.
  rewrite (bound_factor _ _ _ _ (fun d b => b <? d) (fun d b => d <= b))
    by (intros d b; rewrite Z.ltb_ge; done).
  rewrite (bound_factor _ _ _ _ (fun d b => d <? b) (fun d b => b <= d))
    by (intros d b; rewrite Z.ltb_ge; done).
  assert (Hstatus : ((0 <? length (statuses a))%nat
                     && negb (bool_decide (Item.status item ∈ statuses a))) = false
                    <-> (statuses a <> [] -> Item.status item ∈ statuses a)).
  { rewrite andb_false_iff, negb_false_iff, bool_decide_eq_true.
    rewrite <- (length_pos_nonempty (statuses a)).
    destruct (0 <? length (statuses a))%nat; intuition congruence. }
  assert (Hclass : ((0 <? length (classIds a))%nat
                    && negb (bool_decide (Item.classId item ∈ classIds a))) = false
                   <-> (classIds a <> [] -> Item.classId item ∈ classIds a)).
  { rewrite andb_false_iff, negb_false_iff, bool_decide_eq_true.
    rewrite <- (length_pos_nonempty (classIds a)).
    destruct (0 <? length (classIds a))%nat; intuition congruence. }
  assert (Hincomplete : (incomplete a
                         && (Item.allTurnedIn item && Item.anySubmittedState item)) = false
                        <-> (incomplete a = true -> ~ turned_in_and_submitted item)).
  { unfold turned_in_and_submitted.
    destruct (incomplete a), (Item.allTurnedIn item), (Item.anySubmittedState item);
      simpl; intuition congruence. }
  assert (Hoverdue : (overdue a
                      && (String.eqb (Item.dueDate item) ""
                          || match parseIsoOrNull (JStr (Item.dueDate item)) with
                             | Some dueDate => now_ms <=? dueDate
                             | None => true
                             end)) = false
                     <-> (overdue a = true ->
                          Item.dueDate item <> "" /\
                          exists due, parseIsoOrNull (JStr (Item.dueDate item)) = Some due
                                      /\ due < now_ms)).
  { destruct (overdue a); simpl; [|split; [intros _ ?; done|done]].
    destruct (String.eqb_spec (Item.dueDate item) "") as [Hempty|Hne]; simpl.
    { split; [done|]. intros Hdue. by destruct (Hdue eq_refl). }
    destruct (parseIsoOrNull (JStr (Item.dueDate item))) as [due|].
    - rewrite Z.leb_gt. split.
      + intros Hlt _. split; [done|]. by exists due.
      + intros Hdue. destruct (Hdue eq_refl) as (_ & due' & [= <-] & Hlt). done.
    - split; [done|]. intros Hdue. by destruct (Hdue eq_refl) as (_ & due' & ? & _). }
  assert (Hseen : (incremental a && bool_decide (Item.id item ∈ seenIds st)) = false
                  <-> (incremental a = true -> Item.id item ∉ seenIds st)).
  { rewrite andb_false_iff, bool_decide_eq_false.
    destruct (incremental a); intuition congruence. }
  rewrite Hstatus, Hclass, Hincomplete, Hoverdue, Hseen. tauto.
Qed.

Lemma keep_set_bounds (before after : option string) (a : args) (st : state) (now_ms : Z)
    (item : Item.t) :
  Item.dueDate item = "" ->
  keep (set_bounds before after a) st now_ms item = keep a st now_ms item.
Proof.
  intros Hdue. rewrite !keep_conjunction. simpl. rewrite Hdue. simpl.
  by rewrite !andb_false_r.
Qed.

End FilterExact.

(** X6: the filtered list holds exactly the items of the input that pass
    every filter of the command line, in the order of the input. An item
    with a due date that is a date passes [--due-before] when the date is
    the bound or earlier, and [--due-after] when it is the bound or
    later; it passes the statuses and the class ids when its own is among
    them, [--overdue] when its due date is a date before now, and
    [--incremental] when its id is not marked seen. An item without a due
    date passes every bound and fails [--overdue]. *)
Theorem applyFilters_exact `{Host} (a : args) (st : state) (now_ms : Z)
    (items : list Item.t) :
  (forall item, item ∈ applyFilters a st now_ms items
                <-> item ∈ items /\ passes a st now_ms item) /\
  applyFilters a st now_ms items `sublist_of` items /\
  (forall item before after, Item.dueDate item = "" ->
     (item ∈ applyFilters (set_bounds before after a) st now_ms items
      <-> item ∈ applyFilters a st now_ms items) /\
     (overdue a = true -> item ∉ applyFilters a st now_ms items)).
Proof.
  split; [|split].
  - intros item. by rewrite elem_of_applyFilters, keep_passes.
  - unfold applyFilters. induction items as [|x items IH]; simpl; [done|].
    destruct (keep a st now_ms x); [by apply sublist_skip|by apply sublist_cons].
  - intros item before after Hdue. split.
    + by rewrite !elem_of_applyFilters, keep_set_bounds.
    + intros Hoverdue Hin. apply elem_of_applyFilters in Hin as [_ Hkeep].
      apply keep_passes in Hkeep as (_ & _ & _ & _ & _ & Hover & _).
      by destruct (Hover Hoverdue).
Qed.

Section IncrementalRuns.
Context `{Host}.

Lemma filter_all {A : Type} (f : A -> bool) (l : list A) :
  (forall x, x ∈ l -> f x = true) -> List.filter f l = l.
Proof.
  induction l as [|x l IH]; simpl; [done|]. intros Hall.
  rewrite (Hall x) by apply list_elem_of_here.
  rewrite IH; [done|]. intros y Hy. apply Hall. by apply list_elem_of_further.
Qed.

Lemma filter_none {A : Type} (f : A -> bool) (l : list A) :
  (forall x, x ∈ l -> f x = false) -> List.filter f l = [].
Proof.
  induction l as [|x l IH]; simpl; [done|]. intros Hall.
  rewrite (Hall x) by apply list_elem_of_here.
  apply IH. intros y Hy. apply Hall. by apply list_elem_of_further.
Qed.

Lemma passes_other_run (a : args) (st st' : state) (now_ms now' : Z) (item : Item.t) :
  overdue a = false \/ now' = now_ms ->
  (incremental a = true -> Item.id item ∉ seenIds st' -> Item.id item ∉ seenIds st) ->
  passes a st' now' item -> passes a st now_ms item.
Proof.
  intros Hclock Hseen (Hb & Ha & Hs & Hc & Hi & Ho & Hn).
  unfold passes. split_and!; try done.
  - intros Hover. destruct Hclock as [Hnone| ->]; [congruence|]. by apply Ho.
  - intros Hinc. apply Hseen; [done|]. by apply Hn.
Qed.

End IncrementalRuns.

(** X7: an incremental run followed by its commit. In incremental mode
    (without [--full]) the commit appends the ids of all filtered items
    to the seen ids; a second run over the same items with the state that
    was committed, at the same time or without [--overdue], keeps none of
    them, and of a longer listing it keeps only items that are new. *)
Theorem incremental_rerun `{Host} (a : args) (st : state) (now_ms now' : Z) (stamp : string)
    (items : list Item.t) :
  incremental a = true -> full a = false ->
  overdue a = false \/ now' = now_ms ->
  let filtered := applyFilters a st now_ms items in
  let st' := updateState a st (List.map Item.id filtered) stamp in
  seenIds st' = seenIds st ++ List.map Item.id filtered /\
  applyFilters a st' now' items = [] /\
  (forall more, applyFilters a st' now' (items ++ more) = applyFilters a st' now' more).
Proof.
  intros Hinc Hfull Hclock filtered st'.
  assert (Hseen : seenIds st' = seenIds st ++ List.map Item.id filtered).
  { unfold st', updateState. simpl. rewrite Hfull, Hinc. f_equal.
    apply filter_all. intros i Hi. apply negb_true_iff, bool_decide_eq_false.
    apply list_elem_of_fmap in Hi as (item & -> & Hitem).
    apply elem_of_applyFilters in Hitem as [_ Hkeep].
    apply keep_passes in Hkeep as (_ & _ & _ & _ & _ & _ & Hn). by apply Hn. }
  assert (Hnone : applyFilters a st' now' items = []).
  { unfold applyFilters. apply filter_none. intros item Hitem.
    apply not_true_is_false. intros Hkeep. apply keep_passes in Hkeep.
    assert (Hfirst : passes a st now_ms item).
    { apply (passes_other_run a st st' now_ms now' item Hclock); [|done].
      intros _ Hnot Hin. apply Hnot. rewrite Hseen. apply elem_of_app. by left. }
    destruct Hkeep as (_ & _ & _ & _ & _ & _ & Hn). apply (Hn Hinc).
    rewrite Hseen. apply elem_of_app. right. apply list_elem_of_fmap.
    exists item. split; [done|]. apply elem_of_applyFilters. split; [done|].
    by apply keep_passes. }
  split; [done|]. split; [done|].
  intros more. unfold applyFilters in *. by rewrite List.filter_app, Hnone.
Qed.

Lemma incremental_rerun_witness :
  let a := Incremental.flags in
  let items := [Incremental.normal "a1" "one"; Incremental.normal "a2" "two"] in
  let st' := updateState a Incremental.prior
               (List.map Item.id (@applyFilters Demo.host a Incremental.prior 0 items)) "t" in
  incremental a = true /\ full a = false /\
  seenIds st' = ["a1"; "a2"] /\
  @applyFilters Demo.host a st' 5 items = [].
Proof.
  intros a items st'.
  destruct (@incremental_rerun Demo.host a Incremental.prior 0 5 "t" items
              eq_refl eq_refl (or_introl eq_refl)) as (Hseen & Hnone & _).
  split; [reflexivity|]. split; [reflexivity|]. split; [reflexivity|]. exact Hnone.
Defined.

Example both_modes_forget :
  let a := default_mode (parse_flag (parse_flag default_args "--incremental") "--full") in
  let items := [Incremental.normal "a1" "one"; Incremental.normal "a2" "two"] in
  let st' := updateState a Incremental.prior
               (List.map Item.id (@applyFilters Demo.host a Incremental.prior 0 items)) "t" in
  seenIds st' = ["a2"] /\
  List.map Item.id (@applyFilters Demo.host a st' 0 items) = ["a1"].
Proof. split; reflexivity. Qed.


(** * The roster *)

Section RosterFacts.

Lemma same_value_zero_sym (a b : jsval) :
  Js.same_value_zero a b = Js.same_value_zero b a.
Proof.
  destruct a as [| |x|[| |x|]|x| |], b as [| |y|[| |y|]|y| |]; simpl; try done.
  - by destruct x, y.
  - destruct (Qeq_bool x y) eqn:Hxy, (Qeq_bool y x) eqn:Hyx; try done.
    + apply Qeq_bool_iff in Hxy. symmetry in Hxy. apply Qeq_bool_iff in Hxy. congruence.
    + apply Qeq_bool_iff in Hyx. symmetry in Hyx. apply Qeq_bool_iff in Hyx. congruence.
  - apply String.eqb_sym.
Qed.

Lemma same_value_zero_trans (a b c : jsval) :
  Js.same_value_zero a b = true -> Js.same_value_zero b c = true ->
  Js.same_value_zero a c = true.
Proof.
  destruct a as [| |x|[| |x|]|x| |], b as [| |y|[| |y|]|y| |], c as [| |z|[| |z|]|z| |];
    simpl; try done.
  - by destruct x, y, z.
  - intros Hxy Hyz. apply Qeq_bool_iff in Hxy, Hyz. apply Qeq_bool_iff.
    by rewrite Hxy.
  - intros Hxy Hyz. apply String.eqb_eq in Hxy, Hyz. apply String.eqb_eq. congruence.
Qed.

Lemma same_value_zero_agree (a b c : jsval) :
  Js.same_value_zero a b = true -> Js.same_value_zero a c = Js.same_value_zero b c.
Proof.
  intros Hab. destruct (Js.same_value_zero b c) eqn:Hbc.
  - by apply (same_value_zero_trans a b c).
  - apply not_true_is_false. intros Hac. rewrite same_value_zero_sym in Hab.
    by rewrite (same_value_zero_trans b a c Hab Hac) in Hbc.
Qed.

(** Lookup after [set]. *)
Lemma map_get_set (k1 k : jsval) (v : Person.t) (m : list (jsval * Person.t)) :
  map_get k (map_set k1 v m) = if Js.same_value_zero k1 k then Some v else map_get k m.
Proof.
  induction m as [|[k' v'] m IH]; simpl.
  { by destruct (Js.same_value_zero k1 k). }
  destruct (Js.same_value_zero k' k1) eqn:Hk1; simpl.
  - rewrite (same_value_zero_agree k' k1 k Hk1).
    by destruct (Js.same_value_zero k1 k).
  - rewrite IH. destruct (Js.same_value_zero k' k) eqn:Hk; [|done].
    destruct (Js.same_value_zero k1 k) eqn:Hk1k; [|done].
    rewrite same_value_zero_sym in Hk1k.
    by rewrite (same_value_zero_trans k' k k1 Hk Hk1k) in Hk1.
Qed.

Lemma add_member_readable (acc : members) (member : jsval) :
  nullish member = false ->
  add_member acc member =
  Some {| teachers := teachers acc ++ (if is_teacher member then [person_of member] else []);
          students := students acc
                      ++ (if negb (is_teacher member) && is_student member
                          then [person_of member] else []);
          byId := map_set (Js.get_opt member "id") (person_of member) (byId acc) |}.
Proof.
  intros Hm. unfold add_member. rewrite !(get_not_nullish member _ Hm). simpl.
  unfold is_teacher, is_student, person_of.
  destruct (Js.strict_eq_str (Js.get_opt member "role") "teacher"); simpl.
  { by rewrite app_nil_r. }
  destruct (Js.strict_eq_str (Js.get_opt member "role") "student"); simpl;
    by rewrite ?app_nil_r.
Qed.

Lemma add_member_unreadable (acc : members) (member : jsval) :
  nullish member = true -> add_member acc member = None.
Proof. intros Hm. unfold add_member. by rewrite (get_nullish member "id" Hm). Qed.

Lemma teacher_not_student (member : jsval) :
  is_student member = true -> is_teacher member = false.
Proof.
  unfold is_student, is_teacher. destruct (Js.get_opt member "role"); simpl; try done.
  intros Hs. apply String.eqb_eq in Hs as ->. done.
Qed.

Lemma last_filter_cons {A : Type} (f : A -> bool) (x : A) (l : list A) :
  last (List.filter f (x :: l))
  = match last (List.filter f l) with
    | Some y => Some y
    | None => if f x then Some x else None
    end.
Proof.
  simpl. destruct (f x); [|by destruct (last _)].
  destruct (List.filter f l) as [|y l'] eqn:Hl; [done|].
  change (last (x :: y :: l')) with (last (y :: l')).
  destruct (last (y :: l')) eqn:Hlast; [done|]. by apply last_None in Hlast.
Qed.

Lemma collect_members_readable (items : list jsval) (acc : members) :
  readable items ->
  exists m,
    collect_members acc items = Some m /\
    teachers m = teachers acc ++ (person_of <$> List.filter is_teacher items) /\
    students m = students acc ++ (person_of <$> List.filter is_student items) /\
    (forall k, map_get k (byId m)
               = match last (List.filter (has_id k) items) with
                 | Some member => Some (person_of member)
                 | None => map_get k (byId acc)
                 end).
Proof.
  intros Hitems. revert acc.
  induction Hitems as [|member items Hm _ IH]; intros acc; simpl.
  { exists acc. by rewrite !app_nil_r. }
  rewrite (add_member_readable acc member Hm). simpl.
  destruct (IH {| teachers := teachers acc
                              ++ (if is_teacher member then [person_of member] else []);
                  students := students acc
                              ++ (if negb (is_teacher member) && is_student member
                                  then [person_of member] else []);
                  byId := map_set (Js.get_opt member "id") (person_of member) (byId acc) |})
    as (m & -> & Ht & Hs & Hid).
  simpl in Ht, Hs, Hid. exists m. split; [done|]. split; [|split].
  - rewrite Ht, <- app_assoc. f_equal. by destruct (is_teacher member).
  - rewrite Hs, <- app_assoc. f_equal.
    destruct (is_student member) eqn:Hst; simpl.
    + by rewrite (teacher_not_student member Hst).
    + by rewrite andb_false_r.
  - intros k. rewrite Hid, map_get_set.
    change (if has_id k member then member :: List.filter (has_id k) items
            else List.filter (has_id k) items)
      with (List.filter (has_id k) (member :: items)).
    rewrite last_filter_cons. unfold has_id at 3.
    destruct (last (List.filter (has_id k) items)); [done|].
    by destruct (Js.same_value_zero (Js.get_opt member "id") k).
Qed.

Lemma collect_members_unreadable (items : list jsval) (acc : members) :
  ~ readable items -> collect_members acc items = None.
Proof.
  revert acc. induction items as [|member items IH]; intros acc Hitems; simpl.
  { destruct Hitems. constructor. }
  destruct (nullish member) eqn:Hm.
  - by rewrite add_member_unreadable.
  - rewrite (add_member_readable acc member Hm). simpl. apply IH.
    intros Hrest. apply Hitems. by constructor.
Qed.

End RosterFacts.

(** X8: the roster that [fetchClassMembers] builds from a response whose
    [value] is the array [items]. When every member can be read, the
    teachers are the members with the role teacher and the students
    those with the role student, in the order of the response; a member
    with another role is in neither; the map by id gives, for an id, the
    last member with this id. When a member is [null], or the body is,
    nothing is built (and the empty roster is cached); a body without an
    array gives the empty roster. *)
Theorem build_members_roster (data : jsval) (items : list jsval) :
  nullish data = false -> Js.get_opt data "value" = JArr items ->
  (readable items ->
   exists m,
     build_members data = Some m /\
     teachers m = person_of <$> List.filter is_teacher items /\
     students m = person_of <$> List.filter is_student items /\
     (forall k, map_get k (byId m) = person_of <$> last (List.filter (has_id k) items)) /\
     (length (teachers m) + length (students m) <= length items)%nat) /\
  (~ readable items -> build_members data = None) /\
  build_members JNull = None /\
  (forall fields, Js.field "value" fields = JUndefined ->
     build_members (JObj fields) = Some empty_members).
Proof.
  intros Hdata Hvalue. unfold build_members.
  rewrite (get_not_nullish data "value" Hdata), Hvalue. simpl.
  split; [|split; [|split]].
  - intros Hitems.
    destruct (collect_members_readable items empty_members Hitems)
      as (m & Hm & Ht & Hs & Hid).
    exists m. simpl in Ht, Hs, Hid. split; [done|]. split; [done|]. split; [done|].
    split.
    + intros k. rewrite Hid. by destruct (last _).
    + rewrite Ht, Hs, !length_fmap.
      clear. induction items as [|x items IH]; simpl; [done|].
      destruct (is_student x) eqn:Hst.
      * rewrite (teacher_not_student x Hst). simpl. lia.
      * destruct (is_teacher x); simpl; lia.
  - apply collect_members_unreadable.
  - done.
  - intros fields Hnone. simpl. by rewrite Hnone.
Qed.

Lemma build_members_roster_witness :
  nullish Demo.roster = false /\
  exists m, build_members Demo.roster = Some m /\
            length (teachers m) = 1%nat /\ length (students m) = 2%nat.
Proof.
  split; [reflexivity|].
  destruct (build_members_roster Demo.roster _ eq_refl eq_refl) as [Hok _].
  destruct Hok as (m & Hm & Ht & Hs & _).
  { repeat constructor. }
  exists m. split; [exact Hm|]. by rewrite Ht, Hs.
Defined.

Section TeacherFacts.

Lemma resolve_teacher_shown (raw : jsval) (m : members) (items : list jsval) (s : session) :
  nullish raw = false ->
  teachers m = person_of <$> List.filter is_teacher items ->
  (forall k, map_get k (byId m) = person_of <$> last (List.filter (has_id k) items)) ->
  resolve_teacher raw m s =
  (Returned (fst (shown_teacher items
                    (Js.get_opt (Js.get_opt (Js.get_opt raw "createdBy") "user") "id")),
             snd (shown_teacher items
                    (Js.get_opt (Js.get_opt (Js.get_opt raw "createdBy") "user") "id")),
             length (students m)), s).
Proof.
  intros Hraw Ht Hid. unfold resolve_teacher. rewrite bind_read_ok by done.
  unfold shown_teacher. cbv zeta. rewrite Hid, Ht.
  set (creator := Js.get_opt (Js.get_opt (Js.get_opt raw "createdBy") "user") "id").
  destruct (Js.truthy creator); simpl.
  - destruct (last (List.filter (has_id creator) items)) as [member|]; simpl.
    + unfold is_teacher, or_empty.
      destruct (Js.strict_eq_str (Js.get_opt member "role") "teacher"); simpl.
      * destruct (Js.truthy (Js.or (Js.get_opt member "displayName") (JStr ""))); simpl;
          [done|]. by destruct (List.filter _ items).
      * by destruct (List.filter _ items).
    + by destruct (List.filter _ items).
  - by destruct (List.filter _ items).
Qed.

Lemma shown_teacher_is_teacher (items : list jsval) (creator : jsval) :
  (fst (shown_teacher items creator) = JStr "" \/
   exists member, member ∈ items /\ is_teacher member = true /\
                  fst (shown_teacher items creator)
                  = Js.get_opt member "displayName") /\
  (List.filter is_teacher items = [] -> shown_teacher items creator = (JStr "", JStr "")).
Proof.
  assert (Hname : forall member,
            Js.truthy (or_empty (Js.get_opt member "displayName")) = true ->
            or_empty (Js.get_opt member "displayName") = Js.get_opt member "displayName").
  { intros member. unfold or_empty, Js.or.
    by destruct (Js.truthy (Js.get_opt member "displayName")). }
  assert (Hfalsy : forall v, Js.truthy (or_empty v) = false -> or_empty v = JStr "").
  { intros v. apply or_default. }
  assert (Hlast : forall member,
            last (List.filter (has_id creator) items) = Some member -> member ∈ items).
  { intros member Hl. apply last_Some_elem_of in Hl.
    apply list_elem_of_In, filter_In in Hl as [Hl _]. by apply list_elem_of_In. }
  unfold shown_teacher. cbv zeta. split.
  - destruct (Js.truthy creator); simpl.
    + destruct (last (List.filter (has_id creator) items)) as [member|] eqn:Hl; simpl.
      * destruct (is_teacher member) eqn:Hteach; simpl.
        -- destruct (Js.truthy (or_empty (Js.get_opt member "displayName"))) eqn:Hn.
           ++ right. exists member. split; [by apply Hlast|]. split; [done|].
              by apply Hname.
           ++ destruct (List.filter is_teacher items) as [|first rest] eqn:Hf; simpl.
              ** left. by apply Hfalsy.
              ** destruct (Js.truthy (or_empty (Js.get_opt first "displayName"))) eqn:Hn1.
                 --- right. exists first.
                     assert (Hin : first ∈ List.filter is_teacher items)
                       by (rewrite Hf; apply list_elem_of_here).
                     apply list_elem_of_In, filter_In in Hin as [Hin Hrole].
                     split; [by apply list_elem_of_In|]. split; [done|]. by apply Hname.
                 --- left. by apply Hfalsy.
        -- destruct (List.filter is_teacher items) as [|first rest] eqn:Hf; simpl; [by left|].
           destruct (Js.truthy (or_empty (Js.get_opt first "displayName"))) eqn:Hn1.
           ++ right. exists first.
              assert (Hin : first ∈ List.filter is_teacher items)
                by (rewrite Hf; apply list_elem_of_here).
              apply list_elem_of_In, filter_In in Hin as [Hin Hrole].
              split; [by apply list_elem_of_In|]. split; [done|]. by apply Hname.
           ++ left. by apply Hfalsy.
      * destruct (List.filter is_teacher items) as [|first rest] eqn:Hf; simpl; [by left|].
        destruct (Js.truthy (or_empty (Js.get_opt first "displayName"))) eqn:Hn1.
        -- right. exists first.
           assert (Hin : first ∈ List.filter is_teacher items)
             by (rewrite Hf; apply list_elem_of_here).
           apply list_elem_of_In, filter_In in Hin as [Hin Hrole].
           split; [by apply list_elem_of_In|]. split; [done|]. by apply Hname.
        -- left. by apply Hfalsy.
    + destruct (List.filter is_teacher items) as [|first rest] eqn:Hf; simpl; [by left|].
      destruct (Js.truthy (or_empty (Js.get_opt first "displayName"))) eqn:Hn1.
      * right. exists first.
        assert (Hin : first ∈ List.filter is_teacher items)
          by (rewrite Hf; apply list_elem_of_here).
        apply list_elem_of_In, filter_In in Hin as [Hin Hrole].
        split; [by apply list_elem_of_In|]. split; [done|]. by apply Hname.
      * left. by apply Hfalsy.
  - intros Hnone. rewrite Hnone.
    destruct (Js.truthy creator); simpl; [|done].
    destruct (last (List.filter (has_id creator) items)) as [member|] eqn:Hl; simpl; [|done].
    destruct (is_teacher member) eqn:Hteach; simpl; [|done].
    assert (Hin : member ∈ List.filter is_teacher items).
    { apply list_elem_of_In, filter_In. split; [|done].
      apply list_elem_of_In. by apply Hlast. }
    rewrite Hnone in Hin. by apply elem_of_nil in Hin.
Qed.

End TeacherFacts.

(** X9: the teacher of a canonical record. For a class whose roster is
    requested and answered with members that can all be read, the roster
    block of [normalizeAssignment] gives the name and the email of the
    last member with the id of the creator of the record when that member
    is a teacher with a name, otherwise those of the first teacher of the
    response, otherwise empty texts; the student count is the number of
    members with the role student. The name is thus empty or the name of
    a teacher of the response, and both are empty when the response holds
    no teacher. *)
Theorem roster_info_shows (net : network) (raw : jsval) (classId : string)
    (s : session) (data : jsval) (items : list jsval) :
  nullish raw = false -> classId <> "" ->
  classMembers s !! classId = None ->
  members_response net (length (issued s)) classId = Some data ->
  nullish data = false -> Js.get_opt data "value" = JArr items -> readable items ->
  let creator := Js.get_opt (Js.get_opt (Js.get_opt raw "createdBy") "user") "id" in
  let shown := shown_teacher items creator in
  (exists m,
     roster_info net raw classId s
     = (Returned (fst shown, snd shown, length (List.filter is_student items)),
        {| classMembers := <[classId := m]> (classMembers s);
           issued := issued s ++ [FetchMembers classId] |})) /\
  (fst shown = JStr "" \/
   exists member, member ∈ items /\ is_teacher member = true /\
                  fst shown = Js.get_opt member "displayName") /\
  (List.filter is_teacher items = [] -> shown = (JStr "", JStr "")).
Proof.
  intros Hraw Hclass Hmiss Hresp Hdata Hvalue Hitems creator shown.
  split; [|apply shown_teacher_is_teacher].
  destruct (build_members_roster data items Hdata Hvalue) as [Hbuild _].
  destruct (Hbuild Hitems) as (m & Hm & Ht & Hs & Hid & _).
  exists m. unfold roster_info, try_catch.
  apply String.eqb_neq in Hclass. rewrite Hclass. simpl.
  unfold mbind, sync_bind, bind, fetchClassMembers. rewrite Hmiss, Hresp, Hm.
  rewrite (resolve_teacher_shown raw m items _ Hraw Ht Hid).
  by rewrite Hs, length_fmap.
Qed.

Lemma roster_info_shows_witness :
  exists s',
    roster_info Demo.school (Demo.raw "a1" "x") "c1" new_session
    = (Returned (JStr "Gray, Ian - IRG", JStr "irg@school.example", 2%nat), s').
Proof.
  destruct (roster_info_shows Demo.school (Demo.raw "a1" "x") "c1" new_session
              Demo.roster _ eq_refl ltac:(discriminate) eq_refl eq_refl eq_refl eq_refl
              ltac:(repeat constructor)) as [[m Hm] _].
  eexists. exact Hm.
Defined.


(** * Requests and dates of the normalizer *)

Section NormalizerRequests.
Context `{Host}.
Variable net : network.

Lemma description_of_session (raw : jsval) (classId : string) (s : session) :
  nullish raw = false ->
  snd (description_of net raw classId s) = s \/
  (snd (description_of net raw classId s)
   = {| classMembers := classMembers s;
        issued := issued s ++ [FetchDetail classId (Js.get_opt raw "id")] |} /\
   classId <> "" /\ Js.truthy (Js.get_opt raw "id") = true /\ listed_empty raw).
Proof.
  intros Hraw.
  destruct (description_of net raw classId s) as [o s2] eqn:Hd. simpl.
  revert Hd. unfold description_of.
  unfold mbind at 1, sync_bind at 1, bind at 1. rewrite described_spec by done.
  assert (Hblock :
    listed_empty raw ->
    (if String.eqb "" "" && negb (String.eqb classId "")
        && Js.truthy (Js.get_opt raw "id")
     then
       try_catch
         (read raw "displayName" ≫= fun displayName =>
          convert (js_String displayName) ≫= fun _ =>
          fetchDetailedAssignment net classId (Js.get_opt raw "id")
            ≫= fun detailedAssignment =>
            match detailedAssignment with
            | Some detail =>
                if Js.truthy detail then described detail "" else ret ""
            | None => ret ""
            end)
         (convert (js_String (Js.get_opt raw "id")) ≫= fun _ => ret "")
     else ret "") s = (o, s2) ->
    s2 = s \/
    (s2 = {| classMembers := classMembers s;
             issued := issued s ++ [FetchDetail classId (Js.get_opt raw "id")] |} /\
     classId <> "" /\ Js.truthy (Js.get_opt raw "id") = true /\ listed_empty raw)).
  { intros Hempty. simpl.
    destruct (String.eqb_spec classId "") as [->|Hclass]; simpl;
      [intros [= _ <-]; by left|].
    destruct (Js.truthy (Js.get_opt raw "id")) eqn:Hid; simpl;
      [|intros [= _ <-]; by left].
    unfold try_catch, fetchDetailedAssignment, request_detail, read.
    rewrite (get_not_nullish raw "displayName" Hraw).
    unfold mbind, sync_bind, bind, convert, ret, throw.
    destruct (js_String (Js.get_opt raw "displayName")) as [title|];
      destruct (js_String (Js.get_opt raw "id")) as [i|]; simpl;
      try (intros [= _ <-]; by left).
    destruct (detail_response net _ classId _) as [detail|]; simpl;
      [|intros [= _ <-]; by right].
    destruct (Js.truthy detail) eqn:Hdt; simpl; [|intros [= _ <-]; by right].
    rewrite described_spec by (by apply truthy_not_nullish).
    destruct (Js.truthy (instructions_content detail)); simpl;
      [|intros [= _ <-]; by right].
    destruct (instructions_content detail); simpl; intros [= _ <-]; by right. }
  destruct (Js.truthy (instructions_content raw)) eqn:Ht.
  - destruct (instructions_content raw) as [| | | |c| |] eqn:Hc;
      try (intros [= _ <-]; by left).
    rewrite bind_read_ok by done.
    destruct (String.eqb_spec (plain_text c) "") as [Hempty|Hne].
    + rewrite Hempty. apply Hblock. right. by exists c.
    + simpl. intros [= _ <-]. by left.
  - rewrite bind_read_ok by done. apply Hblock. by left.
Qed.

Lemma roster_info_session (raw : jsval) (classId : string) (s : session) :
  nullish raw = false ->
  snd (roster_info net raw classId s) = s \/
  (classId <> "" /\ classMembers s !! classId = None /\
   exists m, snd (roster_info net raw classId s)
             = {| classMembers := <[classId := m]> (classMembers s);
                  issued := issued s ++ [FetchMembers classId] |}).
Proof.
  intros Hraw. unfold roster_info, try_catch.
  destruct (String.eqb_spec classId "") as [->|Hclass]; simpl; [by left|].
  unfold mbind, sync_bind, bind.
  destruct (classMembers s !! classId) as [m|] eqn:Hm.
  - rewrite (fetchClassMembers_hit net classId m s Hm).
    unfold resolve_teacher. rewrite bind_read_ok by done. by left.
  - destruct (fetchClassMembers_miss net classId s Hm) as (m & -> & _).
    unfold resolve_teacher. rewrite bind_read_ok by done. right.
    split; [done|]. split; [done|]. by exists m.
Qed.

End NormalizerRequests.

(** X10: the requests of one normalization. [normalizeAssignment] makes
    at most one roster request and at most one detail request, in this
    order, and nothing else: the roster request only for a class id that
    is not empty and not in the cache, the detail request only when the
    class id is not empty, the record has an id, and its own instructions
    give no text. *)
Theorem normalizeAssignment_requests `{Host} (net : network) (raw : jsval) (s : session) :
  exists roster detail,
    issued (snd (normalizeAssignment net raw s)) = issued s ++ roster ++ detail /\
    (roster = [] \/
     exists classId,
       class_of raw = Some classId /\ classId <> "" /\
       classMembers s !! classId = None /\ roster = [FetchMembers classId]) /\
    (detail = [] \/
     exists classId,
       class_of raw = Some classId /\ classId <> "" /\
       Js.truthy (Js.get_opt raw "id") = true /\ listed_empty raw /\
       detail = [FetchDetail classId (Js.get_opt raw "id")]).
Proof.
  destruct (nullish raw) eqn:Hraw.
  { exists [], []. unfold normalizeAssignment. rewrite bind_read_nullish by done.
    simpl. rewrite app_nil_r. auto. }
  pose proof (normalizeAssignment_blocks net raw s Hraw) as Hblocks.
  destruct (class_of raw) as [classId|] eqn:Hclass.
  2:{ exists [], []. rewrite Hblocks. simpl. rewrite app_nil_r. auto. }
  destruct Hblocks as (t & e & n & s1 & Hroster & ->).
  pose proof (roster_info_session net raw classId s Hraw) as Hs1.
  rewrite Hroster in Hs1. simpl in Hs1.
  pose proof (description_of_session net raw classId s1 Hraw) as Hs2.
  assert (Hsnd : snd (match description_of net raw classId s1 with
                      | (Returned d, s2) =>
                          (match coerce raw classId t e n d with
                           | Some item => Returned item
                           | None => Threw
                           end, s2)
                      | (Threw, s2) => (Threw, s2)
                      | (Ended, s2) => (Ended, s2)
                      | (Pending, s2) => (Pending, s2)
                      end) = snd (description_of net raw classId s1)).
  { by destruct (description_of net raw classId s1) as [[d| | |] s2]. }
  rewrite Hsnd.
  assert (Hfirst : exists roster,
            issued s1 = issued s ++ roster /\
            (roster = [] \/
             exists classId0,
               Some classId = Some classId0 /\ classId0 <> "" /\
               classMembers s !! classId0 = None /\ roster = [FetchMembers classId0])).
  { destruct Hs1 as [->|(Hne & Hmiss & m & ->)].
    - exists []. rewrite app_nil_r. auto.
    - exists [FetchMembers classId]. split; [done|]. right. by exists classId. }
  destruct Hfirst as (roster & Hissued & Hr).
  destruct Hs2 as [->|(-> & Hne & Hid & Hempty)].
  - exists roster, []. rewrite app_nil_r. auto.
  - exists roster, [FetchDetail classId (Js.get_opt raw "id")]. simpl.
    rewrite Hissued, app_assoc. split; [done|]. split; [done|].
    right. by exists classId.
Qed.

Section DateFacts.
Context `{Host}.

Lemma iso_cases (v : jsval) :
  (iso v = "" /\ parseIsoOrNull v = None) \/
  (exists t, parseIsoOrNull v = Some t /\ host_date_value v = Some t
             /\ iso v = host_date_iso t).
Proof.
  unfold iso, parseIsoOrNull. destruct (Js.truthy v); [|by left].
  destruct (host_date_value v) as [t|]; [|by left]. right. by exists t.
Qed.

Lemma coerce_dates (raw t e : jsval) (n : nat) (d classId : string) (item : Item.t) :
  coerce raw classId t e n d = Some item ->
  date_fields raw item
  = [(Js.get_opt raw "dueDateTime", iso (Js.get_opt raw "dueDateTime"));
     (Js.get_opt raw "assignedDateTime", iso (Js.get_opt raw "assignedDateTime"));
     (Js.get_opt raw "createdDateTime", iso (Js.get_opt raw "createdDateTime"));
     (Js.get_opt raw "lastModifiedDateTime", iso (Js.get_opt raw "lastModifiedDateTime"))].
Proof.
  unfold coerce. intros Hitem.
  repeat match type of Hitem with
         | context [js_String ?v] => destruct (js_String v); simpl in Hitem; [|done]
         | context [js_Number ?v] => destruct (js_Number v); simpl in Hitem; [|done]
         end.
  by injection Hitem as <-.
Qed.

Lemma iso_parses_back (v : jsval) :
  iso_parses ->
  parseIsoOrNull (JStr (iso v)) = parseIsoOrNull v /\ is_Some (formatDate (iso v)) /\
  (if String.eqb (iso v) "" then None else host_date_value (JStr (iso v)))
  = parseIsoOrNull v.
Proof.
  intros Hhost. destruct (iso_cases v) as [[-> ->]|(t & Hparse & Hvalue & ->)].
  { split; [done|]. split; [by eexists|done]. }
  destruct (Hhost v t Hvalue) as [Hback Hne].
  apply String.eqb_neq in Hne.
  unfold parseIsoOrNull at 1, formatDate. simpl. rewrite Hne, Hback. simpl.
  split; [done|]. split; [by eexists|done].
Qed.

End DateFacts.

Lemma int_of_string_of_int (d : Decimal.int) :
  exists d', NilZero.int_of_string (NilZero.string_of_int d) = Some d'
             /\ Z.of_int d' = Z.of_int d.
Proof.
  destruct d as [u|u]; destruct u;
    first [ by eexists; split; [apply NilZero.isi|]
          | eexists; split; [reflexivity|reflexivity] ].
Qed.

Lemma number_digits (z : Z) : Demo.number (Demo.digits z) = Some z.
Proof.
  unfold Demo.number, Demo.digits.
  destruct (int_of_string_of_int (Z.to_int z)) as (d' & -> & Hd').
  by rewrite Hd', DecimalZ.of_to.
Qed.

Lemma digits_not_empty (z : Z) : Demo.digits z <> "".
Proof.
  unfold Demo.digits. destruct (Z.to_int z) as [u|u]; [|done].
  by destruct u.
Qed.

Lemma demo_iso_parses : @iso_parses Demo.host.
Proof.
  intros v t _. simpl. unfold Demo.date_value.
  split; [apply number_digits|apply digits_not_empty].
Qed.

(** X11: the dates of a canonical record, on a platform where the text
    of a date parses back to the date. Each of the four date fields is
    empty when the field of the raw record is no date, and is otherwise
    the text of that date; read again (by the filters, by the partition
    into years and months, by the properties for the remote store) it
    gives the date of the raw record, and asking it for its text never
    fails. So the properties for the remote store can be computed for
    every canonical record whose teacher name is a text. *)
Theorem dates_survive `{Host} (net : network) (raw : jsval) (s s' : session)
    (item : Item.t) :
  iso_parses ->
  normalizeAssignment net raw s = (Returned item, s') ->
  Forall (fun field =>
            ((snd field = "" /\ parseIsoOrNull (fst field) = None) \/
             exists t, parseIsoOrNull (fst field) = Some t /\ snd field = host_date_iso t) /\
            parseIsoOrNull (JStr (snd field)) = parseIsoOrNull (fst field) /\
            is_Some (formatDate (snd field)))
         (date_fields raw item) /\
  partition_date item = parseIsoOrNull (Js.get_opt raw "dueDateTime") /\
  (Js.is_string (Item.teacherName item) = true -> is_Some (notion_properties item)).
Proof.
  intros Hhost Hret.
  destruct (nullish raw) eqn:Hraw.
  { unfold normalizeAssignment in Hret. by rewrite bind_read_nullish in Hret. }
  pose proof (normalizeAssignment_blocks net raw s Hraw) as Hblocks.
  destruct (class_of raw) as [classId|] eqn:Hclass; [|congruence].
  destruct Hblocks as (t & e & n & s1 & Hroster & Hnorm).
  rewrite Hnorm in Hret.
  destruct (description_of net raw classId s1) as [[d| | |] s2] eqn:Hd; try done.
  destruct (coerce raw classId t e n d) as [item'|] eqn:Hitem; [|done].
  injection Hret as <- <-.
  pose proof (coerce_dates raw t e n d classId item' Hitem) as Hdates.
  assert (Hfield : forall v,
            ((iso v = "" /\ parseIsoOrNull v = None) \/
             exists t, parseIsoOrNull v = Some t /\ iso v = host_date_iso t) /\
            parseIsoOrNull (JStr (iso v)) = parseIsoOrNull v /\
            is_Some (formatDate (iso v))).
  { intros v. destruct (iso_parses_back v Hhost) as (Hback & Hformat & _).
    split; [|done].
    destruct (iso_cases v) as [?|(t' & ? & _ & ?)]; [by left|right; by exists t']. }
  assert (Hfields : Item.dueDate item' = iso (Js.get_opt raw "dueDateTime") /\
                    Item.assignedDate item' = iso (Js.get_opt raw "assignedDateTime") /\
                    Item.createdDate item' = iso (Js.get_opt raw "createdDateTime") /\
                    Item.modifiedDate item' = iso (Js.get_opt raw "lastModifiedDateTime")).
  { unfold date_fields in Hdates. injection Hdates as H1 H2 H3 H4. done. }
  destruct Hfields as (Hdue & Hassigned & Hcreated & Hmodified).
  split; [|split].
  - rewrite Hdates. do 4 (constructor; [simpl; apply Hfield|]). constructor.
  - unfold partition_date. rewrite Hdue.
    by destruct (iso_parses_back (Js.get_opt raw "dueDateTime") Hhost) as (_ & _ & ->).
  - intros Hname. unfold notion_properties. rewrite Hname, andb_false_r.
    rewrite Hdue, Hassigned, Hcreated, Hmodified.
    destruct (proj2 (proj2 (Hfield (Js.get_opt raw "assignedDateTime")))) as [? ->].
    destruct (proj2 (proj2 (Hfield (Js.get_opt raw "createdDateTime")))) as [? ->].
    destruct (proj2 (proj2 (Hfield (Js.get_opt raw "dueDateTime")))) as [? ->].
    destruct (proj2 (proj2 (Hfield (Js.get_opt raw "lastModifiedDateTime")))) as [? ->].
    by eexists.
Qed.

Lemma dates_survive_witness :
  exists item s',
    @normalizeAssignment Demo.host Demo.offline (Demo.raw "a1" "text") new_session
    = (Returned item, s') /\
    @partition_date Demo.host item = Some 1500 /\
    is_Some (@notion_properties Demo.host item).
Proof.
  eexists _, _. split; [vm_compute; reflexivity|].
  split; [reflexivity|].
  eapply (@dates_survive Demo.host Demo.offline (Demo.raw "a1" "text") new_session);
    [exact demo_iso_parses|vm_compute; reflexivity|reflexivity].
Defined.


(** * The partition into years and months *)

Section Groups.
Context {K : Type}.
Variable same : K -> K -> bool.
Hypothesis same_eq : forall a b, same a b = true <-> a = b.
Variable key : Item.t -> option K.

Lemma same_refl (k : K) : same k k = true.
Proof. by apply same_eq. Qed.

Lemma group_lookup_add (k1 k : K) (x : Item.t) (groups : list (K * list Item.t)) :
  group_lookup same k (group_add same k1 x groups)
  = if same k1 k
    then Some (default [] (group_lookup same k groups) ++ [x])
    else group_lookup same k groups.
Proof.
  induction groups as [|[k' xs] groups IH]; simpl.
  { by destruct (same k1 k). }
  destruct (same k' k1) eqn:Hk1; simpl.
  - apply same_eq in Hk1 as ->. by destruct (same k1 k).
  - rewrite IH. destruct (same k' k) eqn:Hk; [|done].
    apply same_eq in Hk as ->.
    destruct (same k1 k) eqn:Hk1k; [|done].
    apply same_eq in Hk1k as ->. by rewrite same_refl in Hk1.
Qed.

Lemma group_add_keys (k : K) (x : Item.t) (groups : list (K * list Item.t)) :
  NoDup (groups.*1) -> NoDup ((group_add same k x groups).*1).
Proof.
  intros Hnd.
  assert (Hkeys : (group_add same k x groups).*1 = groups.*1 \/
                  ((group_add same k x groups).*1 = groups.*1 ++ [k] /\ k ∉ groups.*1)).
  { clear Hnd. induction groups as [|[k' xs] groups IH].
    { right. split; [done|]. apply not_elem_of_nil. }
    simpl group_add. destruct (same k' k) eqn:Hk; [by left|].
    rewrite !fmap_cons. simpl fst.
    destruct IH as [->|[-> Hnot]]; [by left|]. right. split; [done|].
    intros Hin. apply elem_of_cons in Hin as [->|Hin]; [|done].
    by rewrite same_refl in Hk. }
  destruct Hkeys as [->|[-> Hnot]]; [done|].
  apply NoDup_app. split; [done|]. split; [|apply NoDup_singleton].
  intros y Hy Hy'. apply list_elem_of_singleton in Hy' as ->. done.
Qed.

Lemma group_add_nonempty (k : K) (x : Item.t) (groups : list (K * list Item.t)) :
  Forall (fun g => snd g <> []) groups ->
  Forall (fun g => snd g <> []) (group_add same k x groups).
Proof.
  induction 1 as [|[k' xs] groups Hg Hgroups IH]; simpl.
  { constructor; [done|constructor]. }
  destruct (same k' k); constructor; simpl in *; try done.
  by destruct xs.
Qed.

Lemma filed_groups (items : list Item.t) (groups : list (K * list Item.t)) :
  NoDup (groups.*1) -> Forall (fun g => snd g <> []) groups ->
  let result := foldl (file_item same key) groups items in
  NoDup (result.*1) /\ Forall (fun g => snd g <> []) result /\
  forall k, group_lookup same k result
            = match group_lookup same k groups,
                    List.filter (filed_under same key k) items with
              | None, [] => None
              | found, xs => Some (default [] found ++ xs)
              end.
Proof.
  revert groups. induction items as [|item items IH]; intros groups Hnd Hne; simpl.
  { split; [done|]. split; [done|]. intros k.
    destruct (group_lookup same k groups); [by rewrite app_nil_r|done]. }
  assert (Hnd' : NoDup ((file_item same key groups item).*1)).
  { unfold file_item. destruct (key item); [by apply group_add_keys|done]. }
  assert (Hne' : Forall (fun g => snd g <> []) (file_item same key groups item)).
  { unfold file_item. destruct (key item); [by apply group_add_nonempty|done]. }
  destruct (IH (file_item same key groups item) Hnd' Hne') as (Hkeys & Hgroups & Hlookup).
  split; [done|]. split; [done|]. intros k. rewrite Hlookup.
  assert (Hitem : filed_under same key k item
                  = match key item with Some k' => same k' k | None => false end) by done.
  rewrite Hitem. unfold file_item. destruct (key item) as [k1|]; [|done].
  rewrite group_lookup_add. destruct (same k1 k); [|done]. simpl.
  destruct (group_lookup same k groups) as [xs|]; simpl.
  - rewrite <- app_assoc. simpl.
    by destruct (List.filter (filed_under same key k) items).
  - by destruct (List.filter (filed_under same key k) items).
Qed.

End Groups.

Section Partition.
Context `{Host}.

Lemma foldl_pointwise {A B : Type} (f g : A -> B -> A) (l : list B) (a : A) :
  (forall a b, f a b = g a b) -> foldl f a l = foldl g a l.
Proof.
  intros Hfg. revert a. induction l as [|b l IH]; intros a; simpl; [done|].
  by rewrite Hfg, IH.
Qed.

Lemma byYear_filed (items : list Item.t) :
  byYear items = foldl (file_item Z.eqb year_of) [] items.
Proof.
  unfold byYear. apply foldl_pointwise. intros groups item.
  unfold file_item, year_of. by destruct (partition_date item).
Qed.

Lemma byMonth_filed (items : list Item.t) :
  byMonth items = foldl (file_item String.eqb month_of) [] items.
Proof.
  unfold byMonth. apply foldl_pointwise. intros groups item.
  unfold file_item, month_of. by destruct (partition_date item).
Qed.

Lemma group_lookup_elem_of {K : Type} (same : K -> K -> bool) (k : K) (xs : list Item.t)
    (groups : list (K * list Item.t)) :
  (forall a b, same a b = true <-> a = b) ->
  NoDup (groups.*1) ->
  (k, xs) ∈ groups <-> group_lookup same k groups = Some xs.
Proof.
  intros Hsame. induction groups as [|[k' ys] groups IH]; simpl.
  { intros _. split; [intros Hin; by apply elem_of_nil in Hin|done]. }
  intros Hnd. apply NoDup_cons in Hnd as [Hnew Hnd].
  rewrite elem_of_cons. destruct (same k' k) eqn:Hk.
  - apply Hsame in Hk as ->. split.
    + intros [[= ->]|Hin]; [done|]. destruct Hnew.
      apply list_elem_of_fmap. by exists (k, xs).
    + intros [= ->]. by left.
  - rewrite <- (IH Hnd). split; [|auto].
    intros [Heq|Hin]; [|done]. injection Heq as Hkk _.
    assert (Hrefl : same k' k = true) by (by apply Hsame). congruence.
Qed.

Lemma groups_exact {K : Type} (same : K -> K -> bool) (key : Item.t -> option K)
    (items : list Item.t) :
  (forall a b, same a b = true <-> a = b) ->
  let groups := foldl (file_item same key) [] items in
  NoDup (groups.*1) /\
  (forall k xs, (k, xs) ∈ groups
                <-> xs <> [] /\ xs = List.filter (filed_under same key k) items).
Proof.
  intros Hsame groups.
  destruct (filed_groups same Hsame key items [] ltac:(constructor) ltac:(constructor))
    as (Hnd & _ & Hlookup).
  split; [done|]. intros k xs.
  rewrite (group_lookup_elem_of same k xs groups Hsame Hnd).
  unfold groups. rewrite Hlookup. simpl.
  destruct (List.filter (filed_under same key k) items) as [|x l].
  - split; [done|]. by intros [? ->].
  - split; [by intros [= <-]|by intros [_ ->]].
Qed.

End Partition.

(** X12: the partition of the export files. The items are filed by the
    year of their due date, and by year and month: no year and no month
    has two groups, no group is empty, and the group of a year (of a
    month) holds exactly the items with a due date in it, in the order of
    the input. An item whose due date is empty or no date is in no
    group. *)
Theorem partition_groups `{Host} (items : list Item.t) :
  NoDup ((byYear items).*1) /\
  (forall y xs, (y, xs) ∈ byYear items
                <-> xs <> [] /\ xs = List.filter (filed_under Z.eqb year_of y) items) /\
  NoDup ((byMonth items).*1) /\
  (forall m xs, (m, xs) ∈ byMonth items
                <-> xs <> [] /\ xs = List.filter (filed_under String.eqb month_of m) items) /\
  (forall item, partition_date item = None ->
     (forall y xs, (y, xs) ∈ byYear items -> item ∉ xs) /\
     (forall m xs, (m, xs) ∈ byMonth items -> item ∉ xs)).
Proof.
  destruct (groups_exact Z.eqb year_of items Z.eqb_eq) as [Hyears Hyear].
  destruct (groups_exact String.eqb month_of items String.eqb_eq) as [Hmonths Hmonth].
  rewrite <- byYear_filed in Hyears, Hyear. rewrite <- byMonth_filed in Hmonths, Hmonth.
  split; [done|]. split; [done|]. split; [done|]. split; [done|].
  intros item Hnone. split.
  - intros y xs Hin Hitem. apply Hyear in Hin as [_ ->].
    apply list_elem_of_In, filter_In in Hitem as [_ Hkey].
    unfold filed_under, year_of in Hkey. by rewrite Hnone in Hkey.
  - intros m xs Hin Hitem. apply Hmonth in Hin as [_ ->].
    apply list_elem_of_In, filter_In in Hitem as [_ Hkey].
    unfold filed_under, month_of in Hkey. by rewrite Hnone in Hkey.
Qed.

Example partition_of_three :
  let early := Incremental.normal "a1" "one" in
  let undated := Demo.item "x" false false in
  @byYear Demo.host [early; undated; Incremental.normal "a2" "two"]
  = [(1, [early; Incremental.normal "a2" "two"])].
Proof. reflexivity. Qed.


(** * What the upload sends *)

Section UploadAttempts.
Context `{Host}.
Variable store : remote.
Variable tm : timing.

Lemma created_app (evs1 evs2 : list event) :
  created (evs1 ++ evs2) = created evs1 ++ created evs2.
Proof. unfold created. apply omap_app. Qed.

Lemma upload_loop_attempts (delayMs : Z) (newItems : list Item.t) (n : nat)
    (clock lastCall : Z) (uploaded failed : nat) (s : session) :
  exists uploaded' failed' evs,
    upload_loop store tm delayMs newItems n clock lastCall uploaded failed s
    = (Returned (uploaded', failed'),
       {| classMembers := classMembers s; issued := issued s ++ evs |}) /\
    (uploaded' + failed' = uploaded + failed + length newItems)%nat /\
    Forall is_create evs /\
    created evs = omap notion_properties newItems.
Proof.
  revert n clock lastCall uploaded failed s.
  induction newItems as [|item rest IH]; intros n clock lastCall uploaded failed s; simpl.
  { exists uploaded, failed, []. rewrite app_nil_r. destruct s. split; [done|].
    split; [lia|]. split; [constructor|done]. }
  set (released := rateLimiter tm delayMs n clock lastCall).
  destruct (notion_properties item) as [entry|] eqn:Hentry.
  - unfold mbind, sync_bind, bind. simpl.
    set (s1 := {| classMembers := classMembers s;
                  issued := issued s ++ [CreatePage released entry] |}).
    assert (Hrest : exists uploaded' failed' evs,
              (if create_response store n
               then upload_loop store tm delayMs rest (S n)
                      (released + call_duration tm n) released (S uploaded) failed
               else upload_loop store tm delayMs rest (S n)
                      (released + call_duration tm n) released uploaded (S failed)) s1
              = (Returned (uploaded', failed'),
                 {| classMembers := classMembers s1; issued := issued s1 ++ evs |}) /\
              (uploaded' + failed' = S (uploaded + failed + length rest))%nat /\
              Forall is_create evs /\
              created evs = omap notion_properties rest).
    { destruct (create_response store n).
      - destruct (IH (S n) (released + call_duration tm n) released (S uploaded) failed s1)
          as (u & f & evs & Hrun & Hsum & Hall & Hcreated).
        exists u, f, evs. split; [done|]. split; [lia|]. done.
      - destruct (IH (S n) (released + call_duration tm n) released uploaded (S failed) s1)
          as (u & f & evs & Hrun & Hsum & Hall & Hcreated).
        exists u, f, evs. split; [done|]. split; [lia|]. done. }
    destruct Hrest as (u & f & evs & -> & Hsum & Hall & Hcreated).
    exists u, f, (CreatePage released entry :: evs). simpl. rewrite <- app_assoc.
    split; [done|]. split; [lia|]. split; [by constructor|].
    unfold created in *. simpl. by rewrite Hcreated.
  - destruct (IH (S n) released released uploaded (S failed) s)
      as (u & f & evs & Hrun & Hsum & Hall & Hcreated).
    exists u, f, evs. split; [done|]. split; [lia|]. done.
Qed.

Lemma add_pages_reported (pgs : list notion_page) (ids : gset string) :
  (forall i, i ∈ fst (add_pages pgs ids) -> i ∈ ids \/ reported pgs i) /\
  (forall i, i ∈ ids -> i ∈ fst (add_pages pgs ids)) /\
  (snd (add_pages pgs ids) = true ->
   forall i, reported pgs i -> i ∈ fst (add_pages pgs ids)).
Proof.
  revert ids. induction pgs as [|[[i0|]|] pgs IH]; intros ids; simpl.
  - split; [auto|]. split; [done|]. intros _ i [_ Hin]. by apply elem_of_nil in Hin.
  - destruct (String.eqb_spec i0 "") as [->|Hne].
    + destruct (IH ids) as (Hsound & Hmono & Hcomplete).
      split; [|split; [done|]].
      * intros i Hi. destruct (Hsound i Hi) as [?|[? Hin]]; [by left|right].
        split; [done|]. by apply list_elem_of_further.
      * intros Hok i [Hi Hin]. apply Hcomplete; [done|]. split; [done|].
        apply elem_of_cons in Hin as [Heq|Hin]; [by injection Heq|done].
    + destruct (IH ({[i0]} ∪ ids)) as (Hsound & Hmono & Hcomplete).
      split; [|split].
      * intros i Hi. destruct (Hsound i Hi) as [Hin|[? Hin]].
        -- apply elem_of_union in Hin as [Hin|Hin]; [|by left].
           apply elem_of_singleton in Hin as ->. right. split; [done|].
           apply list_elem_of_here.
        -- right. split; [done|]. by apply list_elem_of_further.
      * intros i Hi. apply Hmono. apply elem_of_union. by right.
      * intros Hok i [Hi Hin]. apply elem_of_cons in Hin as [[= ->]|Hin].
        -- apply Hmono. apply elem_of_union. left. by apply elem_of_singleton.
        -- apply Hcomplete; [done|]. by split.
  - destruct (IH ids) as (Hsound & Hmono & Hcomplete).
    split; [|split; [done|]].
    + intros i Hi. destruct (Hsound i Hi) as [?|[? Hin]]; [by left|right].
      split; [done|]. by apply list_elem_of_further.
    + intros Hok i [Hi Hin]. apply Hcomplete; [done|]. split; [done|].
      apply elem_of_cons in Hin as [?|Hin]; done.
  - split; [auto|]. split; [done|]. done.
Qed.

Lemma getExistingNotionIds_sound (fuel n : nat) (ids ids' : gset string) (s s' : session) :
  getExistingNotionIds store fuel n ids s = (Returned ids', s') ->
  (forall i, i ∈ ids -> i ∈ ids') /\
  (forall i, i ∈ ids' ->
     i ∈ ids \/ exists n' pgs more, (n <= n')%nat /\
                 query_response store n' = QueryPages pgs more /\ reported pgs i).
Proof.
  revert n ids s. induction fuel as [|fuel IH]; intros n ids s; simpl; [done|].
  unfold mbind, sync_bind, bind. simpl.
  destruct (query_response store n) as [|pgs more] eqn:Hq.
  { intros [= <- _]. auto. }
  destruct (add_pages_reported pgs ids) as (Hsound & Hmono & _).
  assert (Hstep : forall i, i ∈ fst (add_pages pgs ids) ->
            i ∈ ids \/ exists n' pgs' more', (n <= n')%nat /\
              query_response store n' = QueryPages pgs' more' /\ reported pgs' i).
  { intros i Hi. destruct (Hsound i Hi) as [?|Hrep]; [by left|right].
    exists n, pgs, more. split; [lia|]. done. }
  destruct (add_pages pgs ids) as [ids1 ok]. simpl in *.
  destruct ok; [|intros [= <- _]; auto].
  destruct more; [|intros [= <- _]; auto].
  intros Hrest. apply IH in Hrest as [Hmono' Hsound'].
  split; [auto|]. intros i Hi.
  destruct (Hsound' i Hi) as [Hin|(n' & pgs' & more' & Hn' & Hq' & Hrep)]; [auto|].
  right. exists n', pgs', more'. split; [lia|]. done.
Qed.

End UploadAttempts.

Section KnownIds.
Variable store : remote.

Lemma add_pages_all_read (pgs : list notion_page) (ids : gset string) :
  PageBroken ∉ pgs -> snd (add_pages pgs ids) = true.
Proof.
  revert ids. induction pgs as [|[[i0|]|] pgs IH]; intros ids Hread; simpl; [done| | |].
  - destruct (String.eqb i0 ""); apply IH; intros Hin; apply Hread;
      by apply list_elem_of_further.
  - apply IH. intros Hin. apply Hread. by apply list_elem_of_further.
  - destruct Hread. apply list_elem_of_here.
Qed.

Lemma getExistingNotionIds_complete (fuel n : nat) (ids ids' : gset string)
    (s s' : session) (j : nat) (pgs : list notion_page) (more : bool) :
  getExistingNotionIds store fuel n ids s = (Returned ids', s') ->
  (n <= j)%nat ->
  (forall j', (n <= j' < j)%nat ->
     exists pgs', query_response store j' = QueryPages pgs' true /\ PageBroken ∉ pgs') ->
  query_response store j = QueryPages pgs more -> PageBroken ∉ pgs ->
  forall i, reported pgs i -> i ∈ ids'.
Proof.
  revert n ids s. induction fuel as [|fuel IH]; intros n ids s; simpl; [done|].
  unfold mbind, sync_bind, bind. simpl.
  intros Hrun Hn Hbefore Hj Hread i Hi.
  destruct (decide (j = n)) as [->|Hne].
  - rewrite Hj in Hrun.
    destruct (add_pages_reported pgs ids) as (_ & _ & Hcomplete).
    pose proof (add_pages_all_read pgs ids Hread) as Hok.
    destruct (add_pages pgs ids) as [ids1 ok]. simpl in *. subst ok.
    specialize (Hcomplete eq_refl i Hi).
    destruct more; [|by injection Hrun as <- _].
    apply (getExistingNotionIds_sound store) in Hrun as [Hmono _]. by apply Hmono.
  - destruct (Hbefore n ltac:(lia)) as (pgs' & Hq & Hread').
    rewrite Hq in Hrun.
    pose proof (add_pages_all_read pgs' ids Hread') as Hok.
    destruct (add_pages pgs' ids) as [ids1 ok]. simpl in *. subst ok.
    apply (IH (S n) ids1 _ Hrun); try done; [lia|].
    intros j' Hj'. apply Hbefore. lia.
Qed.

End KnownIds.

(** X13: the ids that the upload takes for known. They are ids that the
    remote store reported: every one of them is the id, not empty, of a
    page of an answer; and the ids of all pages are among them up to the
    first answer that fails or holds a page that cannot be read. When
    the first query fails no id is known. *)
Theorem known_ids_are_reported (store : remote) (fuel : nat) (s s1 : session)
    (ids : gset string) :
  getExistingNotionIds store fuel O ∅ s = (Returned ids, s1) ->
  (forall i, i ∈ ids ->
     exists n pgs more, query_response store n = QueryPages pgs more /\ reported pgs i) /\
  (forall j pgs more,
     (forall j', (j' < j)%nat ->
        exists pgs', query_response store j' = QueryPages pgs' true /\ PageBroken ∉ pgs') ->
     query_response store j = QueryPages pgs more -> PageBroken ∉ pgs ->
     forall i, reported pgs i -> i ∈ ids) /\
  (query_response store O = QueryFailed -> ids = ∅).
Proof.
  intros Hrun. split; [|split].
  - intros i Hi.
    destruct (proj2 (getExistingNotionIds_sound store fuel O ∅ ids s s1 Hrun) i Hi)
      as [Hin|(n & pgs & more & _ & Hq & Hrep)].
    + by apply elem_of_empty in Hin.
    + by exists n, pgs, more.
  - intros j pgs more Hbefore Hj Hread i Hi.
    apply (getExistingNotionIds_complete store fuel O ∅ ids s s1 j pgs more Hrun);
      try done; [lia|].
    intros j' Hj'. apply Hbefore. lia.
  - intros Hfail. destruct fuel as [|fuel]; [done|]. simpl in Hrun.
    unfold mbind, sync_bind, bind in Hrun. simpl in Hrun. rewrite Hfail in Hrun.
    by injection Hrun as <- _.
Qed.

Lemma known_ids_are_reported_witness :
  exists ids s1,
    getExistingNotionIds Known.store 5 O ∅ new_session = (Returned ids, s1) /\
    "w" ∈ ids.
Proof.
  destruct (getExistingNotionIds Known.store 5 O ∅ new_session)
    as [[ids| | |] s1] eqn:Hrun; try (vm_compute in Hrun; discriminate Hrun).
  exists ids, s1. split; [done|].
  destruct (known_ids_are_reported Known.store 5 new_session s1 ids Hrun)
    as (_ & Hcomplete & _).
  apply (Hcomplete 1%nat [PageOf (Some "w")] false).
  - intros j' Hj'. assert (j' = O) as -> by lia.
    exists [PageOf (Some "x"); PageOf None]. split; [reflexivity|].
    intros Hin. repeat (apply elem_of_cons in Hin as [Hin|Hin]; [discriminate Hin|]).
    by apply elem_of_nil in Hin.
  - reflexivity.
  - intros Hin. repeat (apply elem_of_cons in Hin as [Hin|Hin]; [discriminate Hin|]).
    by apply elem_of_nil in Hin.
  - split; [discriminate|]. apply list_elem_of_here.
Defined.

(** X14: what the upload sends. Without a token or a database id in the
    environment it sends nothing and returns. Otherwise, once the query
    has given the known ids, it makes one create call for every item
    with an unknown id whose properties can be computed, in the order of
    the list, whether the calls before succeeded or not, and returns:
    the upload never throws. The tally of the loop counts every new item
    once, as uploaded or as failed. *)
Theorem upload_sends_new_items `{Host} (store : remote) (tm : timing) (fuel : nat)
    (e : environ) (clock : Z) (items : list Item.t) (s : session) :
  (configured e = false -> uploadToNotion store tm fuel e clock items s = (Returned tt, s)) /\
  (configured e = true ->
   forall ids s1, getExistingNotionIds store fuel O ∅ s = (Returned ids, s1) ->
     exists evs,
       uploadToNotion store tm fuel e clock items s
       = (Returned tt, {| classMembers := classMembers s1; issued := issued s1 ++ evs |}) /\
       Forall is_create evs /\
       created evs = omap notion_properties (unknown ids items)) /\
  (forall newItems n lastCall uploaded failed,
     exists uploaded' failed' s',
       upload_loop store tm 300 newItems n clock lastCall uploaded failed s
       = (Returned (uploaded', failed'), s') /\
       (uploaded' + failed' = uploaded + failed + length newItems)%nat).
Proof.
  unfold configured, uploadToNotion. split; [|split].
  - intros Hconf. apply andb_false_iff in Hconf.
    destruct (Env.truthy e "NOTION_TOKEN"), (Env.truthy e "NOTION_DATABASE_ID");
      simpl; try done; by destruct Hconf.
  - intros Hconf ids s1 Hids. apply andb_true_iff in Hconf as [-> ->]. simpl.
    unfold mbind at 1, sync_bind at 1, bind at 1. rewrite Hids.
    fold (unknown ids items).
    destruct (unknown ids items) as [|item rest] eqn:Hnew.
    + exists []. rewrite app_nil_r. destruct s1. split; [done|]. split; [constructor|done].
    + destruct (upload_loop_attempts store tm 300 (item :: rest) O clock 0 O O s1)
        as (u & f & evs & Hrun & _ & Hall & Hcreated).
      exists evs. unfold mbind, sync_bind, bind. rewrite Hrun. done.
  - intros newItems n lastCall uploaded failed.
    destruct (upload_loop_attempts store tm 300 newItems n clock lastCall uploaded failed s)
      as (u & f & evs & Hrun & Hsum & _).
    by eexists u, f, _.
Qed.

Example upload_goes_on_after_a_failure :
  let store := {| query_response := fun _ => QueryFailed;
                  create_response := fun n => negb (n =? 0)%nat |} in
  List.map external_id
    (created (issued (snd (@uploadToNotion Demo.host store World.exact 5 Known.env 1000
                             Known.items new_session))))
  = ["x"; "y"; "z"].
Proof. vm_compute. reflexivity. Qed.


(** * The end of a run *)

Section Commit.
Context `{Host}.
Variable store : remote.
Variable tm : timing.

Lemma getExistingNotionIds_outcome (fuel n : nat) (ids : gset string) (s : session) :
  (exists ids', fst (getExistingNotionIds store fuel n ids s) = Returned ids') \/
  fst (getExistingNotionIds store fuel n ids s) = Pending.
Proof.
  revert n ids s. induction fuel as [|fuel IH]; intros n ids s; simpl; [by right|].
  unfold mbind, sync_bind, bind. simpl.
  destruct (query_response store n) as [|pgs more]; [left; by eexists|].
  destruct (add_pages pgs ids) as [ids1 [|]]; [|left; by eexists].
  destruct more; [apply IH|left; by eexists].
Qed.

Lemma uploadToNotion_outcome (fuel : nat) (e : environ) (clock : Z) (items : list Item.t)
    (s : session) :
  (fst (uploadToNotion store tm fuel e clock items s) = Returned tt \/
   fst (uploadToNotion store tm fuel e clock items s) = Pending) /\
  extends_with is_upload s (snd (uploadToNotion store tm fuel e clock items s)).
Proof.
  split.
  - unfold uploadToNotion. destruct (_ || _); [by left|].
    unfold mbind, sync_bind, bind.
    pose proof (getExistingNotionIds_outcome fuel O ∅ s) as Hids.
    destruct (getExistingNotionIds store fuel O ∅ s) as [o s1]. simpl in Hids.
    destruct Hids as [[ids ->]| ->]; [|by right].
    destruct (List.filter _ items) as [|item rest]; [by left|].
    destruct (upload_loop_attempts store tm 300 (item :: rest) O clock 0 O O s1)
      as (u & f & evs & Hrun & _).
    rewrite Hrun. by left.
  - destruct (uploadToNotion_events store tm fuel e clock items s)
      as (queries & creates & Hissued & Hq & Hc & _).
    exists (queries ++ creates). split; [done|]. apply Forall_app. split.
    + eapply Forall_impl; [exact Hq|]. by intros ev ->.
    + eapply Forall_impl; [exact Hc|]. intros [] [_ Hev]; simpl in *; done.
Qed.

End Commit.

Section CommitLast.
Context `{Host}.
Variable store : remote.
Variable tm : timing.
Variable clk : clock.

(** X15: the state is saved last, and only by a run whose every export
    was written. A run that ends its process has written the JSON, the
    spreadsheet, the rows of the whole filtered list and the payload of
    every item, then spoken to the remote store, then saved the state that
    [updateState] computes from the exported ids, then exited with 0; a
    run that throws has only written files, because the spreadsheet
    library refused the rows or because a row or a payload could not be
    built; a run still waiting for the remote store has saved nothing
    either. *)
Theorem state_saved_after_exports (fuel : nat) (a : args) (st : state) (e : environ)
    (normalized : list Item.t) (s : session) :
  let filtered := applyFilters a st (at_filter clk) normalized in
  let r := export_and_commit store tm clk fuel a st e normalized s in
  exists evs,
    issued (snd r) = issued s ++ evs /\
    match fst r with
    | Ended =>
        sheet_writable (sheet_rows filtered) = true /\
        forallb csv_row_ok filtered = true /\
        exists entries before,
          mapM notion_properties filtered = Some entries /\
          evs = before ++
                [SaveState (updateState a st (List.map Item.id filtered)
                              (host_date_iso (at_commit clk)));
                 Exit 0] /\
          Forall (fun ev => is_write ev \/ is_upload ev) before /\
          WriteJson "outputs/assignments.json" filtered ∈ before /\
          WriteXlsx "outputs/assignments.xlsx" filtered ∈ before /\
          WriteCsv "outputs/assignments.csv" filtered ∈ before /\
          WriteNotionPayload entries ∈ before
    | Threw =>
        (sheet_writable (sheet_rows filtered) = false \/
         forallb csv_row_ok filtered = false \/
         mapM notion_properties filtered = None) /\
        Forall is_write evs
    | Pending => Forall (fun ev => is_write ev \/ is_upload ev) evs
    | Returned _ => False
    end.
Proof.
  intros filtered r. subst r.
  destruct (export_and_commit store tm clk fuel a st e normalized s) as [o s'] eqn:Hrun.
  simpl. unfold export_and_commit in Hrun. fold filtered in Hrun. clearbody filtered.
  unfold mbind, sync_bind, bind in Hrun.
  destruct (writeJsonFile_writes filtered s) as (s1 & evs1 & Hj & Hs1 & Hj1).
  assert (Hw1 : Forall is_write evs1).
  { eapply Forall_impl; [exact Hj1|]. by intros []. }
  rewrite Hj in Hrun.
  pose proof (writeXlsxFile_writes filtered s1) as Hx.
  destruct (sheet_writable (sheet_rows filtered)) eqn:Hsheet.
  2:{ rewrite Hx in Hrun. injection Hrun as <- <-.
      exists (WriteJson "outputs/assignments.json" filtered :: evs1).
      split; [done|]. split; [by left|]. by constructor. }
  destruct Hx as (s2 & evs2 & Hs2 & Hw2 & Hx).
  destruct (forallb csv_row_ok filtered) eqn:Hok.
  2:{ destruct Hx as [Hx ->]. rewrite Hx in Hrun. injection Hrun as <- <-.
      exists (WriteJson "outputs/assignments.json" filtered
              :: evs1 ++ [WriteXlsx "outputs/assignments.xlsx" filtered]).
      rewrite Hs2, Hs1, <- app_assoc. split; [done|]. split; [right; by left|].
      constructor; [done|]. apply Forall_app. split; [done|]. by repeat constructor. }
  destruct Hx as [Hx Hcsv]. rewrite Hx in Hrun.
  set (written := WriteJson "outputs/assignments.json" filtered
                  :: evs1 ++ WriteXlsx "outputs/assignments.xlsx" filtered :: evs2).
  assert (Hs2' : issued s2 = issued s ++ written).
  { unfold written. by rewrite Hs2, Hs1, <- app_assoc. }
  assert (Hwritten : Forall is_write written).
  { constructor; [done|]. apply Forall_app. split; [done|]. by constructor. }
  assert (Hjson : WriteJson "outputs/assignments.json" filtered ∈ written).
  { apply list_elem_of_here. }
  assert (Hxlsx : WriteXlsx "outputs/assignments.xlsx" filtered ∈ written).
  { unfold written. apply list_elem_of_further, elem_of_app. right.
    apply list_elem_of_here. }
  assert (Hcsv' : WriteCsv "outputs/assignments.csv" filtered ∈ written).
  { unfold written. apply list_elem_of_further, elem_of_app. right.
    by apply list_elem_of_further. }
  clearbody written. clear Hs2 Hs1 Hj Hx Hcsv.
  unfold writeNotionPayload in Hrun.
  destruct (mapM notion_properties filtered) as [entries|] eqn:Hentries.
  2:{ unfold throw in Hrun. injection Hrun as <- <-.
      exists written. split; [done|]. split; [right; by right|done]. }
  rewrite emit_returns in Hrun.
  set (s3 := {| classMembers := classMembers s2;
                issued := issued s2 ++ [WriteNotionPayload entries] |}) in Hrun.
  destruct (uploadToNotion_outcome store tm fuel e (at_upload clk) filtered s3)
    as [Hout (ups & Hups & Hall)].
  destruct (uploadToNotion store tm fuel e (at_upload clk) filtered s3) as [o4 s4].
  simpl in Hout, Hups.
  assert (Hbefore : Forall (fun ev => is_write ev \/ is_upload ev)
                      (written ++ [WriteNotionPayload entries] ++ ups)).
  { apply Forall_app. split; [eapply Forall_impl; [exact Hwritten|]; by left|].
    apply Forall_app. split; [repeat constructor|].
    eapply Forall_impl; [exact Hall|]. by right. }
  assert (Hs4 : issued s4 = issued s ++ written ++ [WriteNotionPayload entries] ++ ups).
  { rewrite Hups. unfold s3. simpl. by rewrite Hs2', <- !app_assoc. }
  destruct Hout as [-> | ->].
  - rewrite emit_returns in Hrun. unfold exit in Hrun. injection Hrun as <- <-.
    simpl. eexists. split.
    { rewrite Hs4, <- !app_assoc. reflexivity. }
    split; [done|]. split; [done|].
    exists entries, (written ++ [WriteNotionPayload entries] ++ ups).
    split; [done|]. split; [by rewrite <- !app_assoc|]. split; [done|].
    split; [apply elem_of_app; by left|]. split; [apply elem_of_app; by left|].
    split; [apply elem_of_app; by left|].
    apply elem_of_app. right. apply list_elem_of_here.
  - injection Hrun as <- <-. eexists. split; [exact Hs4|done].
Qed.

End CommitLast.

(** * The [--details] mode *)

Section Details.
Context `{Host}.
Variable net : network.
Variable pages : listing.
Variable store : remote.
Variable tm : timing.
Variable refresh : refresh_world.
Variable clk : clock.

Lemma primitive_text (v : jsval) : primitive v = true -> is_Some (js_String v).
Proof. destruct v; try done; by eexists. Qed.

(** What the branch does with the answer [x]: it prints it, which may
    throw, and then saves it. *)
Lemma details_logged (x : jsval) (file : string) (s : session) :
  let c : Sync unit :=
    displayName ← read x "displayName";
    _ ← convert (js_String displayName);
    instructions ← read x "instructions";
    let content := Js.get_opt instructions "content" in
    _ ← (if Js.truthy content then content_text content else ret "");
    _ ← convert (js_String (Js.get_opt x "dueDateTime"));
    _ ← convert (js_String (Js.get_opt x "status"));
    _ ← convert (js_String (Js.get_opt x "allTurnedIn"));
    emit (WriteDetails file x) in
  c s = (Returned tt, {| classMembers := classMembers s;
                         issued := issued s ++ [WriteDetails file x] |}) \/
  (c s = (Threw, s) /\ plain_details x = false).
Proof.
  intros c. subst c. unfold read.
  assert (Hget : forall k, x <> JUndefined -> x <> JNull ->
                           Js.get x k = Some (Js.get_opt x k)).
  { intros k ? ?. unfold Js.get_opt. by destruct x. }
  assert (Hx : x = JUndefined \/ x = JNull \/ (x <> JUndefined /\ x <> JNull)).
  { destruct x; auto. }
  destruct Hx as [->|[->|[Hu Hn]]]; [by right|by right|].
  rewrite !Hget by done.
  assert (Hplain : plain_details x
                   = primitive (Js.get_opt x "displayName")
                     && primitive (Js.get_opt x "dueDateTime")
                     && primitive (Js.get_opt x "status")
                     && primitive (Js.get_opt x "allTurnedIn")
                     && text_or_nothing
                          (Js.get_opt (Js.get_opt x "instructions") "content")).
  { by destruct x. }
  rewrite Hplain. clear Hplain Hget.
  unfold mbind, sync_bind, bind, convert, content_text, throw, emit, ret.
  cbv beta iota zeta.
  generalize (Js.get_opt x "displayName") (Js.get_opt x "dueDateTime")
    (Js.get_opt x "status") (Js.get_opt x "allTurnedIn")
    (Js.get_opt (Js.get_opt x "instructions") "content").
  intros d due st turned content.
  destruct (js_String d) eqn:Hd.
  2:{ right. split; [done|]. destruct d; try done. }
  assert (Hcontent : (Js.truthy content = false \/ exists t, content = JStr t) \/
                     (Js.truthy content = true /\ text_or_nothing content = false)).
  { destruct content as [| |b|n|t|xs|fs]; simpl; eauto.
    - destruct b; eauto.
    - destruct (Js.num_truthy n); eauto. }
  destruct Hcontent as [Hok|[Htruthy Hbad]].
  2:{ right. rewrite Htruthy, Hbad, !andb_false_r. split; [|done].
      by destruct content. }
  assert (Hfalse : primitive due && primitive st && primitive turned = false ->
                   primitive d && primitive due && primitive st && primitive turned
                   && text_or_nothing content = false).
  { intros Hf. destruct (primitive due), (primitive st), (primitive turned); try done;
      by rewrite ?andb_false_r. }
  destruct Hok as [Hno|[t ->]]; [rewrite Hno|destruct (Js.truthy (JStr t))];
    (destruct (js_String due) eqn:Hdue;
     [|right; split; [done|]; apply Hfalse; by destruct due]);
    (destruct (js_String st) eqn:Hst;
     [|right; split; [done|]; apply Hfalse; destruct st; try done; by rewrite andb_false_r]);
    (destruct (js_String turned) eqn:Hturned;
     [|right; split; [done|]; apply Hfalse; destruct turned; try done;
       by rewrite andb_false_r]);
    by left.
Qed.

(** The branch by itself: its outcome and its events. *)
Lemma show_details_cases (spec : string) (e : environ) (s : session) :
  let classId := class_part spec in
  let assignmentId := assignment_part spec in
  let file := "assignment-" +:+ assignmentId +:+ "-details.json" in
  let r := show_details net spec e s in
  exists devs,
    issued (snd r) = issued s ++ devs /\
    ((fst r = Ended /\ devs = [Exit 1] /\ (classId = "" \/ assignmentId = "")) \/
     (fst r = Threw /\ classId <> "" /\ assignmentId <> "" /\
      ((devs = [] /\ Env.truthy e "AUI_TOKEN" = false) \/
       (devs = [FetchDetails classId assignmentId] /\
        Env.truthy e "AUI_TOKEN" = true /\
        forall x, details_response net classId assignmentId = Some x ->
                  plain_details x = false))) \/
     (fst r = Returned tt /\ classId <> "" /\ assignmentId <> "" /\
      Env.truthy e "AUI_TOKEN" = true /\
      exists x, details_response net classId assignmentId = Some x /\
                devs = [FetchDetails classId assignmentId; WriteDetails file x])).
Proof.
  intros classId assignmentId file r. subst r.
  destruct (show_details net spec e s) as [o s'] eqn:Hrun. simpl fst. simpl snd.
  unfold show_details in Hrun.
  fold (class_part spec) (assignment_part spec) in Hrun.
  fold classId assignmentId file in Hrun.
  destruct (String.eqb_spec classId "") as [Hc|Hc].
  { injection Hrun as <- <-. exists [Exit 1]. split; [done|]. left. by auto. }
  destruct (String.eqb_spec assignmentId "") as [Ha|Ha].
  { injection Hrun as <- <-. exists [Exit 1]. split; [done|]. left. by auto. }
  change (false || false) with false in Hrun. cbv iota in Hrun.
  destruct (Env.truthy e "AUI_TOKEN") eqn:Htoken;
    [change (negb true) with false in Hrun|change (negb false) with true in Hrun];
    cbv iota in Hrun.
  2:{ injection Hrun as <- <-. exists []. rewrite app_nil_r. split; [done|].
      right. left. split_and!; try done. by left. }
  unfold mbind at 1, sync_bind at 1, bind at 1 in Hrun. rewrite emit_returns in Hrun.
  set (s1 := {| classMembers := classMembers s;
                issued := issued s ++ [FetchDetails classId assignmentId] |}) in Hrun.
  destruct (details_response net classId assignmentId) as [x|] eqn:Hx.
  2:{ injection Hrun as <- <-. exists [FetchDetails classId assignmentId].
      split; [done|]. right. left. split_and!; try done. right. by split_and!. }
  destruct (details_logged x file s1) as [Hlog|[Hlog Hplain]];
    cbv zeta in Hlog; rewrite Hlog in Hrun; injection Hrun as <- <-.
  - exists [FetchDetails classId assignmentId; WriteDetails file x].
    split; [simpl; by rewrite <- app_assoc|]. right. right. split_and!; try done.
    by exists x.
  - exists [FetchDetails classId assignmentId]. split; [done|]. right. left.
    split_and!; try done. right. split_and!; try done. by intros ? [= <-].
Qed.

(** X16: with [--details=classId:assignmentId] a run that has its
    credential fetches one record and saves it as it came, or it ends with
    status 1: before any request when a part of the argument is missing or
    the token is empty, after the one request when the answer is missing
    or cannot be printed. It lists nothing, exports nothing, and leaves
    the state alone. *)
Theorem details_mode (fuel : nat) (a : args) (st : state) (e e' : environ)
    (cevs : list event) (spec : string) (s : session) :
  details a = Some spec -> spec <> "" ->
  ensureCredential a refresh (at_start clk) e = (cevs, Some e') ->
  let classId := class_part spec in
  let assignmentId := assignment_part spec in
  let file := "assignment-" +:+ assignmentId +:+ "-details.json" in
  let r := run net pages store tm refresh clk fuel a st e s in
  exists devs,
    issued (snd r) = issued s ++ cevs ++ devs /\
    ((fst r = Returned tt /\ classId <> "" /\ assignmentId <> "" /\
      Env.truthy e' "AUI_TOKEN" = true /\
      exists x, details_response net classId assignmentId = Some x /\
                devs = [FetchDetails classId assignmentId; WriteDetails file x]) \/
     (fst r = Ended /\ devs = [Exit 1] /\
      (classId = "" \/ assignmentId = "" \/ Env.truthy e' "AUI_TOKEN" = false)) \/
     (fst r = Ended /\ devs = [FetchDetails classId assignmentId; Exit 1] /\
      classId <> "" /\ assignmentId <> "" /\
      forall x, details_response net classId assignmentId = Some x ->
                plain_details x = false)).
Proof.
  intros Hd Hne Hcred classId assignmentId file r. subst r.
  unfold run, try_catch. rewrite Hcred, Hd.
  destruct (String.eqb_spec spec "") as [->|_]; [done|].
  unfold mbind, sync_bind, bind, emit_all.
  set (s0 := {| classMembers := classMembers s; issued := issued s ++ cevs |}).
  destruct (show_details_cases spec e' s0) as (devs & Hissued & Hcases).
  fold classId assignmentId file in Hcases.
  destruct (show_details net spec e' s0) as [o s1]. simpl in Hissued, Hcases.
  destruct Hcases as [(-> & -> & Hbad)|[(-> & Hc & Ha & Hwhy)|(-> & Hc & Ha & Ht & x & Hx & ->)]].
  - exists [Exit 1]. simpl. rewrite Hissued, <- app_assoc. split; [done|].
    right. left. split_and!; try done. destruct Hbad; by auto.
  - destruct Hwhy as [[-> Ht]|(-> & Ht & Hplain)].
    + exists [Exit 1]. simpl. rewrite Hissued, app_nil_r, <- app_assoc. split; [done|].
      right. left. split_and!; try done. by auto.
    + exists [FetchDetails classId assignmentId; Exit 1]. simpl.
      rewrite Hissued. simpl. rewrite <- !app_assoc. split; [done|].
      right. right. by split_and!.
  - exists [FetchDetails classId assignmentId; WriteDetails file x]. simpl.
    rewrite Hissued, <- app_assoc. split; [done|]. left. split_and!; try done.
    by exists x.
Qed.

End Details.

Lemma details_mode_witness :
  let file := "assignment-a1-details.json" in
  details DetailsRun.flags = Some "c1:a1" /\ "c1:a1" <> "" /\
  @ensureCredential Demo.host DetailsRun.flags World.no_refresh 1700000000000
    DetailsRun.env = ([], Some DetailsRun.env) /\
  issued (snd (@run Demo.host DetailsRun.net World.no_pages World.empty_store World.exact
                 World.no_refresh (World.at_time 1700000000000) 5 DetailsRun.flags
                 (loadState None) DetailsRun.env new_session))
  = [FetchDetails "c1" "a1"; WriteDetails file (Demo.raw "a1" "<p>Read chapter 4</p>")].
Proof.
  intros file.
  assert (Hd : details DetailsRun.flags = Some "c1:a1") by reflexivity.
  assert (Hne : "c1:a1" <> "") by discriminate.
  assert (Hcred : @ensureCredential Demo.host DetailsRun.flags World.no_refresh
                    (at_start (World.at_time 1700000000000)) DetailsRun.env
                  = ([], Some DetailsRun.env)) by (vm_compute; reflexivity).
  split; [exact Hd|]. split; [exact Hne|]. split; [exact Hcred|].
  destruct (@details_mode Demo.host DetailsRun.net World.no_pages World.empty_store
              World.exact World.no_refresh (World.at_time 1700000000000) 5
              DetailsRun.flags (loadState None) DetailsRun.env DetailsRun.env []
              "c1:a1" new_session Hd Hne Hcred) as (devs & -> & Hcases).
  destruct Hcases as [(_ & _ & _ & _ & x & Hx & ->)|[(_ & _ & Hbad)|(_ & _ & _ & _ & Hbad)]].
  - injection Hx as <-. reflexivity.
  - destruct Hbad as [Hbad|[Hbad|Hbad]]; discriminate Hbad.
  - specialize (Hbad _ eq_refl). discriminate Hbad.
Defined.

(** * The listing *)

Section Listing.
Context `{Host}.
Variable pages : listing.

(** The loop over the answers [datas] of the listing, from the n-th
    request on: all of them can be read, and each but the last links a
    next page. *)
Lemma fetch_pages_walk (datas : list jsval) :
  forall (fuel n : nat) (allItems : list jsval) (s : session),
    datas <> [] ->
    (length datas <= fuel)%nat ->
    (forall i data, datas !! i = Some data ->
       listing_response pages (n + i) = Some data /\
       nullish data = false /\
       linked data = bool_decide (S i < length datas)%nat) ->
    fetch_pages pages fuel n allItems s
    = (Returned (allItems ++ concat (List.map page_items datas)),
       {| classMembers := classMembers s;
          issued := issued s ++ List.map FetchAssignments (seq n (length datas)) |}).
Proof.
  induction datas as [|data rest IH]; intros fuel n allItems s Hne Hfuel Hpages; [done|].
  destruct fuel as [|fuel]; [simpl in Hfuel; lia|].
  destruct (Hpages O data eq_refl) as (Hresponse & Hread & Hlink).
  rewrite Nat.add_0_r in Hresponse.
  simpl fetch_pages. unfold mbind, sync_bind, bind. rewrite emit_returns, Hresponse.
  assert (Hget : forall k, Js.get data k = Some (Js.get_opt data k)).
  { intros k. unfold Js.get_opt. by destruct data. }
  unfold read. rewrite !Hget. unfold ret. fold (linked data). rewrite Hlink.
  assert (Hitems : match Js.get_opt data "value" with
                   | JArr items => allItems ++ items
                   | _ => allItems
                   end = allItems ++ page_items data).
  { unfold page_items. destruct (Js.get_opt data "value"); by rewrite ?app_nil_r. }
  rewrite Hitems. simpl length.
  destruct rest as [|data' rest'].
  - rewrite bool_decide_false by (simpl; lia). simpl. by rewrite app_nil_r.
  - rewrite bool_decide_true by (simpl; lia).
    rewrite (IH fuel (S n) (allItems ++ page_items data)); [| done | simpl in *; lia |].
    + simpl. by rewrite <- !app_assoc.
    + intros i d Hd. destruct (Hpages (S i) d Hd) as (Hr & Hn & Hl).
      rewrite Nat.add_succ_r in Hr. split; [done|]. split; [done|].
      rewrite Hl. simpl length. apply bool_decide_ext. lia.
Qed.

(** X17: [fetchAllAssignments] follows the links of the listing. When
    the address and the token are set, the answers can be read and each
    but the last links a next page, it makes one request per page and
    returns the records of the pages in the order of the pages; an answer
    whose [value] is not an array adds nothing. *)
Theorem fetchAllAssignments_follows_links (datas : list jsval) (fuel : nat) (e : environ)
    (s : session) :
  Env.truthy e "AUI_URL" = true -> Env.truthy e "AUI_TOKEN" = true ->
  datas <> [] -> (length datas <= fuel)%nat ->
  (forall i data, datas !! i = Some data ->
     listing_response pages i = Some data /\
     nullish data = false /\
     linked data = bool_decide (S i < length datas)%nat) ->
  fetchAllAssignments pages fuel e s
  = (Returned (concat (List.map page_items datas)),
     {| classMembers := classMembers s;
        issued := issued s ++ List.map FetchAssignments (seq 0 (length datas)) |}).
Proof.
  intros Hurl Htoken Hne Hfuel Hpages. unfold fetchAllAssignments.
  rewrite Hurl, Htoken. change (negb true) with false. cbv iota.
  by rewrite (fetch_pages_walk datas fuel O [] s Hne Hfuel Hpages).
Qed.

End Listing.

Lemma fetchAllAssignments_follows_links_witness :
  let page1 := JObj [("value", JArr [Demo.raw "a1" "<p>one</p>"]);
                     ("@odata.nextLink", JStr "https://listing.example/2")] in
  let page2 := JObj [("value", JArr [Demo.raw "a2" "<p>two</p>"])] in
  Env.truthy TwoPages.env "AUI_URL" = true /\
  Env.truthy TwoPages.env "AUI_TOKEN" = true /\
  [page1; page2] <> [] /\ (length [page1; page2] <= 5)%nat /\
  fetchAllAssignments TwoPages.pages 5 TwoPages.env new_session
  = (Returned [Demo.raw "a1" "<p>one</p>"; Demo.raw "a2" "<p>two</p>"],
     {| classMembers := ∅; issued := [FetchAssignments 0; FetchAssignments 1] |}).
Proof.
  intros page1 page2.
  assert (Hurl : Env.truthy TwoPages.env "AUI_URL" = true) by reflexivity.
  assert (Htoken : Env.truthy TwoPages.env "AUI_TOKEN" = true) by reflexivity.
  assert (Hne : [page1; page2] <> []) by discriminate.
  assert (Hfuel : (length [page1; page2] <= 5)%nat) by (simpl; lia).
  split; [exact Hurl|]. split; [exact Htoken|]. split; [exact Hne|]. split; [exact Hfuel|].
  apply (fetchAllAssignments_follows_links TwoPages.pages [page1; page2] 5 TwoPages.env
           new_session Hurl Htoken Hne Hfuel).
  intros [|[|i]] data Hdata; simpl in Hdata; try discriminate;
    injection Hdata as <-; by split_and!.
Defined.

(** * The credential comes first *)

Section CredentialFirst.
Context `{Host}.
Variable net : network.
Variable pages : listing.
Variable store : remote.
Variable tm : timing.
Variable refresh : refresh_world.
Variable clk : clock.

(** How the first block of [run] lets a run go on. *)
Lemma ensureCredential_passes (a : args) (now_ms : Z) (e e' : environ)
    (cevs : list event) :
  ensureCredential a refresh now_ms e = (cevs, Some e') ->
  (cevs = [] /\ e' = e /\ validateToken (e !! "AUI_TOKEN") now_ms = true) \/
  (cevs = [LaunchExtractor; ReloadEnv] /\
   e' = Env.loadEnv true (dotenv_after refresh) e /\
   validateToken (e' !! "AUI_TOKEN") (clock_after refresh) = true).
Proof.
  unfold ensureCredential, refreshTokensIfNeeded.
  destruct (shouldAutoRefresh a e).
  - destruct (negb (Env.truthy e "AUI_TOKEN")) eqn:Htruthy; simpl orb; cbv iota.
    + destruct (extractor refresh) as [[[| |]|]|]; try (intros [= <- <-]; fail);
        try discriminate.
      destruct (validateToken _ (clock_after refresh)) eqn:Hv; [|discriminate].
      intros [= <- <-]. right. by split_and!.
    + destruct (validateToken (e !! "AUI_TOKEN") now_ms) eqn:Hv0; simpl negb; cbv iota.
      * intros [= <- <-]. by left.
      * destruct (extractor refresh) as [[[| |]|]|]; try discriminate.
        destruct (validateToken _ (clock_after refresh)) eqn:Hv; [|discriminate].
        intros [= <- <-]. right. by split_and!.
  - destruct (validateToken (e !! "AUI_TOKEN") now_ms) eqn:Hv0; [|discriminate].
    intros [= <- <-]. by left.
Qed.

(** X18: no request without a valid token. If a run sends any request,
    to the listing, for a roster or a record, or to the remote store, then
    the first block of [run] let it pass: the token in the environment
    was valid at the start, or the extractor closed with code 0 and the
    token of the environment loaded again was valid then. *)
Theorem requests_need_a_valid_token (fuel : nat) (a : args) (st : state) (e : environ)
    (ev : event) :
  ev ∈ issued (snd (run net pages store tm refresh clk fuel a st e new_session)) ->
  is_request ev ->
  exists cevs e',
    ensureCredential a refresh (at_start clk) e = (cevs, Some e') /\
    ((cevs = [] /\ e' = e /\ validateToken (e !! "AUI_TOKEN") (at_start clk) = true) \/
     (cevs = [LaunchExtractor; ReloadEnv] /\
      e' = Env.loadEnv true (dotenv_after refresh) e /\
      validateToken (e' !! "AUI_TOKEN") (clock_after refresh) = true)).
Proof.
  intros Hin Hrequest.
  destruct (ensureCredential a refresh (at_start clk) e) as [cevs [e'|]] eqn:Hcred.
  { exists cevs, e'. split; [done|]. by apply ensureCredential_passes with a. }
  exfalso. unfold run, try_catch in Hin. rewrite Hcred in Hin.
  unfold mbind, sync_bind, bind, emit_all, ended in Hin. simpl in Hin.
  assert (Hev : ev ∈ fst (ensureCredential a refresh (at_start clk) e)).
  { by rewrite Hcred. }
  apply credential_events in Hev as [Hev | [Hev | Hev]]; subst ev; exact Hrequest.
Qed.

End CredentialFirst.

Lemma requests_need_a_valid_token_witness :
  FetchAssignments 0
  ∈ issued (snd (@run Demo.host Demo.offline TwoPages.pages World.empty_store World.exact
                   World.no_refresh (World.at_time 1700000000000) 5 default_args
                   (loadState None) TwoPages.env new_session)) /\
  is_request (FetchAssignments 0) /\
  @validateToken Demo.host (TwoPages.env !! "AUI_TOKEN") 1700000000000 = true.
Proof.
  assert (Hin : FetchAssignments 0
                ∈ issued (snd (@run Demo.host Demo.offline TwoPages.pages World.empty_store
                                 World.exact World.no_refresh
                                 (World.at_time 1700000000000) 5 default_args
                                 (loadState None) TwoPages.env new_session))).
  { vm_compute. apply list_elem_of_here. }
  split; [exact Hin|]. split; [exact I|].
  destruct (@requests_need_a_valid_token Demo.host Demo.offline TwoPages.pages
              World.empty_store World.exact World.no_refresh
              (World.at_time 1700000000000) 5 default_args (loadState None)
              TwoPages.env (FetchAssignments 0) Hin I)
    as (cevs & e' & _ & [(_ & _ & Hv)|(Hlaunch & _)]).
  - exact Hv.
  - reflexivity.
Defined.


(** * Text helpers *)

Lemma sapp_cons (c : ascii) (a b : string) : String c a +:+ b = String c (a +:+ b).
Proof. reflexivity. Qed.

Lemma sapp_nil_l (s : string) : "" +:+ s = s.
Proof. reflexivity. Qed.

Lemma sapp_nil_r (s : string) : s +:+ "" = s.
Proof. induction s as [|c s IH]; [done|]. by rewrite sapp_cons, IH. Qed.

Lemma sapp_assoc (a b c : string) : (a +:+ b) +:+ c = a +:+ (b +:+ c).
Proof. induction a as [|d a IH]; [done|]. by rewrite !sapp_cons, IH. Qed.

Lemma sapp_length (a b : string) :
  String.length (a +:+ b) = (String.length a + String.length b)%nat.
Proof. induction a as [|d a IH]; [done|]. rewrite sapp_cons. simpl. by rewrite IH. Qed.

Lemma all_chars_app (p : ascii -> bool) (a b : string) :
  all_chars p (a +:+ b) = all_chars p a && all_chars p b.
Proof.
  induction a as [|d a IH]; [done|]. rewrite sapp_cons. simpl.
  by rewrite IH, andb_assoc.
Qed.

Section MatcherFacts.
Context {R : Type}.
Variable p : ascii -> bool.
Variable k : string -> string -> option R.

(** The lazy loop stops as soon as the rest matches. *)
Lemma lazy_star_here (taken s : string) (r : R) :
  k taken s = Some r -> Regex.lazy_star p k taken s = Some r.
Proof. intros Hk. destruct s; simpl; by rewrite Hk. Qed.

(** It walks over a text of the class on which the rest never matches. *)
Lemma lazy_star_app (a : string) :
  forall taken b,
    all_chars p a = true ->
    (forall a1 a2, a = a1 +:+ a2 -> a2 <> "" -> k (taken +:+ a1) (a2 +:+ b) = None) ->
    Regex.lazy_star p k taken (a +:+ b) = Regex.lazy_star p k (taken +:+ a) b.
Proof.
  induction a as [|c a IH]; intros taken b Hall Hk.
  { by rewrite sapp_nil_l, sapp_nil_r. }
  simpl in Hall. apply andb_true_iff in Hall as [Hc Hall].
  pose proof (Hk "" (String c a) eq_refl ltac:(done)) as Hfirst.
  rewrite sapp_nil_r, sapp_cons in Hfirst.
  rewrite sapp_cons. simpl. rewrite Hfirst, Hc.
  rewrite IH; [by rewrite sapp_assoc|done|].
  intros a1 a2 -> Hne. rewrite sapp_assoc, sapp_cons, sapp_nil_l.
  by apply (Hk (String c a1) a2).
Qed.

(** It fails when the rest matches nowhere. *)
Lemma lazy_star_none (s : string) :
  forall taken,
    (forall a1 a2, s = a1 +:+ a2 -> k (taken +:+ a1) a2 = None) ->
    Regex.lazy_star p k taken s = None.
Proof.
  induction s as [|c s IH]; intros taken Hk.
  - simpl. pose proof (Hk "" "" eq_refl) as H0. rewrite sapp_nil_r in H0. by rewrite H0.
  - pose proof (Hk "" (String c s) eq_refl) as H0. rewrite sapp_nil_r in H0.
    simpl. rewrite H0. destruct (p c); [|done].
    apply IH. intros a1 a2 ->. rewrite sapp_assoc, sapp_cons, sapp_nil_l.
    by apply (Hk (String c a1) a2).
Qed.

(** The greedy loop takes a whole run of the class when the rest matches
    behind it. *)
Lemma greedy_star_app (a : string) :
  forall taken b r,
    all_chars p a = true ->
    k (taken +:+ a) b = Some r ->
    match b with String c _ => p c = false | EmptyString => True end ->
    Regex.greedy_star p k taken (a +:+ b) = Some r.
Proof.
  induction a as [|c a IH]; intros taken b r Hall Hk Hb.
  - rewrite sapp_nil_r in Hk. rewrite sapp_nil_l.
    destruct b as [|c b]; simpl; [done|]. by rewrite Hb.
  - simpl in Hall. apply andb_true_iff in Hall as [Hc Hall].
    rewrite sapp_cons. simpl. rewrite Hc.
    rewrite (IH (taken +:+ String c "") b r); [done|done| |done].
    by rewrite sapp_assoc, sapp_cons, sapp_nil_l.
Qed.

(** It fails when the rest matches behind no part of the run. *)
Lemma greedy_star_none (s : string) :
  forall taken,
    (forall a1 a2, s = a1 +:+ a2 -> all_chars p a1 = true -> k (taken +:+ a1) a2 = None) ->
    Regex.greedy_star p k taken s = None.
Proof.
  induction s as [|c s IH]; intros taken Hk.
  - simpl. pose proof (Hk "" "" eq_refl eq_refl) as H0. by rewrite sapp_nil_r in H0.
  - pose proof (Hk "" (String c s) eq_refl eq_refl) as H0. rewrite sapp_nil_r in H0.
    simpl. destruct (p c) eqn:Hc; [|done].
    rewrite IH; [done|].
    intros a1 a2 -> Hall. rewrite sapp_assoc, sapp_cons, sapp_nil_l.
    apply (Hk (String c a1) a2); [done|]. simpl. by rewrite Hc.
Qed.

End MatcherFacts.

(** A quantified class hands a piece of the text to the rest of the
    pattern: when the rest fails behind every piece, so does the whole. *)
Lemma quantify_none {R : Type} (q : Regex.quantifier) (p : ascii -> bool)
    (k : string -> string -> option R) (s : string) :
  (forall a1 a2, s = a1 +:+ a2 -> k a1 a2 = None) ->
  Regex.quantify q p k s = None.
Proof.
  intros Hk. destruct q; simpl.
  - destruct s as [|c s]; simpl; [done|]. destruct (p c); [|done].
    by apply (Hk (String c "") s).
  - destruct s as [|c s]; simpl; [done|]. destruct (p c); [|done].
    apply lazy_star_none. intros a1 a2 ->. by apply (Hk (String c a1) a2).
  - apply greedy_star_none. intros a1 a2 -> _. by apply (Hk a1 a2).
  - destruct s as [|c s]; simpl; [done|]. destruct (p c); [|done].
    apply greedy_star_none. intros a1 a2 -> _. by apply (Hk (String c a1) a2).
Qed.

(** A pattern that asks for a character matches no text without it. *)
Lemma exec_needs_char (d : ascii) (pattern : list Regex.atom) :
  Exists (asks_for d) pattern ->
  forall groups s, has_char d s = false -> Regex.exec pattern groups s = None.
Proof.
  induction pattern as [|a rest IH]; intros Hasks groups s Hs.
  { by apply Exists_nil in Hasks. }
  simpl. apply Exists_cons in Hasks as [[Honce Hclass]|Hrest].
  - rewrite Honce. simpl. destruct s as [|c s]; simpl; [done|].
    simpl in Hs. apply orb_false_iff in Hs as [Hc _]. by rewrite Hclass, Hc.
  - apply quantify_none. intros a1 a2 ->. apply IH; [done|].
    rewrite has_char_app in Hs. by apply orb_false_iff in Hs as [_ ?].
Qed.

Lemma replace_commas_none (s : string) : has_char "," (replace_commas s) = false.
Proof.
  induction s as [|c s IH]; simpl; [done|]. rewrite IH.
  by destruct (Ascii.eqb_spec c ",") as [->|Hc]; [|apply Ascii.eqb_neq in Hc; rewrite Hc].
Qed.

Lemma replace_commas_same (s : string) : has_char "," s = false -> replace_commas s = s.
Proof.
  induction s as [|c s IH]; simpl; [done|]. intros Hs.
  apply orb_false_iff in Hs as [Hc Hs]. by rewrite Hc, IH.
Qed.

Lemma replace_commas_length (s : string) :
  String.length (replace_commas s) = String.length s.
Proof. induction s as [|c s IH]; simpl; [done|by rewrite IH]. Qed.

(** X19: a teacher name that is not of the form [Last, First - CODE] only
    loses its commas. A name without a comma comes back as it is; a name
    without a dash comes back with a space in the place of every comma,
    as long as before and without a comma. *)
Theorem formatTeacherName_without_pattern (name : string) :
  (has_char "," name = false -> formatTeacherName name = name) /\
  (has_char "-" name = false ->
   formatTeacherName name = replace_commas name /\
   has_char "," (formatTeacherName name) = false /\
   String.length (formatTeacherName name) = String.length name).
Proof.
  assert (Hcomma : Exists (asks_for ",") teacher_pattern).
  { apply Exists_cons_tl, Exists_cons_hd. by split. }
  assert (Hdash : Exists (asks_for "-") teacher_pattern).
  { do 5 apply Exists_cons_tl. apply Exists_cons_hd. by split. }
  assert (Hnone : Regex.exec teacher_pattern [] name = None ->
                  formatTeacherName name = replace_commas name).
  { intros Hexec. unfold formatTeacherName. rewrite Hexec.
    by destruct (String.eqb_spec name "") as [->|_]. }
  split.
  - intros Hname. rewrite Hnone by (by apply (exec_needs_char ",")).
    by apply replace_commas_same.
  - intros Hname. rewrite Hnone by (by apply (exec_needs_char "-")).
    split; [done|]. split; [apply replace_commas_none|apply replace_commas_length].
Qed.

(** A run of white space inside a text that ends on something else stops
    before the end of the text. *)
Lemma space_run_inside (a : string) :
  forall x1 x2 b,
    a <> "" -> last_space a = false ->
    a +:+ b = x1 +:+ x2 -> all_chars is_space x1 = true ->
    exists c rest, x2 = String c rest /\ has_char c a = true.
Proof.
  induction a as [|d a IH]; intros x1 x2 b Hne Hlast Heq Hx1; [done|].
  rewrite sapp_cons in Heq. destruct x1 as [|e x1].
  - rewrite sapp_nil_l in Heq. subst x2. exists d, (a +:+ b). split; [done|].
    simpl. by rewrite Ascii.eqb_refl.
  - rewrite sapp_cons in Heq. injection Heq as <- Heq.
    simpl in Hx1. apply andb_true_iff in Hx1 as [Hd Hx1].
    destruct a as [|d' a].
    { simpl in Hlast. congruence. }
    destruct (IH x1 x2 b ltac:(done) Hlast Heq Hx1) as (c & rest & -> & Hc).
    exists c, rest. split; [done|]. simpl in *. by rewrite Hc, orb_true_r.
Qed.

Lemma all_chars_has (p : ascii -> bool) (s : string) (c : ascii) :
  all_chars p s = true -> has_char c s = true -> p c = true.
Proof.
  induction s as [|d s IH]; simpl; [done|]. intros Hall Hc.
  apply andb_true_iff in Hall as [Hd Hall]. apply orb_true_iff in Hc as [Hc|Hc].
  - apply Ascii.eqb_eq in Hc. by subst.
  - by apply IH.
Qed.

Lemma all_chars_impl (p q : ascii -> bool) (s : string) :
  (forall c, p c = true -> q c = true) -> all_chars p s = true -> all_chars q s = true.
Proof.
  intros Hpq. induction s as [|d s IH]; simpl; [done|]. intros Hall.
  apply andb_true_iff in Hall as [Hd Hall]. by rewrite (Hpq _ Hd), IH.
Qed.

Lemma trim_end_same (s : string) : last_space s = false -> trim_end s = s.
Proof.
  induction s as [|c s IH]; [done|]. intros Hlast. simpl.
  destruct s as [|d s].
  - simpl in *. by rewrite Hlast.
  - rewrite IH by done. done.
Qed.

Lemma trim_same (s : string) : head_space s = false -> last_space s = false -> trim s = s.
Proof.
  intros Hhead Hlast. unfold trim.
  assert (Hstart : trim_start s = s).
  { destruct s as [|c s]; [done|]. simpl in *. by rewrite Hhead. }
  rewrite Hstart. by apply trim_end_same.
Qed.

Lemma last_space_app (a b : string) : b <> "" -> last_space (a +:+ b) = last_space b.
Proof.
  intros Hb. induction a as [|c a IH]; [done|]. rewrite sapp_cons.
  change (last_space (String c (a +:+ b)))
    with (match a +:+ b with "" => is_space c | _ => last_space (a +:+ b) end).
  destruct (a +:+ b) as [|d s] eqn:Hab; [|done].
  destruct a; [by rewrite sapp_nil_l in Hab|by rewrite sapp_cons in Hab].
Qed.

(** What the pattern finds in a name of the form [Last, First - CODE]. *)
Lemma teacher_pattern_matches (last first code ws1 ws2 ws3 : string) :
  last <> "" ->
  all_chars (fun c => Regex.dot c && negb (Ascii.eqb c ",")) last = true ->
  first <> "" ->
  all_chars (fun c => Regex.dot c && negb (Ascii.eqb c "-")) first = true ->
  head_space first = false -> last_space first = false ->
  code <> "" -> all_chars Regex.dot code = true -> head_space code = false ->
  all_chars is_space ws1 = true -> all_chars is_space ws2 = true ->
  all_chars is_space ws3 = true ->
  Regex.exec teacher_pattern []
    (last +:+ "," +:+ ws1 +:+ first +:+ ws2 +:+ "-" +:+ ws3 +:+ code)
  = Some [last; first; code].
Proof.
  intros Hlast_ne Hlast Hfirst_ne Hfirst Hfirst_head Hfirst_last Hcode_ne Hcode Hcode_head
    Hws1 Hws2 Hws3.
  destruct last as [|c0 last]; [done|].
  destruct first as [|c1 first]; [done|].
  destruct code as [|c2 code]; [done|].
  simpl in Hlast, Hfirst, Hcode.
  apply andb_true_iff in Hlast as [Hc0 Hlast].
  apply andb_true_iff in Hc0 as [Hc0 Hc0'].
  apply andb_true_iff in Hfirst as [Hc1 Hfirst].
  apply andb_true_iff in Hc1 as [Hc1 Hc1'].
  apply andb_true_iff in Hcode as [Hc2 Hcode].
  unfold teacher_pattern.
  cbn [Regex.exec Regex.quantify Regex.class Regex.quantified Regex.captured app].
  rewrite sapp_cons. unfold Regex.once at 1. rewrite Hc0.
  (* the last name runs up to the first comma *)
  rewrite lazy_star_app; cycle 1.
  { eapply all_chars_impl; [|exact Hlast]. by intros c [? _]%andb_true_iff. }
  { intros a1 [|d a2] -> Hne; [done|]. rewrite (sapp_cons d a2).
    unfold Regex.once at 1, Regex.literal at 1. cbv beta iota.
    assert (Hd : has_char d (a1 +:+ String d a2) = true).
    { rewrite has_char_app. simpl. by rewrite Ascii.eqb_refl, orb_true_r. }
    pose proof (all_chars_has _ _ _ Hlast Hd) as Hd'. simpl in Hd'.
    apply andb_true_iff in Hd' as [_ Hd']. apply negb_true_iff in Hd'. by rewrite Hd'. }
  apply lazy_star_here. rewrite !sapp_cons, !sapp_nil_l.
  unfold Regex.once at 1, Regex.literal at 1. rewrite Ascii.eqb_refl.
  (* the white space behind the comma *)
  apply greedy_star_app; [exact Hws1| |exact Hfirst_head].
  unfold Regex.once at 1. rewrite Hc1.
  (* the first name runs up to the white space before the dash *)
  rewrite lazy_star_app; cycle 1.
  { eapply all_chars_impl; [|exact Hfirst]. by intros c [? _]%andb_true_iff. }
  { intros a1 a2 -> Hne. apply greedy_star_none. intros x1 x2 Heq Hx1.
    assert (Ha2 : last_space a2 = false).
    { rewrite <- Hfirst_last, <- sapp_cons. symmetry. by apply last_space_app. }
    destruct (space_run_inside a2 x1 x2 _ Hne Ha2 Heq Hx1) as (c & rest & -> & Hc).
    unfold Regex.once at 1, Regex.literal at 1. cbv beta iota.
    assert (Hin : has_char c (a1 +:+ a2) = true).
    { rewrite has_char_app. by rewrite Hc, orb_true_r. }
    pose proof (all_chars_has _ _ _ Hfirst Hin) as Hc'. simpl in Hc'.
    apply andb_true_iff in Hc' as [_ Hc']. apply negb_true_iff in Hc'. by rewrite Hc'. }
  apply lazy_star_here. rewrite !sapp_cons, !sapp_nil_l.
  (* the white space, the dash, the white space *)
  apply greedy_star_app; [exact Hws2| |done].
  unfold Regex.once at 1, Regex.literal at 1. rewrite Ascii.eqb_refl.
  apply greedy_star_app; [exact Hws3| |exact Hcode_head].
  unfold Regex.once at 1. rewrite Hc2.
  (* the code runs to the end *)
  rewrite <- (sapp_nil_r code) at 1.
  apply greedy_star_app; [exact Hcode| |done].
  by rewrite sapp_cons, sapp_nil_l.
Qed.

(** X20: a name of the form [Last, First - CODE] is turned around. When
    the last name holds no comma, the first name holds no dash and neither
    starts nor ends with white space, and the code does not start with
    white space (and none of them holds a line break), the name comes back
    as [First Last - CODE], with the white space around the comma and the
    dash brought to one space and the last name and the code trimmed. *)
Theorem formatTeacherName_reorders (last first code ws1 ws2 ws3 : string) :
  last <> "" ->
  all_chars (fun c => Regex.dot c && negb (Ascii.eqb c ",")) last = true ->
  first <> "" ->
  all_chars (fun c => Regex.dot c && negb (Ascii.eqb c "-")) first = true ->
  head_space first = false -> last_space first = false ->
  code <> "" -> all_chars Regex.dot code = true -> head_space code = false ->
  all_chars is_space ws1 = true -> all_chars is_space ws2 = true ->
  all_chars is_space ws3 = true ->
  formatTeacherName (last +:+ "," +:+ ws1 +:+ first +:+ ws2 +:+ "-" +:+ ws3 +:+ code)
  = first +:+ " " +:+ trim last +:+ " - " +:+ trim code.
Proof.
  intros Hlast_ne Hlast Hfirst_ne Hfirst Hfirst_head Hfirst_last Hcode_ne Hcode Hcode_head
    Hws1 Hws2 Hws3.
  unfold formatTeacherName.
  rewrite (teacher_pattern_matches last first code ws1 ws2 ws3) by done.
  rewrite (trim_same first) by done.
  destruct last as [|c last]; [done|]. by rewrite sapp_cons.
Qed.

Lemma formatTeacherName_reorders_witness :
  formatTeacherName ("Gray" +:+ "," +:+ " " +:+ "Ian" +:+ " " +:+ "-" +:+ " " +:+ "IRG")
  = "Ian" +:+ " " +:+ trim "Gray" +:+ " - " +:+ trim "IRG".
Proof.
  apply (formatTeacherName_reorders "Gray" "Ian" "IRG" " " " " " ");
    (discriminate || reflexivity).
Defined.

(** A first name with a dash in it is cut at the dash, and a second
    comma stays in the name. *)
Example formatTeacherName_cuts_at_the_first_dash :
  formatTeacherName "Smith, Mary-Ann - MAS" = "Mary Smith - Ann - MAS" /\
  formatTeacherName "Gray, Ian, Jr - IRG" = "Ian, Jr Gray - IRG".
Proof. split; reflexivity. Qed.

Lemma substring0_exact (n : nat) (s : string) :
  (n <= String.length s)%nat -> String.length (substring0 n s) = n.
Proof.
  revert s. induction n as [|n IH]; intros [|c s]; simpl; try done; try lia.
  intros Hs. f_equal. apply IH. lia.
Qed.

Lemma substring0_prefix (n : nat) (s : string) : String.prefix (substring0 n s) s = true.
Proof.
  revert s. induction n as [|n IH]; intros [|c s]; simpl; try done.
  destruct (ascii_dec c c); [apply IH|done].
Qed.

(** X21: [trim(s, n)] of the summary keeps a text of at most [n] code
    units as it is. A longer one is cut to its first [n - 3] code units
    and three dots, [n] code units in all when [n] is 3 or more; below 3
    the three dots alone are longer than [n]. *)
Theorem trim_cuts_to_width (s : string) (n : Z) :
  (Z.of_nat (String.length s) <= n -> Summary.trim s n = s) /\
  (n < Z.of_nat (String.length s) -> s <> "" ->
   exists kept,
     Summary.trim s n = kept +:+ "..." /\
     String.prefix kept s = true /\
     Z.of_nat (String.length kept) = Z.max 0 (n - 3) /\
     Z.of_nat (String.length (Summary.trim s n)) = Z.max n 3).
Proof.
  unfold Summary.trim. split.
  - intros Hfits. destruct (String.eqb_spec s "") as [->|_]; [done|].
    destruct (Z.gtb_spec (Z.of_nat (String.length s)) n); [lia|done].
  - intros Hlong Hne. destruct (String.eqb_spec s "") as [->|_]; [done|].
    destruct (Z.gtb_spec (Z.of_nat (String.length s)) n); [|lia].
    exists (substring0 (Z.to_nat (n - 3)) s).
    assert (Hkept : String.length (substring0 (Z.to_nat (n - 3)) s) = Z.to_nat (n - 3)).
    { apply substring0_exact. lia. }
    split; [done|]. split; [apply substring0_prefix|].
    rewrite sapp_length, Hkept. simpl. lia.
Qed.

Example trim_examples :
  Summary.trim "Read chapter four" 10 = "Read ch..." /\
  Summary.trim "Essay" 10 = "Essay" /\
  Summary.trim "Essay" 2 = "...".
Proof. by split_and!. Qed.


(** * The CSV text *)

Section CsvFacts.
Import Csv.

Lemma read_chars_app (a b : string) :
  forall r, read_chars r (a +:+ b)
            = match read_chars r a with
              | Some r' => read_chars r' b
              | None => None
              end.
Proof.
  induction a as [|c a IH]; intros r; [done|].
  rewrite sapp_cons. simpl. destruct (read_char r c); [apply IH|done].
Qed.

Lemma read_chars_cons (r : reader) (c : ascii) (s : string) :
  read_chars r (String c s)
  = match read_char r c with
    | Some r' => read_chars r' s
    | None => None
    end.
Proof. reflexivity. Qed.

Lemma read_char_quoted (r : reader) (f : string) (c : ascii) :
  here r = Quoted f -> Ascii.eqb c Env.quote = false ->
  read_char r c = Some (stay r (Quoted (push c f))).
Proof. intros Hr Hc. unfold read_char. by rewrite Hr, Hc. Qed.

Lemma read_char_close (r : reader) (f : string) :
  here r = Quoted f -> read_char r Env.quote = Some (stay r (Closing f)).
Proof. intros Hr. unfold read_char. by rewrite Hr. Qed.

Lemma read_char_closing_quote (r : reader) (f : string) :
  here r = Closing f ->
  read_char r Env.quote = Some (stay r (Quoted (push Env.quote f))).
Proof. intros Hr. unfold read_char. by rewrite Hr. Qed.

Lemma read_char_open (r : reader) :
  here r = Plain "" -> read_char r Env.quote = Some (stay r (Quoted "")).
Proof. intros Hr. unfold read_char. by rewrite Hr. Qed.

Lemma stay_stay (r : reader) (h h' : reading) : stay (stay r h) h' = stay r h'.
Proof. done. Qed.

Lemma stay_here (r : reader) : stay r (here r) = r.
Proof. by destruct r. Qed.

(** Between the quotes, a text without a quote, and a text with its
    quotes doubled, are read as the text. *)
Lemma read_quoted_text (s : string) :
  forall r f,
    here r = Quoted f -> has_char Env.quote s = false ->
    read_chars r s = Some (stay r (Quoted (f +:+ s))).
Proof.
  induction s as [|c s IH]; intros r f Hr Hs.
  - by rewrite sapp_nil_r, <- Hr, stay_here.
  - simpl in Hs. apply orb_false_iff in Hs as [Hc Hs].
    rewrite read_chars_cons, (read_char_quoted r f c Hr Hc).
    rewrite (IH _ (push c f)); [|done|done].
    unfold push. by rewrite stay_stay, sapp_assoc.
Qed.

Lemma read_doubled_text (s : string) :
  forall r f,
    here r = Quoted f ->
    read_chars r (double_quotes s) = Some (stay r (Quoted (f +:+ s))).
Proof.
  induction s as [|c s IH]; intros r f Hr.
  - by rewrite sapp_nil_r, <- Hr, stay_here.
  - simpl double_quotes. destruct (Ascii.eqb c Env.quote) eqn:Hc.
    + apply Ascii.eqb_eq in Hc. subst c.
      rewrite read_chars_cons, (read_char_close r f Hr).
      rewrite read_chars_cons, (read_char_closing_quote _ f); [|done].
      rewrite (IH _ (push Env.quote f)); [|done].
      unfold push. by rewrite !stay_stay, sapp_assoc.
    + rewrite read_chars_cons, (read_char_quoted r f c Hr Hc).
      rewrite (IH _ (push c f)); [|done].
      unfold push. by rewrite stay_stay, sapp_assoc.
Qed.

Lemma read_plain_text (s : string) :
  forall r f,
    here r = Plain f ->
    has_char Env.quote s = false -> has_char "," s = false ->
    has_char Env.newline s = false ->
    read_chars r s = Some (stay r (Plain (f +:+ s))).
Proof.
  induction s as [|c s IH]; intros r f Hr Hq Hc Hn.
  - by rewrite sapp_nil_r, <- Hr, stay_here.
  - simpl in Hq, Hc, Hn.
    apply orb_false_iff in Hq as [Hq1 Hq]. apply orb_false_iff in Hc as [Hc1 Hc].
    apply orb_false_iff in Hn as [Hn1 Hn].
    rewrite read_chars_cons. unfold read_char. rewrite Hr, Hq1, Hc1, Hn1.
    rewrite (IH _ (push c f)); [|done..].
    unfold push. by rewrite stay_stay, sapp_assoc.
Qed.

(** A readable cell at the start of a field is read as its value. *)
Lemma read_cell (c : cell) (r : reader) :
  here r = Plain "" -> readable c = true ->
  exists r', read_chars r (render c) = Some r' /\
             records r' = records r /\ fields r' = fields r /\ pending r' (value c).
Proof.
  intros Hr Hc. destruct c as [s|s|s]; simpl in Hc; simpl render; simpl value.
  - unfold quoted. rewrite read_chars_cons, (read_char_open r Hr).
    rewrite read_chars_app, (read_doubled_text s _ ""); [|done].
    rewrite read_chars_cons, (read_char_close _ ("" +:+ s)); [|done].
    eexists. split; [reflexivity|]. split_and!; try done. by right.
  - apply negb_true_iff in Hc.
    unfold quoted. rewrite read_chars_cons, (read_char_open r Hr).
    rewrite read_chars_app, (read_quoted_text s _ ""); [|done|done].
    rewrite read_chars_cons, (read_char_close _ ("" +:+ s)); [|done].
    eexists. split; [reflexivity|]. split_and!; try done. by right.
  - apply andb_true_iff in Hc as [Hc Hn]. apply andb_true_iff in Hc as [Hq Hc].
    apply negb_true_iff in Hq, Hc, Hn.
    rewrite (read_plain_text s r ""); [|done..].
    eexists. split; [reflexivity|]. split_and!; try done. by left.
Qed.

Lemma read_char_comma (r : reader) (f : string) :
  pending r f -> read_char r "," = Some (end_field r f).
Proof. intros [Hr|Hr]; unfold read_char; by rewrite Hr. Qed.

Lemma read_char_newline (r : reader) (f : string) :
  pending r f -> read_char r Env.newline = Some (end_record r f).
Proof. intros [Hr|Hr]; unfold read_char; by rewrite Hr. Qed.

(** A line of readable cells is read as their values. *)
Lemma read_line (cs : list cell) :
  forall r,
    cs <> [] -> here r = Plain "" -> forallb readable cs = true ->
    exists r' f,
      read_chars r (join "," (render <$> cs)) = Some r' /\
      records r' = records r /\ pending r' f /\
      fields r' ++ [f] = fields r ++ (value <$> cs).
Proof.
  induction cs as [|c cs IH]; intros r Hne Hr Hcs; [done|].
  simpl in Hcs. apply andb_true_iff in Hcs as [Hc Hcs].
  destruct (read_cell c r Hr Hc) as (r1 & Hread & Hrecords & Hfields & Hpending).
  destruct cs as [|c2 cs].
  - exists r1, (value c). simpl. split; [done|]. split; [done|]. split; [done|].
    by rewrite Hfields.
  - change (join "," (render <$> c :: c2 :: cs))
      with (render c +:+ "," +:+ join "," (render <$> c2 :: cs)).
    rewrite read_chars_app, Hread, sapp_cons, sapp_nil_l, read_chars_cons.
    rewrite (read_char_comma r1 (value c) Hpending).
    destruct (IH (end_field r1 (value c)) ltac:(done) eq_refl Hcs)
      as (r' & f & Hread' & Hrecords' & Hpending' & Hfields').
    exists r', f. split; [done|]. split; [by rewrite Hrecords'|]. split; [done|].
    rewrite Hfields'. simpl. by rewrite Hfields, <- app_assoc.
Qed.

(** Lines of readable cells are read as records of their values. *)
Lemma read_lines (rows : list (list cell)) :
  forall r,
    rows <> [] -> here r = Plain "" -> fields r = [] ->
    Forall (fun cs => cs <> [] /\ forallb readable cs = true) rows ->
    exists r' f,
      read_chars r (join (String Env.newline "") (line <$> rows))
      = Some r' /\
      pending r' f /\
      records r' ++ [fields r' ++ [f]] = records r ++ (List.map value <$> rows).
Proof.
  induction rows as [|cs rows IH]; intros r Hne Hr Hfields Hrows; [done|].
  apply Forall_cons in Hrows as [[Hcs_ne Hcs] Hrows].
  destruct (read_line cs r Hcs_ne Hr Hcs) as (r1 & f1 & Hread & Hrecords & Hpending & Hf1).
  rewrite Hfields in Hf1. simpl in Hf1.
  destruct rows as [|cs2 rows].
  - exists r1, f1. simpl. split; [done|]. split; [done|]. by rewrite Hf1, Hrecords.
  - change (join (String Env.newline "") (line <$> cs :: cs2 :: rows))
      with (join "," (render <$> cs) +:+ String Env.newline "" +:+
            join (String Env.newline "") (line <$> cs2 :: rows)).
    rewrite read_chars_app, Hread, sapp_cons, sapp_nil_l, read_chars_cons.
    rewrite (read_char_newline r1 f1 Hpending).
    destruct (IH (end_record r1 f1) ltac:(done) eq_refl eq_refl Hrows)
      as (r' & f & Hread' & Hpending' & Hall).
    exists r', f. split; [done|]. split; [done|].
    rewrite Hall. simpl. by rewrite Hf1, Hrecords, <- app_assoc.
Qed.

Lemma read_pending (s : string) (r : reader) (f : string) :
  read_chars start s = Some r -> pending r f ->
  read s = Some (records r ++ [fields r ++ [f]]).
Proof. intros Hread [Hr|Hr]; unfold read; by rewrite Hread, Hr. Qed.

End CsvFacts.

Section CsvExport.
Context `{Host}.

Lemma cells_not_empty (item : Item.t) (cs : list Csv.cell) :
  Csv.cells item = Some cs -> cs <> [].
Proof.
  unfold Csv.cells. destruct (Item.teacherName item); try done.
  destruct (js_String (Item.teacherEmail item)); [|done]. by intros [= <-].
Qed.

Lemma cells_csv_row_ok (item : Item.t) :
  is_Some (Csv.cells item) <-> csv_row_ok item = true.
Proof.
  unfold Csv.cells, csv_row_ok.
  destruct (Item.teacherName item); simpl;
    try (split; [by intros ?%is_Some_None|done]).
  destruct (js_String (Item.teacherEmail item)); simpl.
  - split; [done|by eexists].
  - split; [by intros ?%is_Some_None|done].
Qed.

Lemma mapM_cells (items : list Item.t) :
  is_Some (mapM Csv.cells items) <-> forallb csv_row_ok items = true.
Proof.
  rewrite mapM_is_Some. induction items as [|item items IH]; simpl.
  { split; [done|constructor]. }
  rewrite Forall_cons, andb_true_iff, IH. by rewrite (cells_csv_row_ok item).
Qed.

Lemma mapM_cells_readable (items : list Item.t) :
  forallb csv_readable items = true ->
  exists rows,
    mapM Csv.cells items = Some rows /\
    Forall (fun cs => cs <> [] /\ forallb Csv.readable cs = true) rows /\
    List.map Csv.value <$> rows = csv_values <$> items.
Proof.
  induction items as [|item items IH]; intros Hall.
  { exists []. by split_and!. }
  simpl in Hall. apply andb_true_iff in Hall as [Hitem Hall].
  destruct (IH Hall) as (rows & Hrows & Hok & Hvalues).
  unfold csv_readable in Hitem. destruct (Csv.cells item) as [cs|] eqn:Hcs; [|done].
  exists (cs :: rows). split.
  { change (mapM Csv.cells (item :: items))
      with (y ← Csv.cells item; k ← mapM Csv.cells items; mret (y :: k)).
    by rewrite Hcs, Hrows. }
  split.
  { constructor; [|done]. split; [by apply (cells_not_empty item)|done]. }
  rewrite !fmap_cons, Hvalues. f_equal. unfold csv_values. by rewrite Hcs.
Qed.

(** The text of [writeCsvFile] is built exactly when no row throws. *)
Lemma csvContent_built (items : list Item.t) :
  is_Some (Csv.csvContent items) <-> forallb csv_row_ok items = true.
Proof.
  rewrite <- mapM_cells. unfold Csv.csvContent.
  destruct (mapM Csv.cells items); simpl; split; try done; by eexists.
Qed.

(** X22: the CSV text can be read back. When every row can be built and,
    in every row, the texts that are written between quotes as they are
    hold no quote and the numbers are printed without quote, comma or line
    feed, [writeCsvFile] writes a text from which a reader of CSV gets the
    header and, for every item in order, the seventeen values of its row:
    titles and teacher names come back whole, with their commas, quotes
    and line feeds. *)
Theorem csv_reads_back (items : list Item.t) :
  forallb csv_readable items = true ->
  forallb csv_row_ok items = true /\
  exists content,
    Csv.csvContent items = Some content /\
    Csv.read content = Some (Csv.headers :: (csv_values <$> items)).
Proof.
  intros Hall. destruct (mapM_cells_readable items Hall) as (rows & Hrows & Hok & Hvalues).
  split.
  { apply mapM_cells. rewrite Hrows. by eexists. }
  unfold Csv.csvContent. rewrite Hrows. simpl. eexists. split; [reflexivity|].
  destruct (read_lines ((Csv.Bare <$> Csv.headers) :: rows) Csv.start)
    as (r & f & Hread & Hpending & Hall'); [done|done|done| |].
  { constructor; [by split|done]. }
  rewrite (read_pending _ r f); [|exact Hread|done].
  rewrite Hall', fmap_cons, Hvalues. reflexivity.
Qed.

End CsvExport.

Lemma csv_reads_back_witness :
  forallb (@csv_readable Demo.host) [quoting_item; Demo.item "a2" true true] = true /\
  exists content,
    @Csv.csvContent Demo.host [quoting_item; Demo.item "a2" true true] = Some content /\
    Csv.read content
    = Some [Csv.headers;
            @csv_values Demo.host quoting_item;
            @csv_values Demo.host (Demo.item "a2" true true)].
Proof.
  assert (Hall : forallb (@csv_readable Demo.host)
                   [quoting_item; Demo.item "a2" true true] = true) by reflexivity.
  split; [exact Hall|].
  exact (proj2 (@csv_reads_back Demo.host [quoting_item; Demo.item "a2" true true] Hall)).
Defined.

Example csv_keeps_commas_and_quotes :
  nth 1 (@csv_values Demo.host quoting_item) ""
  = "Essay, " +:+ String Env.quote ("draft" +:+ String Env.quote " two").
Proof. reflexivity. Qed.

(** A quote in an id is written as it is: the text is not read back. *)
Example csv_breaks_on_a_quote_in_an_id :
  let item := Demo.item (String Env.quote "a1") true true in
  @csv_readable Demo.host item = false /\
  (exists content,
     @Csv.csvContent Demo.host [item] = Some content /\ Csv.read content = None).
Proof. split; [done|]. eexists. split; [vm_compute; reflexivity|]. by vm_compute. Qed.


(** * The summary *)

Lemma count_add_sizes {K : Type} (same : K -> K -> bool) (k : K) (x : Item.t)
    (groups : list (K * list Item.t)) :
  count_add same k (sizes groups) = sizes (group_add same k x groups).
Proof.
  induction groups as [|[k' xs] groups IH]; [done|].
  change (sizes ((k', xs) :: groups)) with ((k', length xs) :: sizes groups).
  simpl. destruct (same k' k).
  - change (sizes ((k', xs ++ [x]) :: groups))
      with ((k', length (xs ++ [x])) :: sizes groups).
    by rewrite length_app, Nat.add_1_r.
  - change (sizes ((k', xs) :: group_add same k x groups))
      with ((k', length xs) :: sizes (group_add same k x groups)).
    by rewrite IH.
Qed.

Lemma foldl_count_sizes {K : Type} (same : K -> K -> bool) (key : Item.t -> option K)
    (items : list Item.t) :
  forall groups,
    foldl (fun counts item =>
             match key item with
             | Some k => count_add same k counts
             | None => counts
             end) (sizes groups) items
    = sizes (foldl (file_item same key) groups items).
Proof.
  induction items as [|item items IH]; intros groups; [done|].
  simpl. unfold file_item at 2. destruct (key item) as [k|]; [|apply IH].
  by rewrite (count_add_sizes same k item), IH.
Qed.

Lemma sizes_positive {K : Type} (groups : list (K * list Item.t)) :
  Forall (fun g => snd g <> []) groups ->
  Forall (fun c => (1 <= snd c)%nat) (sizes groups).
Proof.
  intros Hall. unfold sizes. apply Forall_fmap. eapply Forall_impl; [exact Hall|].
  intros [k xs] Hne. simpl in *. destruct xs; [done|simpl; lia].
Qed.

(** X23: the summary counts what was filed. The year and month counts of
    [printSummary] are, folder by folder and in the order in which
    [writeOrganizedFiles] wrote the folders, the numbers of items written
    there, and no count is zero. *)
Theorem summary_counts_the_files `{Host} (items : list Item.t) :
  yearCounts items = sizes (byYear items) /\
  monthCounts items = sizes (byMonth items) /\
  Forall (fun c => (1 <= snd c)%nat) (yearCounts items) /\
  Forall (fun c => (1 <= snd c)%nat) (monthCounts items).
Proof.
  assert (Hyears : yearCounts items = sizes (byYear items)).
  { rewrite byYear_filed. unfold yearCounts.
    rewrite <- (foldl_count_sizes Z.eqb year_of items []).
    apply foldl_pointwise. intros counts item. unfold year_of.
    by destruct (partition_date item). }
  assert (Hmonths : monthCounts items = sizes (byMonth items)).
  { rewrite byMonth_filed. unfold monthCounts.
    rewrite <- (foldl_count_sizes String.eqb month_of items []).
    apply foldl_pointwise. intros counts item. unfold month_of.
    by destruct (partition_date item). }
  split; [done|]. split; [done|]. rewrite Hyears, Hmonths.
  rewrite byYear_filed, byMonth_filed. split; apply sizes_positive.
  - by destruct (filed_groups Z.eqb Z.eqb_eq year_of items []
                   ltac:(constructor) ltac:(constructor)) as (_ & ? & _).
  - by destruct (filed_groups String.eqb String.eqb_eq month_of items []
                   ltac:(constructor) ltac:(constructor)) as (_ & ? & _).
Qed.

Example summary_of_three :
  @yearCounts Demo.host
    [Incremental.normal "a1" "one"; Demo.item "x" false false; Incremental.normal "a2" "two"]
  = [(1, 2%nat)].
Proof. reflexivity. Qed.


(** * Correlation ids *)

Lemma hex_digit_is_hex (v : Z) : 0 <= v < 16 -> is_hex (hex_digit v) = true.
Proof.
  intros Hv. assert (Hcases : v ∈ [0; 1; 2; 3; 4; 5; 6; 7; 8; 9; 10; 11; 12; 13; 14; 15]).
  { assert (v = 0 \/ v = 1 \/ v = 2 \/ v = 3 \/ v = 4 \/ v = 5 \/ v = 6 \/ v = 7 \/
            v = 8 \/ v = 9 \/ v = 10 \/ v = 11 \/ v = 12 \/ v = 13 \/ v = 14 \/ v = 15)
      as Hv' by lia.
    repeat (destruct Hv' as [->|Hv']; [repeat constructor|]). subst. repeat constructor. }
  repeat (apply elem_of_cons in Hcases as [->|Hcases]; [reflexivity|]).
  by apply elem_of_nil in Hcases.
Qed.

Lemma variant_digit (r : Z) :
  0 <= r < 16 ->
  let c := hex_digit (Z.lor (Z.land r 3) 8) in
  (Ascii.eqb c "8" || Ascii.eqb c "9" || Ascii.eqb c "a" || Ascii.eqb c "b") = true.
Proof.
  intros Hr c. subst c.
  assert (r = 0 \/ r = 1 \/ r = 2 \/ r = 3 \/ r = 4 \/ r = 5 \/ r = 6 \/ r = 7 \/
          r = 8 \/ r = 9 \/ r = 10 \/ r = 11 \/ r = 12 \/ r = 13 \/ r = 14 \/ r = 15)
    as Hcases by lia.
  repeat (destruct Hcases as [->|Hcases]; [reflexivity|]). by subst.
Qed.

(** X24: a correlation id has the shape of a random UUID. Whatever the
    random source draws (numbers from 0 to 15), the id has 36 characters:
    dashes at the positions 8, 13, 18 and 23, the version 4 at position
    14, one of 8, 9, a, b at position 19, and digits of base 16 in lower
    case everywhere else; it takes 31 draws, one for each digit. *)
Theorem generateCorrelationId_is_a_uuid (draws : nat -> Z) :
  (forall n, 0 <= draws n < 16) ->
  String.length (generateCorrelationId draws) = 36%nat /\
  shaped 0 (generateCorrelationId draws) = true /\
  (forall draws', (forall n, (n < 31)%nat -> draws' n = draws n) ->
     generateCorrelationId draws' = generateCorrelationId draws).
Proof.
  intros Hdraws. split; [reflexivity|]. split.
  - unfold generateCorrelationId. cbn [fill_template Ascii.eqb Bool.eqb orb andb].
    unfold correlation_digit. cbn [Ascii.eqb Bool.eqb andb].
    cbn [shaped]. unfold uuid_shape. cbn [Nat.eqb orb Ascii.eqb Bool.eqb andb].
    rewrite !hex_digit_is_hex by apply Hdraws.
    pose proof (variant_digit (draws 15%nat) (Hdraws _)) as Hvariant.
    cbv zeta in Hvariant. rewrite Hvariant. reflexivity.
  - intros draws' Hsame. unfold generateCorrelationId.
    cbn [fill_template Ascii.eqb Bool.eqb orb andb].
    rewrite !Hsame by lia. reflexivity.
Qed.

Lemma generateCorrelationId_is_a_uuid_witness :
  (forall n : nat, 0 <= (fun n => Z.of_nat n mod 16) n < 16) /\
  generateCorrelationId (fun n => Z.of_nat n mod 16)
  = "01234567-89ab-4cde-b012-3456789abcde" /\
  shaped 0 (generateCorrelationId (fun n => Z.of_nat n mod 16)) = true.
Proof.
  assert (Hdraws : forall n : nat, 0 <= (fun n => Z.of_nat n mod 16) n < 16).
  { intros n. apply Z.mod_pos_bound. lia. }
  split; [exact Hdraws|]. split; [reflexivity|].
  exact (proj1 (proj2 (generateCorrelationId_is_a_uuid _ Hdraws))).
Defined.


(** * The token extractor *)

Section ExtractorFacts.
Import Extractor.

Lemma expand_safe (r matched before after : string) :
  safe_dollars r = true -> expand r matched before after = r.
Proof.
  induction r as [|c r IH]; [done|]. intros Hsafe.
  simpl in Hsafe. apply andb_true_iff in Hsafe as [Hc Hr].
  simpl. destruct (Ascii.eqb c "$") eqn:Hdollar; [|by rewrite IH].
  destruct r as [|d r']; [done|]. simpl in Hc.
  apply negb_true_iff in Hc. apply orb_false_iff in Hc as [Hc H4].
  apply orb_false_iff in Hc as [Hc H3]. apply orb_false_iff in Hc as [H1 H2].
  rewrite H1, H2, H3, H4. by rewrite IH.
Qed.

Lemma prefix_nil (s : string) : String.prefix "" s = true.
Proof. by destruct s. Qed.

Lemma prefix_cons (c d : ascii) (a s : string) :
  String.prefix (String c a) (String d s) = Ascii.eqb c d && String.prefix a s.
Proof.
  simpl. destruct (ascii_dec c d) as [->|Hne].
  - by rewrite Ascii.eqb_refl.
  - apply Ascii.eqb_neq in Hne. by rewrite Hne.
Qed.

Lemma prefix_app (a s : string) :
  String.prefix a s = true <-> exists rest, s = a +:+ rest.
Proof.
  revert s. induction a as [|c a IH]; intros s.
  { rewrite prefix_nil. split; [by exists s|done]. }
  destruct s as [|d s].
  { simpl. split; [done|]. by intros [rest Hrest]. }
  rewrite prefix_cons, andb_true_iff, IH, Ascii.eqb_eq. split.
  - intros [-> [rest ->]]. by exists rest.
  - intros [rest Hrest]. rewrite sapp_cons in Hrest. injection Hrest as -> ->.
    split; [done|]. by exists rest.
Qed.

(** A text without the separator starts a text when it starts its first
    line. *)
Lemma prefix_first_line (sep : ascii) (a s h : string) (t : list string) :
  has_char sep a = false -> split_on sep s = h :: t ->
  String.prefix a s = String.prefix a h.
Proof.
  revert s h t. induction a as [|c a IH]; intros s h t Ha Hs.
  { by rewrite !prefix_nil. }
  simpl in Ha. apply orb_false_iff in Ha as [Hc Ha].
  destruct s as [|d s].
  { simpl in Hs. by injection Hs as <- <-. }
  simpl in Hs. destruct (Ascii.eqb d sep) eqn:Hd.
  - injection Hs as <- <-. apply Ascii.eqb_eq in Hd. subst d.
    simpl. destruct (ascii_dec c sep) as [->|_]; [|done].
    by rewrite Ascii.eqb_refl in Hc.
  - destruct (split_on sep s) as [|h' t'] eqn:Hs'.
    { by destruct (split_on_nonempty sep s). }
    injection Hs as <- <-. rewrite !prefix_cons. f_equal. by apply (IH s h' t').
Qed.

Lemma split_on_prepend (sep : ascii) (a s : string) :
  has_char sep a = false ->
  split_on sep (a +:+ s)
  = match split_on sep s with
    | h :: t => (a +:+ h) :: t
    | [] => [a]
    end.
Proof.
  intros Ha. induction a as [|c a IH].
  { rewrite sapp_nil_l. destruct (split_on sep s) eqn:Hs; [|done].
    by destruct (split_on_nonempty sep s). }
  simpl in Ha. apply orb_false_iff in Ha as [Hc Ha].
  change (String c a +:+ s) with (String c (a +:+ s)). simpl split_on.
  rewrite Hc, (IH Ha). by destruct (split_on sep s).
Qed.

Lemma cut_nil (start : string) : start <> "" -> cut start "" = None.
Proof. by destruct start. Qed.

Lemma cut_cons (start : string) (c : ascii) (s : string) :
  cut start (String c s)
  = if String.prefix start (String c s) then Some "" else String c <$> cut start s.
Proof. reflexivity. Qed.

Lemma scan_cons (start replacement before : string) (c : ascii) (s : string) :
  scan start replacement before (String c s)
  = if String.prefix start (String c s)
    then expand replacement (rest_of_line (String c s)) before (after_line (String c s))
         +:+ skip start replacement (before +:+ String c "") s
    else String c (scan start replacement (before +:+ String c "") s).
Proof. reflexivity. Qed.

Lemma skip_cons (start replacement before : string) (c : ascii) (s : string) :
  skip start replacement before (String c s)
  = if terminator c
    then String c (scan start replacement (before +:+ String c "") s)
    else skip start replacement (before +:+ String c "") s.
Proof. reflexivity. Qed.

Lemma split_on_cons (sep c : ascii) (s : string) :
  split_on sep (String c s)
  = if Ascii.eqb c sep then "" :: split_on sep s
    else match split_on sep s with
         | h :: t => String c h :: t
         | [] => [String c ""]
         end.
Proof. reflexivity. Qed.

Section Replace.
Variable start replacement : string.
Hypothesis start_letter :
  match start with String a _ => terminator a = false | EmptyString => False end.
Hypothesis start_line : has_char Env.newline start = false.
Hypothesis replacement_line : has_char Env.newline replacement = false.
Hypothesis replacement_safe : safe_dollars replacement = true.

Lemma start_not_empty : start <> "".
Proof. by destruct start. Qed.

Lemma prefix_not_newline (s : string) :
  String.prefix start (String Env.newline s) = false.
Proof.
  destruct start as [|a rest]; [done|]. rewrite prefix_cons.
  unfold terminator in start_letter. apply orb_false_iff in start_letter as [Ha _].
  by rewrite Ha.
Qed.

Lemma replace_line_cons (c : ascii) (line : string) :
  String.prefix start (String c line) = false ->
  replace_line start replacement (String c line)
  = String c (replace_line start replacement line).
Proof.
  intros Hprefix. unfold replace_line. rewrite cut_cons, Hprefix.
  by destruct (cut start line).
Qed.

Lemma replace_line_empty : replace_line start replacement "" = "".
Proof. unfold replace_line. by rewrite (cut_nil start start_not_empty). Qed.

(** In a content without carriage returns, the replacement works line by
    line: in every line the text from the first [KEY=] on gives way to
    the new line. *)
Lemma scan_lines (s : string) :
  has_char Env.carriage_return s = false ->
  forall before,
    split_on Env.newline (scan start replacement before s)
    = replace_line start replacement <$> split_on Env.newline s /\
    split_on Env.newline (skip start replacement before s)
    = match split_on Env.newline s with
      | _ :: rest => "" :: (replace_line start replacement <$> rest)
      | [] => [""]
      end.
Proof.
  induction s as [|c s IH]; intros Hcr before.
  { simpl. by rewrite replace_line_empty. }
  simpl in Hcr. apply orb_false_iff in Hcr as [Hc Hcr].
  destruct (IH Hcr (before +:+ String c "")) as [IHscan IHskip].
  assert (Hterm : terminator c = Ascii.eqb c Env.newline).
  { unfold terminator. by rewrite Hc, orb_false_r. }
  destruct (split_on Env.newline s) as [|h t] eqn:Hs.
  { by destruct (split_on_nonempty Env.newline s). }
  split.
  - rewrite scan_cons, split_on_cons, Hs.
    destruct (String.prefix start (String c s)) eqn:Hprefix.
    + rewrite expand_safe by done.
      rewrite (split_on_prepend _ _ _ replacement_line), IHskip, sapp_nil_r.
      destruct (Ascii.eqb c Env.newline) eqn:Hnl.
      { apply Ascii.eqb_eq in Hnl. subst c. by rewrite prefix_not_newline in Hprefix. }
      rewrite fmap_cons. f_equal.
      unfold replace_line. rewrite cut_cons.
      rewrite <- (prefix_first_line Env.newline start (String c s) (String c h) t);
        [|done|by rewrite split_on_cons, Hnl, Hs].
      by rewrite Hprefix.
    + rewrite split_on_cons. destruct (Ascii.eqb c Env.newline) eqn:Hnl.
      * rewrite IHscan, !fmap_cons. by rewrite replace_line_empty.
      * rewrite IHscan, !fmap_cons. f_equal. symmetry. apply replace_line_cons.
        rewrite <- (prefix_first_line Env.newline start (String c s) (String c h) t);
          [done|done|by rewrite split_on_cons, Hnl, Hs].
  - rewrite skip_cons, Hterm, split_on_cons, Hs.
    destruct (Ascii.eqb c Env.newline) eqn:Hnl.
    + by rewrite split_on_cons, Hnl, IHscan.
    + by rewrite IHskip.
Qed.

End Replace.

Lemma includes_cons (c : ascii) (text start : string) :
  includes (String c text) start = String.prefix start (String c text) || includes text start.
Proof. reflexivity. Qed.

Lemma includes_nil (start : string) : includes "" start = String.prefix start "".
Proof. simpl. by rewrite orb_false_r. Qed.

Lemma includes_prefix (text start : string) :
  String.prefix start text = true -> includes text start = true.
Proof.
  intros Hp. destruct text; [by rewrite includes_nil|]. by rewrite includes_cons, Hp.
Qed.

Lemma cut_none (start s : string) : cut start s = None <-> includes s start = false.
Proof.
  induction s as [|c s IH].
  { rewrite includes_nil. unfold cut. by destruct (String.prefix start ""). }
  rewrite cut_cons, includes_cons.
  destruct (String.prefix start (String c s)); [by split|].
  simpl orb. rewrite <- IH. by destruct (cut start s).
Qed.

Lemma cut_prefix (start s : string) :
  String.prefix start s = true -> cut start s = Some "".
Proof. intros Hp. destruct s; [unfold cut|rewrite cut_cons]; by rewrite Hp. Qed.

(** A text that holds [start], which holds no separator, has a line that
    holds it. *)
Lemma includes_line (sep : ascii) (start s : string) :
  has_char sep start = false -> includes s start = true ->
  exists line, line ∈ split_on sep s /\ includes line start = true.
Proof.
  intros Hstart. induction s as [|c s IH]; intros Hs.
  { exists "". split; [apply list_elem_of_here|done]. }
  destruct (split_on sep (String c s)) as [|h t] eqn:Hlines.
  { by destruct (split_on_nonempty sep (String c s)). }
  rewrite includes_cons in Hs. apply orb_true_iff in Hs as [Hp|Hs].
  { exists h. split; [apply list_elem_of_here|]. apply includes_prefix.
    by rewrite <- (prefix_first_line sep start (String c s) h t). }
  destruct (IH Hs) as (line & Hin & Hline).
  rewrite split_on_cons in Hlines. destruct (Ascii.eqb c sep).
  { injection Hlines as <- <-. exists line. split; [by apply list_elem_of_further|done]. }
  destruct (split_on sep s) as [|h' t'] eqn:Hs'; [by apply elem_of_nil in Hin|].
  injection Hlines as <- <-. apply elem_of_cons in Hin as [->|Hin].
  - exists (String c h'). split; [apply list_elem_of_here|].
    by rewrite includes_cons, Hline, orb_true_r.
  - exists line. split; [by apply list_elem_of_further|done].
Qed.

Lemma split_on_app_sep (sep : ascii) (a b : string) :
  split_on sep (a +:+ String sep b) = split_on sep a ++ split_on sep b.
Proof.
  induction a as [|c a IH].
  { rewrite sapp_nil_l, split_on_cons, Ascii.eqb_refl. done. }
  rewrite sapp_cons, !split_on_cons, IH. destruct (Ascii.eqb c sep); [done|].
  destruct (split_on sep a) eqn:Ha; [by destruct (split_on_nonempty sep a)|done].
Qed.

(** A character other than the separator is in a text when it is in one
    of its lines. *)
Lemma has_char_lines (sep c : ascii) (s : string) :
  Ascii.eqb sep c = false ->
  has_char c s = false <-> Forall (fun line => has_char c line = false) (split_on sep s).
Proof.
  intros Hsep. induction s as [|d s IH].
  { simpl. split; [by repeat constructor|done]. }
  rewrite split_on_cons. simpl has_char. rewrite orb_false_iff, IH.
  destruct (Ascii.eqb d sep) eqn:Hd.
  - apply Ascii.eqb_eq in Hd. subst d. rewrite Hsep, Forall_cons. simpl. tauto.
  - destruct (split_on sep s) as [|h t] eqn:Hs; [by destruct (split_on_nonempty sep s)|].
    rewrite !Forall_cons. simpl. rewrite orb_false_iff. tauto.
Qed.

(** *** The keys and the new line *)

Lemma needle_letter (k : key) :
  match needle k with String a _ => terminator a = false | EmptyString => False end.
Proof. by destruct k. Qed.

Lemma needle_line (k : key) : has_char Env.newline (needle k) = false.
Proof. by destruct k. Qed.

Lemma name_plain (k : key) : name k <> "" /\ has_char "=" (name k) = false.
Proof. by destruct k. Qed.

Lemma entry_needle (k : key) (v : string) :
  AutoSync.entry (name k) v = needle k +:+ String Env.quote (v +:+ String Env.quote "").
Proof. unfold AutoSync.entry, needle. by rewrite sapp_assoc. Qed.

Lemma entry_starts (k : key) (v : string) :
  String.prefix (needle k) (AutoSync.entry (name k) v) = true.
Proof. apply prefix_app. eexists. apply entry_needle. Qed.

Lemma entry_has_char (c : ascii) (k : key) (v : string) :
  has_char c (name k) = false -> Ascii.eqb "=" c = false -> Ascii.eqb Env.quote c = false ->
  has_char c (AutoSync.entry (name k) v) = has_char c v.
Proof.
  intros Hk Heq Hq. unfold AutoSync.entry.
  rewrite has_char_app, Hk. cbn [has_char orb]. rewrite Heq, Hq, has_char_app.
  cbn [has_char orb]. by rewrite Hq, !orb_false_r.
Qed.

Lemma safe_dollars_closed (v : string) :
  safe_dollars v = true -> safe_dollars (v +:+ String Env.quote "") = true.
Proof.
  induction v as [|c v IH]; [done|]. intros Hv.
  rewrite sapp_cons. simpl in Hv. apply andb_true_iff in Hv as [Hc Hv].
  simpl. rewrite (IH Hv), andb_true_r.
  destruct (negb (Ascii.eqb c "$")); [done|]. simpl in *.
  destruct v as [|d v]; [done|]. by rewrite sapp_cons.
Qed.

Lemma entry_safe (k : key) (v : string) :
  safe_dollars v = true -> safe_dollars (AutoSync.entry (name k) v) = true.
Proof.
  intros Hv. apply safe_dollars_closed in Hv. unfold AutoSync.entry.
  destruct k; simpl; by rewrite Hv.
Qed.

(** *** One update, line by line *)

Lemma update_lines (k : key) (content v : string) :
  has_char Env.carriage_return content = false -> tidy k content ->
  v <> "" -> Env.single_line v = true -> safe_dollars v = true ->
  split_on Env.newline (update content k (Some v))
  = if includes content (needle k)
    then set_line k v <$> split_on Env.newline content
    else split_on Env.newline content ++ [AutoSync.entry (name k) v].
Proof.
  intros Hcr Htidy Hne Hline Hsafe. unfold update.
  destruct (String.eqb_spec v "") as [->|_]; [done|]. cbv zeta.
  apply single_line_no_break in Hline as [Hnl Hcr'].
  assert (Hentry : has_char Env.newline (AutoSync.entry (name k) v) = false).
  { rewrite entry_has_char; [done|by destruct k|done|done]. }
  destruct (includes content (needle k)) eqn:Hincludes.
  - destruct (scan_lines (needle k) (AutoSync.entry (name k) v) (needle_letter k)
                (needle_line k) Hentry (entry_safe k v Hsafe) content Hcr "") as [-> _].
    apply list_fmap_ext. intros i line Hline.
    apply list_elem_of_lookup_2 in Hline. specialize (Htidy line Hline).
    unfold replace_line, set_line.
    destruct (String.prefix (needle k) line) eqn:Hprefix.
    + by rewrite (cut_prefix _ _ Hprefix).
    + destruct (cut (needle k) line) eqn:Hcut; [|done].
      destruct (includes line (needle k)) eqn:Hin; [by specialize (Htidy eq_refl)|].
      apply cut_none in Hin. congruence.
  - by rewrite split_on_app_sep, (split_on_whole _ _ Hentry).
Qed.

Lemma parse_line_starts (k : key) (line x : string) :
  Env.parse_line line = Some (name k, x) -> String.prefix (needle k) line = true.
Proof.
  unfold Env.parse_line. destruct (Env.split_first_eq line) as [[k' v0]|] eqn:Hsplit; [|done].
  apply split_first_eq_some in Hsplit as [-> _].
  destruct (String.eqb k' ""); [done|]. destruct (Env.single_line v0); [|done].
  intros [= -> _]. apply prefix_app. exists v0. unfold assignment, needle.
  by rewrite sapp_assoc.
Qed.

Lemma parse_line_key (k : key) (line k' x : string) :
  String.prefix (needle k) line = true -> Env.parse_line line = Some (k', x) ->
  k' = name k.
Proof.
  intros [rest ->]%prefix_app. unfold Env.parse_line, needle.
  rewrite sapp_assoc, sapp_cons, sapp_nil_l.
  rewrite split_first_eq_app by apply name_plain.
  destruct (String.eqb (name k) ""); [done|]. destruct (Env.single_line rest); [|done].
  by intros [= <- _].
Qed.

Lemma line_values_other (k : key) (v k' : string) (lines : list string) :
  Env.single_line v = true -> k' <> name k ->
  forall found,
    line_values k' found (set_line k v <$> lines) = line_values k' found lines.
Proof.
  intros Hv Hk'. induction lines as [|line lines IH]; intros found; [done|].
  rewrite fmap_cons. unfold line_values in *. simpl foldl.
  rewrite IH. f_equal. unfold set_line.
  destruct (String.prefix (needle k) line) eqn:Hprefix; [|done].
  rewrite parse_line_entry; [|apply name_plain|apply name_plain|done].
  destruct (String.eqb_spec (name k) k') as [Heq|_]; [by subst|].
  destruct (Env.parse_line line) as [[k'' x]|] eqn:Hparse; [|done].
  rewrite (parse_line_key k line k'' x Hprefix Hparse).
  by destruct (String.eqb_spec (name k) k').
Qed.

Lemma line_values_set (k : key) (v : string) (lines : list string) :
  Env.single_line v = true ->
  forall found,
    line_values (name k) found (set_line k v <$> lines)
    = if existsb (String.prefix (needle k)) lines then Some v else found.
Proof.
  intros Hv. induction lines as [|line lines IH]; intros found; [done|].
  rewrite fmap_cons. unfold line_values in *. simpl foldl. rewrite IH.
  simpl existsb. unfold set_line.
  destruct (String.prefix (needle k) line) eqn:Hprefix.
  - rewrite parse_line_entry; [|apply name_plain|apply name_plain|done].
    rewrite String.eqb_refl. simpl. by destruct (existsb _ lines).
  - simpl. destruct (existsb _ lines); [done|].
    destruct (Env.parse_line line) as [[k'' x]|] eqn:Hparse; [|done].
    destruct (String.eqb_spec k'' (name k)) as [->|_]; [|done].
    apply parse_line_starts in Hparse. congruence.
Qed.

Lemma file_value_lines (content k : string) :
  file_value content k = line_values k None (split_on Env.newline content).
Proof. reflexivity. Qed.

(** What one update does to the values of the file. *)
Lemma update_file_value (k : key) (content v k' : string) :
  has_char Env.carriage_return content = false -> tidy k content ->
  v <> "" -> Env.single_line v = true -> safe_dollars v = true ->
  file_value (update content k (Some v)) k'
  = if String.eqb k' (name k) then Some v else file_value content k'.
Proof.
  intros Hcr Htidy Hne Hline Hsafe.
  rewrite !file_value_lines, (update_lines k content v) by done.
  destruct (includes content (needle k)) eqn:Hincludes.
  - destruct (String.eqb_spec k' (name k)) as [->|Hk'].
    + rewrite line_values_set by done.
      destruct (includes_line Env.newline (needle k) content (needle_line k) Hincludes)
        as (line & Hin & Hline').
      assert (Hex : existsb (String.prefix (needle k)) (split_on Env.newline content) = true).
      { apply existsb_exists. exists line. split; [by apply list_elem_of_In|].
        by apply Htidy. }
      by rewrite Hex.
    + by apply line_values_other.
  - unfold line_values. rewrite foldl_app. simpl.
    rewrite parse_line_entry; [|apply name_plain|apply name_plain|done].
    rewrite (String.eqb_sym k'). by destruct (String.eqb (name k) k').
Qed.

(** *** What an update keeps *)

Lemma update_line_cases (k : key) (content v line : string) :
  has_char Env.carriage_return content = false -> tidy k content ->
  v <> "" -> Env.single_line v = true -> safe_dollars v = true ->
  line ∈ split_on Env.newline (update content k (Some v)) ->
  line = AutoSync.entry (name k) v \/ line ∈ split_on Env.newline content.
Proof.
  intros Hcr Htidy Hne Hline Hsafe. rewrite (update_lines k content v) by done.
  destruct (includes content (needle k)).
  - intros (l & -> & Hl)%list_elem_of_fmap. unfold set_line.
    destruct (String.prefix (needle k) l); by auto.
  - intros [Hin|Hin%list_elem_of_singleton]%elem_of_app; by auto.
Qed.

Lemma update_no_carriage_return (k : key) (content v : string) :
  has_char Env.carriage_return content = false -> tidy k content ->
  v <> "" -> Env.single_line v = true -> safe_dollars v = true ->
  has_char Env.carriage_return (update content k (Some v)) = false.
Proof.
  intros Hcr Htidy Hne Hline Hsafe.
  apply (has_char_lines Env.newline); [done|]. apply Forall_forall. intros line Hin.
  apply update_line_cases in Hin as [->|Hin]; try done.
  - apply single_line_no_break in Hline as [_ Hv].
    rewrite entry_has_char; [done|by destruct k|done|done].
  - apply (has_char_lines Env.newline) in Hcr; [|done].
    by apply (proj1 (Forall_forall _ _) Hcr).
Qed.

Lemma prefix_closed (start v : string) :
  has_char Env.quote start = false -> start <> "" ->
  String.prefix start (v +:+ String Env.quote "") = String.prefix start v.
Proof.
  revert v. induction start as [|a start IH]; intros v Hq Hne; [done|].
  simpl in Hq. apply orb_false_iff in Hq as [Ha Hq].
  destruct v as [|c v].
  { rewrite sapp_nil_l, prefix_cons, Ha. by destruct start. }
  rewrite sapp_cons, !prefix_cons. destruct start as [|b start].
  { by rewrite !prefix_nil. }
  by rewrite IH.
Qed.

Lemma includes_closed (start v : string) :
  has_char Env.quote start = false -> start <> "" ->
  includes (v +:+ String Env.quote "") start = includes v start.
Proof.
  intros Hq Hne. induction v as [|c v IH].
  { rewrite sapp_nil_l, includes_cons, !includes_nil.
    rewrite <- (sapp_nil_l (String Env.quote "")) at 1. rewrite prefix_closed by done.
    by destruct start. }
  by rewrite sapp_cons, !includes_cons, IH, <- sapp_cons, prefix_closed.
Qed.

(** The line of a key holds the start of no other key, when its value
    holds none. *)
Lemma entry_excludes (k k2 : key) (v : string) :
  k <> k2 -> includes v (needle k2) = false ->
  includes (AutoSync.entry (name k) v) (needle k2) = false.
Proof.
  intros Hk Hv.
  assert (Hrest : includes (v +:+ String Env.quote "") (needle k2) = false).
  { rewrite includes_closed; [done|by destruct k2|by destruct k2]. }
  unfold AutoSync.entry.
  destruct k, k2; try done; unfold name;
    repeat (rewrite ?sapp_cons, ?sapp_nil_l, includes_cons;
            match goal with
            | |- context [String.prefix (needle ?x) (String ?c ?s)] =>
                replace (String.prefix (needle x) (String c s)) with false
                  by (unfold needle, name; rewrite ?sapp_cons, ?sapp_nil_l;
                      repeat (rewrite prefix_cons;
                              first [reflexivity | cbn [Ascii.eqb Bool.eqb andb]]))
            end; cbn [orb]);
    exact Hrest.
Qed.

Lemma update_tidy (k k2 : key) (content v : string) :
  has_char Env.carriage_return content = false -> tidy k content ->
  v <> "" -> Env.single_line v = true -> safe_dollars v = true ->
  includes v (needle k2) = false ->
  tidy k2 content -> tidy k2 (update content k (Some v)).
Proof.
  intros Hcr Htidy Hne Hline Hsafe Hv Htidy2 line Hin Hincludes.
  apply update_line_cases in Hin as [->|Hin]; try done; [|by apply Htidy2].
  destruct k, k2; try apply entry_starts;
    by rewrite entry_excludes in Hincludes.
Qed.

Lemma plain_value_spec (v : string) :
  plain_value v = true ->
  v <> "" /\ Env.single_line v = true /\ safe_dollars v = true /\
  forall k, includes v (needle k) = false.
Proof.
  unfold plain_value. intros Hv.
  apply andb_true_iff in Hv as [Hv Hincl]. apply andb_true_iff in Hv as [Hv Hsafe].
  apply andb_true_iff in Hv as [Hne Hline]. apply negb_true_iff in Hne.
  split; [by intros ->|]. split; [done|]. split; [done|].
  simpl in Hincl. rewrite !andb_true_iff, !negb_true_iff in Hincl.
  intros []; tauto.
Qed.

End ExtractorFacts.

(** X25: the extractor hands its values over to the sync. When the
    [.env] file that the extractor finds holds no carriage return and
    holds [AUI_URL=], [AUI_TOKEN=] and [AUI_SESSION_ID=] only at the start
    of lines, and the three captured values are plain (not empty, on one
    line, without a dollar that [replace] expands and without the text
    [KEY=] of one of the keys), then loading the file that [saveTokensImmediately] writes,
    with override as the refresh does, sets the three variables to the
    captured values (the address without its filter) and reads every
    other variable as from the file before. The update at the end of
    [main] is the same loop with the address as it was captured
    ([withoutFilter] the identity). *)
Theorem extractor_hands_over (withoutFilter : string -> string) (file : option string)
    (url token session : string) (e : environ) :
  let content := default "" file in
  has_char Env.carriage_return content = false ->
  (forall k, tidy k content) ->
  url <> "" -> plain_value (withoutFilter url) = true ->
  plain_value token = true -> plain_value session = true ->
  let written :=
    Extractor.saveTokensImmediately withoutFilter file (Some url) (Some token)
      (Some session) in
  Env.loadEnv true (Some written) e
  = <["AUI_SESSION_ID" := session]>
      (<["AUI_TOKEN" := token]>
         (<["AUI_URL" := withoutFilter url]> (Env.loadEnv true file e))).
Proof.
  intros content Hcr Htidy Hurl_ne Hurl Htoken Hsession written.
  apply plain_value_spec in Hurl as (Hu1 & Hu2 & Hu3 & Hu4).
  apply plain_value_spec in Htoken as (Ht1 & Ht2 & Ht3 & Ht4).
  apply plain_value_spec in Hsession as (Hs1 & Hs2 & Hs3 & Hs4).
  assert (Hwritten : written
                     = Extractor.update
                         (Extractor.update
                            (Extractor.update content Extractor.AUI_URL
                               (Some (withoutFilter url)))
                            Extractor.AUI_TOKEN (Some token))
                         Extractor.AUI_SESSION_ID (Some session)).
  { unfold written, Extractor.saveTokensImmediately, Extractor.sanitizeAuiUrl.
    by destruct (String.eqb_spec url "") as [->|_]. }
  set (c1 := Extractor.update content Extractor.AUI_URL (Some (withoutFilter url)))
    in Hwritten.
  set (c2 := Extractor.update c1 Extractor.AUI_TOKEN (Some token)) in Hwritten.
  assert (Hcr1 : has_char Env.carriage_return c1 = false).
  { by apply update_no_carriage_return. }
  assert (Htidy1 : forall k, tidy k c1).
  { intros k. by apply update_tidy. }
  assert (Hcr2 : has_char Env.carriage_return c2 = false).
  { by apply update_no_carriage_return. }
  assert (Htidy2 : forall k, tidy k c2).
  { intros k. by apply update_tidy. }
  assert (Hbefore : forall k, Env.loadEnv true file e !! k
                              = match file_value content k with
                                | Some v => Some v
                                | None => e !! k
                                end).
  { intros k. unfold content. destruct file as [text|]; [apply loadEnv_override|done]. }
  apply map_eq. intros k.
  rewrite loadEnv_override, Hwritten.
  rewrite (update_file_value Extractor.AUI_SESSION_ID c2 session k) by done.
  unfold c2. rewrite (update_file_value Extractor.AUI_TOKEN c1 token k) by done.
  unfold c1. rewrite (update_file_value Extractor.AUI_URL content _ k) by done.
  simpl Extractor.name.
  destruct (String.eqb_spec k "AUI_SESSION_ID") as [->|Hk1].
  { by rewrite lookup_insert_eq. }
  rewrite lookup_insert_ne by done.
  destruct (String.eqb_spec k "AUI_TOKEN") as [->|Hk2].
  { by rewrite lookup_insert_eq. }
  rewrite lookup_insert_ne by done.
  destruct (String.eqb_spec k "AUI_URL") as [->|Hk3].
  { by rewrite lookup_insert_eq. }
  rewrite lookup_insert_ne by done. by rewrite Hbefore.
Qed.

Lemma extractor_hands_over_witness :
  let url := "https://listing.example/work?$top=50" in
  has_char Env.carriage_return (default "" (Some earlier_env)) = false /\
  (forall k, tidy k (default "" (Some earlier_env))) /\
  url <> "" /\ plain_value (id url) = true /\
  plain_value "h.2000000000.s" = true /\ plain_value "sid-2" = true /\
  Env.loadEnv true
    (Some (Extractor.saveTokensImmediately id (Some earlier_env) (Some url)
             (Some "h.2000000000.s") (Some "sid-2"))) ∅
  = <["AUI_SESSION_ID" := "sid-2"]>
      (<["AUI_TOKEN" := "h.2000000000.s"]>
         (<["AUI_URL" := id url]> (Env.loadEnv true (Some earlier_env) ∅))).
Proof.
  intros url.
  assert (Hcr : has_char Env.carriage_return (default "" (Some earlier_env)) = false)
    by reflexivity.
  assert (Htidy : forall k, tidy k (default "" (Some earlier_env))).
  { intros k line Hin Hincludes.
    change (split_on Env.newline (default "" (Some earlier_env)))
      with ["NOTION_TOKEN=secret";
            AutoSync.entry "AUI_TOKEN" "h.1000000000.s";
            AutoSync.entry "AUI_URL" "https://listing.example/old"] in Hin.
    repeat (apply elem_of_cons in Hin as [->|Hin]);
      [..|by apply elem_of_nil in Hin];
      destruct k; first [reflexivity | discriminate Hincludes]. }
  assert (Hurl : url <> "") by discriminate.
  split; [exact Hcr|]. split; [exact Htidy|]. split; [exact Hurl|].
  split; [reflexivity|]. split; [reflexivity|]. split; [reflexivity|].
  exact (extractor_hands_over id (Some earlier_env) url "h.2000000000.s" "sid-2" ∅
           Hcr Htidy Hurl eq_refl eq_refl eq_refl).
Defined.

(** A line that holds [AUI_TOKEN=] behind other text keeps that text: the
    new token is written, and the sync does not find it. *)
Example extractor_keeps_a_prefix :
  let written :=
    Extractor.saveTokensImmediately id (Some "export AUI_TOKEN=old") None
      (Some "h.2000000000.s") None in
  written = "export " +:+ AutoSync.entry "AUI_TOKEN" "h.2000000000.s" /\
  Env.loadEnv true (Some written) ∅ !! "AUI_TOKEN" = None.
Proof. split; reflexivity. Qed.

(** A dollar with an ampersand in a value stands for the old line. *)
Example extractor_expands_dollars :
  Extractor.update "AUI_TOKEN=old" Extractor.AUI_TOKEN (Some "a$&b")
  = AutoSync.entry "AUI_TOKEN" "aAUI_TOKEN=oldb".
Proof. reflexivity. Qed.


(** * Reading comes first *)

Section ReadingSteps.
Context `{Host}.
Variable net : network.
Context (R : relation session) `{!PreOrder R}.
Hypothesis Hroster : forall classId, steps R (fetchClassMembers net classId).
Hypothesis Hdetail : forall classId i, steps R (emit (FetchDetail classId i)).

Lemma reading_fetchDetailedAssignment (classId : string) (i : jsval) :
  steps R (fetchDetailedAssignment net classId i).
Proof.
  unfold fetchDetailedAssignment.
  apply (steps_bind R); [apply (steps_convert R)|intros _].
  intros s. exact (Hdetail classId i s).
Qed.

Lemma reading_description_of (raw : jsval) (classId : string) :
  steps R (description_of net raw classId).
Proof.
  unfold description_of.
  apply (steps_bind R); [apply (steps_described R)|intros listed].
  apply (steps_bind R); [apply (steps_read R)|intros rawId].
  destruct (_ && _ && _); [|apply (steps_ret R)].
  apply (steps_try_catch R);
    [|apply (steps_bind R); [apply (steps_convert R)|intros _; apply (steps_ret R)]].
  apply (steps_bind R); [apply (steps_read R)|intros displayName].
  apply (steps_bind R); [apply (steps_convert R)|intros _].
  apply (steps_bind R); [apply reading_fetchDetailedAssignment|intros [detail|]];
    [|apply (steps_ret R)].
  destruct (Js.truthy detail); [apply (steps_described R)|apply (steps_ret R)].
Qed.

Lemma reading_normalizeAssignment (raw : jsval) : steps R (normalizeAssignment net raw).
Proof.
  unfold normalizeAssignment.
  apply (steps_bind R); [apply (steps_read R)|intros aggregates].
  apply (steps_bind R); [apply (steps_read R)|intros rawClassId].
  apply (steps_bind R); [apply (steps_convert R)|intros classId].
  apply (steps_bind R); [by apply (steps_roster_info net R)|intros [[t e] n]].
  apply (steps_bind R); [apply reading_description_of|intros d].
  apply (steps_canonical R).
Qed.

Lemma reading_normalizeAll (raws : list jsval) : steps R (normalizeAll net raws).
Proof.
  induction raws as [|raw rest IH]; simpl; [apply (steps_ret R)|].
  apply (steps_bind R); [apply reading_normalizeAssignment|intros normalized].
  apply (steps_bind R); [apply IH|intros others]. apply (steps_ret R).
Qed.

End ReadingSteps.

Lemma settles_ret {A : Type} (a : A) : settles (ret a).
Proof. by intros s. Qed.

Lemma settles_throw {A : Type} : settles (@throw A).
Proof. by intros s. Qed.

Lemma settles_read (v : jsval) (k : string) : settles (read v k).
Proof. intros s. unfold read. by destruct (Js.get v k). Qed.

Lemma settles_convert {A : Type} (o : option A) : settles (convert o).
Proof. intros s. unfold convert. by destruct o. Qed.

Lemma settles_bind {A B : Type} (c : Sync A) (k : A -> Sync B) :
  settles c -> (forall a, settles (k a)) -> settles (c ≫= k).
Proof.
  intros Hc Hk s. unfold mbind, sync_bind, bind. specialize (Hc s).
  destruct (c s) as [[a| | |] s1]; simpl in *; try done. apply Hk.
Qed.

Lemma settles_try_catch {A : Type} (c h : Sync A) :
  settles c -> settles h -> settles (try_catch c h).
Proof.
  intros Hc Hh s. unfold try_catch. specialize (Hc s).
  destruct (c s) as [[a| | |] s1]; simpl in *; try done. apply Hh.
Qed.

Ltac settles_tac :=
  repeat first
    [ apply settles_ret | apply settles_throw | apply settles_read
    | apply settles_convert | apply settles_try_catch
    | apply settles_bind; [|intros ?]
    | progress case_match ].

Section Settling.
Context `{Host}.
Variable net : network.

Lemma settles_content_text (content : jsval) : settles (content_text content).
Proof. unfold content_text. settles_tac. Qed.

Lemma settles_described (r : jsval) (d : string) : settles (described r d).
Proof. unfold described. settles_tac; apply settles_content_text. Qed.

Lemma settles_request_detail (classId : string) (i : jsval) :
  settles (request_detail net classId i).
Proof. by intros s. Qed.

Lemma settles_fetchDetailedAssignment (classId : string) (i : jsval) :
  settles (fetchDetailedAssignment net classId i).
Proof.
  unfold fetchDetailedAssignment. apply settles_bind; [apply settles_convert|intros _].
  apply settles_request_detail.
Qed.

Lemma settles_fetchClassMembers (classId : string) :
  settles (fetchClassMembers net classId).
Proof.
  intros s. destruct (classMembers s !! classId) as [m|] eqn:Hm.
  - by rewrite (fetchClassMembers_hit net classId m s Hm).
  - by destruct (fetchClassMembers_miss net classId s Hm) as (m & -> & _).
Qed.

Lemma settles_normalizeAssignment (raw : jsval) : settles (normalizeAssignment net raw).
Proof.
  unfold normalizeAssignment, roster_info, resolve_teacher, description_of, canonical.
  settles_tac;
    first [apply settles_fetchClassMembers | apply settles_described
          | apply settles_fetchDetailedAssignment | apply settles_content_text
          | apply settles_request_detail].
Qed.

Lemma settles_normalizeAll (raws : list jsval) : settles (normalizeAll net raws).
Proof.
  induction raws as [|raw rest IH]; simpl; [apply settles_ret|].
  apply settles_bind; [apply settles_normalizeAssignment|intros normalized].
  apply settles_bind; [apply IH|intros others]. apply settles_ret.
Qed.

End Settling.

Section ReadsFirst.
Context `{Host}.
Variable net : network.
Variable pages : listing.
Variable store : remote.
Variable tm : timing.
Variable refresh : refresh_world.
Variable clk : clock.

Lemma normalizeAll_reads (raws : list jsval) :
  steps (extends_with is_read) (normalizeAll net raws).
Proof.
  apply (reading_normalizeAll net (extends_with is_read)).
  - intros classId. by apply fetchClassMembers_events.
  - intros classId i. by apply extends_with_emit.
Qed.

Lemma normalizeAll_length (raws : list jsval) :
  forall s items s',
    normalizeAll net raws s = (Returned items, s') -> length items = length raws.
Proof.
  induction raws as [|raw rest IH]; intros s items s'; simpl.
  { by intros [= <- _]. }
  unfold mbind, sync_bind, bind.
  destruct (normalizeAssignment net raw s) as [[item| | |] s1]; try done.
  destruct (normalizeAll net rest s1) as [[others| | |] s2] eqn:Hrest; try done.
  intros [= <- _]. simpl. by rewrite (IH s1 others s2 Hrest).
Qed.

(** The listing issues its requests, and an exit when a request fails. *)
Lemma fetch_pages_reads (fuel : nat) :
  forall n allItems s,
    exists reads,
      Forall is_read reads /\
      issued (snd (fetch_pages pages fuel n allItems s))
      = issued s ++ reads
        ++ match fst (fetch_pages pages fuel n allItems s) with
           | Ended => [Exit 1]
           | _ => []
           end.
Proof.
  induction fuel as [|fuel IH]; intros n allItems s.
  { exists []. simpl. by rewrite app_nil_r. }
  simpl fetch_pages. unfold mbind at 1, sync_bind at 1, bind at 1. rewrite emit_returns.
  set (s1 := {| classMembers := classMembers s;
                issued := issued s ++ [FetchAssignments n] |}).
  destruct (listing_response pages n) as [data|].
  2:{ exists [FetchAssignments n]. simpl. split; [by repeat constructor|].
      by rewrite <- app_assoc. }
  unfold read, mbind, sync_bind, bind, throw, ret.
  destruct (Js.get data "value") as [value|].
  2:{ exists [FetchAssignments n]. simpl. split; [by repeat constructor|done]. }
  destruct (Js.get data "@odata.nextLink") as [nextLink|].
  2:{ exists [FetchAssignments n]. simpl. split; [by repeat constructor|done]. }
  destruct (Js.truthy nextLink).
  2:{ exists [FetchAssignments n]. simpl. split; [by repeat constructor|done]. }
  set (allItems' := match value with JArr items => allItems ++ items | _ => allItems end).
  destruct (IH (S n) allItems' s1) as (reads & Hreads & Hissued).
  exists (FetchAssignments n :: reads). split; [by constructor|].
  rewrite Hissued. simpl. by rewrite <- app_assoc.
Qed.

Lemma fetchAllAssignments_reads (fuel : nat) (e : environ) (s : session) :
  exists reads,
    Forall is_read reads /\
    issued (snd (fetchAllAssignments pages fuel e s))
    = issued s ++ reads
      ++ match fst (fetchAllAssignments pages fuel e s) with
         | Ended => [Exit 1]
         | _ => []
         end.
Proof.
  unfold fetchAllAssignments.
  destruct (negb (Env.truthy e "AUI_URL")); [by exists []|].
  destruct (negb (Env.truthy e "AUI_TOKEN")); [by exists []|].
  apply fetch_pages_reads.
Qed.

Lemma export_and_commit_no_read (fuel : nat) (a : args) (st : state) (e : environ)
    (items : list Item.t) :
  steps (extends_with (fun ev => ~ is_read ev))
    (try_catch (export_and_commit store tm clk fuel a st e items) (exit 1)).
Proof.
  apply (steps_try_catch (extends_with (fun ev => ~ is_read ev))).
  - intros s.
    apply (extends_with_weaken
             (export_event a st (host_date_iso (at_commit clk))
                (applyFilters a st (at_filter clk) items))).
    + intros ev Hev Hread. by destruct ev.
    + by apply (exports_end_of_run store tm a st).
  - apply (steps_exit (extends_with (fun ev => ~ is_read ev))).
    apply extends_with_emit. by intros [].
Qed.

(** X26: a run reads everything before it writes anything. Behind the
    credential check and without [--details], the events of a run are the
    requests for the listing, the rosters and the records, and after them
    events that are no such request. A run goes on to the exports (of the
    filtered normalization of all listed records, one item for each
    record) only when the whole listing was read and every record was
    normalized; otherwise it has written nothing: it ends with status 1,
    or is still waiting for the listing. *)
Theorem reads_before_writes (fuel : nat) (a : args) (st : state) (e e' : environ)
    (cevs : list event) (s : session) :
  ensureCredential a refresh (at_start clk) e = (cevs, Some e') ->
  details a = None ->
  let s0 := {| classMembers := classMembers s; issued := issued s ++ cevs |} in
  let r := run net pages store tm refresh clk fuel a st e s in
  exists reads rest,
    issued (snd r) = issued s ++ cevs ++ reads ++ rest /\
    Forall is_read reads /\ Forall (fun ev => ~ is_read ev) rest /\
    ((fst r = Ended /\ rest = [Exit 1]) \/
     (fst r = Pending /\ rest = []) \/
     exists raws items s1 s2,
       fetchAllAssignments pages fuel e' s0 = (Returned raws, s1) /\
       normalizeAll net raws s1 = (Returned items, s2) /\
       length items = length raws /\
       issued s2 = issued s ++ cevs ++ reads /\
       r = try_catch (export_and_commit store tm clk fuel a st e' items) (exit 1) s2).
Proof.
  intros Hcred Hdetails s0 r. subst r.
  assert (Hrun : run net pages store tm refresh clk fuel a st e s
                 = try_catch (sync net pages store tm clk fuel a st e') (exit 1) s0).
  { unfold run, try_catch. rewrite Hcred, Hdetails. reflexivity. }
  rewrite Hrun. clear Hrun.
  destruct (try_catch (sync net pages store tm clk fuel a st e') (exit 1) s0)
    as [o sf] eqn:Hr.
  cbn [fst snd]. unfold try_catch, sync in Hr.
  unfold mbind at 1, sync_bind at 1, bind at 1 in Hr.
  destruct (fetchAllAssignments_reads fuel e' s0) as (reads1 & Hreads1 & Hissued1).
  destruct (fetchAllAssignments pages fuel e' s0) as [[raws| | |] s1] eqn:Hfetch;
    simpl in Hissued1.
  2:{ injection Hr as <- <-. exists reads1, [Exit 1]. simpl.
      rewrite Hissued1, app_nil_r, <- !app_assoc.
      split; [done|]. split; [done|].
      split; [constructor; [by intros []|constructor]|]. by left. }
  2:{ injection Hr as <- <-. exists reads1, [Exit 1]. rewrite Hissued1, <- !app_assoc.
      split; [done|]. split; [done|].
      split; [constructor; [by intros []|constructor]|]. by left. }
  2:{ injection Hr as <- <-. exists reads1, []. rewrite Hissued1, <- !app_assoc.
      split; [done|]. split; [done|]. split; [constructor|]. right. by left. }
  rewrite app_nil_r in Hissued1.
  unfold mbind at 1, sync_bind at 1, bind at 1 in Hr.
  destruct (normalizeAll_reads raws s1) as (reads2 & Hissued2 & Hreads2).
  pose proof (settles_normalizeAll net raws s1) as Hsettles.
  pose proof (normalizeAll_length raws s1) as Hlength.
  destruct (normalizeAll net raws s1) as [[items| | |] s2] eqn:Hnormalize;
    simpl in Hissued2, Hsettles; try done.
  2:{ injection Hr as <- <-. exists (reads1 ++ reads2), [Exit 1]. simpl.
      rewrite Hissued2, Hissued1, <- !app_assoc.
      split; [done|]. split; [by apply Forall_app|].
      split; [constructor; [by intros []|constructor]|]. by left. }
  destruct (export_and_commit_no_read fuel a st e' items s2) as (rest & Hrest & Hnone).
  unfold try_catch in Hrest. rewrite Hr in Hrest. simpl in Hrest.
  exists (reads1 ++ reads2), rest.
  assert (Hs2 : issued s2 = issued s ++ cevs ++ reads1 ++ reads2).
  { by rewrite Hissued2, Hissued1, <- !app_assoc. }
  split; [by rewrite Hrest, Hs2, <- !app_assoc|].
  split; [by apply Forall_app|]. split; [done|]. right. right.
  exists raws, items, s1, s2. split; [done|]. split; [done|].
  split; [by apply (Hlength items s2)|]. split; [done|]. by rewrite <- Hr.
Qed.

End ReadsFirst.

Lemma reads_before_writes_witness :
  @ensureCredential Demo.host default_args World.no_refresh
    (at_start (World.at_time 1700000000000)) TwoPages.env = ([], Some TwoPages.env) /\
  details default_args = None /\
  exists reads rest,
    issued (snd (@run Demo.host Demo.school TwoPages.pages World.empty_store World.exact
                   World.no_refresh (World.at_time 1700000000000) 5 default_args
                   (loadState None) TwoPages.env new_session))
    = reads ++ rest /\
    Forall is_read reads /\ Forall (fun ev => ~ is_read ev) rest.
Proof.
  assert (Hcred : @ensureCredential Demo.host default_args World.no_refresh
                    (at_start (World.at_time 1700000000000)) TwoPages.env
                  = ([], Some TwoPages.env)) by (vm_compute; reflexivity).
  split; [exact Hcred|]. split; [reflexivity|].
  destruct (@reads_before_writes Demo.host Demo.school TwoPages.pages World.empty_store
              World.exact World.no_refresh (World.at_time 1700000000000) 5 default_args
              (loadState None) TwoPages.env TwoPages.env [] new_session Hcred eq_refl)
    as (reads & rest & Hissued & Hreads & Hrest & _).
  exists reads, rest. split; [exact Hissued|]. split; [exact Hreads|exact Hrest].
Defined.
